(** * nxclaw: a shallow embedding of the runtime's core components

    The development follows the JavaScript sources component by component:

    - [JsString]: the string primitives the sources rely on ([trim],
      [toLowerCase], [split], [startsWith], ...);
    - [ObjectiveQueue]: [ObjectiveQueue.add] (memory/objective queue file);
    - [LaneQueue]: the per-lane promise chain of [lane-queue.js];
    - [RuntimeEventBus]: the buffer and the events file of the event bus;
    - [AutonomousLoop]: [tick] and [applyConfig] of the autonomous loop;
    - [BackgroundTaskManager]: the task supervisor of [background-manager.js];
    - [Digest]: SHA-1 and SHA-256 as [node:crypto] computes them;
    - [MemoryStore]: chunking, embedding, search and the raw conversation log.

    JavaScript strings are modelled as Rocq [string]s whose characters stand
    for UTF-16 code units in the Latin-1 range (0..255); numbers that the
    code only counts with are [Z] or [nat], the numbers it scores with are
    binary64 [float]s; timestamps are milliseconds since the epoch. *)

From stdpp Require Import gmap strings list.
From Stdlib Require Import ZArith Ascii Floats Lia.

Set Warnings "-inexact-float".
Local Open Scope string_scope.
Local Open Scope list_scope.
Local Open Scope Z_scope.

(** Outcome of a JavaScript call that may [throw] an error of type [E]. *)
Inductive result (E A : Type) : Type :=
  | Ok (a : A)
  | Throw (e : E).
Arguments Ok {E A} a.
Arguments Throw {E A} e.

(* ===================================================================== *)
(** ** JavaScript string primitives *)
(* ===================================================================== *)
Module JsString.

(** [WhiteSpace] and [LineTerminator] code units below 256: TAB, LF, VT,
    FF, CR, SPACE and NO-BREAK SPACE.  These are what [trim] strips and
    what the regular expression class [\s] matches. *)
Definition is_space (c : ascii) : bool :=
  let n := nat_of_ascii c in
  ((9 <=? n) && (n <=? 13) || (n =? 32) || (n =? 160))%nat.

Fixpoint trimStart (s : string) : string :=
  match s with
  | EmptyString => EmptyString
  | String c rest => if is_space c then trimStart rest else s
  end.

(** [trimEnd] written by structural recursion: a character is kept when it
    is not a space or when something remains after it. *)
Fixpoint trimEnd (s : string) : string :=
  match s with
  | EmptyString => EmptyString
  | String c rest =>
      match trimEnd rest with
      | EmptyString => if is_space c then EmptyString else String c EmptyString
      | kept => String c kept
      end
  end.

Definition trim (s : string) : string := trimEnd (trimStart s).

(** JavaScript truthiness of a string: the empty string is falsy. *)
Definition truthy (s : string) : bool :=
  match s with EmptyString => false | _ => true end.

(** [String.prototype.toLowerCase] on Latin-1 code units: A-Z and the
    accented capitals U+00C0..U+00DE (except the multiplication sign). *)
Definition lower_char (c : ascii) : ascii :=
  let n := nat_of_ascii c in
  if ((65 <=? n) && (n <=? 90))%nat then ascii_of_nat (n + 32)
  else if ((192 <=? n) && (n <=? 222) && negb (n =? 215))%nat then ascii_of_nat (n + 32)
  else c.

Fixpoint toLowerCase (s : string) : string :=
  match s with
  | EmptyString => EmptyString
  | String c rest => String (lower_char c) (toLowerCase rest)
  end.

Fixpoint startsWith (s p : string) : bool :=
  match p, s with
  | EmptyString, _ => true
  | String _ _, EmptyString => false
  | String a p', String b s' => if Ascii.eqb a b then startsWith s' p' else false
  end.

Fixpoint includes (s p : string) : bool :=
  startsWith s p ||
  match s with
  | EmptyString => false
  | String _ rest => includes rest p
  end.

Definition drop (n : nat) (s : string) : string :=
  String.substring n (String.length s - n) s.

Definition endsWith (s p : string) : bool :=
  (String.length p <=? String.length s)%nat &&
  String.eqb (drop (String.length s - String.length p) s) p.

(** [s.split(sep)] for a one-character separator.  The result always has
    at least one element. *)
Fixpoint splitChar (sep : ascii) (s : string) : list string :=
  match s with
  | EmptyString => [EmptyString]
  | String c rest =>
      if Ascii.eqb c sep then EmptyString :: splitChar sep rest
      else match splitChar sep rest with
           | [] => [String c EmptyString]
           | first :: others => String c first :: others
           end
  end.

Definition newline : ascii := ascii_of_nat 10.

Definition splitLines (s : string) : list string := splitChar newline s.

(** [lines.join("\n")] *)
Fixpoint joinLines (lines : list string) : string :=
  match lines with
  | [] => EmptyString
  | [l] => l
  | l :: rest => l +:+ String newline (joinLines rest)
  end.

(** [s.replace(/\s+/g, " ")]: every maximal run of white space becomes one
    space.  [in_run] tells whether the previous character was a space. *)
Fixpoint collapseSpacesFrom (in_run : bool) (s : string) : string :=
  match s with
  | EmptyString => EmptyString
  | String c rest =>
      if is_space c
      then if in_run then collapseSpacesFrom true rest
           else String " " (collapseSpacesFrom true rest)
      else String c (collapseSpacesFrom false rest)
  end.

Definition collapseSpaces (s : string) : string := collapseSpacesFrom false s.

(** [trim] leaves a trimmed string as it is. *)

Definition startsClean (s : string) : Prop :=
  match s with
  | EmptyString => True
  | String c _ => is_space c = false
  end.

Lemma trimStart_startsClean s : startsClean (trimStart s).
Proof.
  induction s as [|c rest IH]; [exact I|].
  cbn [trimStart]. destruct (is_space c) eqn:E; [exact IH | exact E].
Qed.

Lemma trimStart_clean s : startsClean s -> trimStart s = s.
Proof. destruct s as [|c rest]; [reflexivity|]. cbn. now intros ->. Qed.

Lemma trimEnd_startsClean s : startsClean s -> startsClean (trimEnd s).
Proof.
  destruct s as [|c rest]; [exact (fun H => H)|]. cbn [startsClean trimEnd].
  intros E. destruct (trimEnd rest); [rewrite E|]; exact E.
Qed.

Lemma trimEnd_trimEnd s : trimEnd (trimEnd s) = trimEnd s.
Proof.
  induction s as [|c rest IH]; [reflexivity|].
  cbn [trimEnd]. destruct (trimEnd rest) as [|k kept] eqn:E.
  - destruct (is_space c) eqn:Ec; [reflexivity|]. cbn [trimEnd]. now rewrite Ec.
  - cbn [trimEnd]. cbn [trimEnd] in IH. now rewrite IH.
Qed.

Lemma trim_trim s : trim (trim s) = trim s.
Proof.
  unfold trim.
  rewrite (trimStart_clean (trimEnd (trimStart s)))
    by apply trimEnd_startsClean, trimStart_startsClean.
  apply trimEnd_trimEnd.
Qed.

Lemma truthy_nonempty s : s <> "" -> truthy s = true.
Proof. destruct s; [congruence | reflexivity]. Qed.

End JsString.

(* ===================================================================== *)
(** ** Objective queue ([ObjectiveQueue] of the objective store) *)
(* ===================================================================== *)
Module ObjectiveQueue.
Import JsString.

Inductive Status := pending | in_progress | blocked | completed | failed | cancelled.

Record Note := mkNote { note_at : Z; note_text : string }.

Record Objective := mkObjective {
  id : string;
  title : string;
  description : string;
  priority : Z;
  status : Status;
  source : string;
  createdAt : Z;
  updatedAt : Z;
  runCount : nat;
  lastRunAt : option Z;
  notes : list Note;
}.

(** The queue object: [this.objectives] and the contents of the JSON file
    at [this.path] ([None] while the file does not exist). *)
Record Queue := mkQueue {
  objectives : list Objective;
  file : option (list Objective);
}.

(** [persist()]: [writeJson(this.path, { objectives: this.objectives })]. *)
Definition persist (q : Queue) : Queue :=
  {| objectives := objectives q; file := Some (objectives q) |}.

(** Arguments of [add({ title, description = "", priority = 3, source = "manual" })].
    [None] stands for an absent ([undefined]/[null]) property; for
    [priority] it also stands for a value that is not a finite number. *)
Record AddArgs := mkAddArgs {
  arg_title : option string;
  arg_description : option string;
  arg_priority : option Z;
  arg_source : option string;
}.

(** [add]: [uuid] is the value of [crypto.randomUUID()], [t_created] and
    [t_updated] the two readings of [now()]. *)
Definition add (args : AddArgs) (uuid : string) (t_created t_updated : Z) (q : Queue)
  : result string Objective * Queue :=
  let objective :=
    {| id := uuid;
       title := trim (default "" (arg_title args));
       description := trim (default "" (arg_description args));
       priority := default 3 (arg_priority args);
       status := pending;
       source := default "manual" (arg_source args);
       createdAt := t_created;
       updatedAt := t_updated;
       runCount := 0;
       lastRunAt := None;
       notes := [] |} in
  if negb (truthy (title objective)) then
    (Throw "Objective title is required", q)
  else
    let q1 := {| objectives := objectives q ++ [objective]; file := file q |} in
    (Ok objective, persist q1).

(** *** Properties of [add] *)

(** C10. [add] with a title that trims to the empty string throws
    "Objective title is required" and leaves both the in-memory list and
    the objectives file as they were; with any other title it appends
    exactly one objective (status pending, runCount 0, no notes) at the end
    of the list and then writes the extended list to the file. *)
Theorem add_title_required_or_appends_one :
  forall args uuid tc tu q,
    (trim (default "" (arg_title args)) = "" /\
     add args uuid tc tu q = (Throw "Objective title is required", q))
    \/
    (trim (default "" (arg_title args)) <> "" /\
     exists o,
       add args uuid tc tu q =
         (Ok o, {| objectives := objectives q ++ [o];
                   file := Some (objectives q ++ [o]) |}) /\
       id o = uuid /\
       title o = trim (default "" (arg_title args)) /\
       status o = pending /\ runCount o = 0%nat /\ notes o = []).
Proof.
  intros args uuid tc tu q.
  unfold add; cbn [title].
  destruct (trim (default "" (arg_title args))) eqn:Ht; cbn [truthy negb].
  - left; split; reflexivity.
  - right; split; [discriminate|].
    eexists; split; [reflexivity|]. cbn. repeat split; reflexivity.
Qed.

(** *** The other operations of the queue *)

(** [normalizeStatus(value)]; an absent value is the empty string. *)
Definition normalizeStatus (value : string) : Status :=
  let normalized := toLowerCase (trim value) in
  if String.eqb normalized "pending" then pending
  else if String.eqb normalized "in_progress" then in_progress
  else if String.eqb normalized "blocked" then blocked
  else if String.eqb normalized "completed" then completed
  else if String.eqb normalized "failed" then failed
  else if String.eqb normalized "cancelled" then cancelled
  else pending.

(** [FINAL_STATUSES.has(status)] *)
Definition isFinal (s : Status) : bool :=
  match s with
  | completed | failed | cancelled => true
  | _ => false
  end.

#[global] Instance Status_eq_dec : EqDecision Status.
Proof. solve_decision. Defined.

Definition hasStatus (s : Status) (o : Objective) : bool := bool_decide (status o = s).

(** [getById(id)]: the first objective with this id. *)
Definition getById (wanted : string) (q : Queue) : option Objective :=
  List.find (fun item => String.eqb (id item) wanted) (objectives q).

(** An assignment to fields of the object [getById] returns: the first
    objective with the id is replaced, the list shares the object. *)
Fixpoint modify (wanted : string) (f : Objective -> Objective) (l : list Objective)
    : list Objective :=
  match l with
  | [] => []
  | item :: rest =>
      if String.eqb (id item) wanted then f item :: rest
      else item :: modify wanted f rest
  end.

(** [list.sort(compare)] as a stable insertion sort; [compare a b] is
    negative when [a] goes first. *)
Fixpoint insertBy {A} (compare : A -> A -> Z) (x : A) (sorted : list A) : list A :=
  match sorted with
  | [] => [x]
  | y :: rest =>
      if compare y x <? 0 then y :: insertBy compare x rest else x :: sorted
  end.

Definition sortBy {A} (compare : A -> A -> Z) (l : list A) : list A :=
  fold_right (insertBy compare) [] l.

(** [a.localeCompare(b)] on two renderings of [toISOString]: the order of
    the times. *)
Definition localeCompare (a b : Z) : Z :=
  if a <? b then -1 else if b <? a then 1 else 0.

(** [pickForAutonomous()] *)
Definition pickForAutonomous (q : Queue) : option Objective :=
  let inProgress :=
    sortBy (fun a b => localeCompare (updatedAt a) (updatedAt b))
           (List.filter (hasStatus in_progress) (objectives q)) in
  match inProgress with
  | first :: _ => Some first
  | [] =>
      head (sortBy (fun a b =>
                      if priority a - priority b =? 0
                      then localeCompare (createdAt a) (createdAt b)
                      else priority a - priority b)
                   (List.filter (hasStatus pending) (objectives q)))
  end.

(** [markPicked(id)]; [t_updated] and [t_run] are the readings of [now()]. *)
Definition markPicked (wanted : string) (t_updated t_run : Z) (q : Queue)
    : option Objective * Queue :=
  match getById wanted q with
  | None => (None, q)
  | Some objective =>
      if isFinal (status objective) then (Some objective, q)
      else
        let picked (o : Objective) :=
          mkObjective (id o) (title o) (description o) (priority o) in_progress (source o)
            (createdAt o) t_updated (S (runCount o)) (Some t_run) (notes o) in
        (Some (picked objective),
         persist (mkQueue (modify wanted picked (objectives q)) (file q)))
  end.

(** [update({ id, status, notes })]; an absent [status] or [notes] is the
    empty string. *)
Definition update (wanted status notes : string) (t_updated t_note : Z) (q : Queue)
    : result string Objective * Queue :=
  match getById wanted q with
  | None => (Throw ("Objective not found: " +:+ wanted), q)
  | Some objective =>
      let updated (o : Objective) :=
        mkObjective (id o) (title o) (description o) (priority o) (normalizeStatus status)
          (source o) (createdAt o) t_updated (runCount o) (lastRunAt o)
          (if truthy notes && truthy (trim notes)
           then ObjectiveQueue.notes o ++ [mkNote t_note (trim notes)]
           else ObjectiveQueue.notes o) in
      (Ok (updated objective),
       persist (mkQueue (modify wanted updated (objectives q)) (file q)))
  end.

(** The tally [stats()] returns. *)
Record Tally := mkTally {
  n_pending : nat;
  n_in_progress : nat;
  n_blocked : nat;
  n_completed : nat;
  n_failed : nat;
  n_cancelled : nat;
  total : nat;
}.

Definition count (s : Status) (tally : Tally) : Tally :=
  match s with
  | pending => mkTally (S (n_pending tally)) (n_in_progress tally) (n_blocked tally)
                 (n_completed tally) (n_failed tally) (n_cancelled tally) (total tally)
  | in_progress => mkTally (n_pending tally) (S (n_in_progress tally)) (n_blocked tally)
                     (n_completed tally) (n_failed tally) (n_cancelled tally) (total tally)
  | blocked => mkTally (n_pending tally) (n_in_progress tally) (S (n_blocked tally))
                 (n_completed tally) (n_failed tally) (n_cancelled tally) (total tally)
  | completed => mkTally (n_pending tally) (n_in_progress tally) (n_blocked tally)
                   (S (n_completed tally)) (n_failed tally) (n_cancelled tally) (total tally)
  | failed => mkTally (n_pending tally) (n_in_progress tally) (n_blocked tally)
                (n_completed tally) (S (n_failed tally)) (n_cancelled tally) (total tally)
  | cancelled => mkTally (n_pending tally) (n_in_progress tally) (n_blocked tally)
                   (n_completed tally) (n_failed tally) (S (n_cancelled tally)) (total tally)
  end.

(** [stats()] *)
Definition stats (q : Queue) : Tally :=
  fold_left (fun tally item => count (status item) tally) (objectives q)
            (mkTally 0 0 0 0 0 0 (length (objectives q))).

Definition hourMs : Z := 60 * 60 * 1000.

(** The cut-off in milliseconds for a limit given in whole hours; [0] when
    the limit is not positive. *)
Definition cutoffMs (hours : Z) : Z := if 0 <? hours then hours * hourMs else 0.

(** [Math.round(a / c)] for [c > 0]: halves go up. *)
Definition roundDiv (a c : Z) : Z := (2 * a + c) / (2 * c).

Record Change := mkChange {
  change_id : string;
  change_status : Status;
  change_reason : string;
}.

Record Expired := mkExpired {
  changedCount : nat;
  changed : list Change;
  pendingMaxAgeHours : option Z;
  inProgressMaxIdleHours : option Z;
}.

(** The decimal digits of [n], in front of [acc]. *)
Fixpoint showDigits (fuel : nat) (n : Z) (acc : string) : string :=
  match fuel with
  | O => acc
  | S fuel' =>
      let acc := String (ascii_of_nat (48 + Z.to_nat (n mod 10))) acc in
      if n / 10 =? 0 then acc else showDigits fuel' (n / 10) acc
  end.

(** An integer in a template string. *)
Definition showZ (n : Z) : string :=
  if n <? 0 then "-" +:+ showDigits (S (Z.to_nat (Z.log2 (- n)))) (- n) ""
  else showDigits (S (Z.to_nat (Z.log2 n))) n "".

Definition staleText (what unit : string) (ms cutoff : Z) : string :=
  what +:+ " (" +:+ unit +:+ "=" +:+ showZ (roundDiv ms hourMs) +:+ "h > "
  +:+ showZ (roundDiv cutoff hourMs) +:+ "h)".

Definition expire (to : Status) (text : string) (stamp : Z) (o : Objective) : Objective :=
  mkObjective (id o) (title o) (description o) (priority o) to (source o)
    (createdAt o) stamp (runCount o) (lastRunAt o) (notes o ++ [mkNote stamp text]).

(** The body of the loop of [expireStale] for one objective; [stamp] is
    what [now()] reads. *)
Definition expireOne (pendingCutoffMs inProgressIdleCutoffMs nowMs stamp : Z) (o : Objective)
    : Objective * list Change :=
  if isFinal (status o) then (o, [])
  else if hasStatus pending o && (0 <? pendingCutoffMs) then
    let ageMs := nowMs - Z.max (createdAt o) (updatedAt o) in
    if pendingCutoffMs <? ageMs
    then (expire cancelled
            (staleText "auto-cancelled stale pending objective" "age" ageMs pendingCutoffMs)
            stamp o,
          [mkChange (id o) cancelled "pending_too_old"])
    else (o, [])
  else if hasStatus in_progress o && (0 <? inProgressIdleCutoffMs) then
    let idleBaseMs :=
      Z.max (Z.max (default 0 (lastRunAt o)) (updatedAt o)) (createdAt o) in
    let idleMs := nowMs - idleBaseMs in
    if inProgressIdleCutoffMs <? idleMs
    then (expire blocked
            (staleText "auto-blocked stale in_progress objective" "idle" idleMs
               inProgressIdleCutoffMs)
            stamp o,
          [mkChange (id o) blocked "in_progress_idle_too_long"])
    else (o, [])
  else (o, []).

(** [expireStale({ pendingMaxAgeHours, inProgressMaxIdleHours })] for
    limits in whole hours. *)
Definition expireStale (pendingHours inProgressHours nowMs stamp : Z) (q : Queue)
    : Expired * Queue :=
  let pendingCutoffMs := cutoffMs pendingHours in
  let inProgressIdleCutoffMs := cutoffMs inProgressHours in
  let results :=
    map (expireOne pendingCutoffMs inProgressIdleCutoffMs nowMs stamp) (objectives q) in
  let changed := concat (map snd results) in
  let q1 := mkQueue (map fst results) (file q) in
  (mkExpired (length changed) changed
     (if 0 <? pendingCutoffMs then Some (roundDiv pendingCutoffMs hourMs) else None)
     (if 0 <? inProgressIdleCutoffMs then Some (roundDiv inProgressIdleCutoffMs hourMs)
      else None),
   match changed with [] => q1 | _ :: _ => persist q1 end).

Lemma expireStale_example :
  let old := mkObjective "o1" "write docs" "" 3 pending "manual" 0 0 0 None [] in
  let busy := mkObjective "o2" "ship" "" 1 in_progress "manual" 0 (400 * hourMs) 1
                (Some (400 * hourMs)) [] in
  let '(report, q) := expireStale 336 72 (500 * hourMs) (500 * hourMs) (mkQueue [old; busy] None) in
  changed report = [mkChange "o1" cancelled "pending_too_old";
                    mkChange "o2" blocked "in_progress_idle_too_long"] /\
  map (fun o => map note_text (notes o)) (objectives q)
  = [["auto-cancelled stale pending objective (age=500h > 336h)"];
     ["auto-blocked stale in_progress objective (idle=100h > 72h)"]] /\
  file q = Some (objectives q).
Proof. vm_compute. repeat split. Qed.

(** *** Looking up after an assignment *)

Lemma getById_modify_same wanted f l :
  (forall o, id (f o) = id o) ->
  List.find (fun item => String.eqb (id item) wanted) (modify wanted f l)
  = option_map f (List.find (fun item => String.eqb (id item) wanted) l).
Proof.
  intros Hid. induction l as [|item rest IH]; [reflexivity|].
  cbn [modify List.find]. destruct (String.eqb (id item) wanted) eqn:E.
  - cbn [List.find]. now rewrite Hid, E.
  - cbn [List.find]. now rewrite E.
Qed.

Lemma getById_modify_other wanted other f l :
  (forall o, id (f o) = id o) -> other <> wanted ->
  List.find (fun item => String.eqb (id item) other) (modify wanted f l)
  = List.find (fun item => String.eqb (id item) other) l.
Proof.
  intros Hid Hne. induction l as [|item rest IH]; [reflexivity|].
  cbn [modify List.find]. destruct (String.eqb (id item) wanted) eqn:E.
  - cbn [List.find]. rewrite Hid. apply String.eqb_eq in E.
    assert (En : String.eqb (id item) other = false).
    { apply String.eqb_neq. congruence. }
    now rewrite En.
  - cbn [List.find]. now rewrite IH.
Qed.

Lemma modify_length wanted f l : length (modify wanted f l) = length l.
Proof.
  induction l as [|item rest IH]; [reflexivity|].
  cbn [modify]. destruct (String.eqb (id item) wanted); cbn; congruence.
Qed.

(** [update] throws on an id the queue does not hold and then changes
    nothing.  On an id it holds, the first objective with that id gets the
    normalised status (so [pending] for an absent or unknown one), the new
    time and, when the trimmed note is not empty, one more note; a lookup
    by the id then returns the updated objective, every other lookup is as
    before, and the list has been written to the file. *)
Theorem update_throws_on_unknown_id_else_sets_status :
  forall wanted status notes t_updated t_note q,
    (getById wanted q = None /\
     update wanted status notes t_updated t_note q
     = (Throw ("Objective not found: " +:+ wanted), q))
    \/
    (exists o o' q',
       getById wanted q = Some o /\
       update wanted status notes t_updated t_note q = (Ok o', q') /\
       ObjectiveQueue.status o' = normalizeStatus status /\
       updatedAt o' = t_updated /\
       (id o', title o', description o', priority o', createdAt o', runCount o', lastRunAt o')
       = (id o, title o, description o, priority o, createdAt o, runCount o, lastRunAt o) /\
       ObjectiveQueue.notes o'
       = (if truthy (trim notes) then ObjectiveQueue.notes o ++ [mkNote t_note (trim notes)]
          else ObjectiveQueue.notes o) /\
       getById wanted q' = Some o' /\
       (forall other, other <> wanted -> getById other q' = getById other q) /\
       length (objectives q') = length (objectives q) /\
       file q' = Some (objectives q')).
Proof.
  intros wanted status notes t_updated t_note q. unfold update.
  destruct (getById wanted q) as [o|] eqn:E; [right | left; now split].
  eexists o, _, _. split; [reflexivity|]. split; [reflexivity|].
  cbn [ObjectiveQueue.status updatedAt id title description priority createdAt runCount
       lastRunAt ObjectiveQueue.notes persist objectives file].
  split; [reflexivity|]. split; [reflexivity|]. split; [reflexivity|].
  split.
  { destruct notes as [|c rest]; [reflexivity|]. cbn [truthy andb]. reflexivity. }
  split.
  { unfold getById, persist in *. cbn [objectives].
    rewrite getById_modify_same by reflexivity. now rewrite E. }
  split.
  { intros other Hne. unfold getById, persist. cbn [objectives].
    now apply getById_modify_other. }
  split; [unfold persist; cbn [objectives]; apply modify_length | reflexivity].
Qed.

(** [markPicked] returns [null] for an id the queue does not hold and
    returns a completed, failed or cancelled objective as it is, in both
    cases without touching the queue or the file.  Any other objective
    becomes [in_progress] with one more run counted, and is what a lookup
    by the id returns afterwards. *)
Theorem markPicked_never_reopens_a_final_objective :
  forall wanted t_updated t_run q,
    (getById wanted q = None /\ markPicked wanted t_updated t_run q = (None, q))
    \/
    (exists o,
       getById wanted q = Some o /\ isFinal (ObjectiveQueue.status o) = true /\
       markPicked wanted t_updated t_run q = (Some o, q))
    \/
    (exists o o' q',
       getById wanted q = Some o /\ isFinal (ObjectiveQueue.status o) = false /\
       markPicked wanted t_updated t_run q = (Some o', q') /\
       ObjectiveQueue.status o' = in_progress /\
       runCount o' = S (runCount o) /\
       lastRunAt o' = Some t_run /\ updatedAt o' = t_updated /\
       (id o', title o', priority o', createdAt o', ObjectiveQueue.notes o')
       = (id o, title o, priority o, createdAt o, ObjectiveQueue.notes o) /\
       getById wanted q' = Some o' /\
       (forall other, other <> wanted -> getById other q' = getById other q) /\
       file q' = Some (objectives q')).
Proof.
  intros wanted t_updated t_run q. unfold markPicked.
  destruct (getById wanted q) as [o|] eqn:E; [|left; now split].
  right. destruct (isFinal (ObjectiveQueue.status o)) eqn:F.
  - left. exists o. now repeat split.
  - right. eexists o, _, _. split; [reflexivity|]. split; [exact F|].
    split; [reflexivity|]. cbn [ObjectiveQueue.status runCount lastRunAt updatedAt].
    do 5 (split; [reflexivity|]). split.
    { unfold getById, persist in *. cbn [objectives].
      rewrite getById_modify_same by reflexivity. now rewrite E. }
    split; [|reflexivity].
    intros other Hne. unfold getById, persist. cbn [objectives].
    now apply getById_modify_other.
Qed.

Lemma find_app_None {A} (p : A -> bool) (l : list A) (x : A) :
  List.find p l = None -> List.find p (l ++ [x]) = (if p x then Some x else None).
Proof.
  induction l as [|y l IH]; cbn [List.find app]; [reflexivity|].
  destruct (p y); [discriminate | exact IH].
Qed.

Lemma find_app_Some {A} (p : A -> bool) (l : list A) (x y : A) :
  List.find p l = Some y -> List.find p (l ++ [x]) = Some y.
Proof.
  induction l as [|z l IH]; cbn [List.find app]; [discriminate|].
  destruct (p z); [exact (fun H => H) | exact IH].
Qed.

(** An objective added under an id the queue does not hold yet is what
    [getById] returns for that id; an id the queue already holds still finds
    the older objective, and lookups of other ids are unchanged. *)
Theorem add_then_getById :
  forall args uuid tc tu q o q',
    add args uuid tc tu q = (Ok o, q') ->
    (getById uuid q = None -> getById uuid q' = Some o) /\
    (forall older, getById uuid q = Some older -> getById uuid q' = Some older) /\
    (forall other, other <> uuid -> getById other q' = getById other q).
Proof.
  intros args uuid tc tu q o q'. unfold add. cbn [title].
  destruct (negb _); [discriminate|]. intros [= <- <-].
  unfold getById, persist. cbn [objectives id]. split; [|split].
  - intros H. rewrite (find_app_None _ _ _ H). cbn [id]. now rewrite String.eqb_refl.
  - intros older H. now apply find_app_Some.
  - intros other Hne.
    destruct (List.find (fun item => String.eqb (id item) other) (objectives q)) as [y|] eqn:E.
    + now apply find_app_Some.
    + rewrite (find_app_None _ _ _ E). cbn [id].
      assert (En : String.eqb uuid other = false) by (apply String.eqb_neq; congruence).
      now rewrite En.
Qed.

Lemma add_then_getById_witness :
  exists o q',
    add (mkAddArgs (Some " ship it ") None None None) "o1" 10 10 (mkQueue [] None) = (Ok o, q') /\
    getById "o1" q' = Some o /\ title o = "ship it".
Proof.
  eexists _, _. split; [reflexivity|].
  split; [|reflexivity].
  refine (proj1 (add_then_getById (mkAddArgs (Some " ship it ") None None None) "o1" 10 10
                   (mkQueue [] None) _ _ eq_refl) eq_refl).
Defined.

(** *** The tally *)

Definition countOf (s : Status) (l : list Objective) : nat :=
  length (List.filter (hasStatus s) l).

Definition tallied (l : list Objective) (base tally : Tally) : Prop :=
  n_pending tally = (n_pending base + countOf pending l)%nat /\
  n_in_progress tally = (n_in_progress base + countOf in_progress l)%nat /\
  n_blocked tally = (n_blocked base + countOf blocked l)%nat /\
  n_completed tally = (n_completed base + countOf completed l)%nat /\
  n_failed tally = (n_failed base + countOf failed l)%nat /\
  n_cancelled tally = (n_cancelled base + countOf cancelled l)%nat /\
  total tally = total base.

Lemma countOf_cons s item rest :
  countOf s (item :: rest)
  = ((if bool_decide (status item = s) then 1 else 0) + countOf s rest)%nat.
Proof.
  unfold countOf. cbn [List.filter]. unfold hasStatus at 1.
  destruct (bool_decide (status item = s)); reflexivity.
Qed.

Lemma tally_fold l :
  forall base,
    tallied l base (fold_left (fun tally item => count (status item) tally) l base).
Proof.
  induction l as [|item rest IH]; intros base; cbn [fold_left].
  - unfold tallied, countOf. cbn. repeat split; lia.
  - specialize (IH (count (status item) base)). unfold tallied in *.
    rewrite !countOf_cons.
    destruct (status item); cbn [count n_pending n_in_progress n_blocked n_completed
                                   n_failed n_cancelled total] in *;
      simpl bool_decide;
      destruct IH as (H1 & H2 & H3 & H4 & H5 & H6 & H7); repeat split; lia.
Qed.

Lemma countOf_sum l :
  (countOf pending l + countOf in_progress l + countOf blocked l
   + countOf completed l + countOf failed l + countOf cancelled l)%nat = length l.
Proof.
  induction l as [|item rest IH]; [reflexivity|].
  rewrite !countOf_cons. destruct (status item); simpl bool_decide; cbn [length]; lia.
Qed.

(** [stats()] counts every objective once: each of the six tallies is the
    number of objectives with that status, and together they make up
    [total], the length of the list. *)
Theorem stats_counts_every_objective_once :
  forall q,
    let tally := stats q in
    n_pending tally = countOf pending (objectives q) /\
    n_in_progress tally = countOf in_progress (objectives q) /\
    n_blocked tally = countOf blocked (objectives q) /\
    n_completed tally = countOf completed (objectives q) /\
    n_failed tally = countOf failed (objectives q) /\
    n_cancelled tally = countOf cancelled (objectives q) /\
    total tally = length (objectives q) /\
    (n_pending tally + n_in_progress tally + n_blocked tally
     + n_completed tally + n_failed tally + n_cancelled tally)%nat = total tally.
Proof.
  intros q tally. subst tally. unfold stats.
  destruct (tally_fold (objectives q) (mkTally 0 0 0 0 0 0 (length (objectives q))))
    as (H1 & H2 & H3 & H4 & H5 & H6 & H7).
  cbn [n_pending n_in_progress n_blocked n_completed n_failed n_cancelled total] in *.
  pose proof (countOf_sum (objectives q)).
  repeat split; lia.
Qed.

(** *** The first element of a sorted list *)

Section SortHead.
Context {A : Type}.
Variable compare : A -> A -> Z.

(** [before a b]: the comparison puts [a] strictly before [b]. *)
Definition before (a b : A) : Prop := compare a b < 0.

Hypothesis before_asym : forall a b, before a b -> ~ before b a.
Hypothesis before_cotrans : forall a b c, before a c -> before a b \/ before b c.

Lemma insertBy_elem x y sorted : y ∈ insertBy compare x sorted <-> y = x \/ y ∈ sorted.
Proof.
  induction sorted as [|z rest IH]; cbn [insertBy].
  - rewrite list_elem_of_singleton. split; [now left | intros [?|H]; [assumption | inversion H]].
  - destruct (compare z x <? 0).
    + rewrite !elem_of_cons, IH. tauto.
    + rewrite !elem_of_cons. tauto.
Qed.

Lemma sortBy_elem y l : y ∈ sortBy compare l <-> y ∈ l.
Proof.
  induction l as [|x rest IH]; cbn [sortBy fold_right]; [reflexivity|].
  fold (sortBy compare rest). rewrite insertBy_elem, elem_of_cons, IH. reflexivity.
Qed.

Lemma sortBy_head_least l first :
  head (sortBy compare l) = Some first ->
  first ∈ l /\ forall other, other ∈ l -> ~ before other first.
Proof using before_asym before_cotrans.
  revert first. induction l as [|x rest IH]; intros first; cbn [sortBy fold_right];
    [discriminate|].
  fold (sortBy compare rest).
  destruct (sortBy compare rest) as [|y sorted] eqn:E; cbn [insertBy head].
  - intros [= <-]. split; [left|].
    intros other Hin. apply elem_of_cons in Hin. destruct Hin as [->|Hin].
    + intros H. exact (before_asym _ _ H H).
    + apply (sortBy_elem other rest) in Hin. rewrite E in Hin. inversion Hin.
  - destruct (IH y eq_refl) as [Hy Hmin].
    destruct (compare y x <? 0) eqn:C; cbn [head]; intros [= <-].
    + apply Z.ltb_lt in C. split; [now right|].
      intros other Hin. apply elem_of_cons in Hin. destruct Hin as [->|Hin].
      * now apply before_asym.
      * now apply Hmin.
    + apply Z.ltb_ge in C. split; [left|].
      intros other Hin. apply elem_of_cons in Hin. destruct Hin as [->|Hin].
      * intros H. exact (before_asym _ _ H H).
      * intros H. destruct (before_cotrans _ y _ H) as [H1|H1].
        -- exact (Hmin other Hin H1).
        -- unfold before in H1. lia.
Qed.
End SortHead.

Ltac cases_ltb :=
  repeat match goal with
         | |- context [Z.ltb ?a ?b] => destruct (Z.ltb_spec a b)
         | H : context [Z.ltb ?a ?b] |- _ => destruct (Z.ltb_spec a b)
         end.

Lemma filter_status_elem s o l :
  o ∈ List.filter (hasStatus s) l <-> o ∈ l /\ status o = s.
Proof.
  rewrite !list_elem_of_In, filter_In. unfold hasStatus.
  rewrite bool_decide_eq_true. reflexivity.
Qed.

(** [pickForAutonomous] prefers work in progress: whenever an objective is
    [in_progress] it returns one of those, the one updated longest ago.
    Otherwise it returns a pending objective of the smallest priority
    number, the oldest among equals.  It returns [null] only when nothing
    is pending or in progress. *)
Theorem pickForAutonomous_prefers_in_progress_then_priority :
  forall q,
    match pickForAutonomous q with
    | Some o =>
        o ∈ objectives q /\
        ((status o = in_progress /\
          forall other, other ∈ objectives q -> status other = in_progress ->
            updatedAt o <= updatedAt other)
         \/
         (status o = pending /\
          (forall other, other ∈ objectives q -> status other <> in_progress) /\
          forall other, other ∈ objectives q -> status other = pending ->
            priority o < priority other \/
            (priority o = priority other /\ createdAt o <= createdAt other)))
    | None =>
        forall other, other ∈ objectives q ->
          status other <> in_progress /\ status other <> pending
    end.
Proof.
  intros q. unfold pickForAutonomous.
  set (byUpdate := fun a b : Objective => localeCompare (updatedAt a) (updatedAt b)).
  set (byPriority := fun a b : Objective =>
         if priority a - priority b =? 0 then localeCompare (createdAt a) (createdAt b)
         else priority a - priority b).
  assert (noProgress :
    sortBy byUpdate (List.filter (hasStatus in_progress) (objectives q)) = [] ->
    forall other, other ∈ objectives q -> status other <> in_progress).
  { intros E other Hin Hs.
    assert (H : other ∈ sortBy byUpdate (List.filter (hasStatus in_progress) (objectives q)))
      by (apply sortBy_elem, filter_status_elem; now split).
    rewrite E in H. inversion H. }
  destruct (sortBy byUpdate _) as [|first rest] eqn:E.
  - destruct (head (sortBy byPriority _)) as [o|] eqn:E2.
    + apply (sortBy_head_least byPriority) in E2.
      * destruct E2 as [Hin Hmin]. apply filter_status_elem in Hin. destruct Hin as [Hin Hs].
        split; [exact Hin|]. right. split; [exact Hs|]. split; [now apply noProgress|].
        intros other Ho Hso.
        specialize (Hmin other (proj2 (filter_status_elem _ _ _) (conj Ho Hso))).
        unfold before, byPriority, localeCompare in Hmin.
        destruct (Z.eqb_spec (priority other - priority o) 0);
          repeat match type of Hmin with
                 | context [Z.ltb ?a ?b] => destruct (Z.ltb_spec a b)
                 end; lia.
      * intros a b. unfold before, byPriority, localeCompare.
        destruct (Z.eqb_spec (priority a - priority b) 0);
          destruct (Z.eqb_spec (priority b - priority a) 0);
          cases_ltb; lia.
      * intros a b c. unfold before, byPriority, localeCompare.
        destruct (Z.eqb_spec (priority a - priority c) 0);
          destruct (Z.eqb_spec (priority a - priority b) 0);
          destruct (Z.eqb_spec (priority b - priority c) 0);
          cases_ltb; lia.
    + intros other Hin. split; [now apply noProgress|]. intros Hs.
      assert (H : other ∈ sortBy byPriority (List.filter (hasStatus pending) (objectives q)))
        by (apply sortBy_elem, filter_status_elem; now split).
      destruct (sortBy byPriority _); [inversion H | discriminate].
  - assert (E1 : head (sortBy byUpdate (List.filter (hasStatus in_progress) (objectives q)))
                 = Some first) by now rewrite E.
    apply (sortBy_head_least byUpdate) in E1.
    + destruct E1 as [Hin Hmin]. apply filter_status_elem in Hin. destruct Hin as [Hin Hs].
      split; [exact Hin|]. left. split; [exact Hs|].
      intros other Ho Hso.
      specialize (Hmin other (proj2 (filter_status_elem _ _ _) (conj Ho Hso))).
      unfold before, byUpdate, localeCompare in Hmin.
      repeat match type of Hmin with
             | context [Z.ltb ?a ?b] => destruct (Z.ltb_spec a b)
             end; lia.
    + intros a b. unfold before, byUpdate, localeCompare.
      cases_ltb; lia.
    + intros a b c. unfold before, byUpdate, localeCompare.
      cases_ltb; lia.
Qed.

(** *** Stale objectives *)

Definition stalePending (hours nowMs : Z) (o : Objective) : Prop :=
  status o = pending /\ 0 < hours /\
  hours * hourMs < nowMs - Z.max (createdAt o) (updatedAt o).

Definition staleInProgress (hours nowMs : Z) (o : Objective) : Prop :=
  status o = in_progress /\ 0 < hours /\
  hours * hourMs
  < nowMs - Z.max (Z.max (default 0 (lastRunAt o)) (updatedAt o)) (createdAt o).

(** What [expireStale] makes of one objective. *)
Definition expiredTo (pendingHours inProgressHours nowMs stamp : Z) (o o' : Objective) : Prop :=
  (stalePending pendingHours nowMs o /\ status o' = cancelled /\ updatedAt o' = stamp /\
   exists text, notes o' = notes o ++ [mkNote stamp text])
  \/
  (staleInProgress inProgressHours nowMs o /\ status o' = blocked /\ updatedAt o' = stamp /\
   exists text, notes o' = notes o ++ [mkNote stamp text])
  \/
  (~ stalePending pendingHours nowMs o /\ ~ staleInProgress inProgressHours nowMs o /\ o' = o).

Definition statusChanged (p : Objective * Objective) : bool :=
  negb (bool_decide (status (fst p) = status (snd p))).

Lemma cutoffMs_positive hours : (0 <? cutoffMs hours) = (0 <? hours).
Proof.
  unfold cutoffMs, hourMs. destruct (Z.ltb_spec 0 hours) as [H|H]; [|reflexivity].
  apply Z.ltb_lt. lia.
Qed.

Lemma expireOne_spec ph ih nowMs stamp o :
  let r := expireOne (cutoffMs ph) (cutoffMs ih) nowMs stamp o in
  id (fst r) = id o /\
  expiredTo ph ih nowMs stamp o (fst r) /\
  length (snd r) = (if statusChanged (o, fst r) then 1 else 0)%nat /\
  (snd r = [] -> fst r = o).
Proof.
  unfold expireOne, expiredTo, stalePending, staleInProgress, statusChanged, hasStatus.
  rewrite !cutoffMs_positive. cbn [fst snd].
  destruct (status o) eqn:Es; cbn [isFinal]; simpl bool_decide; cbn [andb].
  - (* pending *)
    destruct (Z.ltb_spec 0 ph) as [Hp|Hp].
    + unfold cutoffMs. replace (0 <? ph) with true by (symmetry; apply Z.ltb_lt; lia).
      destruct (Z.ltb_spec (ph * hourMs) (nowMs - Z.max (createdAt o) (updatedAt o)))
        as [Ha|Ha]; cbn [fst snd expire id status updatedAt notes].
      * simpl bool_decide. cbn [negb length]. split; [reflexivity|]. split.
        { left. repeat split; try assumption; try lia. eauto. }
        split; [reflexivity | discriminate].
      * rewrite Es. simpl bool_decide. cbn [negb length]. split; [reflexivity|]. split.
        { right. right. split; [lia|]. split; [|reflexivity]. intros [? _]. discriminate. }
        split; reflexivity.
    + cbn [fst snd]. rewrite Es. simpl bool_decide. cbn [negb length].
      split; [reflexivity|]. split.
      { right. right. split; [lia|]. split; [|reflexivity]. intros [? _]. discriminate. }
      split; reflexivity.
  - (* in_progress *)
    destruct (Z.ltb_spec 0 ih) as [Hp|Hp].
    + unfold cutoffMs. replace (0 <? ih) with true by (symmetry; apply Z.ltb_lt; lia).
      destruct (Z.ltb_spec (ih * hourMs)
                  (nowMs - Z.max (Z.max (default 0 (lastRunAt o)) (updatedAt o)) (createdAt o)))
        as [Ha|Ha]; cbn [fst snd expire id status updatedAt notes].
      * simpl bool_decide. cbn [negb length]. split; [reflexivity|]. split.
        { right. left. repeat split; try assumption; try lia. eauto. }
        split; [reflexivity | discriminate].
      * rewrite Es. simpl bool_decide. cbn [negb length]. split; [reflexivity|]. split.
        { right. right. split; [intros [? _]; discriminate|]. split; [lia | reflexivity]. }
        split; reflexivity.
    + cbn [fst snd]. rewrite Es. simpl bool_decide. cbn [negb length].
      split; [reflexivity|]. split.
      { right. right. split; [intros [? _]; discriminate|]. split; [lia | reflexivity]. }
      split; reflexivity.
  - rewrite Es. simpl bool_decide. cbn [negb length]. split; [reflexivity|].
    split; [|split; reflexivity].
    right. right. split; [|split; [|reflexivity]]; intros [? _]; discriminate.
  - rewrite Es. simpl bool_decide. cbn [negb length]. split; [reflexivity|].
    split; [|split; reflexivity].
    right. right. split; [|split; [|reflexivity]]; intros [? _]; discriminate.
  - rewrite Es. simpl bool_decide. cbn [negb length]. split; [reflexivity|].
    split; [|split; reflexivity].
    right. right. split; [|split; [|reflexivity]]; intros [? _]; discriminate.
  - rewrite Es. simpl bool_decide. cbn [negb length]. split; [reflexivity|].
    split; [|split; reflexivity].
    right. right. split; [|split; [|reflexivity]]; intros [? _]; discriminate.
Qed.

Lemma expireAll_spec ph ih nowMs stamp l :
  let results := map (expireOne (cutoffMs ph) (cutoffMs ih) nowMs stamp) l in
  Forall2 (fun o o' => id o' = id o /\ expiredTo ph ih nowMs stamp o o') l (map fst results) /\
  length (concat (map snd results))
  = length (List.filter statusChanged (combine l (map fst results))) /\
  (concat (map snd results) = [] -> map fst results = l).
Proof.
  induction l as [|o rest IH]; cbn [map concat combine List.filter].
  - split; [constructor|]. split; reflexivity.
  - destruct IH as (IH1 & IH2 & IH3).
    destruct (expireOne_spec ph ih nowMs stamp o) as (H1 & H2 & H3 & H4).
    cbv zeta in H1, H2, H3, H4. split; [constructor; [now split | exact IH1]|]. split.
    + rewrite length_app, H3, IH2. destruct (statusChanged _); reflexivity.
    + intros E. apply app_eq_nil in E. destruct E as [E1 E2].
      now rewrite (H4 E1), (IH3 E2).
Qed.

(** [expireStale] cancels the pending objectives that are older than the
    pending limit and blocks the objectives in progress that have been idle
    longer than the idle limit, each with the time and one note added; it
    leaves every other objective, and all ids, as they are.  The count it
    reports is the number of objectives whose status changed, and the file
    is written only when that count is not zero; a limit that is not
    positive switches its rule off. *)
Theorem expireStale_cancels_old_pending_and_blocks_idle :
  forall pendingHours inProgressHours nowMs stamp q,
    let report := fst (expireStale pendingHours inProgressHours nowMs stamp q) in
    let q' := snd (expireStale pendingHours inProgressHours nowMs stamp q) in
    Forall2 (fun o o' =>
               id o' = id o /\ expiredTo pendingHours inProgressHours nowMs stamp o o')
            (objectives q) (objectives q') /\
    changedCount report
    = length (List.filter statusChanged (combine (objectives q) (objectives q'))) /\
    length (changed report) = changedCount report /\
    ((changedCount report = 0%nat /\ q' = q) \/
     (changedCount report <> 0%nat /\ file q' = Some (objectives q'))).
Proof.
  intros ph ih nowMs stamp q. unfold expireStale. cbv zeta.
  destruct (expireAll_spec ph ih nowMs stamp (objectives q)) as (H1 & H2 & H3).
  cbv zeta in H1, H2, H3.
  set (results := map (expireOne (cutoffMs ph) (cutoffMs ih) nowMs stamp) (objectives q)) in *.
  cbn [fst snd changedCount changed].
  assert (Hobj : objectives
                   (match concat (map snd results) with
                    | [] => mkQueue (map fst results) (file q)
                    | _ :: _ => persist (mkQueue (map fst results) (file q))
                    end) = map fst results)
    by (destruct (concat (map snd results)); reflexivity).
  rewrite Hobj. split; [exact H1|]. split; [exact H2|]. split; [reflexivity|].
  destruct (concat (map snd results)) as [|c cs] eqn:E.
  - left. split; [reflexivity|]. rewrite (H3 eq_refl). now destruct q.
  - right. split; [discriminate | reflexivity].
Qed.

End ObjectiveQueue.

(* ===================================================================== *)
(** ** Lane queue ([runtime/lane-queue.js]) *)
(* ===================================================================== *)
Module LaneQueue.
Import JsString.

(** What a queued [fn] does when it finishes: it returns a value or it
    throws. *)
Inductive Outcome := Returned (v : string) | Threw (e : string).

Inductive Error :=
  | Overflow (depth max : Z).   (* `lane queue overflow: ${depth} >= ${max}` *)

Inductive EventType := lane_enqueue | lane_start | lane_end.

(** Payload of the [onEvent] notifications; [ev_active] is absent from
    "lane.enqueue". *)
Record Event := mkEvent {
  ev_type : EventType;
  ev_lane : string;
  ev_laneDepth : Z;
  ev_active : option Z;
  ev_totalDepth : Z;
}.

(** The closure passed to [lane.promise.then]: it captures [laneKey] and
    the [fn] of one [enqueue] call, identified here by [cb_id]. *)
Record Callback := mkCallback { cb_key : string; cb_id : nat }.

(** A lane record.  [lane.promise] is the chain
    [Promise.resolve().then(cb1).catch(..).then(cb2).catch(..)...]: a
    callback is invoked once every run attached before it has settled.
    The chain is represented by the run in progress ([current]) and the
    callbacks attached and not yet invoked, oldest first ([waiting]). *)
Record Lane := mkLane {
  depth : Z;
  active : Z;
  updatedAt : Z;
  current : option Callback;
  waiting : list Callback;
}.

(** History of calls, kept for stating the ordering properties only. *)
Inductive Obs :=
  | Submitted (k : string) (id : nat)
  | Started (k : string) (id : nat)
  | Ended (k : string) (id : nat) (o : Outcome).

(** The queue object.  Lane records are JavaScript objects shared between
    [this.lanes] and the closures of the chain, so they live in [heap] and
    [lanes] maps a lane key to a reference.  [settled] records what the
    promise returned by each [enqueue] call was settled with. *)
Record State := mkState {
  maxDepth : Z;
  lanes : gmap string nat;
  heap : gmap nat Lane;
  totalDepth : Z;
  events : list Event;
  trace : list Obs;
  settled : list (nat * Outcome);
  fresh : nat;
}.

(** [new LaneQueue({ maxDepth })]: [Math.max(1, toNumber(maxDepth, 100))];
    [None] stands for a value that is not a finite number. *)
Definition create (maxDepthArg : option Z) : State :=
  {| maxDepth := Z.max 1 (default 100 maxDepthArg);
     lanes := ∅; heap := ∅; totalDepth := 0;
     events := []; trace := []; settled := []; fresh := 0 |}.

Definition getDepth (st : State) : Z := totalDepth st.

(** [this.lanes.get(laneKey)], following the reference. *)
Definition getLane (st : State) (laneKey : string) : option (nat * Lane) :=
  r ← lanes st !! laneKey; L ← heap st !! r; Some (r, L).

Definition getLaneDepth (st : State) (rawLaneKey : string) : Z :=
  match getLane st (if truthy rawLaneKey then rawLaneKey else "default") with
  | None => 0
  | Some (_, L) => depth L + active L
  end.

(** The synchronous part of [enqueue(rawLaneKey, fn)], up to and including
    the attachment of the callback to the lane's chain.  [t_new] and
    [t_upd] are the readings of [nowIso()].  On success the result is the
    identifier of the attached callback. *)
Definition enqueue (rawLaneKey : string) (t_new t_upd : Z) (st : State)
  : result Error nat * State :=
  if totalDepth st >=? maxDepth st then
    (Throw (Overflow (totalDepth st) (maxDepth st)), st)
  else
    let laneKey := if truthy rawLaneKey then rawLaneKey else "default" in
    let '(r, lane, lanes1) :=
      match getLane st laneKey with
      | Some (r, lane) => (r, lane, lanes st)
      | None =>
          (fresh st,
           {| depth := 0; active := 0; updatedAt := t_new;
              current := None; waiting := [] |},
           <[laneKey := fresh st]> (lanes st))
      end in
    let cb := {| cb_key := laneKey; cb_id := fresh st |} in
    let lane1 :=
      {| depth := depth lane + 1; active := active lane; updatedAt := t_upd;
         current := current lane; waiting := waiting lane ++ [cb] |} in
    (Ok (fresh st),
     {| maxDepth := maxDepth st;
        lanes := lanes1;
        heap := <[r := lane1]> (heap st);
        totalDepth := totalDepth st + 1;
        events := events st ++
          [mkEvent lane_enqueue laneKey (depth lane1) None (totalDepth st + 1)];
        trace := trace st ++ [Submitted laneKey (fresh st)];
        settled := settled st;
        fresh := S (fresh st) |}).

(** The chain of lane object [r] invokes its oldest waiting callback; this
    is possible only when no earlier run of the chain is unsettled.  The
    callback runs up to the call of [fn]. *)
Definition start (r : nat) (now : Z) (st : State) : option State :=
  lane ← heap st !! r;
  match current lane, waiting lane with
  | None, cb :: rest =>
      let lane1 :=
        {| depth := Z.max 0 (depth lane - 1); active := active lane + 1;
           updatedAt := now; current := Some cb; waiting := rest |} in
      let total1 := Z.max 0 (totalDepth st - 1) in
      Some {| maxDepth := maxDepth st;
              lanes := lanes st;
              heap := <[r := lane1]> (heap st);
              totalDepth := total1;
              events := events st ++
                [mkEvent lane_start (cb_key cb) (depth lane1) (Some (active lane1)) total1];
              trace := trace st ++ [Started (cb_key cb) (cb_id cb)];
              settled := settled st;
              fresh := fresh st |}
  | _, _ => None
  end.

(** The [fn] of the run in progress on lane object [r] finishes with
    outcome [o]: the [finally] block runs, the promise [run] settles with
    [o] (which is what the [enqueue] caller awaits), and
    [run.catch(() => undefined)] lets the chain go on. *)
Definition finish (r : nat) (o : Outcome) (now : Z) (st : State) : option State :=
  lane ← heap st !! r;
  match current lane with
  | Some cb =>
      let lane1 :=
        {| depth := depth lane; active := Z.max 0 (active lane - 1);
           updatedAt := now; current := None; waiting := waiting lane |} in
      Some {| maxDepth := maxDepth st;
              lanes := if (depth lane1 =? 0) && (active lane1 =? 0)
                       then delete (cb_key cb) (lanes st) else lanes st;
              heap := <[r := lane1]> (heap st);
              totalDepth := totalDepth st;
              events := events st ++
                [mkEvent lane_end (cb_key cb) (depth lane1) (Some (active lane1))
                         (totalDepth st)];
              trace := trace st ++ [Ended (cb_key cb) (cb_id cb) o];
              settled := settled st ++ [(cb_id cb, o)];
              fresh := fresh st |}
  | None => None
  end.

(** The settings route of the dashboard assigns [laneQueue.maxDepth] on
    the live queue: [runtime.laneQueue.maxDepth = patch.runtime.maxQueueDepth],
    where the patch holds [toInt(value, 100, { min: 10, max: 2000 })].
    [None] stands for a value that is not a finite number, [Some n] for a
    number that [Math.round] takes to [n]. *)
Definition setMaxDepth (value : option Z) (st : State) : State :=
  {| maxDepth := match value with
                 | Some n => Z.max 10 (Z.min 2000 n)
                 | None => 100
                 end;
     lanes := lanes st; heap := heap st; totalDepth := totalDepth st;
     events := events st; trace := trace st; settled := settled st;
     fresh := fresh st |}.

(** One turn of the event loop. *)
Inductive Step :=
  | DoEnqueue (rawLaneKey : string) (t_new t_upd : Z)
  | DoStart (r : nat) (now : Z)
  | DoFinish (r : nat) (o : Outcome) (now : Z)
  | DoSetMaxDepth (value : option Z).

Definition step (l : Step) (st : State) : option State :=
  match l with
  | DoEnqueue k t1 t2 => Some (snd (enqueue k t1 t2 st))
  | DoStart r now => start r now st
  | DoFinish r o now => finish r o now st
  | DoSetMaxDepth value => Some (setMaxDepth value st)
  end.

Fixpoint run (ls : list Step) (st : State) : option State :=
  match ls with
  | [] => Some st
  | l :: rest => st1 ← step l st; run rest st1
  end.

(** States the queue can be in: those reached from a fresh queue. *)
Inductive reachable : State -> Prop :=
  | reach_create m : reachable (create m)
  | reach_step l st st1 : reachable st -> step l st = Some st1 -> reachable st1.

(** *** Ghost views used in the statements *)

(** Number of callbacks attached and not yet invoked, over all lane
    objects: the sum of the [depth] counters. *)
Definition sumDepth (h : gmap nat Lane) : Z :=
  map_fold (fun _ L acc => depth L + acc) 0 h.

(** The sum of [depth + active] (what [getLaneDepth] reports for one lane)
    over all lane objects: entries pending or running. *)
Definition pendingPlusActive (st : State) : Z :=
  map_fold (fun _ L acc => depth L + active L + acc) 0 (heap st).

Definition currentIds (L : Lane) : list nat :=
  match current L with Some cb => [cb_id cb] | None => [] end.

Definition chainIds (L : Lane) : list nat := currentIds L ++ map cb_id (waiting L).

Definition callbacks (L : Lane) : list Callback :=
  match current L with Some cb => [cb] | None => [] end ++ waiting L.

Definition submittedOn (k : string) (tr : list Obs) : list nat :=
  omap (fun o => match o with
                 | Submitted k1 id => if decide (k1 = k) then Some id else None
                 | _ => None end) tr.

Definition startedOn (k : string) (tr : list Obs) : list nat :=
  omap (fun o => match o with
                 | Started k1 id => if decide (k1 = k) then Some id else None
                 | _ => None end) tr.

Definition endedOn (k : string) (tr : list Obs) : list nat :=
  omap (fun o => match o with
                 | Ended k1 id _ => if decide (k1 = k) then Some id else None
                 | _ => None end) tr.

(** Identifiers in the chain of the record currently stored under [k]. *)
Definition laneChain (st : State) (k : string) : list nat :=
  match getLane st k with Some (_, L) => chainIds L | None => [] end.

Definition laneRunning (st : State) (k : string) : list nat :=
  match getLane st k with Some (_, L) => currentIds L | None => [] end.

(** Replays the history of lane [k]: the state is the run in progress, if
    any; [None] reports that a run started while another one was in
    progress, or that a run ended that was not the one in progress. *)
Definition serialStep (k : string) (s : option (option nat)) (o : Obs)
  : option (option nat) :=
  cur ← s;
  match o with
  | Submitted _ _ => Some cur
  | Started k1 id =>
      if decide (k1 = k)
      then match cur with None => Some (Some id) | Some _ => None end
      else Some cur
  | Ended k1 id _ =>
      if decide (k1 = k)
      then match cur with
           | Some id1 => if decide (id = id1) then Some None else None
           | None => None
           end
      else Some cur
  end.

Definition serialOn (k : string) (tr : list Obs) : option (option nat) :=
  fold_left (serialStep k) tr (Some None).

Record Inv (st : State) : Prop := mkInv {
  inv_depth : forall r L, heap st !! r = Some L ->
      depth L = Z.of_nat (length (waiting L));
  inv_active : forall r L, heap st !! r = Some L ->
      active L = match current L with Some _ => 1 | None => 0 end;
  inv_total : totalDepth st = sumDepth (heap st);
  inv_fresh : forall r L, heap st !! r = Some L -> (r < fresh st)%nat;
  inv_lanes : forall k r, lanes st !! k = Some r ->
      exists L, heap st !! r = Some L /\ callbacks L <> [] /\
                forall cb, cb ∈ callbacks L -> cb_key cb = k;
  inv_owner : forall r L cb, heap st !! r = Some L -> cb ∈ callbacks L ->
      lanes st !! cb_key cb = Some r;
  inv_submitted : forall k, submittedOn k (trace st) = endedOn k (trace st) ++ laneChain st k;
  inv_started : forall k, startedOn k (trace st) = endedOn k (trace st) ++ laneRunning st k;
  inv_serial : forall k, serialOn k (trace st) = Some (head (laneRunning st k));
}.

Lemma sumDepth_empty : sumDepth ∅ = 0.
Proof. reflexivity. Qed.

Lemma sumDepth_insert_new (h : gmap nat Lane) r L :
  h !! r = None -> sumDepth (<[r := L]> h) = depth L + sumDepth h.
Proof.
  intros Hr. unfold sumDepth.
  rewrite map_fold_insert_L; [reflexivity | intros; lia | exact Hr].
Qed.

Lemma sumDepth_update (h : gmap nat Lane) r L L1 :
  h !! r = Some L -> sumDepth (<[r := L1]> h) = sumDepth h - depth L + depth L1.
Proof.
  intros Hr.
  rewrite <- (insert_delete_eq h r L1).
  rewrite sumDepth_insert_new by apply lookup_delete_eq.
  unfold sumDepth at 2.
  rewrite (map_fold_delete_L _ _ r L h); [fold (sumDepth (delete r h)); lia | intros; lia | exact Hr].
Qed.

Lemma sumDepth_nonneg (h : gmap nat Lane) :
  (forall r L, h !! r = Some L -> 0 <= depth L) -> 0 <= sumDepth h.
Proof.
  unfold sumDepth.
  apply (map_fold_weak_ind (fun acc m => (forall r L, m !! r = Some L -> 0 <= depth L) -> 0 <= acc)).
  - intros _. lia.
  - intros i x m acc Hi IH Hall.
    assert (0 <= depth x) by (apply (Hall i); apply lookup_insert_eq).
    assert (0 <= acc).
    { apply IH. intros r L HL. apply (Hall r). rewrite lookup_insert_ne; [exact HL|].
      intros ->. congruence. }
    lia.
Qed.

Lemma sumDepth_ge (h : gmap nat Lane) r L :
  (forall r L, h !! r = Some L -> 0 <= depth L) ->
  h !! r = Some L -> depth L <= sumDepth h.
Proof.
  intros Hall Hr. unfold sumDepth.
  rewrite (map_fold_delete_L _ _ r L h); [| intros; lia | exact Hr].
  fold (sumDepth (delete r h)).
  assert (0 <= sumDepth (delete r h)).
  { apply sumDepth_nonneg. intros r1 L1 H1.
    apply (Hall r1). apply lookup_delete_Some in H1. tauto. }
  lia.
Qed.

Lemma getLane_Some st k r L :
  getLane st k = Some (r, L) <-> lanes st !! k = Some r /\ heap st !! r = Some L.
Proof.
  unfold getLane. split.
  - intros H. destruct (lanes st !! k) as [r1|] eqn:E1; cbn in H; [|discriminate].
    destruct (heap st !! r1) as [L1|] eqn:E2; cbn in H; [|discriminate].
    inversion H; subst. auto.
  - intros [H1 H2]. rewrite H1; cbn. rewrite H2; cbn. reflexivity.
Qed.

Lemma lanes_inj st k1 k2 r :
  Inv st -> lanes st !! k1 = Some r -> lanes st !! k2 = Some r -> k1 = k2.
Proof.
  intros HI H1 H2.
  destruct (inv_lanes st HI k1 r H1) as (L1 & HL1 & Hne & Hk1).
  destruct (inv_lanes st HI k2 r H2) as (L2 & HL2 & _ & Hk2).
  assert (L2 = L1) by congruence. subst L2.
  destruct (callbacks L1) as [|cb rest] eqn:E; [congruence|].
  rewrite <- (Hk1 cb), <- (Hk2 cb); [reflexivity | left | left].
Qed.

Lemma getLane_None_lanes st k :
  Inv st -> getLane st k = None -> lanes st !! k = None.
Proof.
  intros HI H. destruct (lanes st !! k) as [r|] eqn:E; [|reflexivity].
  destruct (inv_lanes st HI k r E) as (L & HL & _).
  assert (getLane st k = Some (r, L)) by (apply getLane_Some; auto). congruence.
Qed.

Lemma heap_fresh_None st : Inv st -> heap st !! fresh st = None.
Proof.
  intros HI. destruct (heap st !! fresh st) as [L|] eqn:E; [|reflexivity].
  apply (inv_fresh st HI) in E. lia.
Qed.

Lemma depth_nonneg st r L : Inv st -> heap st !! r = Some L -> 0 <= depth L.
Proof. intros HI H. rewrite (inv_depth st HI r L H). lia. Qed.

Lemma submittedOn_snoc k tr o :
  submittedOn k (tr ++ [o]) = submittedOn k tr ++
    match o with Submitted k1 id => if decide (k1 = k) then [id] else [] | _ => [] end.
Proof.
  unfold submittedOn. rewrite omap_app. f_equal. cbn.
  destruct o; try reflexivity. destruct (decide _); reflexivity.
Qed.

Lemma startedOn_snoc k tr o :
  startedOn k (tr ++ [o]) = startedOn k tr ++
    match o with Started k1 id => if decide (k1 = k) then [id] else [] | _ => [] end.
Proof.
  unfold startedOn. rewrite omap_app. f_equal. cbn.
  destruct o; try reflexivity. destruct (decide _); reflexivity.
Qed.

Lemma endedOn_snoc k tr o :
  endedOn k (tr ++ [o]) = endedOn k tr ++
    match o with Ended k1 id _ => if decide (k1 = k) then [id] else [] | _ => [] end.
Proof.
  unfold endedOn. rewrite omap_app. f_equal. cbn.
  destruct o; try reflexivity. destruct (decide _); reflexivity.
Qed.

(** [getLane] after one lane object [r], stored under [key], was replaced. *)
Lemma getLane_after st st1 key r L1 k :
  Inv st ->
  lanes st !! key = Some r \/ (lanes st !! key = None /\ heap st !! r = None) ->
  heap st1 = <[r := L1]> (heap st) ->
  (lanes st1 = lanes st \/ lanes st1 = <[key := r]> (lanes st)) ->
  lanes st1 !! key = Some r ->
  getLane st1 k = if decide (k = key) then Some (r, L1) else getLane st k.
Proof.
  intros HI Hkey Hheap Hlanes Hk1.
  destruct (decide (k = key)) as [->|Hne].
  - apply getLane_Some. split; [exact Hk1|]. rewrite Hheap. apply lookup_insert_eq.
  - assert (Hsame : lanes st1 !! k = lanes st !! k).
    { destruct Hlanes as [-> | ->]; [reflexivity|]. apply lookup_insert_ne. congruence. }
    unfold getLane. rewrite Hsame, Hheap.
    destruct (lanes st !! k) as [r1|] eqn:E; cbn; [|reflexivity].
    rewrite lookup_insert_ne; [reflexivity|].
    intros <-. destruct Hkey as [Hkey | [_ Hnone]].
    + apply Hne. eapply lanes_inj; eauto.
    + destruct (inv_lanes st HI k r E) as (L & HL & _). congruence.
Qed.

(** Replace the projections of a state introduced by [set] with its fields. *)
Ltac st_fields s :=
  let v := eval unfold s in s in
  let h := eval cbn [heap] in (heap v) in
  let l := eval cbn [lanes] in (lanes v) in
  let t := eval cbn [trace] in (trace v) in
  let d := eval cbn [totalDepth] in (totalDepth v) in
  let f := eval cbn [fresh] in (fresh v) in
  change (heap s) with h; change (lanes s) with l;
  change (trace s) with t; change (totalDepth s) with d;
  change (fresh s) with f.

Lemma serialOn_snoc k tr o : serialOn k (tr ++ [o]) = serialStep k (serialOn k tr) o.
Proof. unfold serialOn. rewrite fold_left_app. reflexivity. Qed.

Ltac snoc_trace :=
  rewrite ?submittedOn_snoc, ?startedOn_snoc, ?endedOn_snoc; cbv beta iota;
  rewrite ?app_nil_r.

Lemma create_Inv m : Inv (create m).
Proof.
  constructor; cbn; try (intros; rewrite ?lookup_empty in *; discriminate).
  - reflexivity.
  - intros k. unfold laneChain, getLane; cbn. rewrite lookup_empty. reflexivity.
  - intros k. unfold laneRunning, getLane; cbn. rewrite lookup_empty. reflexivity.
  - intros k. unfold laneRunning, getLane; cbn. rewrite lookup_empty. reflexivity.
Qed.

Lemma enqueue_Inv raw t1 t2 st : Inv st -> Inv (snd (enqueue raw t1 t2 st)).
Proof.
  intros HI. unfold enqueue.
  destruct (totalDepth st >=? maxDepth st); [exact HI|].
  set (key := if truthy raw then raw else "default").
  set (cb := {| cb_key := key; cb_id := fresh st |}).
  destruct (getLane st key) as [[r L]|] eqn:EL.
  - (* the lane record exists *)
    apply getLane_Some in EL as [Hk Hr]. cbn [snd].
    set (L1 := {| depth := depth L + 1; active := active L; updatedAt := t2;
                  current := current L; waiting := waiting L ++ [cb] |}).
    set (st1 := mkState _ _ _ _ _ _ _ _).
    assert (HG : forall k, getLane st1 k = if decide (k = key) then Some (r, L1) else getLane st k).
    { intros k. apply (getLane_after st st1 key r L1 k HI); auto. }
    assert (Hcbs : callbacks L1 = callbacks L ++ [cb]).
    { unfold callbacks; cbn. rewrite app_assoc. reflexivity. }
    constructor; st_fields st1.
    + intros r1 L2. rewrite lookup_insert. destruct (decide (r = r1)) as [<-|].
      * intros [= <-]; cbn. rewrite length_app; cbn. rewrite (inv_depth st HI r L Hr). lia.
      * apply (inv_depth st HI).
    + intros r1 L2. rewrite lookup_insert. destruct (decide (r = r1)) as [<-|].
      * intros [= <-]; cbn. apply (inv_active st HI r L Hr).
      * apply (inv_active st HI).
    + rewrite (sumDepth_update _ r L L1 Hr), (inv_total st HI). cbn. lia.
    + intros r1 L2. rewrite lookup_insert. destruct (decide (r = r1)) as [<-|].
      * intros _. apply (inv_fresh st HI) in Hr. lia.
      * intros H. apply (inv_fresh st HI) in H. lia.
    + intros k r1 Hk1. rewrite lookup_insert. destruct (decide (r = r1)) as [<-|Hne].
      * exists L1. split; [reflexivity|]. rewrite Hcbs. split.
        { intros H. apply app_eq_nil in H as [_ H]. discriminate. }
        intros c Hc. apply elem_of_app in Hc as [Hc|Hc].
        { destruct (inv_lanes st HI k r Hk1) as (L2 & HL2 & _ & Hall).
          assert (L2 = L) by congruence. subst. auto. }
        apply list_elem_of_singleton in Hc. subst c. cbn.
        eapply lanes_inj; eauto.
      * apply (inv_lanes st HI k r1 Hk1).
    + intros r1 L2 c. rewrite lookup_insert. destruct (decide (r = r1)) as [<-|Hne].
      * intros [= <-]. rewrite Hcbs. intros Hc. apply elem_of_app in Hc as [Hc|Hc].
        { apply (inv_owner st HI r L c Hr Hc). }
        apply list_elem_of_singleton in Hc. subst c. exact Hk.
      * apply (inv_owner st HI).
    + intros k. snoc_trace. rewrite (inv_submitted st HI k), <- ?app_assoc. f_equal.
      unfold laneChain. rewrite HG. destruct (decide (key = k)) as [<-|Hne].
      * rewrite decide_True by reflexivity.
        assert (getLane st key = Some (r, L)) as -> by (apply getLane_Some; auto).
        unfold chainIds, currentIds; cbn. rewrite map_app, app_assoc. reflexivity.
      * rewrite decide_False by congruence. rewrite app_nil_r. reflexivity.
    + intros k. snoc_trace. rewrite (inv_started st HI k), <- ?app_assoc. f_equal.
      unfold laneRunning. rewrite HG. destruct (decide (k = key)) as [->|Hne]; [|reflexivity].
      assert (getLane st key = Some (r, L)) as -> by (apply getLane_Some; auto).
      reflexivity.
    + intros k. rewrite serialOn_snoc, (inv_serial st HI k). cbn. do 2 f_equal.
      unfold laneRunning. rewrite HG. destruct (decide (k = key)) as [->|Hne]; [|reflexivity].
      assert (getLane st key = Some (r, L)) as -> by (apply getLane_Some; auto).
      reflexivity.
  - (* a new lane record is created *)
    pose proof (getLane_None_lanes st key HI EL) as Hk.
    pose proof (heap_fresh_None st HI) as Hr. cbn [snd].
    set (L := {| depth := 0; active := 0; updatedAt := t1; current := None; waiting := [] |}).
    set (L1 := {| depth := depth L + 1; active := active L; updatedAt := t2;
                  current := current L; waiting := waiting L ++ [cb] |}).
    set (r := fresh st) in *.
    set (st1 := mkState _ _ _ _ _ _ _ _).
    assert (HG : forall k, getLane st1 k = if decide (k = key) then Some (r, L1) else getLane st k).
    { intros k. apply (getLane_after st st1 key r L1 k HI); auto.
      cbn. apply lookup_insert_eq. }
    constructor; st_fields st1.
    + intros r1 L2. rewrite lookup_insert. destruct (decide (r = r1)) as [<-|].
      * intros [= <-]; cbn. lia.
      * apply (inv_depth st HI).
    + intros r1 L2. rewrite lookup_insert. destruct (decide (r = r1)) as [<-|].
      * intros [= <-]; cbn. reflexivity.
      * apply (inv_active st HI).
    + rewrite (sumDepth_insert_new _ r L1 Hr), (inv_total st HI). cbn. lia.
    + intros r1 L2. rewrite lookup_insert. destruct (decide (r = r1)) as [<-|].
      * intros _. subst r. lia.
      * intros H. apply (inv_fresh st HI) in H. lia.
    + intros k r1. rewrite lookup_insert. destruct (decide (key = k)) as [<-|Hne].
      * intros [= <-]. exists L1. rewrite lookup_insert_eq. split; [reflexivity|].
        split; [discriminate|].
        intros c Hc. apply list_elem_of_singleton in Hc. subst c. reflexivity.
      * intros Hk1. destruct (inv_lanes st HI k r1 Hk1) as (L2 & HL2 & Hrest).
        exists L2. split; [|exact Hrest].
        rewrite lookup_insert_ne; [exact HL2|]. intros <-. congruence.
    + intros r1 L2 c. rewrite lookup_insert. destruct (decide (r = r1)) as [<-|Hne].
      * intros [= <-] Hc. apply list_elem_of_singleton in Hc. subst c. cbn.
        apply lookup_insert_eq.
      * intros HL2 Hc. pose proof (inv_owner st HI r1 L2 c HL2 Hc) as Ho.
        rewrite lookup_insert_ne; [exact Ho|]. intros Heq. rewrite <- Heq in Ho. congruence.
    + intros k. snoc_trace. rewrite (inv_submitted st HI k), <- ?app_assoc. f_equal.
      unfold laneChain. rewrite HG. destruct (decide (key = k)) as [<-|Hne].
      * rewrite decide_True by reflexivity. rewrite EL. reflexivity.
      * rewrite decide_False by congruence. rewrite app_nil_r. reflexivity.
    + intros k. snoc_trace. rewrite (inv_started st HI k), <- ?app_assoc. f_equal.
      unfold laneRunning. rewrite HG. destruct (decide (k = key)) as [->|Hne]; [|reflexivity].
      rewrite EL. reflexivity.
    + intros k. rewrite serialOn_snoc, (inv_serial st HI k). cbn. do 2 f_equal.
      unfold laneRunning. rewrite HG. destruct (decide (k = key)) as [->|Hne]; [|reflexivity].
      rewrite EL. reflexivity.
Qed.

Lemma start_Inv r now st st1 : Inv st -> start r now st = Some st1 -> Inv st1.
Proof.
  intros HI. unfold start.
  destruct (heap st !! r) as [L|] eqn:Hr; cbn; [|discriminate].
  destruct (current L) as [|] eqn:Hcur; [destruct (waiting L); discriminate|].
  destruct (waiting L) as [|cb rest] eqn:Hw; [discriminate|].
  intros [= <-].
  assert (Hcb : cb ∈ callbacks L).
  { unfold callbacks. rewrite Hcur, Hw. left. }
  pose proof (inv_owner st HI r L cb Hr Hcb) as Hk.
  pose proof (inv_depth st HI r L Hr) as Hd. rewrite Hw in Hd. cbn [length] in Hd.
  pose proof (inv_active st HI r L Hr) as Ha. rewrite Hcur in Ha.
  set (L1 := {| depth := Z.max 0 (depth L - 1); active := active L + 1; updatedAt := now;
                current := Some cb; waiting := rest |}).
  set (st1 := mkState _ _ _ _ _ _ _ _).
  assert (HG : forall k, getLane st1 k = if decide (k = cb_key cb) then Some (r, L1) else getLane st k).
  { intros k. apply (getLane_after st st1 (cb_key cb) r L1 k HI); auto. }
  assert (HGo : getLane st (cb_key cb) = Some (r, L)) by (apply getLane_Some; auto).
  assert (Hcbs : callbacks L1 = callbacks L).
  { unfold callbacks; cbn. rewrite Hcur, Hw. reflexivity. }
  constructor; st_fields st1.
  - intros r1 L2. rewrite lookup_insert. destruct (decide (r = r1)) as [<-|].
    + intros [= <-]; cbn. lia.
    + apply (inv_depth st HI).
  - intros r1 L2. rewrite lookup_insert. destruct (decide (r = r1)) as [<-|].
    + intros [= <-]; cbn. lia.
    + apply (inv_active st HI).
  - rewrite (sumDepth_update _ r L L1 Hr). cbn [depth L1].
    pose proof (sumDepth_ge (heap st) r L (fun r0 L0 => depth_nonneg st r0 L0 HI) Hr).
    rewrite (inv_total st HI). lia.
  - intros r1 L2. rewrite lookup_insert. destruct (decide (r = r1)) as [<-|].
    + intros _. apply (inv_fresh st HI) in Hr. lia.
    + apply (inv_fresh st HI).
  - intros k r1 Hk1. rewrite lookup_insert. destruct (decide (r = r1)) as [<-|Hne].
    + exists L1. split; [reflexivity|]. rewrite Hcbs.
      destruct (inv_lanes st HI k r Hk1) as (L2 & HL2 & Hrest).
      assert (L2 = L) by congruence. subst. exact Hrest.
    + apply (inv_lanes st HI k r1 Hk1).
  - intros r1 L2 c. rewrite lookup_insert. destruct (decide (r = r1)) as [<-|Hne].
    + intros [= <-]. rewrite Hcbs. apply (inv_owner st HI r L c Hr).
    + apply (inv_owner st HI).
  - intros k. snoc_trace. rewrite (inv_submitted st HI k), <- ?app_assoc. f_equal.
    unfold laneChain. rewrite HG. destruct (decide (k = cb_key cb)) as [->|Hne]; [|reflexivity].
    rewrite HGo. unfold chainIds, currentIds; cbn. rewrite Hcur, Hw. reflexivity.
  - intros k. snoc_trace. rewrite (inv_started st HI k), <- ?app_assoc.
    f_equal. unfold laneRunning. rewrite HG. destruct (decide (cb_key cb = k)) as [<-|Hne].
    + rewrite decide_True by reflexivity. rewrite HGo. unfold currentIds; cbn.
      rewrite Hcur. reflexivity.
    + rewrite decide_False by congruence. rewrite app_nil_r. reflexivity.
  - intros k. rewrite serialOn_snoc, (inv_serial st HI k). cbn.
    unfold laneRunning. rewrite HG. destruct (decide (cb_key cb = k)) as [<-|Hne].
    + rewrite decide_True by reflexivity. rewrite HGo. unfold currentIds; cbn.
      rewrite Hcur. reflexivity.
    + rewrite decide_False by congruence. reflexivity.
Qed.

Lemma finish_Inv r o now st st1 : Inv st -> finish r o now st = Some st1 -> Inv st1.
Proof.
  intros HI. unfold finish.
  destruct (heap st !! r) as [L|] eqn:Hr; cbn; [|discriminate].
  destruct (current L) as [cb|] eqn:Hcur; [|discriminate].
  intros [= <-].
  assert (Hcb : cb ∈ callbacks L).
  { unfold callbacks. rewrite Hcur. left. }
  pose proof (inv_owner st HI r L cb Hr Hcb) as Hk.
  pose proof (inv_depth st HI r L Hr) as Hd.
  pose proof (inv_active st HI r L Hr) as Ha. rewrite Hcur in Ha.
  assert (HGo : getLane st (cb_key cb) = Some (r, L)) by (apply getLane_Some; auto).
  set (L1 := {| depth := depth L; active := Z.max 0 (active L - 1); updatedAt := now;
                current := None; waiting := waiting L |}).
  assert (Hcbs : callbacks L1 = waiting L) by reflexivity.
  assert (Hsub : forall c, c ∈ callbacks L1 -> c ∈ callbacks L).
  { intros c Hc. rewrite Hcbs in Hc. unfold callbacks. apply elem_of_app. right; exact Hc. }
  assert (Hdel : (depth L =? 0) && (Z.max 0 (active L - 1) =? 0) = true <-> waiting L = []).
  { rewrite Ha, Hd. replace (Z.max 0 (1 - 1) =? 0) with true by reflexivity.
    rewrite andb_true_r, Z.eqb_eq. destruct (waiting L); cbn; split; intros; try lia; congruence. }
  destruct ((depth L =? 0) && (Z.max 0 (active L - 1) =? 0)) eqn:Hgone.
  - (* the record is removed from the map *)
    assert (Hw : waiting L = []) by (apply Hdel; reflexivity).
    set (st1 := mkState _ _ _ _ _ _ _ _).
    assert (HG : forall k, getLane st1 k = if decide (k = cb_key cb) then None else getLane st k).
    { intros k. unfold getLane. change (lanes st1) with (delete (cb_key cb) (lanes st)).
      change (heap st1) with (<[r := L1]> (heap st)).
      destruct (decide (k = cb_key cb)) as [->|Hne].
      - rewrite lookup_delete_eq. reflexivity.
      - rewrite lookup_delete_ne by congruence.
        destruct (lanes st !! k) as [r1|] eqn:E; cbn; [|reflexivity].
        rewrite lookup_insert_ne; [reflexivity|]. intros <-. apply Hne.
        eapply lanes_inj; eauto. }
    constructor; st_fields st1.
    + intros r1 L2. rewrite lookup_insert. destruct (decide (r = r1)) as [<-|].
      * intros [= <-]; cbn. exact Hd.
      * apply (inv_depth st HI).
    + intros r1 L2. rewrite lookup_insert. destruct (decide (r = r1)) as [<-|].
      * intros [= <-]; cbn. lia.
      * apply (inv_active st HI).
    + rewrite (sumDepth_update _ r L L1 Hr). cbn [depth L1]. rewrite (inv_total st HI). lia.
    + intros r1 L2. rewrite lookup_insert. destruct (decide (r = r1)) as [<-|].
      * intros _. apply (inv_fresh st HI) in Hr. lia.
      * apply (inv_fresh st HI).
    + intros k r1 Hk1. apply lookup_delete_Some in Hk1 as [Hne Hk1].
      rewrite lookup_insert_ne; [apply (inv_lanes st HI k r1 Hk1)|].
      intros <-. apply Hne. eapply lanes_inj; eauto.
    + intros r1 L2 c. rewrite lookup_insert. destruct (decide (r = r1)) as [<-|Hne].
      * intros [= <-]. rewrite Hcbs, Hw. intros Hc. inversion Hc.
      * intros HL2 Hc. pose proof (inv_owner st HI r1 L2 c HL2 Hc) as Ho.
        rewrite lookup_delete_ne; [exact Ho|]. intros Heq. rewrite <- Heq in Ho. congruence.
    + intros k. snoc_trace. rewrite (inv_submitted st HI k), <- ?app_assoc.
      f_equal. unfold laneChain. rewrite HG. destruct (decide (cb_key cb = k)) as [<-|Hne].
      * rewrite decide_True by reflexivity. rewrite HGo.
        unfold chainIds, currentIds. rewrite Hcur, Hw. reflexivity.
      * rewrite decide_False by congruence. rewrite ?app_nil_r. reflexivity.
    + intros k. snoc_trace. rewrite (inv_started st HI k), <- ?app_assoc.
      f_equal. unfold laneRunning. rewrite HG. destruct (decide (cb_key cb = k)) as [<-|Hne].
      * rewrite decide_True by reflexivity. rewrite HGo.
        unfold currentIds. rewrite Hcur. reflexivity.
      * rewrite decide_False by congruence. rewrite ?app_nil_r. reflexivity.
    + intros k. rewrite serialOn_snoc, (inv_serial st HI k). cbn.
      unfold laneRunning. rewrite HG. destruct (decide (cb_key cb = k)) as [<-|Hne].
      * rewrite decide_True by reflexivity. rewrite HGo. unfold currentIds; cbn.
        rewrite Hcur; cbn. rewrite decide_True by reflexivity. reflexivity.
      * rewrite decide_False by congruence. reflexivity.
  - (* other callbacks are waiting: the record stays *)
    assert (Hw : waiting L <> []).
    { intros H. apply Hdel in H. congruence. }
    set (st1 := mkState _ _ _ _ _ _ _ _).
    assert (HG : forall k, getLane st1 k = if decide (k = cb_key cb) then Some (r, L1) else getLane st k).
    { intros k. apply (getLane_after st st1 (cb_key cb) r L1 k HI); auto. }
    constructor; st_fields st1.
    + intros r1 L2. rewrite lookup_insert. destruct (decide (r = r1)) as [<-|].
      * intros [= <-]; cbn. exact Hd.
      * apply (inv_depth st HI).
    + intros r1 L2. rewrite lookup_insert. destruct (decide (r = r1)) as [<-|].
      * intros [= <-]; cbn. lia.
      * apply (inv_active st HI).
    + rewrite (sumDepth_update _ r L L1 Hr). cbn [depth L1]. rewrite (inv_total st HI). lia.
    + intros r1 L2. rewrite lookup_insert. destruct (decide (r = r1)) as [<-|].
      * intros _. apply (inv_fresh st HI) in Hr. lia.
      * apply (inv_fresh st HI).
    + intros k r1 Hk1. rewrite lookup_insert. destruct (decide (r = r1)) as [<-|Hne].
      * exists L1. split; [reflexivity|]. rewrite Hcbs. split; [exact Hw|].
        intros c Hc. destruct (inv_lanes st HI k r Hk1) as (L2 & HL2 & _ & Hall).
        assert (L2 = L) by congruence. subst. apply Hall, Hsub. rewrite Hcbs. exact Hc.
      * apply (inv_lanes st HI k r1 Hk1).
    + intros r1 L2 c. rewrite lookup_insert. destruct (decide (r = r1)) as [<-|Hne].
      * intros [= <-] Hc. apply (inv_owner st HI r L c Hr). auto.
      * apply (inv_owner st HI).
    + intros k. snoc_trace. rewrite (inv_submitted st HI k), <- ?app_assoc.
      f_equal. unfold laneChain. rewrite HG. destruct (decide (cb_key cb = k)) as [<-|Hne].
      * rewrite decide_True by reflexivity. rewrite HGo.
        unfold chainIds, currentIds. rewrite Hcur. reflexivity.
      * rewrite decide_False by congruence. rewrite ?app_nil_r. reflexivity.
    + intros k. snoc_trace. rewrite (inv_started st HI k), <- ?app_assoc.
      f_equal. unfold laneRunning. rewrite HG. destruct (decide (cb_key cb = k)) as [<-|Hne].
      * rewrite decide_True by reflexivity. rewrite HGo.
        unfold currentIds. rewrite Hcur. reflexivity.
      * rewrite decide_False by congruence. rewrite ?app_nil_r. reflexivity.
    + intros k. rewrite serialOn_snoc, (inv_serial st HI k). cbn.
      unfold laneRunning. rewrite HG. destruct (decide (cb_key cb = k)) as [<-|Hne].
      * rewrite decide_True by reflexivity. rewrite HGo. unfold currentIds; cbn.
        rewrite Hcur; cbn. rewrite decide_True by reflexivity. reflexivity.
      * rewrite decide_False by congruence. reflexivity.
Qed.

Lemma setMaxDepth_Inv value st : Inv st -> Inv (setMaxDepth value st).
Proof.
  intros HI.
  exact (mkInv (setMaxDepth value st)
           (inv_depth st HI) (inv_active st HI) (inv_total st HI) (inv_fresh st HI)
           (inv_lanes st HI) (inv_owner st HI) (inv_submitted st HI)
           (inv_started st HI) (inv_serial st HI)).
Qed.

Lemma reachable_Inv st : reachable st -> Inv st.
Proof.
  induction 1 as [m | l st st1 _ IH Hstep].
  - apply create_Inv.
  - destruct l; cbn in Hstep.
    + inversion Hstep; subst. apply enqueue_Inv, IH.
    + eapply start_Inv; eauto.
    + eapply finish_Inv; eauto.
    + inversion Hstep; subst. apply setMaxDepth_Inv, IH.
Qed.

(** Number of entries enqueued and not yet started, over all lane objects. *)
Definition pendingCount (st : State) : Z :=
  map_fold (fun _ L acc => Z.of_nat (length (waiting L)) + acc) 0 (heap st).

Lemma sumDepth_pending (h : gmap nat Lane) :
  (forall r L, h !! r = Some L -> depth L = Z.of_nat (length (waiting L))) ->
  sumDepth h = map_fold (fun _ L acc => Z.of_nat (length (waiting L)) + acc) 0 h.
Proof.
  induction h as [|r L h Hr Hfold IH] using map_first_key_ind; intros Hall.
  - reflexivity.
  - rewrite sumDepth_insert_new by exact Hr.
    rewrite map_fold_insert_L; [| intros; lia | exact Hr].
    rewrite (Hall r L) by apply lookup_insert_eq.
    rewrite IH; [reflexivity|].
    intros r1 L1 H1. apply (Hall r1).
    rewrite lookup_insert_ne; [exact H1 | intros <-; congruence].
Qed.

Lemma totalDepth_pendingCount st : Inv st -> totalDepth st = pendingCount st.
Proof.
  intros HI. rewrite (inv_total st HI). apply sumDepth_pending, (inv_depth st HI).
Qed.

(** A queue with [maxDepth = 1] whose only entry, on lane "x", is running. *)
Definition oneRunning : State :=
  default (create (Some 1)) (run [DoEnqueue "x" 0 0; DoStart 0 1] (create (Some 1))).

Lemma lane_run_reachable ls : forall st st1,
  reachable st -> run ls st = Some st1 -> reachable st1.
Proof.
  induction ls as [|l ls IH]; intros st st1 Hst Hrun; cbn in Hrun.
  - inversion Hrun; subst; exact Hst.
  - destruct (step l st) as [st2|] eqn:E; cbn in Hrun; [|discriminate].
    apply (IH st2 st1); [|exact Hrun]. apply (reach_step l st st2); assumption.
Qed.

Lemma oneRunning_reachable : reachable oneRunning.
Proof.
  apply (lane_run_reachable [DoEnqueue "x" 0 0; DoStart 0 1] (create (Some 1))).
  - apply reach_create.
  - vm_compute. reflexivity.
Qed.

(** C2, as stated, fails: with one entry running and none pending the
    pending+active depth (1) has reached [maxDepth] (1), and [enqueue] is
    accepted all the same. *)
Lemma enqueue_accepted_at_pending_plus_active_max :
  ~ (forall st k t1 t2, reachable st ->
       (pendingPlusActive st >= maxDepth st <->
        exists e, fst (enqueue k t1 t2 st) = Throw e)).
Proof.
  intros H.
  destruct (proj1 (H oneRunning "x" 2 2 oneRunning_reachable)) as [e He].
  - vm_compute. discriminate.
  - vm_compute in He. discriminate.
Qed.

(** A queue with [maxDepth = 1] holding one entry that has not started. *)
Definition onePending : State := snd (enqueue "x" 0 0 (create (Some 1))).

Lemma onePending_reachable : reachable onePending.
Proof. apply (reach_step (DoEnqueue "x" 0 0) (create (Some 1))); [apply reach_create | reflexivity]. Qed.

(** C2 (amended). [totalDepth] counts the entries enqueued and not yet
    started (it is decremented when an entry starts to run).  [enqueue]
    throws the overflow error exactly when that count has reached
    [maxDepth]; it then leaves the whole queue state (lane counters, global
    counter, lane records, emitted events) unchanged; below [maxDepth] the
    call is accepted, the counter grows by one and one "lane.enqueue" event
    is emitted. *)
Theorem enqueue_overflow_iff_pending_at_max :
  forall st k t1 t2, reachable st ->
    totalDepth st = pendingCount st /\
    ((exists e, fst (enqueue k t1 t2 st) = Throw e) <-> pendingCount st >= maxDepth st) /\
    (pendingCount st >= maxDepth st ->
       enqueue k t1 t2 st = (Throw (Overflow (totalDepth st) (maxDepth st)), st)) /\
    (pendingCount st < maxDepth st ->
       exists id ev,
         fst (enqueue k t1 t2 st) = Ok id /\
         totalDepth (snd (enqueue k t1 t2 st)) = totalDepth st + 1 /\
         events (snd (enqueue k t1 t2 st)) = events st ++ [ev] /\
         ev_type ev = lane_enqueue).
Proof.
  intros st k t1 t2 Hst.
  pose proof (totalDepth_pendingCount st (reachable_Inv st Hst)) as Htot.
  split; [exact Htot|]. rewrite <- Htot.
  unfold enqueue.
  destruct (totalDepth st >=? maxDepth st) eqn:E.
  - apply Z.geb_le in E. repeat split.
    + intros _. lia.
    + intros _. eexists; reflexivity.
    + intros Hlt. lia.
  - assert (totalDepth st < maxDepth st) as Hlt.
    { destruct (Z.ltb_spec (totalDepth st) (maxDepth st)) as [H|H]; [exact H|].
      apply Z.geb_le in H. congruence. }
    repeat split.
    + intros [e He]. destruct (getLane st _) as [[r L]|]; cbn in He; discriminate.
    + intros Hge. lia.
    + intros Hge. lia.
    + intros _. destruct (getLane st _) as [[r L]|]; cbn;
        eexists _, _; repeat split; reflexivity.
Qed.

Lemma enqueue_overflow_iff_pending_at_max_witness :
  reachable onePending /\
  totalDepth onePending = pendingCount onePending /\
  ((exists e, fst (enqueue "x" 1 1 onePending) = Throw e) <->
     pendingCount onePending >= maxDepth onePending) /\
  (pendingCount onePending >= maxDepth onePending ->
     enqueue "x" 1 1 onePending =
       (Throw (Overflow (totalDepth onePending) (maxDepth onePending)), onePending)) /\
  (pendingCount onePending < maxDepth onePending ->
     exists id ev,
       fst (enqueue "x" 1 1 onePending) = Ok id /\
       totalDepth (snd (enqueue "x" 1 1 onePending)) = totalDepth onePending + 1 /\
       events (snd (enqueue "x" 1 1 onePending)) = events onePending ++ [ev] /\
       ev_type ev = lane_enqueue).
Proof.
  split; [exact onePending_reachable|].
  exact (enqueue_overflow_iff_pending_at_max onePending "x" 1 1 onePending_reachable).
Defined.

(** *** Progress of the lanes *)

Definition sumOver (f : Lane -> Z) (h : gmap nat Lane) : Z :=
  map_fold (fun _ L acc => f L + acc) 0 h.

Lemma sumOver_insert_new f (h : gmap nat Lane) r L :
  h !! r = None -> sumOver f (<[r := L]> h) = f L + sumOver f h.
Proof.
  intros Hr. unfold sumOver.
  rewrite map_fold_insert_L; [reflexivity | intros; lia | exact Hr].
Qed.

Lemma sumOver_update f (h : gmap nat Lane) r L L1 :
  h !! r = Some L -> sumOver f (<[r := L1]> h) = sumOver f h - f L + f L1.
Proof.
  intros Hr.
  rewrite <- (insert_delete_eq h r L1).
  rewrite sumOver_insert_new by apply lookup_delete_eq.
  unfold sumOver at 2.
  rewrite (map_fold_delete_L _ _ r L h);
    [fold (sumOver f (delete r h)); lia | intros; lia | exact Hr].
Qed.

Lemma sumOver_nonneg f (h : gmap nat Lane) :
  (forall r L, h !! r = Some L -> 0 <= f L) -> 0 <= sumOver f h.
Proof.
  induction h as [|r L h Hr Hfold IH] using map_first_key_ind; intros Hall.
  - unfold sumOver. rewrite map_fold_empty. lia.
  - rewrite sumOver_insert_new by exact Hr.
    assert (0 <= f L) by (apply (Hall r), lookup_insert_eq).
    assert (0 <= sumOver f h).
    { apply IH. intros r1 L1 H1. apply (Hall r1).
      rewrite lookup_insert_ne; [exact H1 | intros <-; congruence]. }
    lia.
Qed.

(** What is left to do on the lane objects: a callback that waits has to
    start and to finish, the run in progress has to finish. *)
Definition workLeft (st : State) : Z :=
  sumOver (fun L => 2 * depth L + active L) (heap st).

Lemma workLeft_nonneg st : Inv st -> 0 <= workLeft st.
Proof.
  intros HI. apply sumOver_nonneg. intros r L Hr.
  rewrite (inv_depth st HI r L Hr), (inv_active st HI r L Hr).
  destruct (current L); lia.
Qed.

(** The lane whose record is [r] starts its oldest waiting callback. *)
Lemma start_oldest st k r L :
  Inv st -> lanes st !! k = Some r -> heap st !! r = Some L -> current L = None ->
  exists cb rest,
    waiting L = cb :: rest /\ cb_key cb = k /\
    submittedOn k (trace st) = startedOn k (trace st) ++ cb_id cb :: map cb_id rest /\
    forall now, exists st1,
      start r now st = Some st1 /\
      trace st1 = trace st ++ [Started k (cb_id cb)] /\
      settled st1 = settled st /\
      lanes st1 = lanes st /\
      workLeft st1 = workLeft st - 1.
Proof.
  intros HI Hk Hr Hcur.
  destruct (inv_lanes st HI k r Hk) as (L1 & HL1 & Hne & Hkeys).
  assert (L1 = L) by congruence. subst L1.
  unfold callbacks in Hne, Hkeys. rewrite Hcur in Hne, Hkeys. cbn [app] in Hne, Hkeys.
  destruct (waiting L) as [|cb rest] eqn:Hw; [congruence|].
  exists cb, rest. split; [reflexivity|].
  assert (Hkey : cb_key cb = k) by (apply Hkeys; left).
  split; [exact Hkey|]. split.
  - rewrite (inv_submitted st HI k), (inv_started st HI k).
    unfold laneChain, laneRunning.
    rewrite (proj2 (getLane_Some st k r L) (conj Hk Hr)).
    unfold chainIds, currentIds. rewrite Hcur, Hw. cbn [app map].
    rewrite app_nil_r. reflexivity.
  - intros now. unfold start. rewrite Hr. cbn. rewrite Hcur, Hw.
    eexists. split; [reflexivity|]. cbn [trace settled lanes]. rewrite Hkey.
    split; [reflexivity|]. split; [reflexivity|]. split; [reflexivity|].
    unfold workLeft. cbn [heap].
    rewrite (sumOver_update _ _ r L _ Hr). cbn [depth active].
    pose proof (inv_depth st HI r L Hr) as Hd. rewrite Hw in Hd. cbn [length] in Hd.
    lia.
Qed.

(** The run in progress on the lane object [r] finishes, whatever its
    outcome; the record leaves [lanes] when nothing waits behind it. *)
Lemma finish_current st r L cb :
  Inv st -> heap st !! r = Some L -> current L = Some cb ->
  lanes st !! cb_key cb = Some r /\
  forall o now, exists st1,
    finish r o now st = Some st1 /\
    trace st1 = trace st ++ [Ended (cb_key cb) (cb_id cb) o] /\
    settled st1 = settled st ++ [(cb_id cb, o)] /\
    workLeft st1 = workLeft st - 1 /\
    match waiting L with
    | [] => lanes st1 = delete (cb_key cb) (lanes st)
    | next :: rest =>
        lanes st1 = lanes st /\
        forall now1, exists st2,
          start r now1 st1 = Some st2 /\
          trace st2 = trace st1 ++ [Started (cb_key cb) (cb_id next)]
    end.
Proof.
  intros HI Hr Hcur.
  assert (Hcb : cb ∈ callbacks L) by (unfold callbacks; rewrite Hcur; left).
  pose proof (inv_owner st HI r L cb Hr Hcb) as Hk.
  split; [exact Hk|]. intros o now.
  pose proof (inv_depth st HI r L Hr) as Hd.
  pose proof (inv_active st HI r L Hr) as Ha. rewrite Hcur in Ha.
  unfold finish. rewrite Hr. cbn. rewrite Hcur.
  eexists. split; [reflexivity|]. cbn [trace settled lanes heap depth active].
  split; [reflexivity|]. split; [reflexivity|]. split.
  { unfold workLeft. cbn [heap].
    rewrite (sumOver_update _ _ r L _ Hr). cbn [depth active]. lia. }
  destruct (waiting L) as [|next rest] eqn:Hw.
  - rewrite Hd, Ha. reflexivity.
  - rewrite Hd, Ha. cbn [length].
    replace (Z.of_nat (S (length rest)) =? 0) with false
      by (symmetry; apply Z.eqb_neq; lia).
    split; [reflexivity|]. intros now1.
    unfold start. cbn [heap]. rewrite lookup_insert_eq. cbn.
    eexists. split; [reflexivity|]. cbn [trace].
    assert (Hnext : cb_key next = cb_key cb).
    { destruct (inv_lanes st HI (cb_key cb) r Hk) as (L1 & HL1 & _ & Hkeys).
      assert (L1 = L) by congruence. subst L1. apply Hkeys.
      unfold callbacks. rewrite Hcur, Hw. right; left. }
    rewrite Hnext. reflexivity.
Qed.

(** A turn of the event loop in which a lane goes on: a callback starts,
    or the run in progress ends with the outcome its function has. *)
Definition goesOn (outcome : nat -> Outcome) (st : State) (l : Step) : Prop :=
  match l with
  | DoStart _ _ => True
  | DoFinish r o _ =>
      exists L cb, heap st !! r = Some L /\ current L = Some cb /\ o = outcome (cb_id cb)
  | _ => False
  end.

Fixpoint allGoOn (outcome : nat -> Outcome) (ls : list Step) (st : State) : Prop :=
  match ls with
  | [] => True
  | l :: rest =>
      goesOn outcome st l /\
      match step l st with
      | Some st1 => allGoOn outcome rest st1
      | None => False
      end
  end.

(** While a record is in [lanes], some lane can go on. *)
Lemma some_lane_goes_on outcome st :
  Inv st -> lanes st <> ∅ ->
  exists l st1,
    goesOn outcome st l /\ step l st = Some st1 /\
    workLeft st1 = workLeft st - 1 /\
    forall k, submittedOn k (trace st1) = submittedOn k (trace st).
Proof.
  intros HI Hne.
  destruct (map_choose _ Hne) as (k & r & Hk).
  destruct (inv_lanes st HI k r Hk) as (L & Hr & _ & _).
  destruct (current L) as [cb|] eqn:Hcur.
  - destruct (finish_current st r L cb HI Hr Hcur) as [_ H].
    destruct (H (outcome (cb_id cb)) 0) as (st1 & Hf & Htr & _ & Hw & _).
    exists (DoFinish r (outcome (cb_id cb)) 0), st1.
    split; [cbn; eauto|]. split; [exact Hf|]. split; [exact Hw|].
    intros k1. rewrite Htr. snoc_trace. reflexivity.
  - destruct (start_oldest st k r L HI Hk Hr Hcur) as (cb & rest & _ & _ & _ & H).
    destruct (H 0) as (st1 & Hs & Htr & _ & _ & Hw).
    exists (DoStart r 0), st1.
    split; [exact I|]. split; [exact Hs|]. split; [exact Hw|].
    intros k1. rewrite Htr. snoc_trace. reflexivity.
Qed.

(** What the promises returned by [enqueue] were settled with, read off
    the history. *)
Definition outcomesOf (tr : list Obs) : list (nat * Outcome) :=
  omap (fun o => match o with Ended _ id o => Some (id, o) | _ => None end) tr.

Lemma settled_outcomes st : reachable st -> settled st = outcomesOf (trace st).
Proof.
  induction 1 as [m | l st st1 _ IH Hstep]; [reflexivity|].
  destruct l as [k t1 t2 | r now | r o now | value]; cbn in Hstep.
  - inversion Hstep; subst; clear Hstep. unfold enqueue.
    destruct (totalDepth st >=? maxDepth st); [exact IH|].
    destruct (getLane st _) as [[r L]|]; cbn [snd settled trace];
      unfold outcomesOf; rewrite omap_app, app_nil_r; exact IH.
  - unfold start in Hstep.
    destruct (heap st !! r) as [L|]; cbn in Hstep; [|discriminate].
    destruct (current L); [destruct (waiting L); discriminate|].
    destruct (waiting L); [discriminate|].
    inversion Hstep; subst; cbn [settled trace].
    unfold outcomesOf; rewrite omap_app, app_nil_r; exact IH.
  - unfold finish in Hstep.
    destruct (heap st !! r) as [L|]; cbn in Hstep; [|discriminate].
    destruct (current L); [|discriminate].
    inversion Hstep; subst; cbn [settled trace].
    unfold outcomesOf; rewrite omap_app. fold (outcomesOf (trace st)).
    rewrite IH. reflexivity.
  - inversion Hstep; subst. exact IH.
Qed.

(** From any state the lanes run dry: the callbacks start and finish, each
    with the outcome its function has, until no record is left. *)
Lemma lanes_drain outcome n : forall st,
  reachable st -> workLeft st <= Z.of_nat n ->
  exists ls st1,
    run ls st = Some st1 /\ allGoOn outcome ls st /\ lanes st1 = ∅ /\
    (forall k, submittedOn k (trace st1) = submittedOn k (trace st)) /\
    (forall id o, (id, o) ∈ settled st1 -> (id, o) ∈ settled st \/ o = outcome id).
Proof.
  induction n as [|n IH]; intros st Hst Hw;
    (destruct (decide (lanes st = ∅)) as [He|Hne];
     [exists [], st; cbn; repeat split; auto|]);
    destruct (some_lane_goes_on outcome st (reachable_Inv st Hst) Hne)
      as (l & st1 & Hg & Hs & Hw1 & Hsub);
    pose proof (reach_step l st st1 Hst Hs) as Hst1;
    pose proof (workLeft_nonneg st1 (reachable_Inv st1 Hst1)) as Hnn; [lia|].
  destruct (IH st1 Hst1 ltac:(lia)) as (ls & st2 & Hrun & Hall & Hl & Hsub2 & Hset).
  exists (l :: ls), st2. cbn [run allGoOn]. rewrite Hs. cbn.
  split; [exact Hrun|]. split; [split; assumption|]. split; [exact Hl|]. split.
  - intros k. rewrite Hsub2. apply Hsub.
  - intros id o Hin. destruct (Hset id o Hin) as [Hin1|]; [|now right].
    destruct l as [k t1 t2 | r now | r o1 now | value]; cbn in Hg, Hs; try contradiction.
    + unfold start in Hs.
      destruct (heap st !! r) as [L|]; cbn in Hs; [|discriminate].
      destruct (current L); [destruct (waiting L); discriminate|].
      destruct (waiting L); [discriminate|].
      inversion Hs; subst; cbn [settled] in Hin1. now left.
    + destruct Hg as (L & cb & Hr & Hcur & ->).
      unfold finish in Hs. rewrite Hr in Hs. cbn in Hs. rewrite Hcur in Hs.
      inversion Hs; subst; cbn [settled] in Hin1.
      apply elem_of_app in Hin1. destruct Hin1 as [Hin1|Hin1]; [now left|].
      apply list_elem_of_singleton in Hin1. inversion Hin1; subst. now right.
Qed.

(** An accepted [enqueue] attaches its callback at the end of the chain of
    the lane. *)
Lemma enqueue_attaches st raw t1 t2 id :
  fst (enqueue raw t1 t2 st) = Ok id ->
  let k := if truthy raw then raw else "default" in
  let st1 := snd (enqueue raw t1 t2 st) in
  trace st1 = trace st ++ [Submitted k id] /\
  exists r L,
    lanes st1 !! k = Some r /\ heap st1 !! r = Some L /\
    last (waiting L) = Some {| cb_key := k; cb_id := id |}.
Proof.
  unfold enqueue. destruct (totalDepth st >=? maxDepth st); [discriminate|].
  set (k := if truthy raw then raw else "default").
  destruct (getLane st k) as [[r L]|] eqn:EL; cbn [fst snd]; intros [= <-];
    cbn [trace lanes heap]; (split; [reflexivity|]).
  - apply getLane_Some in EL as [Hk Hr].
    eexists r, _. split; [exact Hk|]. split; [apply lookup_insert_eq|].
    cbn [waiting]. apply last_snoc.
  - eexists (fresh st), _. split; [apply lookup_insert_eq|].
    split; [apply lookup_insert_eq|]. reflexivity.
Qed.

(** A queue with two entries on lane "x": the first one is running, the
    second one waits. *)
Definition twoOnLane : State :=
  default (create None)
    (run [DoEnqueue "x" 0 0; DoEnqueue "x" 1 1; DoStart 0 2] (create None)).

Lemma twoOnLane_reachable : reachable twoOnLane.
Proof.
  apply (lane_run_reachable [DoEnqueue "x" 0 0; DoEnqueue "x" 1 1; DoStart 0 2]
           (create None)).
  - apply reach_create.
  - vm_compute. reflexivity.
Qed.

(** C3. In every state the queue can reach, for every lane key:
    - an accepted [enqueue] attaches its function at the end of the chain
      of the lane;
    - the runs of the lane never overlap (replaying the history never sees
      a start while a run is in progress), and they start in submission
      order, none skipped;
    - every promise returned by [enqueue] whose run has ended was settled
      with the outcome of that run;
    - a lane with a record and no run in progress starts its oldest
      waiting entry, which is the first one submitted and not yet started;
    - the run in progress finishes whatever its outcome: its own [enqueue]
      caller is settled with the value or the exception, the record leaves
      [lanes] when nothing waits behind it, and otherwise the next entry
      starts;
    - whatever the functions return or throw, the queue runs dry: every
      entry submitted is run to its end, lane by lane in submission order,
      and no record is left;
    - a record stored in [lanes] never has [depth] and [active] both zero,
      and a lane object outside [lanes] has both zero: the record is
      removed exactly when both reach zero. *)
Theorem lane_runs_serial_fifo_and_record_removed :
  forall st, reachable st ->
    (forall raw t1 t2 id, fst (enqueue raw t1 t2 st) = Ok id ->
       let k := if truthy raw then raw else "default" in
       let st1 := snd (enqueue raw t1 t2 st) in
       submittedOn k (trace st1) = submittedOn k (trace st) ++ [id] /\
       exists r L,
         lanes st1 !! k = Some r /\ heap st1 !! r = Some L /\
         last (waiting L) = Some {| cb_key := k; cb_id := id |}) /\
    (forall k, is_Some (serialOn k (trace st))) /\
    (forall k, startedOn k (trace st) `prefix_of` submittedOn k (trace st)) /\
    settled st = outcomesOf (trace st) /\
    (forall k r L,
       lanes st !! k = Some r -> heap st !! r = Some L -> current L = None ->
       exists cb rest,
         waiting L = cb :: rest /\ cb_key cb = k /\
         submittedOn k (trace st) = startedOn k (trace st) ++ cb_id cb :: map cb_id rest /\
         forall now, exists st1,
           start r now st = Some st1 /\
           trace st1 = trace st ++ [Started k (cb_id cb)]) /\
    (forall r L cb,
       heap st !! r = Some L -> current L = Some cb ->
       lanes st !! cb_key cb = Some r /\
       forall o now, exists st1,
         finish r o now st = Some st1 /\
         trace st1 = trace st ++ [Ended (cb_key cb) (cb_id cb) o] /\
         settled st1 = settled st ++ [(cb_id cb, o)] /\
         match waiting L with
         | [] => lanes st1 !! cb_key cb = None
         | next :: rest =>
             lanes st1 !! cb_key cb = Some r /\
             forall now1, exists st2,
               start r now1 st1 = Some st2 /\
               trace st2 = trace st1 ++ [Started (cb_key cb) (cb_id next)]
         end) /\
    (forall outcome : nat -> Outcome, exists ls st1,
       run ls st = Some st1 /\ allGoOn outcome ls st /\ lanes st1 = ∅ /\
       (forall k, endedOn k (trace st1) = submittedOn k (trace st)) /\
       (forall id o, (id, o) ∈ settled st1 -> (id, o) ∈ settled st \/ o = outcome id)) /\
    (forall k r L, lanes st !! k = Some r -> heap st !! r = Some L ->
       0 < depth L + active L) /\
    (forall r L, heap st !! r = Some L ->
       (depth L = 0 /\ active L = 0) \/ exists k, lanes st !! k = Some r).
Proof.
  intros st Hst. pose proof (reachable_Inv st Hst) as HI.
  split; [|split; [|split; [|split; [|split; [|split; [|split; [|split]]]]]]].
  - intros raw t1 t2 id Hok k st1.
    destruct (enqueue_attaches st raw t1 t2 id Hok) as [Htr H].
    split; [|exact H]. unfold st1. rewrite Htr. snoc_trace.
    fold k. rewrite decide_True by reflexivity. reflexivity.
  - intros k. rewrite (inv_serial st HI k). eexists; reflexivity.
  - intros k. rewrite (inv_started st HI k), (inv_submitted st HI k).
    unfold laneChain, laneRunning. destruct (getLane st k) as [[r L]|].
    + exists (map cb_id (waiting L)). unfold chainIds. rewrite app_assoc. reflexivity.
    + exists []. rewrite !app_nil_r. reflexivity.
  - apply settled_outcomes, Hst.
  - intros k r L Hk Hr Hcur.
    destruct (start_oldest st k r L HI Hk Hr Hcur) as (cb & rest & Hw & Hkey & Hsub & H).
    exists cb, rest. repeat (split; [assumption|]).
    intros now. destruct (H now) as (st1 & Hs & Htr & _). eauto.
  - intros r L cb Hr Hcur.
    destruct (finish_current st r L cb HI Hr Hcur) as [Hk H].
    split; [exact Hk|]. intros o now.
    destruct (H o now) as (st1 & Hf & Htr & Hset & _ & Hnext).
    exists st1. repeat (split; [assumption|]).
    destruct (waiting L) as [|next rest].
    + rewrite Hnext. apply lookup_delete_eq.
    + destruct Hnext as [-> Hnext]. split; assumption.
  - intros outcome.
    destruct (lanes_drain outcome (Z.to_nat (workLeft st)) st Hst ltac:(lia))
      as (ls & st1 & Hrun & Hall & Hl & Hsub & Hset).
    exists ls, st1. repeat (split; [assumption|]). split; [|exact Hset].
    intros k. rewrite <- Hsub.
    pose proof (reachable_Inv st1 (lane_run_reachable ls st st1 Hst Hrun)) as HI1.
    rewrite (inv_submitted st1 HI1 k). unfold laneChain, getLane.
    rewrite Hl, lookup_empty. cbn. rewrite app_nil_r. reflexivity.
  - intros k r L Hk Hr.
    destruct (inv_lanes st HI k r Hk) as (L1 & HL1 & Hne & _).
    assert (L1 = L) by congruence. subst L1.
    rewrite (inv_depth st HI r L Hr), (inv_active st HI r L Hr).
    unfold callbacks in Hne. destruct (current L); [lia|].
    destruct (waiting L); [cbn in Hne; congruence | cbn [length]; lia].
  - intros r L Hr.
    destruct (callbacks L) as [|cb rest] eqn:E.
    + left. rewrite (inv_depth st HI r L Hr), (inv_active st HI r L Hr).
      unfold callbacks in E. destruct (current L); [discriminate|].
      cbn in E. rewrite E. split; reflexivity.
    + right. exists (cb_key cb). apply (inv_owner st HI r L cb Hr). rewrite E. left.
Qed.

Lemma lane_runs_serial_fifo_and_record_removed_witness :
  reachable twoOnLane /\
  (forall k, is_Some (serialOn k (trace twoOnLane))) /\
  exists st1 st2,
    finish 0 (Threw "boom") 3 twoOnLane = Some st1 /\
    settled st1 = [(0%nat, Threw "boom")] /\
    lanes st1 !! "x" = Some 0%nat /\
    start 0 4 st1 = Some st2 /\
    trace st2 = trace st1 ++ [Started "x" 1].
Proof.
  split; [exact twoOnLane_reachable|].
  pose proof (lane_runs_serial_fifo_and_record_removed twoOnLane twoOnLane_reachable)
    as (_ & Hserial & _ & _ & _ & Hfinish & _).
  split; [exact Hserial|].
  destruct (Hfinish 0%nat
              {| depth := 1; active := 1; updatedAt := 2;
                 current := Some (mkCallback "x" 0); waiting := [mkCallback "x" 1] |}
              (mkCallback "x" 0) ltac:(vm_compute; reflexivity) eq_refl) as [_ H].
  destruct (H (Threw "boom") 3) as (st1 & Hf & _ & Hset & Hk & Hnext).
  destruct (Hnext 4) as (st2 & Hs & Htr).
  exists st1, st2. repeat (split; [assumption|]). exact Htr.
Defined.

(** *** The depth counters *)

Lemma maxDepth_positive st : reachable st -> 1 <= maxDepth st.
Proof.
  induction 1 as [m | l st st1 Hst IH Hstep].
  - cbn. lia.
  - destruct l as [k t1 t2 | r now | r o now | value]; cbn in Hstep.
    + inversion Hstep; subst; clear Hstep. unfold enqueue.
      destruct (totalDepth st >=? maxDepth st); [exact IH|].
      destruct (getLane st _) as [[r L]|]; cbn; exact IH.
    + unfold start in Hstep.
      destruct (heap st !! r) as [L|]; cbn in Hstep; [|discriminate].
      destruct (current L); [destruct (waiting L); discriminate|].
      destruct (waiting L); [discriminate|].
      inversion Hstep; subst; cbn. exact IH.
    + unfold finish in Hstep.
      destruct (heap st !! r) as [L|]; cbn in Hstep; [|discriminate].
      destruct (current L); [|discriminate].
      inversion Hstep; subst; cbn. exact IH.
    + inversion Hstep; subst. destruct value; cbn; lia.
Qed.

Lemma start_getDepth st r now st1 :
  Inv st -> start r now st = Some st1 ->
  getDepth st1 = getDepth st - 1 /\ maxDepth st1 = maxDepth st.
Proof.
  intros HI. unfold start, getDepth.
  assert (Hnn : forall r L, heap st !! r = Some L -> 0 <= depth L).
  { intros r0 L0. apply depth_nonneg, HI. }
  destruct (heap st !! r) as [L|] eqn:Hr; cbn; [|discriminate].
  destruct (current L); [destruct (waiting L); discriminate|].
  destruct (waiting L) as [|cb rest] eqn:Hw; [discriminate|].
  intros [= <-]. cbn.
  pose proof (sumDepth_ge (heap st) r L Hnn Hr) as Hge.
  rewrite (inv_depth st HI r L Hr), Hw in Hge. cbn [length] in Hge.
  rewrite (inv_total st HI). lia.
Qed.

Lemma enqueue_getDepth st k t1 t2 id :
  fst (enqueue k t1 t2 st) = Ok id ->
  getDepth (snd (enqueue k t1 t2 st)) = getDepth st + 1 /\
  getDepth (snd (enqueue k t1 t2 st)) <= maxDepth st /\
  maxDepth (snd (enqueue k t1 t2 st)) = maxDepth st.
Proof.
  unfold enqueue, getDepth.
  destruct (totalDepth st >=? maxDepth st) eqn:E; [discriminate|].
  assert (totalDepth st < maxDepth st).
  { destruct (Z.ltb_spec (totalDepth st) (maxDepth st)) as [H|H]; [exact H|].
    apply Z.geb_le in H. congruence. }
  destruct (getLane st _) as [[r L]|]; cbn; intros _; lia.
Qed.

(** The global counter: in every state the queue can reach, [maxDepth] is
    at least 1 and [getDepth()] is not negative; an accepted [enqueue]
    raises the counter by one and leaves it at most [maxDepth]; when an
    entry starts to run the counter goes down by exactly one (the clamp at
    zero never applies); and no turn of the event loop other than the
    assignment of [maxDepth] by the settings route takes the counter above
    [maxDepth].  That assignment leaves the counter as it is and sets a
    limit between 10 and 2000, which may lie below the counter. *)
Theorem getDepth_exceeds_maxDepth_only_when_the_limit_is_lowered :
  forall st, reachable st ->
    1 <= maxDepth st /\
    0 <= getDepth st /\
    (forall k t1 t2 id, fst (enqueue k t1 t2 st) = Ok id ->
       getDepth (snd (enqueue k t1 t2 st)) = getDepth st + 1 /\
       getDepth (snd (enqueue k t1 t2 st)) <= maxDepth st) /\
    (forall r now st1, start r now st = Some st1 -> getDepth st1 = getDepth st - 1) /\
    (forall l st1, step l st = Some st1 -> (forall value, l <> DoSetMaxDepth value) ->
       maxDepth st1 = maxDepth st /\
       (getDepth st <= maxDepth st -> getDepth st1 <= maxDepth st1)) /\
    (forall value,
       getDepth (setMaxDepth value st) = getDepth st /\
       10 <= maxDepth (setMaxDepth value st) <= 2000).
Proof.
  intros st Hst. pose proof (reachable_Inv st Hst) as HI.
  split; [apply maxDepth_positive, Hst|]. split.
  { unfold getDepth. rewrite (inv_total st HI). apply sumDepth_nonneg.
    intros r L. apply depth_nonneg, HI. }
  split.
  { intros k t1 t2 id Hok. destruct (enqueue_getDepth st k t1 t2 id Hok) as (H1 & H2 & _).
    split; assumption. }
  split.
  { intros r now st1 Hs. apply (start_getDepth st r now st1 HI Hs). }
  split.
  - intros l st1 Hstep Hl.
    destruct l as [k t1 t2 | r now | r o now | value]; cbn in Hstep.
    + inversion Hstep; subst; clear Hstep.
      destruct (fst (enqueue k t1 t2 st)) as [id|e] eqn:E.
      * destruct (enqueue_getDepth st k t1 t2 id E) as (H1 & H2 & H3).
        split; [exact H3|]. intros _. rewrite H3. exact H2.
      * unfold enqueue in *.
        destruct (totalDepth st >=? maxDepth st); [split; auto|].
        destruct (getLane st _) as [[r L]|]; cbn in E; discriminate.
    + destruct (start_getDepth st r now st1 HI Hstep) as [H1 H2].
      split; [exact H2|]. intros Hle. rewrite H1, H2. lia.
    + unfold finish in Hstep.
      destruct (heap st !! r) as [L|]; cbn in Hstep; [|discriminate].
      destruct (current L); [|discriminate].
      inversion Hstep; subst; cbn. split; [reflexivity | auto].
    + exfalso. apply (Hl value). reflexivity.
  - intros value. split; [reflexivity|]. destruct value; cbn; lia.
Qed.

Lemma getDepth_exceeds_maxDepth_only_when_the_limit_is_lowered_witness :
  reachable onePending /\
  getDepth onePending = 1 /\
  (forall r now st1, start r now onePending = Some st1 -> getDepth st1 = 0) /\
  (forall st1, step (DoStart 0 1) onePending = Some st1 -> getDepth st1 <= maxDepth st1).
Proof.
  split; [exact onePending_reachable|].
  pose proof (getDepth_exceeds_maxDepth_only_when_the_limit_is_lowered
                onePending onePending_reachable) as (_ & _ & _ & Hstart & Hstep & _).
  split; [reflexivity|]. split.
  - intros r now st1 Hs. rewrite (Hstart r now st1 Hs). reflexivity.
  - intros st1 Hs.
    apply (Hstep (DoStart 0 1) st1 Hs); [discriminate | vm_compute; discriminate].
Defined.

Lemma chainIds_length st r L :
  Inv st -> heap st !! r = Some L ->
  Z.of_nat (length (chainIds L)) = depth L + active L.
Proof.
  intros HI Hr. rewrite (inv_depth st HI r L Hr), (inv_active st HI r L Hr).
  unfold chainIds, currentIds. rewrite length_app, length_map.
  destruct (current L); cbn [length]; lia.
Qed.

(** [getLaneDepth] reports the calls of a lane that have not finished: in
    every state the queue can reach it is the number of [enqueue] calls
    accepted on the lane (after the key was defaulted) minus the number of
    those whose function has ended, whether these are still waiting or
    running. *)
Theorem getLaneDepth_counts_unfinished_calls :
  forall st rawLaneKey, reachable st ->
    let laneKey := if truthy rawLaneKey then rawLaneKey else "default" in
    getLaneDepth st rawLaneKey =
      Z.of_nat (length (submittedOn laneKey (trace st)))
      - Z.of_nat (length (endedOn laneKey (trace st))).
Proof.
  intros st raw Hst laneKey. pose proof (reachable_Inv st Hst) as HI.
  rewrite (inv_submitted st HI laneKey), length_app.
  unfold getLaneDepth, laneChain. fold laneKey.
  destruct (getLane st laneKey) as [[r L]|] eqn:E.
  - apply getLane_Some in E as [_ Hr].
    pose proof (chainIds_length st r L HI Hr). lia.
  - cbn [length]. lia.
Qed.

Lemma getLaneDepth_counts_unfinished_calls_witness :
  reachable oneRunning /\
  getLaneDepth oneRunning "x" =
    Z.of_nat (length (submittedOn "x" (trace oneRunning)))
    - Z.of_nat (length (endedOn "x" (trace oneRunning))).
Proof.
  split; [exact oneRunning_reachable|].
  exact (getLaneDepth_counts_unfinished_calls oneRunning "x" oneRunning_reachable).
Defined.

End LaneQueue.

(* ===================================================================== *)
(** ** The runtime event bus *)
(* ===================================================================== *)
Module RuntimeEventBus.

(** An event; the payload is whatever object the emitter passes. *)
Record Event := mkEvent {
  ev_seq : Z;
  ev_ts : Z;
  ev_type : string;
  ev_payload : string;
}.

(** The bus, and what it writes to outside itself: the events file, the
    rotated file [eventsPath.1], and the calls of the listeners.  [batch]
    is the local variable of the [flush()] in progress. *)
Record Bus := mkBus {
  bufferSize : Z;
  enabled : bool;
  flushIntervalMs : Z;
  maxFileBytes : Z;
  seq : Z;
  listeners : list nat;            (* the [Set], in insertion order *)
  buffer : list Event;
  pending : list Event;
  flushTimer : bool;
  flushInFlight : bool;
  batch : list Event;
  file : list Event;               (* the lines of [eventsPath] *)
  rotated : list Event;            (* the lines of [eventsPath.1] *)
  heard : list (nat * Event);      (* [listener(event)] calls, in order *)
}.

(** [Number(value) || fallback]; [None] stands for a value that is not a
    number. *)
Definition numberOr (value : option Z) (fallback : Z) : Z :=
  match value with
  | Some n => if n =? 0 then fallback else n
  | None => fallback
  end.

(** [new RuntimeEventBus({ bufferSize, enabled, flushIntervalMs, maxFileBytes })] *)
Definition create (bufferSizeArg : option Z) (enabledArg : bool)
    (flushIntervalArg maxFileBytesArg : option Z) : Bus :=
  {| bufferSize := Z.max 100 (numberOr bufferSizeArg 500);
     enabled := enabledArg;
     flushIntervalMs := Z.max 20 (numberOr flushIntervalArg 200);
     maxFileBytes := Z.max (1024 * 1024) (numberOr maxFileBytesArg (20 * 1024 * 1024));
     seq := 0; listeners := []; buffer := []; pending := [];
     flushTimer := false; flushInFlight := false;
     batch := []; file := []; rotated := []; heard := [] |}.

(** [on(listener)] and the function it returns, which removes the
    listener again. *)
Definition withListeners (ls : list nat) (st : Bus) : Bus :=
  {| bufferSize := bufferSize st; enabled := enabled st;
     flushIntervalMs := flushIntervalMs st; maxFileBytes := maxFileBytes st;
     seq := seq st; listeners := ls; buffer := buffer st; pending := pending st;
     flushTimer := flushTimer st; flushInFlight := flushInFlight st;
     batch := batch st; file := file st; rotated := rotated st; heard := heard st |}.

Definition on (listener : nat) (st : Bus) : Bus :=
  if bool_decide (listener ∈ listeners st) then st
  else withListeners (listeners st ++ [listener]) st.

Definition off (listener : nat) (st : Bus) : Bus :=
  withListeners (List.filter (fun l => negb (Nat.eqb l listener)) (listeners st)) st.

Definition withTimer (armed : bool) (st : Bus) : Bus :=
  {| bufferSize := bufferSize st; enabled := enabled st;
     flushIntervalMs := flushIntervalMs st; maxFileBytes := maxFileBytes st;
     seq := seq st; listeners := listeners st; buffer := buffer st;
     pending := pending st;
     flushTimer := armed; flushInFlight := flushInFlight st;
     batch := batch st; file := file st; rotated := rotated st; heard := heard st |}.

(** [scheduleFlush()] *)
Definition scheduleFlush (st : Bus) : Bus :=
  if flushTimer st || flushInFlight st then st else withTimer true st.

(** [emit(type, payload)] at time [now]; the listeners are taken not to
    call the bus themselves, and what they throw is ignored. *)
Definition emit (type payload : string) (now : Z) (st : Bus) : option Event * Bus :=
  if negb (enabled st) then (None, st)
  else
    let event := {| ev_seq := seq st + 1; ev_ts := now;
                    ev_type := type; ev_payload := payload |} in
    let pushed := buffer st ++ [event] in
    (Some event,
     scheduleFlush
       {| bufferSize := bufferSize st; enabled := enabled st;
          flushIntervalMs := flushIntervalMs st; maxFileBytes := maxFileBytes st;
          seq := seq st + 1; listeners := listeners st;
          buffer := if Z.of_nat (length pushed) >? bufferSize st
                    then tail pushed else pushed;
          pending := pending st ++ [event];
          flushTimer := flushTimer st; flushInFlight := flushInFlight st;
          batch := batch st; file := file st; rotated := rotated st;
          heard := heard st ++ map (fun l => (l, event)) (listeners st) |}).

(** [getRecent(limit)]: [this.buffer.slice(-Math.max(1, limit))] *)
Definition getRecent (limit : Z) (st : Bus) : list Event :=
  skipn (length (buffer st) - Z.to_nat (Z.max 1 limit)) (buffer st).

(** [flush()] up to its first [await]: the pending events become the batch
    to write. *)
Definition flushBegin (st : Bus) : Bus :=
  if negb (enabled st) || flushInFlight st || bool_decide (pending st = []) then st
  else
    {| bufferSize := bufferSize st; enabled := enabled st;
       flushIntervalMs := flushIntervalMs st; maxFileBytes := maxFileBytes st;
       seq := seq st; listeners := listeners st; buffer := buffer st;
       pending := [];
       flushTimer := flushTimer st; flushInFlight := true;
       batch := pending st; file := file st; rotated := rotated st;
       heard := heard st |}.

(** What [rotateIfNeeded] did: nothing (the file is small enough, or does
    not exist), the rotation (the old [eventsPath.1] removed and the events
    file renamed to it), or only its first half (the rename failed). *)
Inductive Rotation := NotRotated | Renamed | RemovedOnly.

(** How the file operations of a flush turn out: the rotation, and whether
    the batch was appended or, an operation having failed, dropped. *)
Record Outcome := mkOutcome { rotation : Rotation; appended : bool }.

(** The rest of [flush()]: the file operations, then the [finally]
    block. *)
Definition flushEnd (o : Outcome) (st : Bus) : Bus :=
  let kept := match rotation o with Renamed => [] | _ => file st end in
  let st1 :=
    {| bufferSize := bufferSize st; enabled := enabled st;
       flushIntervalMs := flushIntervalMs st; maxFileBytes := maxFileBytes st;
       seq := seq st; listeners := listeners st; buffer := buffer st;
       pending := pending st;
       flushTimer := flushTimer st; flushInFlight := false;
       batch := [];
       file := if appended o then kept ++ batch st else kept;
       rotated := match rotation o with
                  | NotRotated => rotated st
                  | Renamed => file st
                  | RemovedOnly => []
                  end;
       heard := heard st |} in
  match pending st1 with
  | [] => st1
  | _ :: _ => scheduleFlush st1
  end.

(** [shutdown()], up to the first [await] of its [flush()]. *)
Definition shutdown (st : Bus) : Bus := flushBegin (withTimer false st).

(** The life of the bus. *)
Inductive Step :=
  | DoOn (listener : nat)
  | DoOff (listener : nat)
  | DoEmit (type payload : string) (now : Z)
  | DoTimer                              (* the flush timer fires *)
  | DoFlush                              (* a call of [flush()] *)
  | DoFlushEnd (o : Outcome)             (* the flush in progress ends *)
  | DoShutdown.

Definition step (l : Step) (st : Bus) : option Bus :=
  match l with
  | DoOn listener => Some (on listener st)
  | DoOff listener => Some (off listener st)
  | DoEmit type payload now => Some (snd (emit type payload now st))
  | DoTimer => if flushTimer st then Some (flushBegin (withTimer false st)) else None
  | DoFlush => Some (flushBegin st)
  | DoFlushEnd o => if flushInFlight st then Some (flushEnd o st) else None
  | DoShutdown => Some (shutdown st)
  end.

Fixpoint run (ls : list Step) (st : Bus) : option Bus :=
  match ls with
  | [] => Some st
  | l :: rest => st1 ← step l st; run rest st1
  end.

(** *** The sequence numbers *)

(** [ascending l]: every number of [l] is less than those that follow. *)
Fixpoint ascending (l : list Z) : Prop :=
  match l with
  | [] => True
  | x :: rest => Forall (Z.lt x) rest /\ ascending rest
  end.

Lemma ascending_app l1 l2 :
  ascending (l1 ++ l2) <->
  ascending l1 /\ ascending l2 /\ forall x y, x ∈ l1 -> y ∈ l2 -> x < y.
Proof.
  induction l1 as [|a l1 IH]; cbn [app ascending].
  - split; [intros H; repeat split; [exact H | intros x y Hx; inversion Hx] | tauto].
  - rewrite IH, Forall_app, !Forall_forall. split.
    + intros ((H1 & H2) & H3 & H4 & H5). repeat split; try assumption.
      intros x y Hx Hy. apply elem_of_cons in Hx as [-> | Hx]; [apply H2, Hy | apply H5; assumption].
    + intros ((H1 & H2) & H3 & H4). repeat split; try assumption.
      * intros y Hy. apply H4; [left | exact Hy].
      * intros x y Hx Hy. apply H4; [right; exact Hx | exact Hy].
Qed.

Lemma ascending_seqZ m n : ascending (seqZ m n).
Proof.
  destruct (Z.le_gt_cases n 0) as [Hn | Hn]; [rewrite seqZ_nil by exact Hn; exact I|].
  rewrite <- (Z2Nat.id n) by lia. generalize (Z.to_nat n) as k. clear n Hn.
  intros k. revert m. induction k as [|k IH]; intros m; [exact I|].
  rewrite seqZ_cons by lia. cbn [ascending]. split.
  - apply Forall_seqZ. intros x Hx. lia.
  - replace (Z.pred (Z.of_nat (S k))) with (Z.of_nat k) by lia. apply IH.
Qed.

Lemma tail_map {A B} (f : A -> B) (l : list A) : map f (tail l) = tail (map f l).
Proof. destruct l; reflexivity. Qed.

Lemma seqZ_eq m n m' n' : m = m' -> n = n' -> seqZ m n = seqZ m' n'.
Proof. congruence. Qed.

Lemma seqZ_snoc m n : 0 <= n -> seqZ m n ++ [m + n] = seqZ m (n + 1).
Proof.
  intros Hn. rewrite (seqZ_app m n 1) by lia. reflexivity.
Qed.

Lemma seqZ_tail m n : 0 < n -> tail (seqZ m n) = seqZ (m + 1) (n - 1).
Proof. intros Hn. rewrite seqZ_cons by exact Hn. apply seqZ_eq; lia. Qed.

Lemma seqZ_skipn k : forall m n,
  skipn k (seqZ m n) = seqZ (m + Z.of_nat k) (n - Z.of_nat k).
Proof.
  induction k as [|k IH]; intros m n.
  - cbn [skipn]. apply seqZ_eq; lia.
  - destruct (Z.le_gt_cases n 0) as [Hn | Hn].
    + rewrite !seqZ_nil by lia. reflexivity.
    + rewrite seqZ_cons by exact Hn. cbn [skipn]. rewrite IH. apply seqZ_eq; lia.
Qed.

(** What holds of a bus in every state: the buffer holds the events numbered
    up to [seq], as many as [bufferSize] allows; the batch being written
    and the pending events are the last events emitted; what the two files
    hold was emitted before these, in the order of the numbers. *)
Record Inv (st : Bus) : Prop := mkInv {
  inv_size : 100 <= bufferSize st;
  inv_seq : 0 <= seq st;
  inv_buffer :
    map ev_seq (buffer st) =
      seqZ (seq st - Z.min (seq st) (bufferSize st) + 1) (Z.min (seq st) (bufferSize st));
  inv_queue :
    map ev_seq (batch st ++ pending st) =
      seqZ (seq st - Z.of_nat (length (batch st ++ pending st)) + 1)
           (Z.of_nat (length (batch st ++ pending st)));
  inv_queue_len : Z.of_nat (length (batch st ++ pending st)) <= seq st;
  inv_disk : ascending (map ev_seq (rotated st ++ file st));
  inv_disk_before : forall e, e ∈ rotated st ++ file st ->
      1 <= ev_seq e <= seq st - Z.of_nat (length (batch st ++ pending st));
  inv_batch : flushInFlight st = false -> batch st = [];
  inv_disabled : enabled st = false -> seq st = 0;
}.

Lemma new_bus_Inv a b c d : Inv (create a b c d).
Proof.
  split; cbn [bufferSize enabled seq buffer pending batch file rotated flushInFlight
                create app map length].
  - lia.
  - lia.
  - rewrite seqZ_nil by lia. reflexivity.
  - reflexivity.
  - lia.
  - exact I.
  - intros e H. inversion H.
  - reflexivity.
  - reflexivity.
Qed.

Lemma Inv_same st st1 :
  Inv st ->
  bufferSize st1 = bufferSize st -> enabled st1 = enabled st -> seq st1 = seq st ->
  buffer st1 = buffer st -> pending st1 = pending st -> batch st1 = batch st ->
  file st1 = file st -> rotated st1 = rotated st -> flushInFlight st1 = flushInFlight st ->
  Inv st1.
Proof.
  intros [H1 H2 H3 H4 HL H5 H6 H7 H8] E1 E2 E3 E4 E5 E6 E7 E8 E9.
  split; rewrite ?E1, ?E2, ?E3, ?E4, ?E5, ?E6, ?E7, ?E8, ?E9; assumption.
Qed.

Lemma scheduleFlush_Inv st : Inv st -> Inv (scheduleFlush st).
Proof.
  intros H. unfold scheduleFlush. destruct (_ || _); [exact H|].
  apply (Inv_same st); auto.
Qed.

Lemma emit_Inv type payload now st : Inv st -> Inv (snd (emit type payload now st)).
Proof.
  intros H. unfold emit. destruct (enabled st) eqn:He; cbn [negb snd]; [|exact H].
  apply scheduleFlush_Inv.
  destruct H as [H1 H2 H3 H4 HL H5 H6 H7 H8].
  assert (Hlen : Z.of_nat (length (buffer st)) = Z.min (seq st) (bufferSize st)).
  { rewrite <- (length_map ev_seq), H3, length_seqZ. lia. }
  split; cbn [bufferSize enabled seq buffer pending batch file rotated flushInFlight].
  - exact H1.
  - lia.
  - rewrite length_app. cbn [length].
    destruct (_ >? bufferSize st) eqn:E.
    + rewrite Z.gtb_ltb in E. apply Z.ltb_lt in E.
      rewrite tail_map, map_app, H3. cbn [map ev_seq].
      replace (seq st + 1) with
        ((seq st - Z.min (seq st) (bufferSize st) + 1) + Z.min (seq st) (bufferSize st))
        at 1 by lia.
      rewrite seqZ_snoc by lia. rewrite seqZ_tail by lia. apply seqZ_eq; lia.
    + rewrite Z.gtb_ltb in E. apply Z.ltb_ge in E.
      rewrite map_app, H3. cbn [map ev_seq].
      replace (seq st + 1) with
        ((seq st - Z.min (seq st) (bufferSize st) + 1) + Z.min (seq st) (bufferSize st))
        at 1 by lia.
      rewrite seqZ_snoc by lia. apply seqZ_eq; lia.
  - rewrite app_assoc, map_app, H4, (length_app (batch st ++ pending st)).
    cbn [map ev_seq length].
    set (m := length (batch st ++ pending st)).
    replace (seq st + 1) with ((seq st - Z.of_nat m + 1) + Z.of_nat m) at 1 by lia.
    rewrite seqZ_snoc by lia. apply seqZ_eq; lia.
  - rewrite app_assoc, length_app. cbn [length]. lia.
  - exact H5.
  - intros e Hin. specialize (H6 e Hin). rewrite app_assoc, length_app. cbn [length]. lia.
  - exact H7.
  - intros E. congruence.
Qed.

Lemma seqZ_split (l1 l2 : list Event) a :
  map ev_seq (l1 ++ l2) = seqZ a (Z.of_nat (length (l1 ++ l2))) ->
  map ev_seq l1 = seqZ a (Z.of_nat (length l1)) /\
  map ev_seq l2 = seqZ (a + Z.of_nat (length l1)) (Z.of_nat (length l2)).
Proof.
  rewrite length_app, Nat2Z.inj_add, seqZ_app, map_app by lia. intros H.
  apply app_inj_1 in H; [exact H|].
  rewrite length_map, length_seqZ. lia.
Qed.

Lemma ascending_app_l l1 l2 : ascending (l1 ++ l2) -> ascending l1.
Proof. intros H. now apply ascending_app in H. Qed.

Lemma ascending_app_r l1 l2 : ascending (l1 ++ l2) -> ascending l2.
Proof. intros H. now apply ascending_app in H. Qed.

Lemma flushBegin_Inv st : Inv st -> Inv (flushBegin st).
Proof.
  intros H. unfold flushBegin.
  destruct (enabled st) eqn:He; cbn [negb orb]; [|exact H].
  destruct (flushInFlight st) eqn:Hf; cbn [orb]; [exact H|].
  destruct (bool_decide (pending st = [])); [exact H|].
  destruct H as [H1 H2 H3 H4 HL H5 H6 H7 H8].
  rewrite (H7 Hf) in *. cbn [app] in *.
  split; cbn [bufferSize enabled seq buffer pending batch file rotated flushInFlight];
    rewrite ?app_nil_r; try assumption.
  all: discriminate.
Qed.

Lemma flushEnd_Inv o st : Inv st -> Inv (flushEnd o st).
Proof.
  intros H. unfold flushEnd.
  match goal with |- context [pending ?s] => set (st1 := s) end.
  assert (H1 : Inv st1).
  { destruct H as [H1 H2 H3 H4 HL H5 H6 H7 H8].
    set (a := seq st - Z.of_nat (length (batch st ++ pending st)) + 1) in *.
    destruct (seqZ_split (batch st) (pending st) a H4) as [Hb Hp].
    assert (Hlen : Z.of_nat (length (batch st ++ pending st)) =
                   Z.of_nat (length (batch st)) + Z.of_nat (length (pending st)))
      by (rewrite length_app; lia).
    assert (Hbatch : forall e, e ∈ batch st ->
              a <= ev_seq e <= seq st - Z.of_nat (length (pending st))).
    { intros e He.
      assert (Hin : ev_seq e ∈ map ev_seq (batch st))
        by (apply list_elem_of_fmap; exists e; auto).
      rewrite Hb in Hin. apply elem_of_seqZ in Hin.
      unfold a in *. lia. }
    assert (Hdisk : forall e, e ∈ rotated st ++ file st -> 1 <= ev_seq e < a).
    { intros e He. specialize (H6 e He). unfold a. lia. }
    assert (Hasc : forall X, ascending (map ev_seq X) ->
              (forall e, e ∈ X -> e ∈ rotated st ++ file st) ->
              ascending (map ev_seq (X ++ batch st))).
    { intros X HX Hsub. rewrite map_app. apply ascending_app. split; [exact HX|].
      split; [rewrite Hb; apply ascending_seqZ|].
      intros x y Hx Hy.
      apply list_elem_of_fmap in Hx as (ex & -> & Hex).
      apply list_elem_of_fmap in Hy as (ey & -> & Hey).
      specialize (Hdisk ex (Hsub ex Hex)). specialize (Hbatch ey Hey). lia. }
    rewrite map_app in H5.
    pose proof (ascending_app_l _ _ H5) as Hrot.
    pose proof (ascending_app_r _ _ H5) as Hfile.
    split; unfold st1;
      cbn [bufferSize enabled seq buffer pending batch file rotated flushInFlight app].
    - exact H1.
    - exact H2.
    - exact H3.
    - rewrite Hp. apply seqZ_eq; unfold a; lia.
    - lia.
    - destruct (rotation o), (appended o); cbn [app];
        rewrite ?app_nil_r, ?app_assoc.
      + apply Hasc; [rewrite map_app; apply ascending_app; rewrite <- map_app in H5;
                     apply ascending_app; rewrite <- map_app; exact H5 | auto].
      + rewrite map_app. apply ascending_app. rewrite <- map_app in H5.
        apply ascending_app. rewrite <- map_app. exact H5.
      + apply Hasc; [exact Hfile|]. intros e He. apply elem_of_app. now right.
      + exact Hfile.
      + apply Hasc; [exact Hfile|]. intros e He. apply elem_of_app. now right.
      + exact Hfile.
    - intros e He.
      assert (Hcases : e ∈ rotated st ++ file st \/ e ∈ batch st).
      { destruct (rotation o), (appended o); cbn [app] in He;
          rewrite ?app_nil_r in He; repeat (apply elem_of_app in He as [He | He]);
          try (left; apply elem_of_app; auto; fail); auto. }
      destruct Hcases as [Hd | Hb1].
      + specialize (Hdisk e Hd). unfold a in Hdisk. lia.
      + specialize (Hbatch e Hb1). unfold a in Hbatch. lia.
    - reflexivity.
    - exact H8. }
  destruct (pending st1); [exact H1 | apply scheduleFlush_Inv, H1].
Qed.

Lemma withTimer_Inv armed st : Inv st -> Inv (withTimer armed st).
Proof. intros H. apply (Inv_same st); auto. Qed.

Lemma step_Inv l st st1 : Inv st -> step l st = Some st1 -> Inv st1.
Proof.
  intros H Hstep. destruct l; cbn [step] in Hstep.
  - inversion Hstep; subst. unfold on. destruct (bool_decide _); [exact H|].
    apply (Inv_same st); auto.
  - inversion Hstep; subst. apply (Inv_same st); auto.
  - inversion Hstep; subst. apply emit_Inv, H.
  - destruct (flushTimer st); [|discriminate]. inversion Hstep; subst.
    apply flushBegin_Inv, withTimer_Inv, H.
  - inversion Hstep; subst. apply flushBegin_Inv, H.
  - destruct (flushInFlight st); [|discriminate]. inversion Hstep; subst.
    apply flushEnd_Inv, H.
  - inversion Hstep; subst. apply flushBegin_Inv, withTimer_Inv, H.
Qed.

Lemma run_Inv ls : forall st st1, Inv st -> run ls st = Some st1 -> Inv st1.
Proof.
  induction ls as [|l ls IH]; intros st st1 H Hrun; cbn [run] in Hrun.
  - inversion Hrun; subst. exact H.
  - destruct (step l st) as [st2|] eqn:E; cbn in Hrun; [|discriminate].
    apply (IH st2); [apply (step_Inv l st), E; exact H | exact Hrun].
Qed.

(** The [emit] calls of a list of steps. *)
Definition isEmit (l : Step) : bool :=
  match l with DoEmit _ _ _ => true | _ => false end.

Lemma flushBegin_seq st : seq (flushBegin st) = seq st /\ enabled (flushBegin st) = enabled st.
Proof. unfold flushBegin. destruct (_ || _ || _); auto. Qed.

Lemma scheduleFlush_seq st :
  seq (scheduleFlush st) = seq st /\ enabled (scheduleFlush st) = enabled st.
Proof. unfold scheduleFlush. destruct (_ || _); auto. Qed.

Lemma step_seq l st st1 :
  step l st = Some st1 ->
  enabled st1 = enabled st /\
  seq st1 = seq st + (if enabled st && isEmit l then 1 else 0).
Proof.
  intros Hstep. destruct l; cbn [step isEmit] in *; rewrite ?andb_false_r.
  - inversion Hstep; subst. unfold on. destruct (bool_decide _); cbn; split; auto; lia.
  - inversion Hstep; subst. cbn. split; auto; lia.
  - inversion Hstep; subst. unfold emit.
    destruct (enabled st) eqn:He; cbn [negb snd andb]; [|split; [auto | lia]].
    match goal with |- context [scheduleFlush ?s] =>
      destruct (scheduleFlush_seq s) as [-> ->] end.
    cbn. auto.
  - destruct (flushTimer st); [|discriminate]. inversion Hstep; subst.
    destruct (flushBegin_seq (withTimer false st)) as [-> ->]. cbn. split; auto; lia.
  - inversion Hstep; subst. destruct (flushBegin_seq st) as [-> ->]. split; auto; lia.
  - destruct (flushInFlight st); [|discriminate]. inversion Hstep; subst.
    unfold flushEnd.
    match goal with |- context [match pending ?s with _ => _ end] => set (s1 := s) end.
    destruct (pending s1);
      [|destruct (scheduleFlush_seq s1) as [-> ->]]; cbn; split; auto; lia.
  - inversion Hstep; subst. unfold shutdown.
    destruct (flushBegin_seq (withTimer false st)) as [-> ->]. cbn. split; auto; lia.
Qed.

Lemma run_seq ls : forall st st1,
  run ls st = Some st1 ->
  enabled st1 = enabled st /\
  seq st1 = seq st + (if enabled st then Z.of_nat (length (List.filter isEmit ls)) else 0).
Proof.
  induction ls as [|l ls IH]; intros st st1 Hrun; cbn [run] in Hrun.
  - inversion Hrun; subst. cbn. split; [reflexivity | destruct (enabled st1); lia].
  - destruct (step l st) as [st2|] eqn:E; cbn in Hrun; [|discriminate].
    destruct (step_seq l st st2 E) as [He Hs].
    destruct (IH st2 st1 Hrun) as [He1 Hs1].
    split; [congruence|]. rewrite Hs1, Hs, He. cbn [List.filter].
    destruct (enabled st), (isEmit l); cbn [andb length]; lia.
Qed.

(** The events are numbered from 1 in the order of the [emit] calls, and
    the buffer holds the latest of them: after any sequence of calls and
    timer events on a new bus, [seq] is the number of [emit] calls (0 on a
    disabled bus, which records nothing), the buffer holds the last
    [min(seq, bufferSize)] events, [bufferSize] being at least 100, and
    [getRecent(limit)] returns the last [max(1, limit)] of these, oldest
    first. *)
Theorem buffer_holds_the_latest_events :
  forall a b c d ls st,
    run ls (create a b c d) = Some st ->
    seq st = (if b then Z.of_nat (length (List.filter isEmit ls)) else 0) /\
    100 <= bufferSize st /\
    Z.of_nat (length (buffer st)) = Z.min (seq st) (bufferSize st) /\
    forall limit,
      let k := Z.min (Z.max 1 limit) (Z.of_nat (length (buffer st))) in
      map ev_seq (getRecent limit st) = seqZ (seq st - k + 1) k.
Proof.
  intros a b c d ls st Hrun.
  destruct (run_seq ls _ _ Hrun) as [_ Hseq]. cbn [seq enabled create] in Hseq.
  pose proof (run_Inv ls _ _ (new_bus_Inv a b c d) Hrun) as [H1 H2 H3 _ _ _ _ _ _].
  assert (Hlen : Z.of_nat (length (buffer st)) = Z.min (seq st) (bufferSize st)).
  { rewrite <- (length_map ev_seq), H3, length_seqZ. lia. }
  split; [rewrite Hseq; destruct b; lia|]. split; [exact H1|]. split; [exact Hlen|].
  intros limit k. unfold getRecent.
  rewrite <- skipn_map, H3, seqZ_skipn. apply seqZ_eq; unfold k; lia.
Qed.

(** Three events on a new bus. *)
Definition threeEvents : list Step :=
  [DoEmit "a" "{}" 1; DoEmit "b" "{}" 2; DoEmit "c" "{}" 3].

Definition afterThree : Bus :=
  Eval vm_compute in
    default (create None true None None) (run threeEvents (create None true None None)).

Lemma buffer_holds_the_latest_events_witness :
  run threeEvents (create None true None None) = Some afterThree /\
  seq afterThree = 3 /\
  map ev_seq (getRecent 2 afterThree) = [2; 3].
Proof.
  assert (Hrun : run threeEvents (create None true None None) = Some afterThree)
    by (vm_compute; reflexivity).
  split; [exact Hrun|].
  destruct (buffer_holds_the_latest_events None true None None threeEvents afterThree Hrun)
    as (H1 & _ & _ & H4).
  split; [exact H1 | exact (H4 2)].
Defined.

(** *** What reaches the events file *)

(** The steps in which nothing goes wrong with the file: every flush
    appends its batch, and the file is not rotated. *)
Definition plain (l : Step) : bool :=
  match l with
  | DoFlushEnd o =>
      match rotation o with NotRotated => appended o | _ => false end
  | _ => true
  end.

(** Nothing was lost: the file, the batch being written and the pending
    list hold all the events emitted. *)
Definition Complete (st : Bus) : Prop :=
  rotated st = [] /\
  map ev_seq (file st ++ batch st ++ pending st) = seqZ 1 (seq st).

Lemma Complete_same st st1 :
  Complete st ->
  seq st1 = seq st -> pending st1 = pending st -> batch st1 = batch st ->
  file st1 = file st -> rotated st1 = rotated st ->
  Complete st1.
Proof. intros [H1 H2] E1 E2 E3 E4 E5. split; rewrite ?E1, ?E2, ?E3, ?E4, ?E5; assumption. Qed.

Lemma scheduleFlush_Complete st : Complete st -> Complete (scheduleFlush st).
Proof.
  intros H. unfold scheduleFlush. destruct (_ || _); [exact H|].
  apply (Complete_same st); auto.
Qed.

Lemma flushBegin_Complete st : Inv st -> Complete st -> Complete (flushBegin st).
Proof.
  intros HI H. unfold flushBegin.
  destruct (enabled st); cbn [negb orb]; [|exact H].
  destruct (flushInFlight st) eqn:Hf; cbn [orb]; [exact H|].
  destruct (bool_decide (pending st = [])); [exact H|].
  destruct H as [H1 H2]. rewrite (inv_batch st HI Hf) in H2. cbn [app] in H2.
  split; cbn [seq pending batch file rotated]; [exact H1|].
  rewrite app_nil_r. exact H2.
Qed.

Lemma step_Complete l st st1 :
  Inv st -> plain l = true -> step l st = Some st1 -> Complete st -> Complete st1.
Proof.
  intros HI Hplain Hstep H. destruct l; cbn [step plain] in *.
  - inversion Hstep; subst. unfold on. destruct (bool_decide _); [exact H|].
    apply (Complete_same st); auto.
  - inversion Hstep; subst. apply (Complete_same st); auto.
  - inversion Hstep; subst. unfold emit. destruct (enabled st); cbn [negb snd]; [|exact H].
    apply scheduleFlush_Complete. destruct H as [H1 H2].
    split; cbn [seq pending batch file rotated]; [exact H1|].
    rewrite !app_assoc, map_app, <- app_assoc, H2. cbn [map ev_seq].
    replace (seq st + 1) with (1 + seq st) at 1 by lia.
    rewrite seqZ_snoc by apply (inv_seq st HI). reflexivity.
  - destruct (flushTimer st); [|discriminate]. inversion Hstep; subst.
    apply flushBegin_Complete; [apply withTimer_Inv, HI|].
    apply (Complete_same st); auto.
  - inversion Hstep; subst. apply flushBegin_Complete; assumption.
  - destruct (flushInFlight st); [|discriminate]. inversion Hstep; subst.
    destruct (rotation o) eqn:Er; try discriminate.
    unfold flushEnd. rewrite Er, Hplain.
    match goal with |- context [match pending ?s with _ => _ end] => set (s1 := s) end.
    assert (H1 : Complete s1).
    { destruct H as [H1 H2]. split; unfold s1; cbn [seq pending batch file rotated app];
        [exact H1|]. rewrite <- app_assoc. exact H2. }
    destruct (pending s1); [exact H1 | apply scheduleFlush_Complete, H1].
  - inversion Hstep; subst. unfold shutdown.
    apply flushBegin_Complete; [apply withTimer_Inv, HI|].
    apply (Complete_same st); auto.
Qed.

Lemma run_Complete ls : forall st st1,
  Inv st -> forallb plain ls = true -> run ls st = Some st1 -> Complete st -> Complete st1.
Proof.
  induction ls as [|l ls IH]; intros st st1 HI Hplain Hrun H; cbn [run] in Hrun.
  - inversion Hrun; subst. exact H.
  - cbn in Hplain. apply andb_true_iff in Hplain as [Hl Hls].
    destruct (step l st) as [st2|] eqn:E; cbn in Hrun; [|discriminate].
    apply (IH st2 st1); [apply (step_Inv l st), E; exact HI | exact Hls | exact Hrun|].
    apply (step_Complete l st); assumption.
Qed.

(** No event is written twice or out of order: after any sequence of
    calls, timer events and flushes, however these turn out, the rotated
    file, the events file, the batch being written and the pending list
    hold, in this order, events with increasing sequence numbers between 1
    and [seq].  And no event is lost unless something happens to the file:
    as long as every flush appends its batch and the file is not rotated,
    the events file, the batch being written and the pending list hold all
    the events emitted. *)
Theorem events_reach_the_file_once_and_in_order :
  forall a b c d ls st,
    run ls (create a b c d) = Some st ->
    ascending (map ev_seq (rotated st ++ file st ++ batch st ++ pending st)) /\
    (forall e, e ∈ rotated st ++ file st ++ batch st ++ pending st ->
       1 <= ev_seq e <= seq st) /\
    (forallb plain ls = true ->
       map ev_seq (file st ++ batch st ++ pending st) = seqZ 1 (seq st)).
Proof.
  intros a b c d ls st Hrun.
  pose proof (run_Inv ls _ _ (new_bus_Inv a b c d) Hrun) as HI.
  destruct HI as [H1 H2 H3 H4 HL H5 H6 H7 H8].
  set (m := Z.of_nat (length (batch st ++ pending st))) in *.
  assert (Hq : forall e, e ∈ batch st ++ pending st -> seq st - m + 1 <= ev_seq e <= seq st).
  { intros e He.
    assert (Hin : ev_seq e ∈ map ev_seq (batch st ++ pending st))
      by (apply list_elem_of_fmap; exists e; auto).
    rewrite H4 in Hin. apply elem_of_seqZ in Hin. lia. }
  split; [|split].
  - rewrite app_assoc, map_app. apply ascending_app.
    split; [exact H5|]. split; [rewrite H4; apply ascending_seqZ|].
    intros x y Hx Hy.
    apply list_elem_of_fmap in Hx as (ex & -> & Hex).
    apply list_elem_of_fmap in Hy as (ey & -> & Hey).
    specialize (H6 ex Hex). specialize (Hq ey Hey). lia.
  - intros e He. rewrite app_assoc in He. apply elem_of_app in He as [He | He].
    + specialize (H6 e He). lia.
    + specialize (Hq e He). lia.
  - intros Hplain.
    apply (run_Complete ls (create a b c d) st (new_bus_Inv a b c d) Hplain Hrun).
    split; reflexivity.
Qed.

(** Two events, a flush that works, and two more events meanwhile. *)
Definition logged : list Step :=
  [DoEmit "a" "{}" 1; DoEmit "b" "{}" 2; DoTimer;
   DoEmit "c" "{}" 3; DoFlushEnd {| rotation := NotRotated; appended := true |};
   DoEmit "d" "{}" 4].

Definition afterLogged : Bus :=
  Eval vm_compute in
    default (create None true None None) (run logged (create None true None None)).

Lemma events_reach_the_file_once_and_in_order_witness :
  run logged (create None true None None) = Some afterLogged /\
  map ev_seq (file afterLogged) = [1; 2] /\
  map ev_seq (file afterLogged ++ batch afterLogged ++ pending afterLogged) = [1; 2; 3; 4].
Proof.
  assert (Hrun : run logged (create None true None None) = Some afterLogged)
    by (vm_compute; reflexivity).
  split; [exact Hrun|]. split; [reflexivity|].
  destruct (events_reach_the_file_once_and_in_order None true None None logged
              afterLogged Hrun) as (_ & _ & H).
  exact (H eq_refl).
Defined.

(** [shutdown()] clears the flush timer and starts a flush, which writes
    out all that is pending (and leaves nothing pending, no timer and no
    flush behind when it ends well).  Not so when a flush is already in
    progress: then the [flush()] of [shutdown()] returns at once, what is
    pending stays pending, and the end of the flush in progress arms a new
    timer for it. *)
Theorem shutdown_flushes_unless_a_flush_is_in_progress :
  forall a b c d ls st,
    run ls (create a b c d) = Some st ->
    let st1 := shutdown st in
    flushTimer st1 = false /\
    if flushInFlight st then
      pending st1 = pending st /\ batch st1 = batch st /\ file st1 = file st /\
      forall o, pending st <> [] ->
        flushTimer (flushEnd o st1) = true /\ pending (flushEnd o st1) = pending st
    else
      pending st1 = [] /\ batch st1 = pending st /\
      forall r,
        let st2 := flushEnd {| rotation := r; appended := true |} st1 in
        file st2 = match r with Renamed => [] | _ => file st end ++ pending st /\
        pending st2 = [] /\ flushTimer st2 = false /\ flushInFlight st2 = false.
Proof.
  intros a b c d ls st Hrun st1.
  pose proof (run_Inv ls _ _ (new_bus_Inv a b c d) Hrun) as HI.
  unfold st1, shutdown, flushBegin. cbn [enabled flushInFlight pending withTimer].
  destruct (flushInFlight st) eqn:Hf.
  - rewrite orb_true_r. cbn [orb flushTimer withTimer pending batch file].
    split; [reflexivity|]. split; [reflexivity|]. split; [reflexivity|].
    split; [reflexivity|].
    intros o Hne. unfold flushEnd. cbn [pending withTimer].
    destruct (pending st) as [|e rest]; [congruence|].
    unfold scheduleFlush. cbn. split; reflexivity.
  - assert (Hbatch : batch st = []) by apply (inv_batch st HI Hf).
    assert (Hoff : enabled st = false -> pending st = []).
    { intros He. pose proof (inv_queue_len st HI) as HL.
      rewrite (inv_disabled st HI He), Hbatch in HL. cbn [app] in HL.
      destruct (pending st); [reflexivity | cbn [length] in HL; lia]. }
    destruct (enabled st) eqn:He; cbn [negb orb].
    + destruct (bool_decide (pending st = [])) eqn:Hp.
      * apply bool_decide_eq_true in Hp. cbn [flushTimer withTimer pending batch].
        split; [reflexivity|]. rewrite Hp, Hbatch. split; [reflexivity|].
        split; [reflexivity|]. intros r. unfold flushEnd.
        cbn. rewrite Hp, Hbatch, !app_nil_r. destruct r; repeat split.
      * cbn [flushTimer pending batch]. split; [reflexivity|]. split; [reflexivity|].
        split; [reflexivity|]. intros r. unfold flushEnd.
        cbn. destruct r; repeat split.
    + cbn [flushTimer withTimer pending batch]. rewrite (Hoff eq_refl), Hbatch.
      split; [reflexivity|]. split; [reflexivity|]. split; [reflexivity|].
      intros r. unfold flushEnd. cbn. rewrite ?(Hoff eq_refl), ?Hbatch, ?app_nil_r.
      destruct r; repeat split.
Qed.

Lemma shutdown_flushes_unless_a_flush_is_in_progress_witness :
  run threeEvents (create None true None None) = Some afterThree /\
  flushInFlight afterThree = false /\
  map ev_seq (file (flushEnd {| rotation := NotRotated; appended := true |}
                             (shutdown afterThree))) = [1; 2; 3] /\
  flushTimer (flushEnd {| rotation := NotRotated; appended := true |}
                       (shutdown afterThree)) = false.
Proof.
  assert (Hrun : run threeEvents (create None true None None) = Some afterThree)
    by (vm_compute; reflexivity).
  split; [exact Hrun|]. split; [reflexivity|].
  pose proof (shutdown_flushes_unless_a_flush_is_in_progress None true None None
                threeEvents afterThree Hrun) as H.
  cbv zeta in H. destruct H as [_ H].
  change (flushInFlight afterThree) with false in H.
  destruct H as (_ & _ & H). destruct (H NotRotated) as (H1 & _ & H3 & _).
  split; [rewrite H1; reflexivity | exact H3].
Defined.

End RuntimeEventBus.

(* ===================================================================== *)
(** ** Autonomous loop ([AutonomousLoop] of the runtime) *)
(* ===================================================================== *)
Module AutonomousLoop.
Import JsString.

(** [this.autoConfig].  A numeric option is [None] when [Number(value)] is
    not finite (absent, or not a number). *)
Record AutoConfig := mkAutoConfig {
  enabled : bool;
  goal : string;
  intervalMs : option Z;
  skipWhenQueueAbove : option Z;
  maxConsecutiveFailures : option Z;
  stalePendingHours : option Z;
  staleInProgressIdleHours : option Z;
}.

(** `disabled after ${n} consecutive failures` *)
Inductive DisabledReason := disabledAfter (n : Z).

Record State := mkState {
  autoConfig : AutoConfig;
  timer : option Z;                 (* interval of the installed timer *)
  running : bool;
  lastTickAt : option Z;
  lastError : option string;
  consecutiveFailures : Z;
  totalTicks : Z;
  skippedTicks : Z;
  disabledReason : option DisabledReason;
}.

(** [new AutonomousLoop({ autoConfig, ... })] *)
Definition create (cfg : AutoConfig) : State :=
  {| autoConfig := cfg; timer := None; running := false; lastTickAt := None;
     lastError := None; consecutiveFailures := 0; totalTicks := 0;
     skippedTicks := 0; disabledReason := None |}.

Record Health := mkHealth { h_queueDepth : Z; h_failedRecent : Z }.

Record PickedObjective := mkPicked { o_id : string; o_title : string; o_description : string }.

Inductive Prompt :=
  | ObjectivePrompt (o : PickedObjective)
  | MaintenancePrompt (fallbackGoal : string).

Inductive SkipReason :=
  | skip_disabled (r : DisabledReason)
  | skip_runtime_busy
  | skip_queue_pressure
  | skip_task_pressure (detail : string).

Inductive LoopEvent :=
  | tick_skip (reason : SkipReason)
  | tick_start (tick : Z)
  | stale_pruned (changedCount : Z)
  | tick_success
  | tick_error (error : string) (failures max : Z)
  | loop_disabled (r : DisabledReason)
  | tick_end (tick : Z)
  | loop_start (interval : Z)
  | loop_stop.

(** What a method does to the loop's collaborators, in order. *)
Inductive Effect :=
  | Emit (e : LoopEvent)                              (* eventBus.emit *)
  | ObjReload                                         (* objectiveQueue.reload() *)
  | ObjExpireStale (pendingHours inProgressHours : Z) (* objectiveQueue.expireStale *)
  | ObjPick                                           (* objectiveQueue.pickForAutonomous() *)
  | ObjMarkPicked (id : string)                       (* objectiveQueue.markPicked(id) *)
  | HandleIncoming (p : Prompt)                       (* runtime.handleIncoming *)
  | SetChannelHealth (healthy : bool)                 (* runtime.setChannelHealth("autonomous", _) *)
  | SetInterval (ms : Z)
  | ClearInterval.

(** What the runtime answers when a tick starts. *)
Record Env := mkEnv {
  isBusy : bool;                      (* runtime.isBusy() *)
  queueDepth : Z;                     (* runtime.getQueueDepth() *)
  health : option Health;             (* backgroundManager.getHealth() *)
  maxConcurrentTasks : option Z;      (* config.runtime.maxConcurrentTasks, [None] when falsy *)
  now : Z;
}.

(** What the collaborators answer during the body of a tick. *)
Record Body := mkBody {
  staleChanged : Z;                               (* staleResult.changedCount *)
  picked : option PickedObjective;                (* pickForAutonomous() *)
  marked : result string (option PickedObjective);(* markPicked(id), may reject *)
  reply : result string string;                   (* handleIncoming(...), may reject *)
}.

Definition toNumber (value : option Z) (fallback : Z) : Z := default fallback value.

Definition getQueueSkipLimit (st : State) : Z :=
  toNumber (skipWhenQueueAbove (autoConfig st)) 2.

Definition getMaxConsecutiveFailures (st : State) : Z :=
  Z.max 1 (toNumber (maxConsecutiveFailures (autoConfig st)) 5).

Definition getStalePendingHours (st : State) : Z :=
  Z.max 1 (toNumber (stalePendingHours (autoConfig st)) (24 * 14)).

Definition getStaleInProgressIdleHours (st : State) : Z :=
  Z.max 1 (toNumber (staleInProgressIdleHours (autoConfig st)) (24 * 3)).

Definition shouldSkipForQueuePressure (env : Env) (st : State) : bool :=
  let limit := getQueueSkipLimit st in
  if limit <? 0 then false else queueDepth env >? limit.

Definition getTaskPressure (env : Env) : option string :=
  match health env with
  | None => None
  | Some h =>
      let maxConcurrent :=
        Z.max 1 (match maxConcurrentTasks env with
                 | Some n => if n =? 0 then 6 else n
                 | None => 6 end) in
      let queueLimit := maxConcurrent * 3 in
      let failLimit := Z.max 6 maxConcurrent in
      if h_queueDepth h >? queueLimit then Some "queue_overflow"
      else if h_failedRecent h >? failLimit then Some "recent_failures"
      else None
  end.

Definition buildPrompt (objective : option PickedObjective) (fallbackGoal : string) : Prompt :=
  match objective with
  | Some o => ObjectivePrompt o
  | None => MaintenancePrompt fallbackGoal
  end.

Definition withSkipped (st : State) : State :=
  {| autoConfig := autoConfig st; timer := timer st; running := running st;
     lastTickAt := lastTickAt st; lastError := lastError st;
     consecutiveFailures := consecutiveFailures st; totalTicks := totalTicks st;
     skippedTicks := skippedTicks st + 1; disabledReason := disabledReason st |}.

(** The synchronous first part of [tick()], up to the [try] block.  The
    boolean tells whether the tick goes on to its body. *)
Definition tickBegin (env : Env) (st : State) : State * list Effect * bool :=
  if negb (enabled (autoConfig st)) then (st, [], false)
  else match disabledReason st with
  | Some r => (withSkipped st, [Emit (tick_skip (skip_disabled r))], false)
  | None =>
    if running st || isBusy env then
      (withSkipped st, [Emit (tick_skip skip_runtime_busy)], false)
    else if shouldSkipForQueuePressure env st then
      (withSkipped st, [Emit (tick_skip skip_queue_pressure)], false)
    else match getTaskPressure env with
    | Some detail => (withSkipped st, [Emit (tick_skip (skip_task_pressure detail))], false)
    | None =>
      ({| autoConfig := autoConfig st; timer := timer st; running := true;
          lastTickAt := Some (now env); lastError := lastError st;
          consecutiveFailures := consecutiveFailures st;
          totalTicks := totalTicks st + 1;
          skippedTicks := skippedTicks st; disabledReason := disabledReason st |},
       [Emit (tick_start (totalTicks st + 1))], true)
    end
  end.

(** The calls made inside the [try] block, and how the block ends: [Ok]
    when it runs to its end, [Throw] with the error message otherwise. *)
Definition tickBody (b : Body) (st : State) : list Effect * result string unit :=
  let pre :=
    [ObjReload; ObjExpireStale (getStalePendingHours st) (getStaleInProgressIdleHours st)]
    ++ (if staleChanged b >? 0 then [Emit (stale_pruned (staleChanged b))] else [])
    ++ [ObjPick] in
  let after_mark (objective : option PickedObjective) (effs : list Effect) :=
    let prompt := buildPrompt objective (goal (autoConfig st)) in
    match reply b with
    | Throw e => (effs ++ [HandleIncoming prompt], Throw e)
    | Ok text =>
        if startsWith text "Runtime error:"
        then (effs ++ [HandleIncoming prompt], Throw text)
        else (effs ++ [HandleIncoming prompt], Ok tt)
    end in
  match picked b with
  | None => after_mark None pre
  | Some o =>
      match marked b with
      | Throw e => (pre ++ [ObjMarkPicked (o_id o)], Throw e)
      | Ok objective => after_mark objective (pre ++ [ObjMarkPicked (o_id o)])
      end
  end.

(** [String(error?.message || error || "unknown autonomous error")] for
    an [Error] whose message is [message]: the message, or what
    [String(error)] gives, the name of the error, when the message is
    empty. *)
Definition errorText (message : string) : string :=
  if truthy message then message else "Error".

(** The end of [tick()]: the rest of the [try] block on success, the
    [catch] block on failure, then the [finally] block.  [Throw message]
    stands for an [Error] with that message. *)
Definition tickFinish (outcome : result string unit) (st : State) : State * list Effect :=
  match outcome with
  | Ok _ =>
      ({| autoConfig := autoConfig st; timer := timer st; running := false;
          lastTickAt := lastTickAt st; lastError := None;
          consecutiveFailures := 0; totalTicks := totalTicks st;
          skippedTicks := skippedTicks st; disabledReason := disabledReason st |},
       [Emit tick_success; Emit (tick_end (totalTicks st))])
  | Throw message =>
      let failures := consecutiveFailures st + 1 in
      let maxFailures := getMaxConsecutiveFailures st in
      let trip := failures >=? maxFailures in
      ({| autoConfig := autoConfig st; timer := timer st; running := false;
          lastTickAt := lastTickAt st; lastError := Some (errorText message);
          consecutiveFailures := failures; totalTicks := totalTicks st;
          skippedTicks := skippedTicks st;
          disabledReason := if trip then Some (disabledAfter failures)
                            else disabledReason st |},
       [Emit (tick_error (errorText message) failures maxFailures)]
       ++ (if trip then [SetChannelHealth false; Emit (loop_disabled (disabledAfter failures))]
           else [])
       ++ [Emit (tick_end (totalTicks st))])
  end.

(** A whole [tick()], from the call to the settlement of its promise. *)
Definition tick (env : Env) (b : Body) (st : State) : State * list Effect :=
  let '(st1, effs1, proceeds) := tickBegin env st in
  if proceeds then
    let '(effs2, outcome) := tickBody b st1 in
    let '(st2, effs3) := tickFinish outcome st1 in
    (st2, effs1 ++ effs2 ++ effs3)
  else (st1, effs1).

Definition withTimer (t : option Z) (st : State) : State :=
  {| autoConfig := autoConfig st; timer := t; running := running st;
     lastTickAt := lastTickAt st; lastError := lastError st;
     consecutiveFailures := consecutiveFailures st; totalTicks := totalTicks st;
     skippedTicks := skippedTicks st; disabledReason := disabledReason st |}.

(** [stop()] *)
Definition stop (st : State) : State * list Effect :=
  (withTimer None st,
   (match timer st with Some _ => [ClearInterval] | None => [] end)
   ++ [SetChannelHealth false; Emit loop_stop]).

(** [start()]; it ends with [void this.tick()], whose synchronous part
    runs at once.  The boolean tells whether that tick went on to its body. *)
Definition start (env : Env) (st : State) : State * list Effect * bool :=
  if negb (enabled (autoConfig st)) || bool_decide (timer st <> None) then (st, [], false)
  else
    let interval :=
      Z.max 5000 (match intervalMs (autoConfig st) with
                  | Some n => if n =? 0 then 90000 else n
                  | None => 90000 end) in
    let st1 := withTimer (Some interval) st in
    let '(st2, effs, proceeds) := tickBegin env st1 in
    (st2, [SetInterval interval; SetChannelHealth true; Emit (loop_start interval)] ++ effs,
     proceeds).

(** The argument of [applyConfig(next)]: [next_enabled] is [Some] when
    [typeof next.enabled === "boolean"], [next_goal] when the goal is a
    string, a numeric field when [Number(value)] is finite. *)
Record Next := mkNext {
  next_enabled : option bool;
  next_goal : option string;
  next_intervalMs : option Z;
  next_skipWhenQueueAbove : option Z;
  next_maxConsecutiveFailures : option Z;
  next_stalePendingHours : option Z;
  next_staleInProgressIdleHours : option Z;
}.

Definition intervalOf (cfg : AutoConfig) : Z :=
  match intervalMs cfg with
  | Some n => if n =? 0 then 90000 else n
  | None => 90000
  end.

Definition mergeConfig (next : Next) (cfg : AutoConfig) : AutoConfig :=
  {| enabled := default (enabled cfg) (next_enabled next);
     goal := match next_goal next with Some g => trim g | None => goal cfg end;
     intervalMs :=
       match next_intervalMs next with
       | Some n => Some (Z.max 5000 n) | None => intervalMs cfg end;
     skipWhenQueueAbove :=
       match next_skipWhenQueueAbove next with
       | Some n => Some (Z.max 0 n) | None => skipWhenQueueAbove cfg end;
     maxConsecutiveFailures :=
       match next_maxConsecutiveFailures next with
       | Some n => Some (Z.max 1 n) | None => maxConsecutiveFailures cfg end;
     stalePendingHours :=
       match next_stalePendingHours next with
       | Some n => Some (Z.max 1 n) | None => stalePendingHours cfg end;
     staleInProgressIdleHours :=
       match next_staleInProgressIdleHours next with
       | Some n => Some (Z.max 1 n) | None => staleInProgressIdleHours cfg end |}.

(** [applyConfig(next)] *)
Definition applyConfig (next : Next) (env : Env) (st : State) : State * list Effect * bool :=
  let prevEnabled := enabled (autoConfig st) in
  let prevInterval := intervalOf (autoConfig st) in
  let cfg := mergeConfig next (autoConfig st) in
  let st1 :=
    {| autoConfig := cfg; timer := timer st; running := running st;
       lastTickAt := lastTickAt st; lastError := lastError st;
       consecutiveFailures := consecutiveFailures st; totalTicks := totalTicks st;
       skippedTicks := skippedTicks st; disabledReason := disabledReason st |} in
  if negb (enabled cfg) then
    let '(st2, effs) := stop st1 in (st2, effs, false)
  else
    let reset := negb prevEnabled in
    let st2 :=
      {| autoConfig := cfg; timer := timer st; running := running st;
         lastTickAt := lastTickAt st;
         lastError := if reset then None else lastError st;
         consecutiveFailures := if reset then 0 else consecutiveFailures st;
         totalTicks := totalTicks st; skippedTicks := skippedTicks st;
         disabledReason := None |} in
    let nextInterval := intervalOf cfg in
    match timer st2 with
    | Some _ =>
        if negb (prevInterval =? nextInterval) then
          let '(st3, effs1) := stop st2 in
          let '(st4, effs2, proceeds) := start env st3 in
          (st4, effs1 ++ effs2, proceeds)
        else (st2, [], false)
    | None => start env st2
    end.

(** Events of the loop's life.  [tick()] has two callers, both in
    [start()]: the callback given to [setInterval], and the last statement
    of [start()] itself.  The callback runs only while the timer it belongs
    to is installed, so [DoTick] does nothing without a timer. *)
Inductive Step :=
  | DoStart (env : Env)
  | DoTick (env : Env)                       (* the interval callback runs *)
  | DoSettle (b : Body)                      (* the tick in flight settles *)
  | DoApplyConfig (next : Next) (env : Env)
  | DoStop.

Definition step (l : Step) (st : State) : State * list Effect :=
  match l with
  | DoStart env => let '(st1, effs, _) := start env st in (st1, effs)
  | DoTick env =>
      match timer st with
      | Some _ => let '(st1, effs, _) := tickBegin env st in (st1, effs)
      | None => (st, [])
      end
  | DoSettle b =>
      if running st then
        let '(effs1, outcome) := tickBody b st in
        let '(st1, effs2) := tickFinish outcome st in (st1, effs1 ++ effs2)
      else (st, [])
  | DoApplyConfig next env => let '(st1, effs, _) := applyConfig next env st in (st1, effs)
  | DoStop => stop st
  end.

Fixpoint run (ls : list Step) (st : State) : State * list Effect :=
  match ls with
  | [] => (st, [])
  | l :: rest =>
      let '(st1, effs1) := step l st in
      let '(st2, effs2) := run rest st1 in
      (st2, effs1 ++ effs2)
  end.

(** *** Properties of the circuit breaker *)

Inductive reachable : State -> Prop :=
  | reach_create cfg : reachable (create cfg)
  | reach_step l st : reachable st -> reachable (fst (step l st)).

(** Calls that a skipped tick must not make. *)
Definition isWork (e : Effect) : bool :=
  match e with
  | ObjReload | ObjExpireStale _ _ | ObjPick | ObjMarkPicked _ | HandleIncoming _ => true
  | _ => false
  end.

(** [ticks] are consecutive ticks that all reach their body and fail. *)
Fixpoint consecutiveFailed (ticks : list (Env * Body)) (st : State) : Prop :=
  match ticks with
  | [] => True
  | (env, b) :: rest =>
      snd (tickBegin env st) = true /\
      (exists m, snd (tickBody b (fst (fst (tickBegin env st)))) = Throw m) /\
      consecutiveFailed rest (fst (tick env b st))
  end.

Fixpoint runTicks (ticks : list (Env * Body)) (st : State) : State :=
  match ticks with
  | [] => st
  | (env, b) :: rest => runTicks rest (fst (tick env b st))
  end.

Lemma tickBegin_proceeds env st :
  snd (tickBegin env st) = true ->
  enabled (autoConfig st) = true /\ disabledReason st = None /\ running st = false /\
  tickBegin env st =
    ({| autoConfig := autoConfig st; timer := timer st; running := true;
        lastTickAt := Some (now env); lastError := lastError st;
        consecutiveFailures := consecutiveFailures st;
        totalTicks := totalTicks st + 1;
        skippedTicks := skippedTicks st; disabledReason := disabledReason st |},
     [Emit (tick_start (totalTicks st + 1))], true).
Proof.
  unfold tickBegin.
  destruct (enabled (autoConfig st)); cbn; [|discriminate].
  destruct (disabledReason st); cbn; [discriminate|].
  destruct (running st); cbn; [discriminate|].
  destruct (isBusy env); cbn; [discriminate|].
  destruct (shouldSkipForQueuePressure env st); cbn; [discriminate|].
  destruct (getTaskPressure env); cbn; [discriminate|].
  intros _. repeat split.
Qed.

Lemma failed_tick env b st m :
  snd (tickBegin env st) = true ->
  snd (tickBody b (fst (fst (tickBegin env st)))) = Throw m ->
  let st1 := fst (tick env b st) in
  autoConfig st1 = autoConfig st /\ running st1 = false /\
  consecutiveFailures st1 = consecutiveFailures st + 1 /\
  disabledReason st1 =
    if consecutiveFailures st + 1 >=? getMaxConsecutiveFailures st
    then Some (disabledAfter (consecutiveFailures st + 1)) else None.
Proof.
  intros Hp Hb. destruct (tickBegin_proceeds env st Hp) as (He & Hd & Hr & Heq).
  unfold tick. rewrite Heq in *. cbn [fst snd] in *.
  destruct (tickBody b _) as [effs outcome]. cbn in Hb. subst outcome.
  cbn. unfold getMaxConsecutiveFailures; cbn. rewrite Hd.
  split; [reflexivity|]. split; [reflexivity|]. split; [reflexivity|].
  destruct (_ >=? _); reflexivity.
Qed.

Lemma consecutive_failures_count ticks : forall st,
  disabledReason st = None ->
  consecutiveFailed ticks st ->
  autoConfig (runTicks ticks st) = autoConfig st /\
  consecutiveFailures (runTicks ticks st) = consecutiveFailures st + Z.of_nat (length ticks) /\
  (ticks <> [] ->
   disabledReason (runTicks ticks st) =
     if consecutiveFailures st + Z.of_nat (length ticks) >=? getMaxConsecutiveFailures st
     then Some (disabledAfter (consecutiveFailures st + Z.of_nat (length ticks)))
     else None).
Proof.
  induction ticks as [|[env b] rest IH]; intros st Hd Hall.
  - cbn. split; [reflexivity|]. split; [lia | congruence].
  - destruct Hall as (Hp & [m Hb] & Hrest).
    destruct (failed_tick env b st m Hp Hb) as (Hcfg & Hrun & Hcf & Hdis).
    cbn [runTicks length].
    destruct rest as [|t rest'].
    + cbn [runTicks length]. rewrite Hcfg, Hcf, Hdis.
      split; [reflexivity|]. split; [reflexivity|]. intros _. reflexivity.
    + (* a further tick proceeds, so the breaker had not tripped *)
      assert (Hnone : disabledReason (fst (tick env b st)) = None).
      { destruct t as [env1 b1]. destruct Hrest as (Hp1 & _ & _).
        apply tickBegin_proceeds in Hp1. tauto. }
      destruct (IH (fst (tick env b st)) Hnone Hrest) as (IH1 & IH2 & IH3).
      rewrite IH1, IH2, Hcfg, Hcf.
      replace (consecutiveFailures st + 1 + Z.of_nat (length (t :: rest')))
        with (consecutiveFailures st + Z.of_nat (S (length (t :: rest')))) by lia.
      split; [reflexivity|]. split; [reflexivity|]. intros _. rewrite IH3 by discriminate.
      unfold getMaxConsecutiveFailures. rewrite Hcfg, Hcf.
      replace (consecutiveFailures st + 1 + Z.of_nat (length (t :: rest')))
        with (consecutiveFailures st + Z.of_nat (S (length (t :: rest')))) by lia.
      reflexivity.
Qed.

Lemma tickBegin_disabledReason env st :
  disabledReason (fst (fst (tickBegin env st))) = disabledReason st /\
  (running (fst (fst (tickBegin env st))) = true ->
   running st = true \/ disabledReason st = None).
Proof.
  unfold tickBegin.
  destruct (enabled (autoConfig st)); cbn; [|auto].
  destruct (disabledReason st) eqn:Hd; cbn; [rewrite Hd; auto|].
  destruct (running st || isBusy env); cbn; [auto|].
  destruct (shouldSkipForQueuePressure env st); cbn; [auto|].
  destruct (getTaskPressure env); cbn; auto.
Qed.

Lemma start_disabledReason env st :
  disabledReason (fst (fst (start env st))) = disabledReason st /\
  (running (fst (fst (start env st))) = true ->
   running st = true \/ disabledReason st = None).
Proof.
  unfold start.
  destruct (negb (enabled (autoConfig st)) || bool_decide (timer st <> None)); cbn; [auto|].
  pose proof (tickBegin_disabledReason env (withTimer
    (Some (Z.max 5000 match intervalMs (autoConfig st) with
                      | Some n => if n =? 0 then 90000 else n
                      | None => 90000 end)) st)) as H.
  destruct (tickBegin env _) as [[st2 effs] p]. cbn in *. exact H.
Qed.

Lemma applyConfig_disabledReason next env st :
  disabledReason (fst (fst (applyConfig next env st))) =
    if enabled (mergeConfig next (autoConfig st)) then None else disabledReason st.
Proof.
  unfold applyConfig.
  destruct (enabled (mergeConfig next (autoConfig st))) eqn:He; cbn [negb].
  - cbn [timer]. destruct (timer st) eqn:Ht.
    + destruct (negb _); [|reflexivity].
      cbn [stop timer withTimer].
      match goal with |- context [start env ?s] =>
        pose proof (start_disabledReason env s) as [H _]; destruct (start env s) as [[st4 e2] p] end.
      cbn in *. exact H.
    + match goal with |- context [start env ?s] =>
        pose proof (start_disabledReason env s) as [H _]; destruct (start env s) as [[st4 e2] p] end.
      cbn in *. exact H.
  - reflexivity.
Qed.

Lemma applyConfig_running next env st :
  running (fst (fst (applyConfig next env st))) = true ->
  running st = true \/ disabledReason (fst (fst (applyConfig next env st))) = None.
Proof.
  rewrite applyConfig_disabledReason. unfold applyConfig.
  destruct (enabled (mergeConfig next (autoConfig st))) eqn:He; cbn [negb]; [auto|].
  cbn. auto.
Qed.

(** While a tick is in flight the breaker is not tripped. *)
Lemma running_not_disabled st : reachable st -> running st = true -> disabledReason st = None.
Proof.
  induction 1 as [cfg | l st Hst IH]; [discriminate|].
  destruct l as [env | env | b | next env |]; cbn [step].
  - pose proof (start_disabledReason env st) as [H1 H2].
    destruct (start env st) as [[st1 effs] p]. cbn in *.
    intros Hr. rewrite H1. destruct (H2 Hr); auto.
  - destruct (timer st); [|exact IH].
    pose proof (tickBegin_disabledReason env st) as [H1 H2].
    destruct (tickBegin env st) as [[st1 effs] p]. cbn in *.
    intros Hr. rewrite H1. destruct (H2 Hr); auto.
  - destruct (running st) eqn:Hr; [|cbn; congruence].
    destruct (tickBody b st) as [effs outcome].
    destruct outcome; unfold tickFinish; cbn; intros H; discriminate H.
  - pose proof (applyConfig_running next env st) as H.
    pose proof (applyConfig_disabledReason next env st) as H1.
    destruct (applyConfig next env st) as [[st1 effs] p]. cbn [fst] in *.
    intros Hr. destruct (H Hr) as [Hrun | Hnone]; [|exact Hnone].
    rewrite H1. destruct (enabled _); [reflexivity | apply IH; exact Hrun].
  - cbn. intros Hr. auto.
Qed.

(** A tick of a tripped loop. *)
Lemma tick_when_disabled env b st r :
  disabledReason st = Some r ->
  tick env b st =
    if enabled (autoConfig st)
    then (withSkipped st, [Emit (tick_skip (skip_disabled r))])
    else (st, []).
Proof.
  intros Hd. unfold tick, tickBegin. rewrite Hd.
  destruct (enabled (autoConfig st)); reflexivity.
Qed.

(** The steps that leave the breaker as it is: all but an [applyConfig]
    whose resulting configuration is enabled. *)
Definition keepsBreaker (l : Step) (st : State) : Prop :=
  match l with
  | DoApplyConfig next _ => enabled (mergeConfig next (autoConfig st)) = false
  | _ => True
  end.

Lemma step_when_disabled l st r :
  reachable st -> disabledReason st = Some r -> keepsBreaker l st ->
  disabledReason (fst (step l st)) = Some r /\
  forall e, e ∈ snd (step l st) -> isWork e = false.
Proof.
  intros Hst Hd Hk.
  destruct l as [env | env | b | next env |]; cbn [step keepsBreaker] in *.
  - pose proof (start_disabledReason env st) as [H1 _].
    unfold start in *.
    destruct (negb (enabled (autoConfig st)) || bool_decide (timer st <> None)).
    + cbn. split; [exact Hd|]. intros e He. inversion He.
    + unfold tickBegin in *. cbn [autoConfig withTimer disabledReason] in *. rewrite Hd in *.
      destruct (enabled (autoConfig st)); cbn in *.
      * split; [exact Hd|]. intros e He.
        repeat (apply elem_of_cons in He as [-> | He]; [reflexivity|]). inversion He.
      * split; [exact Hd|]. intros e He.
        repeat (apply elem_of_cons in He as [-> | He]; [reflexivity|]). inversion He.
  - destruct (timer st); [|split; [exact Hd|]; intros e He; inversion He].
    unfold tickBegin. rewrite Hd.
    destruct (enabled (autoConfig st)); cbn.
    + split; [exact Hd|]. intros e He.
      repeat (apply elem_of_cons in He as [-> | He]; [reflexivity|]). inversion He.
    + split; [exact Hd|]. intros e He. inversion He.
  - destruct (running st) eqn:Hr.
    + rewrite (running_not_disabled st Hst Hr) in Hd. discriminate.
    + cbn. split; [exact Hd|]. intros e He. inversion He.
  - unfold applyConfig. rewrite Hk. cbn.
    split; [exact Hd|]. intros e He.
    destruct (timer st); cbn in He;
      repeat (apply elem_of_cons in He as [-> | He]; [reflexivity|]); inversion He.
  - cbn. split; [exact Hd|]. intros e He.
    destruct (timer st); cbn in He;
      repeat (apply elem_of_cons in He as [-> | He]; [reflexivity|]); inversion He.
Qed.

(** A loop that trips after one failure, an idle runtime, and a tick body
    whose orchestrator call is rejected. *)
Definition cfgOne : AutoConfig :=
  {| enabled := true; goal := ""; intervalMs := None; skipWhenQueueAbove := None;
     maxConsecutiveFailures := Some 1; stalePendingHours := None;
     staleInProgressIdleHours := None |}.

Definition idle : Env :=
  {| isBusy := false; queueDepth := 0; health := None; maxConcurrentTasks := None; now := 0 |}.

Definition failing : Body :=
  {| staleChanged := 0; picked := None; marked := Ok None; reply := Throw "boom" |}.

Lemma loop_run_reachable ls : forall st, reachable st -> reachable (fst (run ls st)).
Proof.
  induction ls as [|l ls IH]; intros st Hst; cbn [run].
  - exact Hst.
  - pose proof (reach_step l st Hst) as H1.
    destruct (step l st) as [st1 effs1]. cbn [fst] in H1.
    pose proof (IH st1 H1) as H2.
    destruct (run ls st1) as [st2 effs2]. exact H2.
Qed.

(** *** The counters and the events of the loop *)

Definition isTickStart (e : Effect) : bool :=
  match e with Emit (tick_start _) => true | _ => false end.

Definition isTickSkip (e : Effect) : bool :=
  match e with Emit (tick_skip _) => true | _ => false end.

Definition isTickEnd (e : Effect) : bool :=
  match e with Emit (tick_end _) => true | _ => false end.

Definition isPrompt (e : Effect) : bool :=
  match e with HandleIncoming _ => true | _ => false end.

(** Number of effects of a kind, as an integer. *)
Definition effectCount (f : Effect -> bool) (effs : list Effect) : Z :=
  Z.of_nat (length (List.filter f effs)).

Lemma effectCount_app f l1 l2 : effectCount f (l1 ++ l2) = effectCount f l1 + effectCount f l2.
Proof. unfold effectCount. rewrite List.filter_app, length_app. lia. Qed.

Lemma effectCount_cons f e l : effectCount f (e :: l) = (if f e then 1 else 0) + effectCount f l.
Proof. unfold effectCount. cbn [List.filter]. destruct (f e); cbn [length]; lia. Qed.

Lemma effectCount_nil f : effectCount f [] = 0.
Proof. reflexivity. Qed.

Definition inFlight (st : State) : Z := if running st then 1 else 0.

(** What one part of the loop does to the counters, in terms of the
    effects it has: ticks started, ticks skipped, ticks ended, prompts. *)
Definition Counted (st st1 : State) (effs : list Effect) : Prop :=
  totalTicks st1 = totalTicks st + effectCount isTickStart effs /\
  skippedTicks st1 = skippedTicks st + effectCount isTickSkip effs /\
  inFlight st + effectCount isTickStart effs = inFlight st1 + effectCount isTickEnd effs /\
  effectCount isPrompt effs <= effectCount isTickEnd effs.

Lemma Counted_refl st : Counted st st [].
Proof. unfold Counted. rewrite !effectCount_nil. lia. Qed.

Lemma Counted_app st st1 st2 effs1 effs2 :
  Counted st st1 effs1 -> Counted st1 st2 effs2 -> Counted st st2 (effs1 ++ effs2).
Proof. unfold Counted. rewrite !effectCount_app. lia. Qed.

Ltac count_effects :=
  unfold Counted, inFlight; cbn [totalTicks skippedTicks running withSkipped withTimer];
  rewrite ?effectCount_app, ?effectCount_cons, ?effectCount_nil;
  cbn [isTickStart isTickSkip isTickEnd isPrompt].

Lemma Counted_tickBegin env st :
  Counted st (fst (fst (tickBegin env st))) (snd (fst (tickBegin env st))).
Proof.
  unfold tickBegin.
  destruct (enabled (autoConfig st)); cbn [negb fst snd]; [|apply Counted_refl].
  destruct (disabledReason st); cbn [fst snd]; [count_effects; lia|].
  destruct (running st) eqn:Er; cbn [orb fst snd]; [count_effects; rewrite Er; lia|].
  destruct (isBusy env); cbn [fst snd]; [count_effects; rewrite Er; lia|].
  destruct (shouldSkipForQueuePressure env st); cbn [fst snd];
    [count_effects; rewrite Er; lia|].
  destruct (getTaskPressure env); cbn [fst snd]; count_effects; rewrite Er; lia.
Qed.

Lemma Counted_stop st : Counted st (fst (stop st)) (snd (stop st)).
Proof.
  unfold stop. cbn [fst snd]. destruct (timer st); count_effects; lia.
Qed.

Lemma Counted_withTimer t st : Counted st (withTimer t st) [].
Proof. count_effects. lia. Qed.

Lemma Counted_start env st :
  Counted st (fst (fst (start env st))) (snd (fst (start env st))).
Proof.
  unfold start. destruct (_ || _); cbn [fst snd]; [apply Counted_refl|].
  match goal with |- context [tickBegin env ?s] =>
    pose proof (Counted_tickBegin env s) as H; destruct (tickBegin env s) as [[s2 effs] p]
  end.
  cbn [fst snd] in *.
  eapply Counted_app; [|exact H].
  count_effects. lia.
Qed.

Lemma tickBody_prompts b st :
  effectCount isPrompt (fst (tickBody b st)) <= 1 /\
  effectCount isTickStart (fst (tickBody b st)) = 0 /\
  effectCount isTickSkip (fst (tickBody b st)) = 0 /\
  effectCount isTickEnd (fst (tickBody b st)) = 0.
Proof.
  unfold tickBody.
  destruct (picked b); [destruct (marked b)|];
    try destruct (reply b) as [text|]; try destruct (startsWith _ _);
    cbn [fst]; destruct (staleChanged b >? 0);
    rewrite ?effectCount_app, ?effectCount_cons, ?effectCount_nil;
    cbn [isTickStart isTickSkip isTickEnd isPrompt]; lia.
Qed.

Lemma Counted_settle b st :
  running st = true ->
  Counted st (fst (tickFinish (snd (tickBody b st)) st))
    (fst (tickBody b st) ++ snd (tickFinish (snd (tickBody b st)) st)).
Proof.
  intros Hr. destruct (tickBody_prompts b st) as (H1 & H2 & H3 & H4).
  destruct (tickBody b st) as [effs outcome]. cbn [fst snd] in *.
  unfold tickFinish. destruct outcome as [u|message]; cbn [fst snd].
  - count_effects. rewrite Hr. lia.
  - destruct (_ >=? _); count_effects; rewrite Hr; lia.
Qed.

Lemma Counted_applyConfig next env st :
  Counted st (fst (fst (applyConfig next env st))) (snd (fst (applyConfig next env st))).
Proof.
  unfold applyConfig.
  destruct (negb (enabled (mergeConfig next (autoConfig st)))).
  - match goal with |- context [stop ?s] =>
      assert (H1 : Counted st s []) by (count_effects; lia);
      pose proof (Counted_stop s) as H; destruct (stop s) as [s2 effs]
    end.
    cbn [fst snd] in *. eapply (Counted_app st _ s2 []); [exact H1 | exact H].
  - match goal with |- context [match timer ?s with _ => _ end] => set (s2 := s) end.
    assert (H2 : Counted st s2 []) by (unfold s2; count_effects; lia).
    destruct (timer s2).
    + destruct (negb (intervalOf (autoConfig st) =? _)); cbn [fst snd]; [|exact H2].
      pose proof (Counted_stop s2) as H3. destruct (stop s2) as [s3 effs1].
      pose proof (Counted_start env s3) as H4. destruct (start env s3) as [[s4 effs2] p].
      cbn [fst snd] in *.
      apply (Counted_app st s3 s4); [|exact H4].
      apply (Counted_app st s2 s3 []); assumption.
    + pose proof (Counted_start env s2) as H4.
      apply (Counted_app st s2 _ [] _ H2 H4).
Qed.

Lemma Counted_step l st : Counted st (fst (step l st)) (snd (step l st)).
Proof.
  destruct l as [env | env | b | next env |]; cbn [step].
  - pose proof (Counted_start env st) as H.
    destruct (start env st) as [[s effs] p]. exact H.
  - destruct (timer st); [|apply Counted_refl].
    pose proof (Counted_tickBegin env st) as H.
    destruct (tickBegin env st) as [[s effs] p]. exact H.
  - destruct (running st) eqn:Hr; [|apply Counted_refl].
    pose proof (Counted_settle b st Hr) as H.
    destruct (tickBody b st) as [effs1 outcome]. cbn [fst snd] in H.
    destruct (tickFinish outcome st) as [s effs2]. exact H.
  - pose proof (Counted_applyConfig next env st) as H.
    destruct (applyConfig next env st) as [[s effs] p]. exact H.
  - apply Counted_stop.
Qed.

Lemma Counted_run ls : forall st, Counted st (fst (run ls st)) (snd (run ls st)).
Proof.
  induction ls as [|l ls IH]; intros st; cbn [run]; [apply Counted_refl|].
  pose proof (Counted_step l st) as H1. destruct (step l st) as [st1 effs1].
  pose proof (IH st1) as H2. destruct (run ls st1) as [st2 effs2].
  cbn [fst snd] in *. apply (Counted_app st st1 st2); assumption.
Qed.

(** The counters of the loop say what happened: after any sequence of
    calls and timer events on a new loop, [totalTicks] is the number of
    "autonomous.tick.start" events emitted and [skippedTicks] the number of
    "autonomous.tick.skip" events; every started tick but the one in
    flight, if any, has emitted its "autonomous.tick.end", so ticks never
    overlap; and the runtime was prompted at most once per finished
    tick. *)
Theorem counters_count_the_ticks :
  forall cfg ls,
    let st := fst (run ls (create cfg)) in
    let effs := snd (run ls (create cfg)) in
    totalTicks st = effectCount isTickStart effs /\
    skippedTicks st = effectCount isTickSkip effs /\
    effectCount isTickStart effs = effectCount isTickEnd effs + (if running st then 1 else 0) /\
    effectCount isPrompt effs <= effectCount isTickEnd effs.
Proof.
  intros cfg ls st effs.
  destruct (Counted_run ls (create cfg)) as (H1 & H2 & H3 & H4).
  fold st effs in H1, H2, H3, H4. unfold inFlight in H3. cbn in H1, H2, H3.
  repeat split; lia.
Qed.

(** *** The timer of the loop *)

(** Replays the [setInterval] and [clearInterval] calls of a list of
    effects, starting with the timer [installed]: the result is the timer
    installed at the end, or [None] when a timer was installed over another
    one or cleared where there was none. *)
Fixpoint replayTimers (installed : option Z) (effs : list Effect) : option (option Z) :=
  match effs with
  | [] => Some installed
  | SetInterval ms :: rest =>
      match installed with
      | None => replayTimers (Some ms) rest
      | Some _ => None
      end
  | ClearInterval :: rest =>
      match installed with
      | Some _ => replayTimers None rest
      | None => None
      end
  | _ :: rest => replayTimers installed rest
  end.

Lemma replayTimers_app effs1 : forall installed effs2,
  replayTimers installed (effs1 ++ effs2) =
    match replayTimers installed effs1 with
    | Some t => replayTimers t effs2
    | None => None
    end.
Proof.
  induction effs1 as [|e effs1 IH]; intros installed effs2; [reflexivity|].
  destruct e; cbn [app replayTimers]; try apply IH; destruct installed; try apply IH;
    reflexivity.
Qed.

(** The timer of [st], if any, has the interval of the configuration, and
    the loop is enabled. *)
Definition timerOk (st : State) : Prop :=
  forall ms, timer st = Some ms ->
    ms = Z.max 5000 (intervalOf (autoConfig st)) /\ enabled (autoConfig st) = true.

(** What one part of the loop does to the timer. *)
Definition Timed (st st1 : State) (effs : list Effect) : Prop :=
  replayTimers (timer st) effs = Some (timer st1) /\ (timerOk st -> timerOk st1).

Lemma Timed_refl st : Timed st st [].
Proof. split; [reflexivity | auto]. Qed.

Lemma Timed_app st st1 st2 effs1 effs2 :
  Timed st st1 effs1 -> Timed st1 st2 effs2 -> Timed st st2 (effs1 ++ effs2).
Proof.
  intros [H1 H2] [H3 H4]. split; [|auto].
  rewrite replayTimers_app, H1. exact H3.
Qed.

Lemma Timed_tickBegin env st :
  Timed st (fst (fst (tickBegin env st))) (snd (fst (tickBegin env st))).
Proof.
  unfold tickBegin.
  destruct (enabled (autoConfig st)); cbn [negb fst snd]; [|apply Timed_refl].
  destruct (disabledReason st); cbn [fst snd]; [split; [reflexivity | auto]|].
  destruct (running st || isBusy env); cbn [fst snd]; [split; [reflexivity | auto]|].
  destruct (shouldSkipForQueuePressure env st); cbn [fst snd];
    [split; [reflexivity | auto]|].
  destruct (getTaskPressure env); cbn [fst snd]; split; try reflexivity; auto.
Qed.

Lemma Timed_stop st : Timed st (fst (stop st)) (snd (stop st)).
Proof.
  unfold stop. cbn [fst snd]. split.
  - destruct (timer st); reflexivity.
  - intros _ ms H. discriminate.
Qed.

Lemma stop_timerOk st : timerOk (fst (stop st)).
Proof. intros ms H. discriminate. Qed.

Lemma Timed_start env st :
  Timed st (fst (fst (start env st))) (snd (fst (start env st))).
Proof.
  unfold start. destruct (enabled (autoConfig st)) eqn:He; cbn [negb orb];
    [|apply Timed_refl].
  destruct (bool_decide (timer st <> None)) eqn:Ht; cbn [fst snd]; [apply Timed_refl|].
  apply bool_decide_eq_false in Ht.
  assert (Hnone : timer st = None) by (destruct (timer st); [exfalso; apply Ht|]; congruence).
  match goal with |- context [tickBegin env ?s] =>
    pose proof (Timed_tickBegin env s) as H; destruct (tickBegin env s) as [[s2 effs] p]
  end.
  cbn [fst snd] in *.
  eapply (Timed_app st _ s2 [_; _; _] effs); [|exact H].
  split.
  - rewrite Hnone. reflexivity.
  - intros _ ms Hms. cbn in Hms. inversion Hms; subst. split; [reflexivity | exact He].
Qed.

Lemma tickBody_timers b st t : replayTimers t (fst (tickBody b st)) = Some t.
Proof.
  unfold tickBody.
  destruct (picked b); [destruct (marked b)|];
    try destruct (reply b) as [text|]; try destruct (startsWith _ _);
    cbn [fst]; destruct (staleChanged b >? 0); reflexivity.
Qed.

Lemma Timed_settle b st :
  Timed st (fst (tickFinish (snd (tickBody b st)) st))
    (fst (tickBody b st) ++ snd (tickFinish (snd (tickBody b st)) st)).
Proof.
  split.
  - rewrite replayTimers_app, tickBody_timers.
    destruct (tickBody b st) as [effs outcome]. cbn [fst snd].
    unfold tickFinish. destruct outcome as [u|message]; cbn [fst snd]; [reflexivity|].
    destruct (_ >=? _); reflexivity.
  - destruct (tickBody b st) as [effs outcome]. cbn [fst snd].
    unfold tickFinish. destruct outcome as [u|message]; cbn [fst snd]; auto.
Qed.

Lemma Timed_applyConfig next env st :
  Timed st (fst (fst (applyConfig next env st))) (snd (fst (applyConfig next env st))).
Proof.
  unfold applyConfig.
  destruct (negb (enabled (mergeConfig next (autoConfig st)))) eqn:He.
  - split; [cbn; destruct (timer st); reflexivity|].
    intros _ ms H. cbn in H. discriminate.
  - apply negb_false_iff in He.
    match goal with |- context [match timer ?s with _ => _ end] => set (s2 := s) end.
    destruct (timer s2) as [ms0|] eqn:Et.
    + destruct (negb (intervalOf (autoConfig st) =? _)) eqn:Ei; cbn [fst snd].
      * pose proof (Timed_stop s2) as H3. pose proof (stop_timerOk s2) as Hok3.
        destruct (stop s2) as [s3 effs1].
        pose proof (Timed_start env s3) as H4. destruct (start env s3) as [[s4 effs2] p].
        cbn [fst snd] in *.
        destruct H3 as [H31 _]. destruct H4 as [H41 H42]. split.
        -- rewrite replayTimers_app.
           change (replayTimers (timer s2) effs1 = Some (timer s3)) in H31.
           change (timer st) with (timer s2). rewrite H31. exact H41.
        -- intros _. apply H42, Hok3.
      * apply negb_false_iff, Z.eqb_eq in Ei. split; [reflexivity|].
        intros Hok ms Hms.
        destruct (Hok ms Hms) as [H1 _]. split; [|exact He].
        change (ms = Z.max 5000 (intervalOf (mergeConfig next (autoConfig st)))).
        congruence.
    + pose proof (Timed_start env s2) as [H41 H42]. split.
      * exact H41.
      * intros _. apply H42. intros ms Hms. congruence.
Qed.

Lemma Timed_step l st : Timed st (fst (step l st)) (snd (step l st)).
Proof.
  destruct l as [env | env | b | next env |]; cbn [step].
  - pose proof (Timed_start env st) as H.
    destruct (start env st) as [[s effs] p]. exact H.
  - destruct (timer st) eqn:Et; [|apply Timed_refl].
    pose proof (Timed_tickBegin env st) as H.
    destruct (tickBegin env st) as [[s effs] p]. exact H.
  - destruct (running st); [|apply Timed_refl].
    pose proof (Timed_settle b st) as H.
    destruct (tickBody b st) as [effs1 outcome]. cbn [fst snd] in H.
    destruct (tickFinish outcome st) as [s effs2]. exact H.
  - pose proof (Timed_applyConfig next env st) as H.
    destruct (applyConfig next env st) as [[s effs] p]. exact H.
  - apply Timed_stop.
Qed.

Lemma Timed_run ls : forall st, Timed st (fst (run ls st)) (snd (run ls st)).
Proof.
  induction ls as [|l ls IH]; intros st; cbn [run]; [apply Timed_refl|].
  pose proof (Timed_step l st) as H1. destruct (step l st) as [st1 effs1].
  pose proof (IH st1) as H2. destruct (run ls st1) as [st2 effs2].
  cbn [fst snd] in *. apply (Timed_app st st1 st2); assumption.
Qed.

(** The loop never leaks a timer: through any sequence of calls and timer
    events on a new loop, every [setInterval] happens when no timer is
    installed and every [clearInterval] when one is, and the [timer] field
    holds the timer installed last, if it was not cleared.  A timer that is
    installed has the interval of the current configuration,
    [max(5000, intervalMs || 90000)], and belongs to an enabled loop. *)
Theorem loop_keeps_at_most_one_timer :
  forall cfg ls,
    let st := fst (run ls (create cfg)) in
    let effs := snd (run ls (create cfg)) in
    replayTimers None effs = Some (timer st) /\
    forall ms, timer st = Some ms ->
      ms = Z.max 5000 (intervalOf (autoConfig st)) /\ enabled (autoConfig st) = true.
Proof.
  intros cfg ls st effs.
  destruct (Timed_run ls (create cfg)) as [H1 H2].
  split; [exact H1|]. apply H2. intros ms H. discriminate.
Qed.

(** *** The circuit breaker and the ticks of the program *)

Lemma reachable_timerOk st : reachable st -> timerOk st.
Proof.
  induction 1 as [cfg | l st Hst IH]; [intros ms H; discriminate|].
  apply (proj2 (Timed_step l st)), IH.
Qed.

(** The events of [ls], one after the other from [st], all leave the
    breaker as it is. *)
Fixpoint keepBreaker (ls : list Step) (st : State) : Prop :=
  match ls with
  | [] => True
  | l :: rest => keepsBreaker l st /\ keepBreaker rest (fst (step l st))
  end.

Lemma run_when_disabled ls : forall st r,
  reachable st -> disabledReason st = Some r -> keepBreaker ls st ->
  disabledReason (fst (run ls st)) = Some r /\
  forall e, e ∈ snd (run ls st) -> isWork e = false.
Proof.
  induction ls as [|l ls IH]; intros st r Hst Hd Hk; cbn [run].
  - split; [exact Hd|]. intros e He. inversion He.
  - destruct Hk as [Hl Hrest].
    destruct (step_when_disabled l st r Hst Hd Hl) as [H1 H2].
    pose proof (reach_step l st Hst) as Hst1.
    destruct (step l st) as [st1 effs1]. cbn [fst snd] in *.
    destruct (IH st1 r Hst1 H1 Hrest) as [H3 H4].
    destruct (run ls st1) as [st2 effs2]. cbn [fst snd] in *.
    split; [exact H3|]. intros e He.
    apply elem_of_app in He. destruct He as [He|He]; auto.
Qed.

(** The tick the interval callback makes on a tripped loop. *)
Lemma timer_tick_when_disabled env b st r :
  reachable st -> timer st <> None -> disabledReason st = Some r ->
  tick env b st = (withSkipped st, [Emit (tick_skip (skip_disabled r))]) /\
  step (DoTick env) st = (withSkipped st, [Emit (tick_skip (skip_disabled r))]).
Proof.
  intros Hst Ht Hd. destruct (timer st) as [ms|] eqn:Et; [|congruence].
  destruct (reachable_timerOk st Hst ms Et) as [_ He].
  rewrite (tick_when_disabled env b st r Hd), He. split; [reflexivity|].
  cbn [step]. rewrite Et. unfold tickBegin. rewrite He, Hd. reflexivity.
Qed.

(** [start()] on a tripped loop: it returns at once, or installs the timer
    and makes a tick that is skipped. *)
Lemma start_when_disabled env st r :
  disabledReason st = Some r ->
  start env st = (st, [], false) \/
  exists ms,
    start env st =
      (withSkipped (withTimer (Some ms) st),
       [SetInterval ms; SetChannelHealth true; Emit (loop_start ms);
        Emit (tick_skip (skip_disabled r))], false).
Proof.
  intros Hd. unfold start.
  destruct (enabled (autoConfig st)) eqn:He; cbn [negb orb]; [|now left].
  destruct (bool_decide (timer st <> None)); [now left|]. right.
  eexists. unfold tickBegin. cbn [autoConfig withTimer disabledReason].
  rewrite He, Hd. reflexivity.
Qed.

(** The state of the loop of [cfgOne] after [start()] and the failure of
    the tick it made. *)
Definition tripped : State :=
  Eval vm_compute in fst (run [DoStart idle; DoSettle failing] (create cfgOne)).

(** C7.  In every state the loop can reach:
    - consecutive failed ticks that bring [consecutiveFailures] to
      [maxConsecutiveFailures] (from zero: that many of them) leave
      [disabledReason] set;
    - while [disabledReason] is set, the tick the interval callback makes
      only increments [skippedTicks] and emits one skip event, and so does
      the tick [start()] makes when it installs the timer: no objective is
      expired or picked and the orchestrator is not called;
    - [disabledReason] stays set, and no such call is made, through every
      sequence of events without an [applyConfig] that leaves the loop
      enabled;
    - an [applyConfig] that leaves the loop enabled clears
      [disabledReason]. *)
Theorem breaker_trips_and_ticks_skip_until_reconfigured :
  forall st, reachable st ->
    (forall ticks,
       ticks <> [] -> disabledReason st = None -> consecutiveFailed ticks st ->
       getMaxConsecutiveFailures st <= consecutiveFailures st + Z.of_nat (length ticks) ->
       disabledReason (runTicks ticks st) =
         Some (disabledAfter (consecutiveFailures st + Z.of_nat (length ticks)))) /\
    (forall r env b, disabledReason st = Some r -> timer st <> None ->
       tick env b st = (withSkipped st, [Emit (tick_skip (skip_disabled r))]) /\
       step (DoTick env) st = (withSkipped st, [Emit (tick_skip (skip_disabled r))])) /\
    (forall r env, disabledReason st = Some r ->
       start env st = (st, [], false) \/
       exists ms,
         start env st =
           (withSkipped (withTimer (Some ms) st),
            [SetInterval ms; SetChannelHealth true; Emit (loop_start ms);
             Emit (tick_skip (skip_disabled r))], false)) /\
    (forall r ls, disabledReason st = Some r -> keepBreaker ls st ->
       disabledReason (fst (run ls st)) = Some r /\
       forall e, e ∈ snd (run ls st) -> isWork e = false) /\
    (forall next env, enabled (mergeConfig next (autoConfig st)) = true ->
       disabledReason (fst (fst (applyConfig next env st))) = None).
Proof.
  intros st Hst. split; [|split; [|split; [|split]]].
  - intros ticks Hne Hd Hall Hlen.
    destruct (consecutive_failures_count ticks st Hd Hall) as (_ & _ & H).
    rewrite (H Hne). rewrite (proj2 (Z.geb_le _ _)) by lia. reflexivity.
  - intros r env b Hd Ht. apply timer_tick_when_disabled; assumption.
  - intros r env Hd. apply start_when_disabled, Hd.
  - intros r ls Hd Hk. apply run_when_disabled; assumption.
  - intros next env He. rewrite applyConfig_disabledReason, He. reflexivity.
Qed.

Lemma breaker_trips_and_ticks_skip_until_reconfigured_witness :
  consecutiveFailed [(idle, failing)] (create cfgOne) /\
  disabledReason (runTicks [(idle, failing)] (create cfgOne)) = Some (disabledAfter 1) /\
  reachable tripped /\
  disabledReason tripped = Some (disabledAfter 1) /\
  tick idle failing tripped
  = (withSkipped tripped, [Emit (tick_skip (skip_disabled (disabledAfter 1)))]) /\
  skippedTicks (fst (tick idle failing tripped)) = skippedTicks tripped + 1.
Proof.
  assert (Hall : consecutiveFailed [(idle, failing)] (create cfgOne)).
  { cbn. split; [reflexivity|]. split; [eexists; reflexivity | exact I]. }
  split; [exact Hall|]. split.
  { exact (proj1 (breaker_trips_and_ticks_skip_until_reconfigured
                    (create cfgOne) (reach_create cfgOne))
             [(idle, failing)] ltac:(discriminate) eq_refl Hall ltac:(vm_compute; discriminate)). }
  assert (Hst : reachable tripped).
  { exact (loop_run_reachable [DoStart idle; DoSettle failing] (create cfgOne)
             (reach_create cfgOne)). }
  split; [exact Hst|]. split; [reflexivity|].
  destruct (proj1 (proj2 (breaker_trips_and_ticks_skip_until_reconfigured tripped Hst))
              (disabledAfter 1) idle failing eq_refl ltac:(discriminate)) as [Htick _].
  split; [exact Htick|]. rewrite Htick. reflexivity.
Defined.

End AutonomousLoop.


(* ===================================================================== *)
(** ** Background task manager ([tasks/background-manager.js]) *)
(* ===================================================================== *)
Module BackgroundTaskManager.
Import JsString.

Inductive TaskType := type_command | type_schedule.

Inductive Status := queued | running | completed | failed | cancelled | stopped.

Inductive TaskError :=
  | exit_code (code : option Z)      (* `exit_code=${exitCode}` *)
  | spawn_error (message : string).  (* error.message *)

(** A task object.  Its [id] is the key under which the object is stored
    (see [objects] below); [logPath] is [logDir/<id>.log]. *)
Record Task := mkTask {
  name : string;
  type : TaskType;
  command : string;
  cwd : string;
  status : Status;
  createdAt : Z;
  updatedAt : Z;
  lastRunAt : option Z;
  nextRunAt : option Z;
  intervalMs : option Z;
  parentTaskId : option string;
  exitCode : option Z;
  pid : option Z;
  error : option TaskError;
  tail : list string;
  attempts : Z;
  maxRetries : Z;
  retryDelayMs : Z;
  timeoutMs : Z;
  background : bool;
}.

Instance Status_eq_dec : EqDecision Status.
Proof. solve_decision. Defined.

Instance TaskType_eq_dec : EqDecision TaskType.
Proof. solve_decision. Defined.

Record QueueItem := mkItem {
  taskId : string;
  item_timeoutMs : Z;
  item_retryDelayMs : Z;
  waitForCompletion : bool;
  retryAt : Z;
  enqueuedAt : Z;
}.

(** The closures installed by one [launchTaskNow] call on the spawned
    process: they capture the task object, [timeoutMs] and [queueItem]. *)
Record Child := mkChild {
  child_task : string;
  child_timeoutMs : Z;
  child_wait : bool;
}.

Instance Child_eq_dec : EqDecision Child.
Proof. solve_decision. Defined.

Inductive Event :=
  | ev_init (totalTasks activeSchedules queueDepth : Z)
  | ev_start (id : string) (fromQueue : bool) (attempts maxRetries : Z)
  | ev_output (id : string) (lines : list string)
  | ev_timeout (id : string) (timeoutMs : Z)
  | ev_end (id : string) (s : Status) (code : option Z) (attempts : Z)
  | ev_retry (id : string) (attempts maxRetries retryAt : Z)
  | ev_error (id : string) (message : string)
  | ev_duplicate (existingTaskId : string)
  | ev_queued (id : string) (queueDepth : Z)
  | ev_schedule_tick (id : string) (nextRunAt : Z)
  | ev_schedule_start (id : string) (intervalMs : Z)
  | ev_stop (id : string) (s : Status)
  | ev_shutdown (stopSchedulesOnly : bool) (activeProcesses queueDepth : Z).

(** The manager.  Task objects are shared between [this.tasks], the
    closures of running processes and of schedulers, and the promises of
    waiting callers; an object outlives its removal from [this.tasks] by
    [pruneTasks].  So all objects created during the manager's life are kept
    in [objects], under their (unique) id, and [tasks] lists the ids that
    [this.tasks] holds, in array order. *)
Record State := mkState {
  maxConcurrentProcesses : Z;
  defaultRetryLimit : Z;
  defaultRetryDelayMs : Z;
  maxTasks : Z;
  maxFinishedTasks : Z;
  objects : gmap string Task;
  tasks : list string;
  processes : gset string;          (* keys of [this.processes] *)
  children : list Child;            (* spawned processes that have not closed *)
  timeouts : list (string * Z);     (* armed [setTimeout] closures of launches *)
  schedulers : gset string;         (* keys of [this.schedulers] *)
  pendingQueue : list QueueItem;
  waiters : list string;            (* task ids with callers awaiting completion *)
  resolved : list (string * Status);(* waiters resolved, with the status they saw *)
  queueTimer : option Z;            (* time at which the queue wake-up fires *)
  persistTimer : bool;
  stateFile : option (list (string * Task));
  events : list Event;
  spawned : nat;                    (* processes spawned so far; pids are abstracted to it *)
}.

(** JavaScript [a || b] on numbers: [0] (and NaN) is falsy. *)
Definition orz (a b : Z) : Z := if a =? 0 then b else a.

(** [new BackgroundTaskManager({...})]; an option is [None] when absent. *)
Definition create (maxConcurrent retryLimit retryDelay maxT maxFinished : option Z) : State :=
  {| maxConcurrentProcesses := Z.max 1 (orz (default 6 maxConcurrent) 6);
     defaultRetryLimit := Z.max 0 (orz (default 2 retryLimit) 0);
     defaultRetryDelayMs := Z.max 250 (orz (default 5000 retryDelay) 5000);
     maxTasks := Z.max 500 (orz (default 4000 maxT) 4000);
     maxFinishedTasks := Z.max 100 (orz (default 1200 maxFinished) 1200);
     objects := ∅; tasks := []; processes := ∅; children := []; timeouts := [];
     schedulers := ∅; pendingQueue := []; waiters := []; resolved := [];
     queueTimer := None; persistTimer := false; stateFile := None;
     events := []; spawned := 0 |}.

(** *** Field updates *)

Definition setTask (f : Task -> Task) (id : string) (st : State) : State :=
  {| maxConcurrentProcesses := maxConcurrentProcesses st;
     defaultRetryLimit := defaultRetryLimit st;
     defaultRetryDelayMs := defaultRetryDelayMs st;
     maxTasks := maxTasks st; maxFinishedTasks := maxFinishedTasks st;
     objects := alter f id (objects st);
     tasks := tasks st; processes := processes st; children := children st;
     timeouts := timeouts st; schedulers := schedulers st;
     pendingQueue := pendingQueue st; waiters := waiters st; resolved := resolved st;
     queueTimer := queueTimer st; persistTimer := persistTimer st;
     stateFile := stateFile st; events := events st; spawned := spawned st |}.

Definition withStatus (s : Status) (now : Z) (t : Task) : Task :=
  {| name := name t; type := type t; command := command t; cwd := cwd t;
     status := s; createdAt := createdAt t; updatedAt := now;
     lastRunAt := lastRunAt t; nextRunAt := nextRunAt t; intervalMs := intervalMs t;
     parentTaskId := parentTaskId t; exitCode := exitCode t; pid := pid t;
     error := error t; tail := tail t; attempts := attempts t;
     maxRetries := maxRetries t; retryDelayMs := retryDelayMs t;
     timeoutMs := timeoutMs t; background := background t |}.

Definition withUpdatedAt (now : Z) (t : Task) : Task := withStatus (status t) now t.

Definition withExit (code : option Z) (err : option TaskError) (t : Task) : Task :=
  {| name := name t; type := type t; command := command t; cwd := cwd t;
     status := status t; createdAt := createdAt t; updatedAt := updatedAt t;
     lastRunAt := lastRunAt t; nextRunAt := nextRunAt t; intervalMs := intervalMs t;
     parentTaskId := parentTaskId t; exitCode := code; pid := pid t;
     error := err; tail := tail t; attempts := attempts t;
     maxRetries := maxRetries t; retryDelayMs := retryDelayMs t;
     timeoutMs := timeoutMs t; background := background t |}.

Definition withPid (p : option Z) (now : Z) (t : Task) : Task :=
  {| name := name t; type := type t; command := command t; cwd := cwd t;
     status := status t; createdAt := createdAt t; updatedAt := now;
     lastRunAt := lastRunAt t; nextRunAt := nextRunAt t; intervalMs := intervalMs t;
     parentTaskId := parentTaskId t; exitCode := exitCode t; pid := p;
     error := error t; tail := tail t; attempts := attempts t;
     maxRetries := maxRetries t; retryDelayMs := retryDelayMs t;
     timeoutMs := timeoutMs t; background := background t |}.

Definition withRun (lastRun nextRun : option Z) (now : Z) (t : Task) : Task :=
  {| name := name t; type := type t; command := command t; cwd := cwd t;
     status := status t; createdAt := createdAt t; updatedAt := now;
     lastRunAt := lastRun; nextRunAt := nextRun; intervalMs := intervalMs t;
     parentTaskId := parentTaskId t; exitCode := exitCode t; pid := pid t;
     error := error t; tail := tail t; attempts := attempts t;
     maxRetries := maxRetries t; retryDelayMs := retryDelayMs t;
     timeoutMs := timeoutMs t; background := background t |}.

Definition withDelays (timeout delay : Z) (t : Task) : Task :=
  {| name := name t; type := type t; command := command t; cwd := cwd t;
     status := status t; createdAt := createdAt t; updatedAt := updatedAt t;
     lastRunAt := lastRunAt t; nextRunAt := nextRunAt t; intervalMs := intervalMs t;
     parentTaskId := parentTaskId t; exitCode := exitCode t; pid := pid t;
     error := error t; tail := tail t; attempts := attempts t;
     maxRetries := maxRetries t; retryDelayMs := delay;
     timeoutMs := timeout; background := background t |}.

(** [withTail(lines, append, max = 120)]: [[...lines, append].slice(-max)] *)
Definition withTail (lines : list string) (append : string) : list string :=
  let next := lines ++ [append] in
  skipn (length next - 120) next.

(** [appendLog(task, line)]; the line is also appended to the task's log
    file. *)
Definition appendLog (line : string) (t : Task) : Task :=
  if truthy line then
    {| name := name t; type := type t; command := command t; cwd := cwd t;
       status := status t; createdAt := createdAt t; updatedAt := updatedAt t;
       lastRunAt := lastRunAt t; nextRunAt := nextRunAt t; intervalMs := intervalMs t;
       parentTaskId := parentTaskId t; exitCode := exitCode t; pid := pid t;
       error := error t; tail := withTail (tail t) line; attempts := attempts t;
       maxRetries := maxRetries t; retryDelayMs := retryDelayMs t;
       timeoutMs := timeoutMs t; background := background t |}
  else t.

(** The start of [launchTaskNow]: status, attempts and the reset fields. *)
Definition markLaunched (now : Z) (t : Task) : Task :=
  {| name := name t; type := type t; command := command t; cwd := cwd t;
     status := running; createdAt := createdAt t; updatedAt := now;
     lastRunAt := Some now; nextRunAt := nextRunAt t; intervalMs := intervalMs t;
     parentTaskId := parentTaskId t; exitCode := None; pid := None;
     error := None; tail := tail t; attempts := attempts t + 1;
     maxRetries := maxRetries t; retryDelayMs := retryDelayMs t;
     timeoutMs := timeoutMs t; background := background t |}.

Definition emit (e : Event) (st : State) : State :=
  {| maxConcurrentProcesses := maxConcurrentProcesses st;
     defaultRetryLimit := defaultRetryLimit st;
     defaultRetryDelayMs := defaultRetryDelayMs st;
     maxTasks := maxTasks st; maxFinishedTasks := maxFinishedTasks st;
     objects := objects st; tasks := tasks st; processes := processes st;
     children := children st; timeouts := timeouts st; schedulers := schedulers st;
     pendingQueue := pendingQueue st; waiters := waiters st; resolved := resolved st;
     queueTimer := queueTimer st; persistTimer := persistTimer st;
     stateFile := stateFile st; events := events st ++ [e]; spawned := spawned st |}.

Definition setTasks (l : list string) (st : State) : State :=
  {| maxConcurrentProcesses := maxConcurrentProcesses st;
     defaultRetryLimit := defaultRetryLimit st;
     defaultRetryDelayMs := defaultRetryDelayMs st;
     maxTasks := maxTasks st; maxFinishedTasks := maxFinishedTasks st;
     objects := objects st; tasks := l; processes := processes st;
     children := children st; timeouts := timeouts st; schedulers := schedulers st;
     pendingQueue := pendingQueue st; waiters := waiters st; resolved := resolved st;
     queueTimer := queueTimer st; persistTimer := persistTimer st;
     stateFile := stateFile st; events := events st; spawned := spawned st |}.

Definition setQueue (q : list QueueItem) (st : State) : State :=
  {| maxConcurrentProcesses := maxConcurrentProcesses st;
     defaultRetryLimit := defaultRetryLimit st;
     defaultRetryDelayMs := defaultRetryDelayMs st;
     maxTasks := maxTasks st; maxFinishedTasks := maxFinishedTasks st;
     objects := objects st; tasks := tasks st; processes := processes st;
     children := children st; timeouts := timeouts st; schedulers := schedulers st;
     pendingQueue := q; waiters := waiters st; resolved := resolved st;
     queueTimer := queueTimer st; persistTimer := persistTimer st;
     stateFile := stateFile st; events := events st; spawned := spawned st |}.

Definition setProcs (p : gset string) (c : list Child) (tm : list (string * Z)) (n : nat)
    (st : State) : State :=
  {| maxConcurrentProcesses := maxConcurrentProcesses st;
     defaultRetryLimit := defaultRetryLimit st;
     defaultRetryDelayMs := defaultRetryDelayMs st;
     maxTasks := maxTasks st; maxFinishedTasks := maxFinishedTasks st;
     objects := objects st; tasks := tasks st; processes := p;
     children := c; timeouts := tm; schedulers := schedulers st;
     pendingQueue := pendingQueue st; waiters := waiters st; resolved := resolved st;
     queueTimer := queueTimer st; persistTimer := persistTimer st;
     stateFile := stateFile st; events := events st; spawned := n |}.

Definition setSchedulers (s : gset string) (st : State) : State :=
  {| maxConcurrentProcesses := maxConcurrentProcesses st;
     defaultRetryLimit := defaultRetryLimit st;
     defaultRetryDelayMs := defaultRetryDelayMs st;
     maxTasks := maxTasks st; maxFinishedTasks := maxFinishedTasks st;
     objects := objects st; tasks := tasks st; processes := processes st;
     children := children st; timeouts := timeouts st; schedulers := s;
     pendingQueue := pendingQueue st; waiters := waiters st; resolved := resolved st;
     queueTimer := queueTimer st; persistTimer := persistTimer st;
     stateFile := stateFile st; events := events st; spawned := spawned st |}.

Definition setWaiters (w : list string) (r : list (string * Status)) (st : State) : State :=
  {| maxConcurrentProcesses := maxConcurrentProcesses st;
     defaultRetryLimit := defaultRetryLimit st;
     defaultRetryDelayMs := defaultRetryDelayMs st;
     maxTasks := maxTasks st; maxFinishedTasks := maxFinishedTasks st;
     objects := objects st; tasks := tasks st; processes := processes st;
     children := children st; timeouts := timeouts st; schedulers := schedulers st;
     pendingQueue := pendingQueue st; waiters := w; resolved := r;
     queueTimer := queueTimer st; persistTimer := persistTimer st;
     stateFile := stateFile st; events := events st; spawned := spawned st |}.

Definition setTimers (q : option Z) (p : bool) (f : option (list (string * Task)))
    (st : State) : State :=
  {| maxConcurrentProcesses := maxConcurrentProcesses st;
     defaultRetryLimit := defaultRetryLimit st;
     defaultRetryDelayMs := defaultRetryDelayMs st;
     maxTasks := maxTasks st; maxFinishedTasks := maxFinishedTasks st;
     objects := objects st; tasks := tasks st; processes := processes st;
     children := children st; timeouts := timeouts st; schedulers := schedulers st;
     pendingQueue := pendingQueue st; waiters := waiters st; resolved := resolved st;
     queueTimer := q; persistTimer := p; stateFile := f;
     events := events st; spawned := spawned st |}.

Definition addObject (id : string) (t : Task) (st : State) : State :=
  {| maxConcurrentProcesses := maxConcurrentProcesses st;
     defaultRetryLimit := defaultRetryLimit st;
     defaultRetryDelayMs := defaultRetryDelayMs st;
     maxTasks := maxTasks st; maxFinishedTasks := maxFinishedTasks st;
     objects := <[id := t]> (objects st); tasks := tasks st ++ [id];
     processes := processes st; children := children st; timeouts := timeouts st;
     schedulers := schedulers st; pendingQueue := pendingQueue st;
     waiters := waiters st; resolved := resolved st;
     queueTimer := queueTimer st; persistTimer := persistTimer st;
     stateFile := stateFile st; events := events st; spawned := spawned st |}.

(** *** Helpers *)

(** [this.tasks.find((task) => task.id === taskId) ?? null] *)
Definition getById (id : string) (st : State) : option Task :=
  if bool_decide (id ∈ tasks st) then objects st !! id else None.

(** [persist()]: the state file receives [{ tasks: this.tasks }]. *)
Definition persist (st : State) : State :=
  setTimers (queueTimer st) (persistTimer st)
    (Some (omap (fun id => t ← objects st !! id; Some (id, t)) (tasks st))) st.

Definition schedulePersist (st : State) : State :=
  setTimers (queueTimer st) true (stateFile st) st.

Definition clearPersistTimer (st : State) : State :=
  setTimers (queueTimer st) false (stateFile st) st.

Definition clearQueueTimer (st : State) : State :=
  setTimers None (persistTimer st) (stateFile st) st.

(** Stable sort: [x] goes before the first element it may precede. *)
Fixpoint insertBy (le : string -> string -> bool) (x : string) (l : list string) : list string :=
  match l with
  | [] => [x]
  | y :: rest => if le x y then x :: y :: rest else y :: insertBy le x rest
  end.

Definition sortBy (le : string -> string -> bool) (l : list string) : list string :=
  foldr (insertBy le) [] l.

Definition isFinal (s : Status) : bool :=
  match s with
  | completed | failed | cancelled | stopped => true
  | queued | running => false
  end.

(** The tasks [pruneTasks] never drops: schedules that are not cancelled
    and tasks whose status is not final. *)
Definition isActive (t : Task) : bool :=
  match type t with
  | type_schedule => negb (bool_decide (status t = cancelled)) || negb (isFinal (status t))
  | type_command => negb (isFinal (status t))
  end.

Definition pruneTasks (st : State) : State :=
  let activeId id := match objects st !! id with Some t => isActive t | None => true end in
  let updated id := match objects st !! id with Some t => updatedAt t | None => 0 end in
  let created id := match objects st !! id with Some t => createdAt t | None => 0 end in
  let active := List.filter activeId (tasks st) in
  let finished := List.filter (fun id => negb (activeId id)) (tasks st) in
  let sorted := sortBy (fun a b => updated b <=? updated a) finished in
  let keptFinished := firstn (Z.to_nat (maxFinishedTasks st)) sorted in
  let mergedCount := Z.of_nat (length active) + Z.of_nat (length keptFinished) in
  let kept :=
    if mergedCount >? maxTasks st then
      let over := mergedCount - maxTasks st in
      if (over >? 0) && negb (Nat.eqb (length keptFinished) 0)
      then firstn (Z.to_nat (Z.max 0 (Z.of_nat (length keptFinished) - over))) keptFinished
      else keptFinished
    else keptFinished in
  setTasks (sortBy (fun a b => created a <=? created b) (active ++ kept)) st.

(** [scheduleNextQueueTick()] *)
Definition scheduleNextQueueTick (now : Z) (st : State) : State :=
  match pendingQueue st with
  | [] => clearQueueTimer st
  | first :: rest =>
      let nextAt := foldr (fun item m => Z.min m (orz (retryAt item) now))
                          (orz (retryAt first) now) rest in
      setTimers (Some (now + Z.max 25 (nextAt - now))) (persistTimer st) (stateFile st) st
  end.

(** [resolveWaiters(task)] *)
Definition resolveWaiters (id : string) (st : State) : State :=
  match objects st !! id with
  | None => st
  | Some t =>
      let mine := List.filter (fun w => String.eqb w id) (waiters st) in
      setWaiters (List.filter (fun w => negb (String.eqb w id)) (waiters st))
                 (resolved st ++ map (fun w => (w, status t)) mine) st
  end.

(** [enqueueExistingTask(task, { timeoutMs, retryDelayMs, waitForCompletion, retryAt })] *)
Definition enqueueExistingTask (id : string) (timeout delay : Z) (wait : bool)
    (retry now : Z) (st : State) : State :=
  if existsb (fun entry => String.eqb (taskId entry) id) (pendingQueue st) then st
  else match objects st !! id with
  | None => st
  | Some t =>
      let timeout1 := orz timeout (orz (timeoutMs t) 0) in
      let delay1 := orz delay (orz (retryDelayMs t) (defaultRetryDelayMs st)) in
      let st1 := setTask (fun t => withDelays timeout1 delay1 (withStatus queued now t)) id st in
      setQueue (pendingQueue st1 ++
                [{| taskId := id; item_timeoutMs := timeout1; item_retryDelayMs := delay1;
                    waitForCompletion := wait; retryAt := orz retry now;
                    enqueuedAt := now |}]) st1
  end.

(** [launchTaskNow(task, queueItem, { fromQueue })], up to the installation
    of the handlers on the spawned process.  [timeout] and [wait] are
    [queueItem.timeoutMs] and [queueItem.waitForCompletion]. *)
Definition launchTaskNow (id : string) (timeout : Z) (wait fromQueue : bool) (now : Z)
    (st : State) : State :=
  match objects st !! id with
  | None => st
  | Some t =>
      let st1 := persist (setTask (markLaunched now) id st) in
      let st2 := emit (ev_start id fromQueue (attempts t + 1) (maxRetries t)) st1 in
      let st3 :=
        setProcs ({[id]} ∪ processes st2)
                 (children st2 ++ [{| child_task := id; child_timeoutMs := timeout;
                                      child_wait := wait |}])
                 (if timeout >? 0 then timeouts st2 ++ [(id, timeout)] else timeouts st2)
                 (S (spawned st2)) st2 in
      schedulePersist (setTask (withPid (Some (Z.of_nat (spawned st2))) now) id st3)
  end.

(** The [while] loop of [dispatchPending]; every iteration removes one
    item from the queue, so the length of the queue bounds the number of
    iterations. *)
Fixpoint dispatchLoop (fuel : nat) (now : Z) (progressed : bool) (st : State)
  : State * bool :=
  match fuel with
  | O => (st, progressed)
  | S fuel1 =>
      if Z.of_nat (size (processes st)) <? maxConcurrentProcesses st then
        match list_find (fun item => retryAt item <= now) (pendingQueue st) with
        | None => (st, progressed)
        | Some (nextIndex, item) =>
            let st1 := setQueue (delete nextIndex (pendingQueue st)) st in
            match getById (taskId item) st1 with
            | None => dispatchLoop fuel1 now progressed st1
            | Some t =>
                if bool_decide (status t = cancelled)
                then dispatchLoop fuel1 now progressed st1
                else dispatchLoop fuel1 now true
                       (launchTaskNow (taskId item) (item_timeoutMs item)
                                      (waitForCompletion item) true now st1)
            end
        end
      else (st, progressed)
  end.

(** [dispatchPending()], when no other handler of the manager runs while
    it waits (for [launchTaskNow] and for [persist]); the re-entrancy guard
    [this.dispatching] is then clear whenever a handler calls it. *)
Definition dispatchPending (now : Z) (st : State) : State :=
  let st0 := clearQueueTimer st in
  let '(st1, progressed) := dispatchLoop (length (pendingQueue st0)) now false st0 in
  let st2 := match pendingQueue st1 with
             | [] => st1
             | _ :: _ => scheduleNextQueueTick now st1
             end in
  if progressed then persist st2 else st2.

(** *** Handlers of a spawned process *)

Definition removeChild (c : Child) (st : State) : State :=
  let same x := String.eqb (child_task x) (child_task c)
                && (child_timeoutMs x =? child_timeoutMs c)
                && Bool.eqb (child_wait x) (child_wait c) in
  let cs := match list_find (fun x => same x = true) (children st) with
            | Some (i, _) => delete i (children st)
            | None => children st
            end in
  setProcs (processes st ∖ {[child_task c]}) cs (timeouts st) (spawned st) st.

(** [proc.on("close", async (code) => ...)] *)
Definition onClose (c : Child) (code : option Z) (now : Z) (st : State) : State :=
  let id := child_task c in
  let st0 := removeChild c st in
  match objects st0 !! id with
  | None => st0
  | Some t =>
      if bool_decide (status t = cancelled) then
        dispatchPending now
          (resolveWaiters id (persist (setTask (withUpdatedAt now) id st0)))
      else
        let st1 := setTask (fun t => withUpdatedAt now (withExit code (error t) t)) id st0 in
        let st2 :=
          if bool_decide (code = Some 0) then
            let st2 := persist (pruneTasks (setTask (withStatus completed now) id st1)) in
            resolveWaiters id (emit (ev_end id completed code (attempts t)) st2)
          else
            let canRetry := attempts t <=? maxRetries t in
            let st2 := setTask (withExit code (Some (exit_code code))) id st1 in
            if canRetry && negb (bool_decide (status t = stopped)) then
              let st3 := setTask (withStatus queued now) id st2 in
              let delay := orz (retryDelayMs t) (defaultRetryDelayMs st) in
              let retry := now + Z.max 250 delay in
              let st4 := enqueueExistingTask id (child_timeoutMs c) delay (child_wait c)
                                             retry now st3 in
              (* the line logged is `Retry scheduled at ${time}`; the time,
                 which the event below carries, is left out of the line *)
              let st5 := setTask (appendLog "Retry scheduled") id st4 in
              persist (emit (ev_retry id (attempts t) (maxRetries t) retry) st5)
            else
              let final := if bool_decide (status t = stopped) then stopped else failed in
              let st3 := persist (pruneTasks (setTask (withStatus final now) id st2)) in
              resolveWaiters id (emit (ev_end id final code (attempts t)) st3) in
        dispatchPending now st2
  end.

(** [proc.on("error", async (error) => ...)] *)
Definition onError (c : Child) (message : string) (now : Z) (st : State) : State :=
  let id := child_task c in
  let st0 := setProcs (processes st ∖ {[id]}) (children st) (timeouts st) (spawned st) st in
  let st1 := setTask (fun t => appendLog ("ERROR: " +:+ message)
                        (withExit (exitCode t) (Some (spawn_error message))
                           (withStatus failed now t))) id st0 in
  let st2 := persist (pruneTasks st1) in
  dispatchPending now (resolveWaiters id (emit (ev_error id message) st2)).

(** The [setTimeout] closure armed by a launch with [timeoutMs > 0]. *)
Definition onTimeout (id : string) (ms : Z) (now : Z) (st : State) : State :=
  let armed := match list_find (fun x => x = (id, ms)) (timeouts st) with
               | Some (i, _) => delete i (timeouts st)
               | None => timeouts st
               end in
  let st0 := setProcs (processes st) (children st) armed (spawned st) st in
  if bool_decide (id ∈ processes st0) then
    let st1 := setTask (fun t => appendLog "Stopped due to timeout"
                          (withStatus stopped now t)) id st0 in
    emit (ev_timeout id ms) (schedulePersist st1)
  else st0.

(** [onData(chunk)], for the non-empty lines of a chunk. *)
Definition onData (c : Child) (lines : list string) (now : Z) (st : State) : State :=
  let id := child_task c in
  let st1 := setTask (fun t => withUpdatedAt now (foldl (fun t l => appendLog l t) t lines))
                     id st in
  emit (ev_output id (skipn (length lines - 10) lines)) (schedulePersist st1).

(** *** Public operations *)

(** [createTaskBase({...})] *)
Definition createTaskBase (st : State) (name_ : string) (type_ : TaskType)
    (command_ cwd_ : string) (interval : option Z) (parent : option string)
    (background_ : bool) (maxRetries_ retryDelayMs_ : option Z) (timeout : Z) (now : Z)
  : Task :=
  {| name := if truthy name_ then name_
             else match type_ with type_command => "command" | type_schedule => "schedule" end;
     type := type_; command := command_; cwd := cwd_;
     status := match type_ with type_schedule => running | type_command => queued end;
     createdAt := now; updatedAt := now; lastRunAt := None; nextRunAt := None;
     intervalMs := interval; parentTaskId := parent; exitCode := None; pid := None;
     error := None; tail := []; attempts := 0;
     maxRetries := default (defaultRetryLimit st) maxRetries_;
     retryDelayMs := default (defaultRetryDelayMs st) retryDelayMs_;
     timeoutMs := timeout; background := background_ |}.

(** The options of [runCommand]; [None] stands for an absent option that
    has [null] as its default. *)
Record RunArgs := mkRunArgs {
  run_name : string;
  run_command : string;
  run_cwd : string;
  run_timeoutMs : Z;
  run_background : bool;
  run_parentTaskId : option string;
  run_dedupeRunning : bool;
  run_queueIfBusy : bool;
  run_forceQueue : bool;
  run_maxRetries : option Z;
  run_retryDelayMs : option Z;
}.

(** [findRunningByCommand(command, cwd)] *)
Definition findRunningByCommand (command_ cwd_ : string) (st : State) : option string :=
  if negb (truthy (trim command_)) then None
  else
    head (List.filter
      (fun id => match objects st !! id with
                 | Some t => bool_decide (status t = running)
                             && String.eqb (trim (command t)) (trim command_)
                             && String.eqb (trim (cwd t)) (trim cwd_)
                 | None => false
                 end)
      (tasks st)).

(** [runCommand({...})], up to the point where it returns the task or
    starts to wait for it, when no other handler of the manager runs while
    it waits (for the log directory, the state file and the launch);
    [uuid] is the value of [crypto.randomUUID()].  The result is the id of
    the task returned (or awaited). *)
Definition runCommand (a : RunArgs) (uuid : string) (now : Z) (st : State)
  : result string string * State :=
  if negb (truthy (run_command a)) || negb (truthy (trim (run_command a))) then
    (Throw "Command is required", st)
  else
    match (if run_dedupeRunning a
           then findRunningByCommand (run_command a) (run_cwd a) st else None) with
    | Some existing => (Ok existing, emit (ev_duplicate existing) st)
    | None =>
        let task := createTaskBase st (run_name a) type_command (run_command a) (run_cwd a)
                      None (run_parentTaskId a) (run_background a)
                      (run_maxRetries a) (run_retryDelayMs a) (run_timeoutMs a) now in
        let st1 := pruneTasks (addObject uuid task st) in
        let st2 := if run_background a then st1
                   else setWaiters (waiters st1 ++ [uuid]) (resolved st1) st1 in
        let shouldQueue :=
          run_forceQueue a
          || (run_queueIfBusy a
              && (Z.of_nat (size (processes st2)) >=? maxConcurrentProcesses st2))
          || negb (Nat.eqb (length (pendingQueue st2)) 0) in
        if shouldQueue then
          let st3 := enqueueExistingTask uuid (run_timeoutMs a) (retryDelayMs task)
                       (negb (run_background a)) now now st2 in
          let st4 := emit (ev_queued uuid (Z.of_nat (length (pendingQueue st3))))
                          (persist st3) in
          (Ok uuid, dispatchPending now st4)
        else
          (Ok uuid,
           launchTaskNow uuid (run_timeoutMs a) (negb (run_background a)) false now st2)
    end.

(** [enqueueCommand(options)] *)
Definition enqueueCommand (a : RunArgs) (uuid : string) (now : Z) (st : State)
  : result string string * State :=
  runCommand
    {| run_name := run_name a; run_command := run_command a; run_cwd := run_cwd a;
       run_timeoutMs := run_timeoutMs a; run_background := true;
       run_parentTaskId := run_parentTaskId a; run_dedupeRunning := run_dedupeRunning a;
       run_queueIfBusy := true; run_forceQueue := true;
       run_maxRetries := run_maxRetries a; run_retryDelayMs := run_retryDelayMs a |}
    uuid now st.

(** [startScheduler(task)] *)
Definition startScheduler (id : string) (st : State) : State :=
  match objects st !! id with
  | None => st
  | Some t =>
      match intervalMs t with
      | None => st
      | Some ms =>
          if ms <=? 0 then st
          else emit (ev_schedule_start id ms) (setSchedulers ({[id]} ∪ schedulers st) st)
      end
  end.

Record ScheduleArgs := mkScheduleArgs {
  sched_name : string;
  sched_command : string;
  sched_cwd : string;
  sched_intervalMs : option Z;      (* [None]: not a finite number *)
  sched_maxRetries : option Z;
  sched_retryDelayMs : option Z;
}.

(** [scheduleCommand({...})] *)
Definition scheduleCommand (a : ScheduleArgs) (uuid : string) (now : Z) (st : State)
  : result string string * State :=
  match sched_intervalMs a with
  | None => (Throw "intervalMs must be >= 1000", st)
  | Some ms =>
      if ms <? 1000 then (Throw "intervalMs must be >= 1000", st)
      else
        let task0 := createTaskBase st (sched_name a) type_schedule (sched_command a)
                       (sched_cwd a) (Some ms) None true
                       (sched_maxRetries a) (sched_retryDelayMs a) 0 now in
        let task := withRun None (Some (now + ms)) now task0 in
        let st1 := pruneTasks (addObject uuid task st) in
        (Ok uuid, persist (startScheduler uuid st1))
  end.

(** The [setInterval] callback installed by [startScheduler]; [uuid] is
    the id drawn for the command task of this tick. *)
Definition onSchedulerTick (id uuid : string) (now : Z) (st : State) : State :=
  match objects st !! id with
  | None => st
  | Some t =>
      let ms := default 0 (intervalMs t) in
      let st1 := setTask (withRun (Some now) (Some (now + ms)) now) id st in
      let st2 := emit (ev_schedule_tick id (now + ms)) (schedulePersist st1) in
      snd (runCommand
        {| run_name := name t +:+ ":tick"; run_command := command t; run_cwd := cwd t;
           run_timeoutMs := 0; run_background := true; run_parentTaskId := Some id;
           run_dedupeRunning := false; run_queueIfBusy := true; run_forceQueue := false;
           run_maxRetries := Some (maxRetries t);
           run_retryDelayMs := Some (retryDelayMs t) |}
        uuid now st2)
  end.

(** [stop(taskId)], when no other handler of the manager runs while it
    waits (for the log file, the state file and the dispatch). *)
Definition stop (id : string) (now : Z) (st : State) : bool * State :=
  match getById id st with
  | None => (false, st)
  | Some _ =>
      let st1 := setSchedulers (schedulers st ∖ {[id]}) st in
      let st2 := setQueue (List.filter (fun item => negb (String.eqb (taskId item) id))
                                       (pendingQueue st1)) st1 in
      let st3 := setProcs (processes st2 ∖ {[id]}) (children st2) (timeouts st2)
                          (spawned st2) st2 in
      let st4 := setTask (fun t => appendLog "Task was manually stopped"
                            (withStatus cancelled now t)) id st3 in
      let st5 := persist (pruneTasks st4) in
      (true, dispatchPending now (resolveWaiters id (emit (ev_stop id cancelled) st5)))
  end.

(** The body of the two loops of [shutdown]: a task found by [getById]
    whose status is [running] becomes [stopped]. *)
Definition stopIfRunning (now : Z) (id : string) (st : State) : State :=
  match getById id st with
  | Some t => if bool_decide (status t = running)
              then setTask (withStatus stopped now) id st else st
  | None => st
  end.

(** [shutdown({ stopSchedulesOnly = true })] *)
Definition shutdown (stopSchedulesOnly : bool) (now : Z) (st : State) : State :=
  let st0 := clearPersistTimer (clearQueueTimer st) in
  let st1 := setSchedulers ∅ (foldr (stopIfRunning now) st0 (elements (schedulers st0))) in
  let st2 :=
    if stopSchedulesOnly then st1
    else
      let killed := elements (processes st1) in
      let st2 := foldr (fun id st =>
                          match getById id st with
                          | Some t =>
                              if bool_decide (status t = running)
                              then resolveWaiters id (setTask (withStatus stopped now) id st)
                              else st
                          | None => st
                          end) st1 killed in
      setQueue [] (setProcs ∅ (children st2) (timeouts st2) (spawned st2) st2) in
  let st3 := persist st2 in
  emit (ev_shutdown stopSchedulesOnly (Z.of_nat (size (processes st3)))
                    (Z.of_nat (length (pendingQueue st3)))) st3.

(** The first loop of [init()], for one task read from the state file. *)
Definition restoreTask (now : Z) (id : string) (st : State) : State :=
  match objects st !! id with
  | None => st
  | Some t =>
      let s1 :=
        if bool_decide (type t = type_schedule) && negb (bool_decide (status t = cancelled))
        then running
        else if bool_decide (status t = running) || bool_decide (status t = queued)
        then queued
        else status t in
      let st1 := setTask (withStatus s1 now) id st in
      if bool_decide (type t = type_command) && bool_decide (s1 = queued)
      then enqueueExistingTask id (timeoutMs t)
             (orz (retryDelayMs t) (defaultRetryDelayMs st)) false now now st1
      else st1
  end.

(** [init()] on a fresh manager, when no other handler of the manager runs
    while it waits; [loaded] is the task list read from the state file,
    whose ids are distinct. *)
Definition init (loaded : list (string * Task)) (now : Z) (st : State) : State :=
  let st0 :=
    {| maxConcurrentProcesses := maxConcurrentProcesses st;
       defaultRetryLimit := defaultRetryLimit st;
       defaultRetryDelayMs := defaultRetryDelayMs st;
       maxTasks := maxTasks st; maxFinishedTasks := maxFinishedTasks st;
       objects := list_to_map loaded; tasks := map fst loaded;
       processes := processes st; children := children st; timeouts := timeouts st;
       schedulers := schedulers st; pendingQueue := pendingQueue st;
       waiters := waiters st; resolved := resolved st;
       queueTimer := queueTimer st; persistTimer := persistTimer st;
       stateFile := Some loaded; events := events st; spawned := spawned st |} in
  let st1 := foldl (fun st id => restoreTask now id st) st0 (tasks st0) in
  let st2 := persist (pruneTasks st1) in
  let st3 := foldl (fun st id =>
                      match objects st !! id with
                      | Some t =>
                          if bool_decide (type t = type_schedule)
                             && negb (bool_decide (status t = cancelled))
                          then startScheduler id st else st
                      | None => st
                      end) st2 (tasks st2) in
  let st4 := emit (ev_init (Z.of_nat (length (tasks st3)))
                           (Z.of_nat (size (schedulers st3)))
                           (Z.of_nat (length (pendingQueue st3)))) st3 in
  dispatchPending now st4.

(** *** The manager's life as a sequence of events *)

Inductive Step :=
  | DoRunCommand (a : RunArgs) (uuid : string) (now : Z)
  | DoEnqueueCommand (a : RunArgs) (uuid : string) (now : Z)
  | DoScheduleCommand (a : ScheduleArgs) (uuid : string) (now : Z)
  | DoStop (id : string) (now : Z)
  | DoShutdown (stopSchedulesOnly : bool) (now : Z)
  | DoClose (c : Child) (code : option Z) (now : Z)       (* a child process closes *)
  | DoError (c : Child) (message : string) (now : Z)      (* a child reports an error *)
  | DoData (c : Child) (lines : list string) (now : Z)    (* a child writes output *)
  | DoTimeout (id : string) (ms : Z) (now : Z)            (* a launch timeout fires *)
  | DoSchedulerTick (id uuid : string) (now : Z)          (* a scheduler interval fires *)
  | DoQueueTimer (now : Z)                                 (* the queue wake-up fires *)
  | DoPersistTimer.                                        (* the debounced persist fires *)

(** [uuid] is not the id of any task object of the manager. *)
Definition unused (uuid : string) (st : State) : bool :=
  match objects st !! uuid with None => true | Some _ => false end.

(** [step l st] is [None] when the event cannot occur in [st]: a handler
    of a process that is not alive, a timer that is not armed, or a
    [randomUUID()] value that is already in use. *)
Definition step (l : Step) (st : State) : option State :=
  match l with
  | DoRunCommand a uuid now =>
      if unused uuid st then Some (snd (runCommand a uuid now st)) else None
  | DoEnqueueCommand a uuid now =>
      if unused uuid st then Some (snd (enqueueCommand a uuid now st)) else None
  | DoScheduleCommand a uuid now =>
      if unused uuid st then Some (snd (scheduleCommand a uuid now st)) else None
  | DoStop id now => Some (snd (stop id now st))
  | DoShutdown b now => Some (shutdown b now st)
  | DoClose c code now =>
      if bool_decide (c ∈ children st) then Some (onClose c code now st) else None
  | DoError c message now =>
      if bool_decide (c ∈ children st) then Some (onError c message now st) else None
  | DoData c lines now =>
      if bool_decide (c ∈ children st) then Some (onData c lines now st) else None
  | DoTimeout id ms now =>
      if bool_decide ((id, ms) ∈ timeouts st) then Some (onTimeout id ms now st) else None
  | DoSchedulerTick id uuid now =>
      if bool_decide (id ∈ schedulers st) && unused uuid st
      then Some (onSchedulerTick id uuid now st) else None
  | DoQueueTimer now =>
      match queueTimer st with
      | Some _ => Some (dispatchPending now (clearQueueTimer st))
      | None => None
      end
  | DoPersistTimer =>
      if persistTimer st then Some (persist (clearPersistTimer st)) else None
  end.

Fixpoint run (ls : list Step) (st : State) : option State :=
  match ls with
  | [] => Some st
  | l :: rest => st1 ← step l st; run rest st1
  end.

Definition distinctIds (loaded : list (string * Task)) : Prop := NoDup (map fst loaded).

(** The states of a manager: it is constructed, [init()] may then load the
    state file, and events follow. *)
Inductive reachable : State -> Prop :=
  | reach_create a b c d e : reachable (create a b c d e)
  | reach_init a b c d e loaded now :
      distinctIds loaded -> reachable (init loaded now (create a b c d e))
  | reach_step l st st1 : reachable st -> step l st = Some st1 -> reachable st1.


(** *** Which task objects the handlers can reach *)

Definition isCommand (id : string) (st : State) : Prop :=
  exists t, objects st !! id = Some t /\ type t = type_command.

(** Every task object captured by a closure of a spawned process or of a
    launch timeout, or named by a queue item, is a command task. *)
Record Refs (st : State) : Prop := mkRefs {
  refs_children : forall c, c ∈ children st -> isCommand (child_task c) st;
  refs_queue : forall item, item ∈ pendingQueue st -> isCommand (taskId item) st;
  refs_timeouts : forall id ms, (id, ms) ∈ timeouts st -> isCommand id st;
}.

(** Task objects are never discarded and never change their type. *)
Definition Ext (st0 st : State) : Prop :=
  forall id t, objects st0 !! id = Some t ->
    exists t1, objects st !! id = Some t1 /\ type t1 = type t.

(** How the schedules of [st0] fare in [st]: an existing schedule keeps its
    status, or is cancelled, or takes a status that [allow] admits; a new
    schedule is running, cancelled, or in a status that [allow] admits. *)
Definition Evolves (allow : Status -> bool) (st0 st : State) : Prop :=
  forall id t1, objects st !! id = Some t1 -> type t1 = type_schedule ->
    match objects st0 !! id with
    | Some t => status t1 = status t \/ status t1 = cancelled \/ allow (status t1) = true
    | None => status t1 = running \/ status t1 = cancelled \/ allow (status t1) = true
    end.

Record R (allow : Status -> bool) (st0 st : State) : Prop := mkR {
  R_refs : Refs st;
  R_ext : Ext st0 st;
  R_evolves : Evolves allow st0 st;
}.

Definition noChange (s : Status) : bool := false.
Definition mayStop (s : Status) : bool := bool_decide (s = stopped).
Definition mayRun (s : Status) : bool := bool_decide (s = running).

Lemma Ext_refl st : Ext st st.
Proof. intros id t H. eauto. Qed.

Lemma Ext_trans st0 st1 st2 : Ext st0 st1 -> Ext st1 st2 -> Ext st0 st2.
Proof.
  intros H1 H2 id t Ht. destruct (H1 id t Ht) as (t1 & Ht1 & E1).
  destruct (H2 id t1 Ht1) as (t2 & Ht2 & E2). exists t2. split; [exact Ht2 | congruence].
Qed.

Lemma isCommand_Ext id st0 st : Ext st0 st -> isCommand id st0 -> isCommand id st.
Proof.
  intros HE (t & Ht & Hc). destruct (HE id t Ht) as (t1 & Ht1 & E1).
  exists t1. split; [exact Ht1 | congruence].
Qed.

Lemma R_refl allow st : Refs st -> R allow st st.
Proof.
  intros HR. split; [exact HR | apply Ext_refl |].
  intros id t1 Ht1 _. rewrite Ht1. left; reflexivity.
Qed.

(** A step that leaves the task objects alone and adds no reference to a
    task that is not a command. *)
Lemma R_frame allow st0 st st1 :
  R allow st0 st ->
  objects st1 = objects st ->
  (forall c, c ∈ children st1 -> c ∈ children st \/ isCommand (child_task c) st) ->
  (forall item, item ∈ pendingQueue st1 ->
     item ∈ pendingQueue st \/ isCommand (taskId item) st) ->
  (forall id ms, (id, ms) ∈ timeouts st1 -> (id, ms) ∈ timeouts st \/ isCommand id st) ->
  R allow st0 st1.
Proof.
  intros [HR HE HV] Ho Hc Hq Ht.
  assert (Hic : forall id, isCommand id st -> isCommand id st1).
  { intros id (t & H1 & H2). exists t. rewrite Ho. auto. }
  split.
  - split.
    + intros c H. destruct (Hc c H) as [H1|H1]; [apply Hic, (refs_children st HR c H1) | auto].
    + intros i H. destruct (Hq i H) as [H1|H1]; [apply Hic, (refs_queue st HR i H1) | auto].
    + intros id ms H. destruct (Ht id ms H) as [H1|H1];
        [apply Hic, (refs_timeouts st HR id ms H1) | auto].
  - intros id t H. rewrite Ho. apply HE, H.
  - intros id t1. rewrite Ho. apply HV.
Qed.

Lemma R_same allow st0 st st1 :
  R allow st0 st ->
  objects st1 = objects st -> children st1 = children st ->
  pendingQueue st1 = pendingQueue st -> timeouts st1 = timeouts st ->
  R allow st0 st1.
Proof.
  intros HR Ho Hc Hq Ht. apply (R_frame allow st0 st st1 HR Ho).
  - rewrite Hc; auto.
  - rewrite Hq; auto.
  - rewrite Ht; auto.
Qed.

Lemma isCommand_setTask f id1 id st :
  (forall t, type (f t) = type t) -> isCommand id st -> isCommand id (setTask f id1 st).
Proof.
  intros Hf (t & Ht & Hc). unfold isCommand. cbn [objects setTask].
  destruct (decide (id1 = id)) as [->|Hne].
  - exists (f t). rewrite lookup_alter_eq, Ht. split; [reflexivity | rewrite Hf; exact Hc].
  - exists t. rewrite lookup_alter_ne by exact Hne. auto.
Qed.

(** Updating one task object: the update keeps the type; on a schedule it
    keeps the status, cancels, or sets a status that [allow] admits. *)
Lemma R_setTask allow st0 st f id :
  R allow st0 st ->
  (forall t, type (f t) = type t) ->
  (forall t, objects st !! id = Some t -> type t = type_schedule ->
     status (f t) = status t \/ status (f t) = cancelled \/ allow (status (f t)) = true) ->
  R allow st0 (setTask f id st).
Proof.
  intros [HR HE HV] Hty Hst.
  split.
  - split; cbn [children pendingQueue timeouts setTask].
    + intros c H. apply isCommand_setTask; [exact Hty | apply (refs_children st HR c H)].
    + intros i H. apply isCommand_setTask; [exact Hty | apply (refs_queue st HR i H)].
    + intros i ms H. apply isCommand_setTask; [exact Hty | apply (refs_timeouts st HR i ms H)].
  - intros i t Ht. destruct (HE i t Ht) as (t1 & Ht1 & E1). cbn [objects setTask].
    destruct (decide (id = i)) as [->|Hne].
    + exists (f t1). rewrite lookup_alter_eq, Ht1. split; [reflexivity | rewrite Hty; exact E1].
    + exists t1. rewrite lookup_alter_ne by exact Hne. auto.
  - intros i t1. cbn [objects setTask]. destruct (decide (id = i)) as [->|Hne].
    + rewrite lookup_alter_eq. destruct (objects st !! i) as [t|] eqn:Ht; cbn; [|discriminate].
      intros [= <-] Hs. rewrite Hty in Hs.
      specialize (HV i t Ht Hs). specialize (Hst t eq_refl Hs).
      destruct (objects st0 !! i) as [t0|].
      * destruct Hst as [-> | [-> | Ha]]; auto.
      * destruct Hst as [-> | [-> | Ha]]; auto.
    + rewrite lookup_alter_ne by exact Hne. apply HV.
Qed.

Lemma R_setTask_command allow st0 st f id :
  R allow st0 st -> isCommand id st -> (forall t, type (f t) = type t) ->
  R allow st0 (setTask f id st).
Proof.
  intros HR (t & Ht & Hc) Hty. apply R_setTask; [exact HR | exact Hty |].
  intros t1 Ht1 Hs. congruence.
Qed.

Lemma R_setTask_keep allow st0 st f id :
  R allow st0 st -> (forall t, type (f t) = type t) -> (forall t, status (f t) = status t) ->
  R allow st0 (setTask f id st).
Proof.
  intros HR Hty Hs. apply R_setTask; [exact HR | exact Hty |]. intros; left; apply Hs.
Qed.

(** A new task object under an unused id. *)
Lemma R_addObject allow st0 st id t :
  R allow st0 st -> objects st !! id = None ->
  (type t = type_schedule -> status t = running) ->
  R allow st0 (addObject id t st).
Proof.
  intros [HR HE HV] Hnone Hnew.
  assert (Hic : forall i, isCommand i st -> isCommand i (addObject id t st)).
  { intros i (t1 & H1 & H2). exists t1. cbn [objects addObject]. rewrite lookup_insert_ne; [auto|].
    intros ->. congruence. }
  split.
  - split; cbn [children pendingQueue timeouts addObject].
    + intros c H. apply Hic, (refs_children st HR c H).
    + intros i H. apply Hic, (refs_queue st HR i H).
    + intros i ms H. apply Hic, (refs_timeouts st HR i ms H).
  - intros i t1 Ht1. destruct (HE i t1 Ht1) as (t2 & Ht2 & E2). exists t2. cbn [objects addObject].
    rewrite lookup_insert_ne; [auto|]. intros ->. congruence.
  - intros i t1. cbn [objects addObject]. destruct (decide (id = i)) as [->|Hne].
    + rewrite lookup_insert_eq. intros [= <-] Hs.
      destruct (objects st0 !! i) as [t0|] eqn:H0.
      * destruct (HE i t0 H0) as (t2 & Ht2 & _). congruence.
      * left. auto.
    + rewrite lookup_insert_ne by exact Hne. apply HV.
Qed.

Ltac task_fields :=
  intros; cbv beta; unfold appendLog, withUpdatedAt;
  repeat match goal with |- context [if ?b then _ else _] => destruct b end;
  reflexivity.

Ltac task_fields4 :=
  intros; cbv beta; unfold appendLog, withUpdatedAt;
  repeat match goal with |- context [if ?b then _ else _] => destruct b end;
  repeat split; reflexivity.

Section Composite.
Context (allow : Status -> bool) (st0 : State).

Lemma R_emit e st : R allow st0 st -> R allow st0 (emit e st).
Proof. intros H. apply (R_same allow st0 st); auto. Qed.

Lemma R_setTimers q p f st : R allow st0 st -> R allow st0 (setTimers q p f st).
Proof. intros H. apply (R_same allow st0 st); auto. Qed.

Lemma R_persist st : R allow st0 st -> R allow st0 (persist st).
Proof. apply R_setTimers. Qed.

Lemma R_schedulePersist st : R allow st0 st -> R allow st0 (schedulePersist st).
Proof. apply R_setTimers. Qed.

Lemma R_clearQueueTimer st : R allow st0 st -> R allow st0 (clearQueueTimer st).
Proof. apply R_setTimers. Qed.

Lemma R_clearPersistTimer st : R allow st0 st -> R allow st0 (clearPersistTimer st).
Proof. apply R_setTimers. Qed.

Lemma R_setTasks l st : R allow st0 st -> R allow st0 (setTasks l st).
Proof. intros H. apply (R_same allow st0 st); auto. Qed.

Lemma R_pruneTasks st : R allow st0 st -> R allow st0 (pruneTasks st).
Proof. apply R_setTasks. Qed.

Lemma R_setSchedulers s st : R allow st0 st -> R allow st0 (setSchedulers s st).
Proof. intros H. apply (R_same allow st0 st); auto. Qed.

Lemma R_setWaiters w r st : R allow st0 st -> R allow st0 (setWaiters w r st).
Proof. intros H. apply (R_same allow st0 st); auto. Qed.

Lemma R_resolveWaiters id st : R allow st0 st -> R allow st0 (resolveWaiters id st).
Proof.
  intros H. unfold resolveWaiters. destruct (objects st !! id); [apply R_setWaiters, H | exact H].
Qed.

Lemma R_scheduleNextQueueTick now st :
  R allow st0 st -> R allow st0 (scheduleNextQueueTick now st).
Proof.
  intros H. unfold scheduleNextQueueTick.
  destruct (pendingQueue st); [apply R_clearQueueTimer, H | apply R_setTimers, H].
Qed.

Lemma R_setQueue q st :
  R allow st0 st ->
  (forall item, item ∈ q -> item ∈ pendingQueue st \/ isCommand (taskId item) st) ->
  R allow st0 (setQueue q st).
Proof. intros H Hq. apply (R_frame allow st0 st); auto. Qed.

Lemma R_setProcs p c tm n st :
  R allow st0 st ->
  (forall x, x ∈ c -> x ∈ children st \/ isCommand (child_task x) st) ->
  (forall id ms, (id, ms) ∈ tm -> (id, ms) ∈ timeouts st \/ isCommand id st) ->
  R allow st0 (setProcs p c tm n st).
Proof. intros H Hc Ht. apply (R_frame allow st0 st); auto. Qed.

Lemma R_enqueueExistingTask id timeout delay wait retry now st :
  R allow st0 st -> isCommand id st ->
  R allow st0 (enqueueExistingTask id timeout delay wait retry now st).
Proof.
  intros H Hc. unfold enqueueExistingTask.
  destruct (existsb _ _); [exact H|].
  destruct (objects st !! id) as [t|]; [|exact H].
  apply R_setQueue.
  - apply R_setTask_command; [exact H | exact Hc | task_fields].
  - intros item Hin. apply elem_of_app in Hin as [Hin | Hin]; [left; exact Hin|].
    apply list_elem_of_singleton in Hin. subst item. right. cbn [taskId].
    apply isCommand_setTask; [task_fields | exact Hc].
Qed.

Lemma R_launchTaskNow id timeout wait fromQueue now st :
  R allow st0 st -> isCommand id st ->
  R allow st0 (launchTaskNow id timeout wait fromQueue now st).
Proof.
  intros H Hc. unfold launchTaskNow.
  destruct (objects st !! id) as [t|]; [|exact H].
  assert (Hc1 : isCommand id (setTask (markLaunched now) id st)).
  { apply isCommand_setTask; [task_fields | exact Hc]. }
  apply R_schedulePersist, R_setTask_command; [| | task_fields].
  - apply R_setProcs.
    + apply R_emit, R_persist, R_setTask_command; [exact H | exact Hc | task_fields].
    + intros x Hin. apply elem_of_app in Hin as [Hin | Hin]; [left; exact Hin|].
      apply list_elem_of_singleton in Hin. subst x. right. exact Hc1.
    + intros i ms Hin. destruct (timeout >? 0); [|left; exact Hin].
      apply elem_of_app in Hin as [Hin | Hin]; [left; exact Hin|].
      apply list_elem_of_singleton in Hin. inversion Hin; subst. right. exact Hc1.
  - exact Hc1.
Qed.

Lemma getById_Some id st t : getById id st = Some t -> objects st !! id = Some t.
Proof. unfold getById. destruct (bool_decide _); [auto | discriminate]. Qed.

Lemma R_dispatchLoop now fuel : forall p st,
  R allow st0 st -> R allow st0 (fst (dispatchLoop fuel now p st)).
Proof.
  induction fuel as [|fuel IH]; intros p st H; cbn [dispatchLoop]; [exact H|].
  destruct (_ <? _); [|exact H].
  destruct (list_find _ (pendingQueue st)) as [[i item]|] eqn:Hfind; [|exact H].
  apply list_find_Some in Hfind as (Hi & _ & _).
  assert (Hq : R allow st0 (setQueue (delete i (pendingQueue st)) st)).
  { apply R_setQueue; [exact H|]. intros x Hx. left.
    eapply list_elem_of_delete_inv, Hx. }
  destruct (getById (taskId item) _) as [t|] eqn:Hget; [|apply IH, Hq].
  destruct (bool_decide (status t = cancelled)); [apply IH, Hq|].
  apply IH, R_launchTaskNow; [exact Hq|].
  apply (refs_queue st (R_refs _ _ _ H) item). apply list_elem_of_lookup. eauto.
Qed.

Lemma R_dispatchPending now st : R allow st0 st -> R allow st0 (dispatchPending now st).
Proof.
  intros H. unfold dispatchPending.
  pose proof (R_dispatchLoop now (length (pendingQueue (clearQueueTimer st))) false
                (clearQueueTimer st) (R_clearQueueTimer st H)) as H1.
  destruct (dispatchLoop _ now false (clearQueueTimer st)) as [st1 progressed].
  cbn [fst] in H1.
  assert (H2 : R allow st0 (match pendingQueue st1 with
                            | [] => st1 | _ :: _ => scheduleNextQueueTick now st1 end)).
  { destruct (pendingQueue st1); [exact H1 | apply R_scheduleNextQueueTick, H1]. }
  destruct progressed; [apply R_persist, H2 | exact H2].
Qed.

End Composite.

Section Handlers.
Context (allow : Status -> bool) (st0 : State).

Lemma R_removeChild c st : R allow st0 st -> R allow st0 (removeChild c st).
Proof.
  intros H. unfold removeChild. apply R_setProcs; [exact H | | auto].
  intros x Hx. left. destruct (list_find _ (children st)) as [[i y]|]; [|exact Hx].
  eapply list_elem_of_delete_inv, Hx.
Qed.

Lemma isCommand_removeChild id c st : isCommand id st -> isCommand id (removeChild c st).
Proof. auto. Qed.

Lemma R_onClose c code now st :
  R allow st0 st -> c ∈ children st -> R allow st0 (onClose c code now st).
Proof.
  intros H Hin. pose proof (refs_children st (R_refs _ _ _ H) c Hin) as Hc.
  unfold onClose.
  pose proof (R_removeChild c st H) as H0.
  pose proof (isCommand_removeChild _ c st Hc) as Hc0.
  set (id := child_task c) in *. set (s0 := removeChild c st) in *.
  destruct (objects s0 !! id) as [t|] eqn:Ht; [|exact H0].
  destruct (bool_decide (status t = cancelled)).
  - apply R_dispatchPending, R_resolveWaiters, R_persist, R_setTask_keep;
      [exact H0 | task_fields | task_fields].
  - apply R_dispatchPending.
    assert (H1 : R allow st0 (setTask (fun t => withUpdatedAt now (withExit code (error t) t))
                                      id s0)).
    { apply R_setTask_keep; [exact H0 | task_fields | task_fields]. }
    assert (Hc1 : isCommand id (setTask (fun t => withUpdatedAt now (withExit code (error t) t))
                                        id s0)).
    { apply isCommand_setTask; [task_fields | exact Hc0]. }
    destruct (bool_decide (code = Some 0)).
    + apply R_resolveWaiters, R_emit, R_persist, R_pruneTasks, R_setTask_command;
        [exact H1 | exact Hc1 | task_fields].
    + destruct (_ && _).
      * apply R_persist, R_emit, R_setTask_keep; [| task_fields | task_fields].
        apply R_enqueueExistingTask.
        -- apply R_setTask_command; [| | task_fields].
           ++ apply R_setTask_keep; [exact H1 | task_fields | task_fields].
           ++ apply isCommand_setTask; [task_fields | exact Hc1].
        -- apply isCommand_setTask; [task_fields|].
           apply isCommand_setTask; [task_fields | exact Hc1].
      * apply R_resolveWaiters, R_emit, R_persist, R_pruneTasks, R_setTask_command;
          [| | task_fields].
        -- apply R_setTask_keep; [exact H1 | task_fields | task_fields].
        -- apply isCommand_setTask; [task_fields | exact Hc1].
Qed.

Lemma R_onError c message now st :
  R allow st0 st -> c ∈ children st -> R allow st0 (onError c message now st).
Proof.
  intros H Hin. pose proof (refs_children st (R_refs _ _ _ H) c Hin) as Hc.
  unfold onError.
  apply R_dispatchPending, R_resolveWaiters, R_emit, R_persist, R_pruneTasks.
  apply R_setTask_command; [| exact Hc | task_fields].
  apply R_setProcs; [exact H | auto | auto].
Qed.

Lemma R_onTimeout id ms now st :
  R allow st0 st -> (id, ms) ∈ timeouts st -> R allow st0 (onTimeout id ms now st).
Proof.
  intros H Hin. pose proof (refs_timeouts st (R_refs _ _ _ H) id ms Hin) as Hc.
  unfold onTimeout.
  assert (H1 : R allow st0
    (setProcs (processes st) (children st)
       match list_find (fun x => x = (id, ms)) (timeouts st) with
       | Some (i, _) => delete i (timeouts st)
       | None => timeouts st
       end (spawned st) st)).
  { apply R_setProcs; [exact H | auto |].
    intros i m Hx. left. destruct (list_find _ (timeouts st)) as [[j y]|]; [|exact Hx].
    eapply list_elem_of_delete_inv, Hx. }
  destruct (bool_decide _); [|exact H1].
  apply R_emit, R_schedulePersist, R_setTask_command; [exact H1 | exact Hc | task_fields].
Qed.

Lemma type_foldl_appendLog lines : forall t,
  type (foldl (fun t l => appendLog l t) t lines) = type t /\
  status (foldl (fun t l => appendLog l t) t lines) = status t.
Proof.
  induction lines as [|l lines IH]; intros t; cbn [foldl]; [auto|].
  destruct (IH (appendLog l t)) as [H1 H2]. rewrite H1, H2.
  unfold appendLog. destruct (truthy l); auto.
Qed.

Lemma R_onData c lines now st : R allow st0 st -> R allow st0 (onData c lines now st).
Proof.
  intros H. unfold onData. apply R_emit, R_schedulePersist, R_setTask_keep; [exact H | |].
  - intros t. apply (type_foldl_appendLog lines t).
  - intros t. apply (type_foldl_appendLog lines t).
Qed.

Lemma unused_None uuid st : unused uuid st = true -> objects st !! uuid = None.
Proof. unfold unused. destruct (objects st !! uuid); [discriminate | auto]. Qed.

Lemma R_runCommand a uuid now st :
  R allow st0 st -> unused uuid st = true -> R allow st0 (snd (runCommand a uuid now st)).
Proof.
  intros H Hu. apply unused_None in Hu. unfold runCommand.
  destruct (_ || _); [exact H|].
  destruct (if run_dedupeRunning a then _ else _); [apply R_emit, H|].
  set (task := createTaskBase _ _ _ _ _ _ _ _ _ _ _ _).
  assert (H1 : R allow st0 (pruneTasks (addObject uuid task st))).
  { apply R_pruneTasks, R_addObject; [exact H | exact Hu | discriminate]. }
  assert (Hc1 : isCommand uuid (pruneTasks (addObject uuid task st))).
  { exists task. cbn [objects pruneTasks setTasks addObject].
    rewrite lookup_insert_eq. auto. }
  set (s1 := pruneTasks (addObject uuid task st)) in *.
  assert (H2 : R allow st0 (if run_background a then s1
                            else setWaiters (waiters s1 ++ [uuid]) (resolved s1) s1)).
  { destruct (run_background a); [exact H1 | apply R_setWaiters, H1]. }
  assert (Hc2 : isCommand uuid (if run_background a then s1
                                else setWaiters (waiters s1 ++ [uuid]) (resolved s1) s1)).
  { destruct (run_background a); exact Hc1. }
  set (s2 := if run_background a then s1 else _) in *.
  destruct (_ || _); cbn [snd].
  - apply R_dispatchPending, R_emit, R_persist, R_enqueueExistingTask; assumption.
  - apply R_launchTaskNow; assumption.
Qed.

Lemma R_enqueueCommand a uuid now st :
  R allow st0 st -> unused uuid st = true ->
  R allow st0 (snd (enqueueCommand a uuid now st)).
Proof. intros H Hu. apply R_runCommand; assumption. Qed.

Lemma R_startScheduler id st : R allow st0 st -> R allow st0 (startScheduler id st).
Proof.
  intros H. unfold startScheduler.
  destruct (objects st !! id) as [t|]; [|exact H].
  destruct (intervalMs t) as [ms|]; [|exact H].
  destruct (ms <=? 0); [exact H | apply R_emit, R_setSchedulers, H].
Qed.

Lemma R_scheduleCommand a uuid now st :
  R allow st0 st -> unused uuid st = true ->
  R allow st0 (snd (scheduleCommand a uuid now st)).
Proof.
  intros H Hu. apply unused_None in Hu. unfold scheduleCommand.
  destruct (sched_intervalMs a) as [ms|]; [|exact H].
  destruct (ms <? 1000); [exact H|]. cbn [snd].
  apply R_persist, R_startScheduler, R_pruneTasks, R_addObject; [exact H | exact Hu |].
  reflexivity.
Qed.

Lemma R_onSchedulerTick id uuid now st :
  R allow st0 st -> unused uuid st = true ->
  R allow st0 (onSchedulerTick id uuid now st).
Proof.
  intros H Hu. unfold onSchedulerTick.
  destruct (objects st !! id) as [t|] eqn:Ht; [|exact H].
  apply R_runCommand.
  - apply R_emit, R_schedulePersist, R_setTask_keep; [exact H | task_fields | task_fields].
  - unfold unused in *. cbn [objects emit schedulePersist setTimers setTask].
    destruct (decide (id = uuid)) as [->|Hne].
    + rewrite Ht in Hu. discriminate.
    + rewrite lookup_alter_ne by exact Hne. exact Hu.
Qed.

Lemma R_stop id now st : R allow st0 st -> R allow st0 (snd (stop id now st)).
Proof.
  intros H. unfold stop. destruct (getById id st); [|exact H]. cbn [snd].
  apply R_dispatchPending, R_resolveWaiters, R_emit, R_persist, R_pruneTasks.
  apply R_setTask; [| task_fields |].
  - apply R_setProcs; [| auto | auto].
    apply R_setQueue; [apply R_setSchedulers, H|].
    intros item Hin. left. apply list_elem_of_In, List.filter_In in Hin as [Hin _].
    apply list_elem_of_In, Hin.
  - intros t1 _ _. right; left. unfold appendLog; cbn. reflexivity.
Qed.

End Handlers.

Lemma R_foldr_stopIfRunning st0 now ids : forall st,
  R mayStop st0 st -> R mayStop st0 (foldr (stopIfRunning now) st ids).
Proof.
  induction ids as [|id ids IH]; intros st H; cbn [foldr]; [exact H|].
  unfold stopIfRunning at 1.
  destruct (getById id _); [|apply IH, H].
  destruct (bool_decide _); [|apply IH, H].
  apply R_setTask; [apply IH, H | task_fields |].
  intros t1 _ _. right; right. reflexivity.
Qed.

Lemma R_shutdown st0 b now st : R mayStop st0 st -> R mayStop st0 (shutdown b now st).
Proof.
  intros H. unfold shutdown.
  apply R_emit, R_persist.
  set (s1 := setSchedulers ∅ _).
  assert (H1 : R mayStop st0 s1).
  { apply R_setSchedulers, R_foldr_stopIfRunning, R_clearPersistTimer, R_clearQueueTimer, H. }
  destruct b; [exact H1|].
  apply R_setQueue; [|intros item Hin; inversion Hin].
  apply R_setProcs; [| auto | auto].
  generalize (elements (processes s1)). intros ids.
  induction ids as [|id ids IH]; cbn [foldr]; [exact H1|].
  destruct (getById id _); [|exact IH].
  destruct (bool_decide _); [|exact IH].
  apply R_resolveWaiters, R_setTask; [exact IH | task_fields |].
  intros t1 _ _. right; right. reflexivity.
Qed.

(** The statuses a step may give to a schedule, besides [cancelled]. *)
Definition allowOf (l : Step) : Status -> bool :=
  match l with DoShutdown _ _ => mayStop | _ => noChange end.

Lemma step_R l st st1 : Refs st -> step l st = Some st1 -> R (allowOf l) st st1.
Proof.
  intros HR Hstep. pose proof (R_refl (allowOf l) st HR) as H.
  destruct l; cbn [step allowOf] in *.
  - destruct (unused uuid st) eqn:Hu; inversion Hstep; subst. apply R_runCommand; assumption.
  - destruct (unused uuid st) eqn:Hu; inversion Hstep; subst. apply R_enqueueCommand; assumption.
  - destruct (unused uuid st) eqn:Hu; inversion Hstep; subst. apply R_scheduleCommand; assumption.
  - inversion Hstep; subst. apply R_stop, H.
  - inversion Hstep; subst. apply R_shutdown, H.
  - destruct (bool_decide (c ∈ children st)) eqn:Hc; inversion Hstep; subst.
    apply bool_decide_eq_true in Hc. apply R_onClose; assumption.
  - destruct (bool_decide (c ∈ children st)) eqn:Hc; inversion Hstep; subst.
    apply bool_decide_eq_true in Hc. apply R_onError; assumption.
  - destruct (bool_decide (c ∈ children st)) eqn:Hc; inversion Hstep; subst.
    apply R_onData; assumption.
  - destruct (bool_decide ((id, ms) ∈ timeouts st)) eqn:Hc; inversion Hstep; subst.
    apply bool_decide_eq_true in Hc. apply R_onTimeout; assumption.
  - destruct (bool_decide (id ∈ schedulers st)); [|discriminate].
    destruct (unused uuid st) eqn:Hu; inversion Hstep; subst.
    apply R_onSchedulerTick; assumption.
  - destruct (queueTimer st); inversion Hstep; subst.
    apply R_dispatchPending, R_clearQueueTimer, H.
  - destruct (persistTimer st); inversion Hstep; subst.
    apply R_persist, R_clearPersistTimer, H.
Qed.

(** *** [init] *)

Lemma R_restoreTask st0 now id st : R mayRun st0 st -> R mayRun st0 (restoreTask now id st).
Proof.
  intros H. unfold restoreTask.
  destruct (objects st !! id) as [t|] eqn:Ht; [|exact H].
  set (s1 := if _ && _ then running else _).
  assert (H1 : R mayRun st0 (setTask (withStatus s1 now) id st)).
  { apply R_setTask; [exact H | task_fields |].
    intros t1 Ht1 Hs. assert (t1 = t) by congruence. subst t1. cbn [status withStatus].
    subst s1. rewrite Hs, bool_decide_eq_true_2 by reflexivity. cbn [andb].
    destruct (bool_decide (status t = cancelled)) eqn:Hc; cbn [negb].
    - apply bool_decide_eq_true in Hc. rewrite Hc. cbn. auto.
    - right; right. reflexivity. }
  destruct (bool_decide (type t = type_command)) eqn:Hc; cbn [andb]; [|exact H1].
  destruct (bool_decide (s1 = queued)); [|exact H1].
  apply R_enqueueExistingTask; [exact H1|].
  apply isCommand_setTask; [task_fields|].
  exists t. split; [exact Ht | apply bool_decide_eq_true in Hc; exact Hc].
Qed.

Definition restored (st : State) (id : string) : Prop :=
  forall t, objects st !! id = Some t -> type t = type_schedule ->
    status t = running \/ status t = cancelled.

Lemma restored_step allow st st1 id :
  (forall s, allow s = true -> s = running) ->
  R allow st st1 -> restored st id -> restored st1 id.
Proof.
  intros Hallow [_ HE HV] Hr t1 Ht1 Hs. specialize (HV id t1 Ht1 Hs).
  destruct (objects st !! id) as [t|] eqn:Ht.
  - destruct (HE id t Ht) as (t2 & Ht2 & Ety).
    assert (t2 = t1) by congruence. subst t2.
    destruct HV as [He | [He | He]]; [| auto | left; apply Hallow, He].
    rewrite He. apply (Hr t Ht). congruence.
  - destruct HV as [He | [He | He]]; [auto | auto | left; apply Hallow, He].
Qed.

Lemma mayRun_running s : mayRun s = true -> s = running.
Proof. unfold mayRun. apply bool_decide_eq_true. Qed.

Lemma noChange_running s : noChange s = true -> s = running.
Proof. discriminate. Qed.

Lemma restoreTask_restored now id st : restored (restoreTask now id st) id.
Proof.
  unfold restoreTask, restored.
  destruct (objects st !! id) as [t|] eqn:Ht; [|intros t1 Ht1; congruence].
  set (s1 := if _ && _ then running else _).
  assert (H1 : forall t1, objects (setTask (withStatus s1 now) id st) !! id = Some t1 ->
                 type t1 = type_schedule -> status t1 = running \/ status t1 = cancelled).
  { cbn [objects setTask]. rewrite lookup_alter_eq, Ht. cbn. intros t1 [= <-]. cbn.
    intros Hs. subst s1. rewrite Hs, bool_decide_eq_true_2 by reflexivity. cbn [andb].
    destruct (bool_decide (status t = cancelled)) eqn:Hc; cbn [negb]; [|auto].
    apply bool_decide_eq_true in Hc. rewrite Hc. cbn. auto. }
  destruct (bool_decide (type t = type_command)) eqn:Hc; cbn [andb]; [|exact H1].
  apply bool_decide_eq_true in Hc.
  destruct (bool_decide (s1 = queued)); [|exact H1].
  intros t1 Ht1 Hs. exfalso.
  unfold enqueueExistingTask in Ht1.
  destruct (existsb _ _).
  - cbn [objects setTask] in Ht1. rewrite lookup_alter_eq, Ht in Ht1. cbn in Ht1.
    inversion Ht1; subst. cbn in Hs. congruence.
  - destruct (objects (setTask (withStatus s1 now) id st) !! id) as [t2|].
    + cbn [objects setQueue setTask] in Ht1. rewrite !lookup_alter_eq, Ht in Ht1. cbn in Ht1.
      inversion Ht1; subst. cbn in Hs. congruence.
    + cbn [objects setTask] in Ht1. rewrite lookup_alter_eq, Ht in Ht1. cbn in Ht1.
      inversion Ht1; subst. cbn in Hs. congruence.
Qed.

Lemma restore_loop st0 now ids : forall st done,
  R mayRun st0 st -> (forall id, id ∈ done -> restored st id) ->
  R mayRun st0 (foldl (fun st id => restoreTask now id st) st ids) /\
  (forall id, id ∈ done ++ ids ->
     restored (foldl (fun st id => restoreTask now id st) st ids) id).
Proof.
  induction ids as [|id ids IH]; intros st done H Hdone; cbn [foldl].
  - rewrite app_nil_r. auto.
  - destruct (IH (restoreTask now id st) (done ++ [id])) as [H1 H2].
    + apply R_restoreTask, H.
    + intros i Hi. apply elem_of_app in Hi as [Hi | Hi].
      * apply (restored_step mayRun st); [apply mayRun_running | | apply Hdone, Hi].
        apply R_restoreTask, R_refl, (R_refs _ _ _ H).
      * apply list_elem_of_singleton in Hi. subst i. apply restoreTask_restored.
    + split; [exact H1|]. intros i Hi. apply H2.
      rewrite <- app_assoc. exact Hi.
Qed.

Lemma R_startSchedulers (allow : Status -> bool) st0 ids : forall st,
  R allow st0 st ->
  R allow st0 (foldl (fun st id =>
                 match objects st !! id with
                 | Some t =>
                     if bool_decide (type t = type_schedule)
                        && negb (bool_decide (status t = cancelled))
                     then startScheduler id st else st
                 | None => st
                 end) st ids).
Proof.
  induction ids as [|id ids IH]; intros st H; cbn [foldl]; [exact H|].
  apply IH. destruct (objects st !! id) as [t|]; [|exact H].
  destruct (_ && _); [apply R_startScheduler, H | exact H].
Qed.

(** After [init()] every reference is to a command task and every schedule
    is running or cancelled. *)
Lemma init_restores a b c d e loaded now :
  Refs (init loaded now (create a b c d e)) /\
  forall id, restored (init loaded now (create a b c d e)) id.
Proof.
  unfold init.
  set (s0 := mkState _ _ _ _ _ (list_to_map loaded) _ _ _ _ _ _ _ _ _ _ _ _ _).
  assert (HR0 : Refs s0).
  { split; cbn; intros; match goal with H : _ ∈ [] |- _ => inversion H end. }
  destruct (restore_loop s0 now (tasks s0) s0 [] (R_refl mayRun s0 HR0)) as [H1 H2].
  { intros id Hin. inversion Hin. }
  set (s1 := foldl _ s0 (tasks s0)) in *.
  assert (Hall : forall id, restored s1 id).
  { intros id t1 Ht1 Hs.
    destruct (objects s0 !! id) as [t|] eqn:Ht.
    - apply (H2 id); [|exact Ht1 | exact Hs]. cbn [app].
      subst s0; cbn [objects tasks] in *.
      apply list_elem_of_fmap. apply elem_of_list_to_map_2 in Ht.
      exists (id, t). split; [reflexivity | exact Ht].
    - pose proof (R_evolves _ _ _ H1 id t1 Ht1 Hs) as HV. rewrite Ht in HV.
      destruct HV as [He | [He | He]]; [auto | auto | left; apply mayRun_running, He]. }
  pose proof (R_refs _ _ _ H1) as HR1.
  set (s2 := persist (pruneTasks s1)).
  set (s3 := foldl _ s2 (tasks s2)).
  set (s4 := emit _ s3).
  assert (H4 : R noChange s1 (dispatchPending now s4)).
  { apply R_dispatchPending, R_emit, R_startSchedulers, R_persist, R_pruneTasks, R_refl, HR1. }
  split; [apply (R_refs _ _ _ H4)|].
  intros id. apply (restored_step noChange s1); [apply noChange_running | exact H4 | apply Hall].
Qed.

(** *** The invariant of the manager *)

Definition scheduleStatusOk (st : State) : Prop :=
  forall id t, objects st !! id = Some t -> type t = type_schedule ->
    status t = running \/ status t = cancelled \/ status t = stopped.

Lemma reachable_Refs_scheduleStatusOk st : reachable st -> Refs st /\ scheduleStatusOk st.
Proof.
  induction 1 as [a b c d e | a b c d e loaded now Hd | l st st1 Hst [HR HS] Hstep].
  - split.
    + split; cbn; intros; match goal with H : _ ∈ [] |- _ => inversion H end.
    + intros id t. cbn. rewrite lookup_empty. discriminate.
  - destruct (init_restores a b c d e loaded now) as [HR Hall].
    split; [exact HR|]. intros id t Ht Hs. destruct (Hall id t Ht Hs); auto.
  - pose proof (step_R l st st1 HR Hstep) as [HR1 HE HV].
    split; [exact HR1|]. intros id t1 Ht1 Hs. specialize (HV id t1 Ht1 Hs).
    assert (Hallow : allowOf l (status t1) = true -> status t1 = stopped).
    { destruct l; cbn; try discriminate. apply bool_decide_eq_true. }
    destruct (objects st !! id) as [t|] eqn:Ht.
    + destruct (HE id t Ht) as (t2 & Ht2 & Ety).
      assert (t2 = t1) by congruence. subst t2.
      destruct HV as [He | [He | He]]; [| auto | auto].
      rewrite He. apply (HS id t Ht). congruence.
    + destruct HV as [He | [He | He]]; auto.
Qed.

Lemma manager_run_reachable ls : forall st st1,
  reachable st -> run ls st = Some st1 -> reachable st1.
Proof.
  induction ls as [|l ls IH]; intros st st1 Hst Hrun; cbn in Hrun.
  - inversion Hrun; subst; exact Hst.
  - destruct (step l st) as [st2|] eqn:E; cbn in Hrun; [|discriminate].
    apply (IH st2 st1); [|exact Hrun]. apply (reach_step l st st2); assumption.
Qed.

(** A schedule that runs [date] every minute. *)
Definition everyMinute : ScheduleArgs :=
  {| sched_name := "schedule"; sched_command := "date"; sched_cwd := "/";
     sched_intervalMs := Some 60000; sched_maxRetries := None;
     sched_retryDelayMs := None |}.

(** The manager after [scheduleCommand(everyMinute)] and [shutdown()]. *)
Definition afterShutdown : State :=
  default (create None None None None None)
    (run [DoScheduleCommand everyMinute "s1" 0; DoShutdown true 10]
         (create None None None None None)).

Lemma afterShutdown_reachable : reachable afterShutdown.
Proof.
  apply (manager_run_reachable
           [DoScheduleCommand everyMinute "s1" 0; DoShutdown true 10]
           (create None None None None None)).
  - apply reach_create.
  - vm_compute. reflexivity.
Qed.

(** C6, as stated, fails: [shutdown()] marks a running schedule [stopped]. *)
Lemma schedule_is_stopped_by_shutdown :
  ~ (forall st, reachable st ->
       forall id t, objects st !! id = Some t -> type t = type_schedule ->
         status t <> completed /\ status t <> failed /\ status t <> stopped).
Proof.
  intros H.
  assert (Hs : exists t, objects afterShutdown !! "s1" = Some t /\
                         type t = type_schedule /\ status t = stopped).
  { eexists. vm_compute. repeat split. }
  destruct Hs as (t & Ht & Hty & Hst).
  destruct (H afterShutdown afterShutdown_reachable "s1" t Ht Hty) as (_ & _ & Hne).
  exact (Hne Hst).
Qed.

(** C6 (amended).  In every state the manager can reach, a schedule task is
    [running], [cancelled] or [stopped]: it never becomes [completed],
    [failed] or [queued].  No event other than [shutdown] makes a schedule
    [stopped]: after such an event a stopped schedule was stopped before.
    And after [init()], whatever the state file held, every schedule is
    [running] or [cancelled]. *)
Theorem schedule_status_running_cancelled_or_stopped :
  forall st, reachable st ->
    (forall id t, objects st !! id = Some t -> type t = type_schedule ->
       status t = running \/ status t = cancelled \/ status t = stopped) /\
    (forall l st1, step l st = Some st1 ->
       (forall b now, l <> DoShutdown b now) ->
       forall id t1, objects st1 !! id = Some t1 -> type t1 = type_schedule ->
         status t1 = stopped ->
         exists t, objects st !! id = Some t /\ status t = stopped) /\
    (forall a b c d e loaded now id t,
       objects (init loaded now (create a b c d e)) !! id = Some t ->
       type t = type_schedule -> status t = running \/ status t = cancelled).
Proof.
  intros st Hst. destruct (reachable_Refs_scheduleStatusOk st Hst) as [HR HS].
  split; [exact HS|]. split.
  - intros l st1 Hstep Hl id t1 Ht1 Hs Hstop.
    pose proof (step_R l st st1 HR Hstep) as [_ _ HV].
    specialize (HV id t1 Ht1 Hs).
    assert (Hallow : allowOf l (status t1) = false).
    { destruct l; try reflexivity. exfalso. eapply Hl. reflexivity. }
    rewrite Hallow, Hstop in HV.
    destruct (objects st !! id) as [t|].
    + exists t. split; [reflexivity|].
      destruct HV as [He | [He | He]]; [auto | discriminate | discriminate].
    + destruct HV as [He | [He | He]]; discriminate.
  - intros a b c d e loaded now id t Ht Hs.
    destruct (init_restores a b c d e loaded now) as [_ Hall]. apply (Hall id t Ht Hs).
Qed.

Lemma schedule_status_running_cancelled_or_stopped_witness :
  reachable afterShutdown /\
  forall id t, objects afterShutdown !! id = Some t -> type t = type_schedule ->
    status t = running \/ status t = cancelled \/ status t = stopped.
Proof.
  split; [exact afterShutdown_reachable|].
  exact (proj1 (schedule_status_running_cancelled_or_stopped afterShutdown
                  afterShutdown_reachable)).
Defined.

(** *** Retries of one command task *)

Definition isStart (id : string) (e : Event) : bool :=
  match e with ev_start i _ _ _ => String.eqb i id | _ => false end.

(** Number of "task.command.start" events emitted for task [id]: the
    launches of the task. *)
Definition starts (id : string) (st : State) : nat :=
  length (List.filter (isStart id) (events st)).

Definition queuedItems (id : string) (st : State) : list QueueItem :=
  List.filter (fun item => String.eqb (taskId item) id) (pendingQueue st).

Definition liveChildren (id : string) (st : State) : list Child :=
  List.filter (fun c => String.eqb (child_task c) id) (children st).

(** The state of task [id], created with [maxRetries = k] when [base]
    start events had been emitted under its id, as long as it only fails. *)
Inductive Retrying (id : string) (k : Z) (base : nat) (st : State) : Prop :=
  mkRetrying (t : Task)
    (rt_lookup : objects st !! id = Some t)
    (rt_type : type t = type_command)
    (rt_max : maxRetries t = k)
    (rt_attempts : attempts t = Z.of_nat (starts id st) - Z.of_nat base)
    (rt_status : status t = queued \/ status t = running \/ status t = failed)
    (rt_failed : status t = failed -> k < attempts t)
    (rt_bound : attempts t <= k + 1)
    (rt_queued : queuedItems id st <> [] ->
                 status t = queued /\ attempts t <= k /\ liveChildren id st = [])
    (rt_one_item : (length (queuedItems id st) <= 1)%nat)
    (rt_one_child : (length (liveChildren id st) <= 1)%nat).

Section Retry.
Context (id : string) (k : Z) (base : nat).

(** Steps that leave the object, the start events and the references of
    [id] as they are, or drop references. *)
Lemma Retrying_frame st st1 :
  Retrying id k base st ->
  objects st1 !! id = objects st !! id ->
  starts id st1 = starts id st ->
  (queuedItems id st1 = queuedItems id st \/ queuedItems id st1 = []) ->
  (liveChildren id st1 = liveChildren id st \/ liveChildren id st1 = []) ->
  Retrying id k base st1.
Proof.
  intros [t Ht Hty Hmax Hatt Hst Hf Hb Hq H1 H2] Ho Hs Hqq Hcc.
  apply (mkRetrying id k base st1 t); try assumption.
  - rewrite Ho. exact Ht.
  - rewrite Hs. exact Hatt.
  - intros Hne. destruct Hqq as [Hqq | Hqq]; [|congruence].
    rewrite Hqq in Hne. destruct (Hq Hne) as (Ha & Hb1 & Hc).
    split; [exact Ha|]. split; [exact Hb1|].
    destruct Hcc as [Hcc | Hcc]; rewrite Hcc; auto.
  - destruct Hqq as [Hqq | Hqq]; rewrite Hqq; [exact H1 | cbn; lia].
  - destruct Hcc as [Hcc | Hcc]; rewrite Hcc; [exact H2 | cbn; lia].
Qed.

Lemma Retrying_same st st1 :
  Retrying id k base st ->
  objects st1 = objects st -> events st1 = events st ->
  pendingQueue st1 = pendingQueue st -> children st1 = children st ->
  Retrying id k base st1.
Proof.
  intros H Ho He Hq Hc. apply (Retrying_frame st st1 H).
  - rewrite Ho. reflexivity.
  - unfold starts. rewrite He. reflexivity.
  - left. unfold queuedItems. rewrite Hq. reflexivity.
  - left. unfold liveChildren. rewrite Hc. reflexivity.
Qed.

Lemma Retrying_setTimers q p f st :
  Retrying id k base st -> Retrying id k base (setTimers q p f st).
Proof. intros H. apply (Retrying_same st); auto. Qed.

Lemma Retrying_persist st : Retrying id k base st -> Retrying id k base (persist st).
Proof. apply Retrying_setTimers. Qed.

Lemma Retrying_schedulePersist st :
  Retrying id k base st -> Retrying id k base (schedulePersist st).
Proof. apply Retrying_setTimers. Qed.

Lemma Retrying_clearQueueTimer st :
  Retrying id k base st -> Retrying id k base (clearQueueTimer st).
Proof. apply Retrying_setTimers. Qed.

Lemma Retrying_clearPersistTimer st :
  Retrying id k base st -> Retrying id k base (clearPersistTimer st).
Proof. apply Retrying_setTimers. Qed.

Lemma Retrying_setTasks l st : Retrying id k base st -> Retrying id k base (setTasks l st).
Proof. intros H. apply (Retrying_same st); auto. Qed.

Lemma Retrying_pruneTasks st : Retrying id k base st -> Retrying id k base (pruneTasks st).
Proof. apply Retrying_setTasks. Qed.

Lemma Retrying_setSchedulers s st :
  Retrying id k base st -> Retrying id k base (setSchedulers s st).
Proof. intros H. apply (Retrying_same st); auto. Qed.

Lemma Retrying_setWaiters w r st :
  Retrying id k base st -> Retrying id k base (setWaiters w r st).
Proof. intros H. apply (Retrying_same st); auto. Qed.

Lemma Retrying_resolveWaiters i st :
  Retrying id k base st -> Retrying id k base (resolveWaiters i st).
Proof.
  intros H. unfold resolveWaiters.
  destruct (objects st !! i); [apply Retrying_setWaiters, H | exact H].
Qed.

Lemma Retrying_scheduleNextQueueTick now st :
  Retrying id k base st -> Retrying id k base (scheduleNextQueueTick now st).
Proof.
  intros H. unfold scheduleNextQueueTick.
  destruct (pendingQueue st); [apply Retrying_clearQueueTimer, H | apply Retrying_setTimers, H].
Qed.

(** An event that is not a start of [id]. *)
Lemma Retrying_emit e st :
  isStart id e = false -> Retrying id k base st -> Retrying id k base (emit e st).
Proof.
  intros He H. apply (Retrying_frame st); auto.
  unfold starts. cbn [events emit]. rewrite List.filter_app. cbn [List.filter].
  rewrite He. rewrite app_nil_r. reflexivity.
Qed.

(** An update of another task object. *)
Lemma Retrying_setTask_other f i st :
  i <> id -> Retrying id k base st -> Retrying id k base (setTask f i st).
Proof.
  intros Hne H. apply (Retrying_frame st); auto.
  cbn [objects setTask]. apply lookup_alter_ne, Hne.
Qed.

(** An update that keeps type, status, attempts and maxRetries. *)
Lemma Retrying_setTask_keep f i st :
  (forall t, type (f t) = type t /\ status (f t) = status t /\
             attempts (f t) = attempts t /\ maxRetries (f t) = maxRetries t) ->
  Retrying id k base st -> Retrying id k base (setTask f i st).
Proof.
  intros Hf H. destruct (decide (i = id)) as [->|Hne]; [|apply Retrying_setTask_other; auto].
  destruct H as [t Ht Hty Hmax Hatt Hst Hfl Hb Hq H1 H2].
  destruct (Hf t) as (F1 & F2 & F3 & F4).
  apply (mkRetrying id k base _ (f t)); cbn [objects setTask];
    rewrite ?F1, ?F2, ?F3, ?F4; try assumption.
  rewrite lookup_alter_eq, Ht. reflexivity.
Qed.

End Retry.

Lemma filter_delete_false {A} (f : A -> bool) (l : list A) i x :
  l !! i = Some x -> f x = false -> List.filter f (delete i l) = List.filter f l.
Proof.
  revert i. induction l as [|y l IH]; intros [|i] Hi Hx; try discriminate.
  - inversion Hi; subst. change (delete 0%nat (x :: l)) with l.
    cbn [List.filter]. rewrite Hx. reflexivity.
  - change (delete (S i) (y :: l)) with (y :: delete i l).
    cbn [List.filter]. rewrite (IH i Hi Hx). reflexivity.
Qed.

Lemma filter_delete_true_one {A} (f : A -> bool) (l : list A) i x :
  l !! i = Some x -> f x = true -> (length (List.filter f l) <= 1)%nat ->
  List.filter f (delete i l) = [].
Proof.
  revert i. induction l as [|y l IH]; intros [|i] Hi Hx Hlen; try discriminate.
  - inversion Hi; subst. change (delete 0%nat (x :: l)) with l.
    cbn [List.filter] in Hlen. rewrite Hx in Hlen. cbn [length] in Hlen.
    destruct (List.filter f l); [reflexivity | cbn in Hlen; lia].
  - change (delete (S i) (y :: l)) with (y :: delete i l).
    change ((y :: l) !! S i) with (l !! i) in Hi.
    cbn [List.filter] in *. destruct (f y) eqn:Hy.
    + cbn [length] in Hlen. assert (Hin : In x (List.filter f l)).
      { apply List.filter_In. split; [|exact Hx].
        apply list_elem_of_In, list_elem_of_lookup. eauto. }
      destruct (List.filter f l); [destruct Hin | cbn in Hlen; lia].
    + apply (IH i Hi Hx Hlen).
Qed.

Lemma filter_nil_not_In {A} (f : A -> bool) (l : list A) x :
  List.filter f l = [] -> x ∈ l -> f x = false.
Proof.
  intros Hnil Hin. destruct (f x) eqn:Hx; [|reflexivity].
  assert (In x (List.filter f l)) as H.
  { apply List.filter_In. split; [apply list_elem_of_In, Hin | exact Hx]. }
  rewrite Hnil in H. destruct H.
Qed.

Section RetryOps.
Context (id : string) (k : Z) (base : nat).

Lemma Retrying_setQueue_other q st :
  Retrying id k base st ->
  (List.filter (fun item => String.eqb (taskId item) id) q = queuedItems id st \/
   List.filter (fun item => String.eqb (taskId item) id) q = []) ->
  Retrying id k base (setQueue q st).
Proof. intros H Hq. apply (Retrying_frame id k base st); auto. Qed.

Lemma Retrying_setProcs p c tm n st :
  Retrying id k base st ->
  (List.filter (fun x => String.eqb (child_task x) id) c = liveChildren id st \/
   List.filter (fun x => String.eqb (child_task x) id) c = []) ->
  Retrying id k base (setProcs p c tm n st).
Proof. intros H Hc. apply (Retrying_frame id k base st); auto. Qed.

Lemma Retrying_enqueue_other i timeout delay wait retry now st :
  i <> id -> Retrying id k base st ->
  Retrying id k base (enqueueExistingTask i timeout delay wait retry now st).
Proof.
  intros Hne H. unfold enqueueExistingTask.
  destruct (existsb _ _); [exact H|].
  destruct (objects st !! i) as [t|]; [|exact H].
  apply Retrying_setQueue_other; [apply Retrying_setTask_other; assumption|].
  left. unfold queuedItems. cbn [pendingQueue setTask]. rewrite List.filter_app.
  cbn [List.filter taskId]. rewrite (proj2 (String.eqb_neq i id) Hne), app_nil_r. reflexivity.
Qed.

Lemma Retrying_launch_other i timeout wait fromQueue now st :
  i <> id -> Retrying id k base st ->
  Retrying id k base (launchTaskNow i timeout wait fromQueue now st).
Proof.
  intros Hne H. unfold launchTaskNow.
  destruct (objects st !! i) as [t|]; [|exact H].
  apply Retrying_schedulePersist, Retrying_setTask_other; [exact Hne|].
  apply Retrying_setProcs.
  - apply Retrying_emit; [cbn; apply String.eqb_neq, Hne|].
    apply Retrying_persist, Retrying_setTask_other; assumption.
  - left. unfold liveChildren. cbn [children emit persist setTimers setTask].
    rewrite List.filter_app. cbn [List.filter child_task].
    rewrite (proj2 (String.eqb_neq i id) Hne), app_nil_r. reflexivity.
Qed.

(** The launch of [id] itself, from the queue (its item already removed)
    or right after its creation. *)
Lemma Retrying_launch_self timeout wait fromQueue now st :
  Retrying id k base st ->
  queuedItems id st = [] -> liveChildren id st = [] ->
  (forall t, objects st !! id = Some t -> status t = queued /\ attempts t <= k) ->
  Retrying id k base (launchTaskNow id timeout wait fromQueue now st).
Proof.
  intros [t Ht Hty Hmax Hatt Hst Hf Hb Hq H1 H2] Hq0 Hc0 Hfacts.
  destruct (Hfacts t Ht) as [Hqd Hle].
  unfold launchTaskNow. rewrite Ht.
  set (st1 := schedulePersist _).
  assert (Ho : objects st1 !! id =
               Some (withPid (Some (Z.of_nat (spawned st))) now (markLaunched now t))).
  { subst st1. cbn [objects events pendingQueue children schedulePersist setTimers setTask
                    setProcs emit persist].
    rewrite !lookup_alter_eq, Ht. reflexivity. }
  assert (Hs : starts id st1 = S (starts id st)).
  { unfold starts. subst st1.
    cbn [events schedulePersist setTimers setTask setProcs emit persist].
    rewrite List.filter_app, length_app. cbn [List.filter isStart].
    rewrite String.eqb_refl. cbn [length]. lia. }
  assert (Hqq : queuedItems id st1 = []) by exact Hq0.
  assert (Hcc : length (liveChildren id st1) = 1%nat).
  { unfold liveChildren in *. subst st1.
    cbn [children schedulePersist setTimers setTask setProcs emit persist].
    rewrite List.filter_app, Hc0. cbn [List.filter child_task app].
    rewrite String.eqb_refl. reflexivity. }
  apply (mkRetrying id k base st1 _ Ho); cbn [type maxRetries attempts status withPid markLaunched].
  - exact Hty.
  - exact Hmax.
  - rewrite Hs. lia.
  - auto.
  - discriminate.
  - lia.
  - intros Hne. exfalso. apply Hne. exact Hqq.
  - rewrite Hqq. cbn. lia.
  - rewrite Hcc. lia.
Qed.

Lemma Retrying_dispatchLoop now fuel : forall p st,
  Retrying id k base st -> Retrying id k base (fst (dispatchLoop fuel now p st)).
Proof.
  induction fuel as [|fuel IH]; intros p st H; cbn [dispatchLoop]; [exact H|].
  destruct (_ <? _); [|exact H].
  destruct (list_find _ (pendingQueue st)) as [[i item]|] eqn:Hfind; [|exact H].
  apply list_find_Some in Hfind as (Hi & _ & _).
  destruct (String.eqb (taskId item) id) eqn:Heq.
  - (* the item of [id] *)
    apply String.eqb_eq in Heq.
    pose proof H as [t Ht Hty Hmax Hatt Hst Hf Hb Hq H1 H2].
    assert (Hne : queuedItems id st <> []).
    { intros Hnil. apply (filter_nil_not_In _ _ item) in Hnil.
      - cbv beta in Hnil. rewrite Heq, String.eqb_refl in Hnil. discriminate.
      - apply list_elem_of_lookup. eauto. }
    destruct (Hq Hne) as (Hqd & Hle & Hc0).
    assert (Hq0 : queuedItems id (setQueue (delete i (pendingQueue st)) st) = []).
    { unfold queuedItems. cbn [pendingQueue setQueue].
      apply (filter_delete_true_one _ _ i item Hi); [rewrite Heq; apply String.eqb_refl | exact H1]. }
    assert (H0 : Retrying id k base (setQueue (delete i (pendingQueue st)) st)).
    { apply Retrying_setQueue_other; [exact H | right; exact Hq0]. }
    destruct (getById (taskId item) _) as [t1|] eqn:Hget; [|apply IH, H0].
    destruct (bool_decide (status t1 = cancelled)); [apply IH, H0|].
    apply IH. rewrite Heq. apply Retrying_launch_self; [exact H0 | exact Hq0 | exact Hc0 |].
    intros t2 Ht2. cbn [objects setQueue] in Ht2. assert (t2 = t) by congruence. subst. auto.
  - (* an item of another task *)
    apply String.eqb_neq in Heq.
    assert (H0 : Retrying id k base (setQueue (delete i (pendingQueue st)) st)).
    { apply Retrying_setQueue_other; [exact H | left].
      apply (filter_delete_false _ _ i item Hi). apply String.eqb_neq, Heq. }
    destruct (getById (taskId item) _) as [t1|] eqn:Hget; [|apply IH, H0].
    destruct (bool_decide (status t1 = cancelled)); [apply IH, H0|].
    apply IH, Retrying_launch_other; assumption.
Qed.

Lemma Retrying_dispatchPending now st :
  Retrying id k base st -> Retrying id k base (dispatchPending now st).
Proof.
  intros H. unfold dispatchPending.
  pose proof (Retrying_dispatchLoop now (length (pendingQueue (clearQueueTimer st))) false
                (clearQueueTimer st) (Retrying_clearQueueTimer id k base st H)) as H1.
  destruct (dispatchLoop _ now false (clearQueueTimer st)) as [st1 progressed].
  cbn [fst] in H1.
  assert (H2 : Retrying id k base (match pendingQueue st1 with
                                   | [] => st1 | _ :: _ => scheduleNextQueueTick now st1 end)).
  { destruct (pendingQueue st1); [exact H1 | apply Retrying_scheduleNextQueueTick, H1]. }
  destruct progressed; [apply Retrying_persist, H2 | exact H2].
Qed.

End RetryOps.

Definition sameChild (c x : Child) : bool :=
  String.eqb (child_task x) (child_task c)
  && (child_timeoutMs x =? child_timeoutMs c)
  && Bool.eqb (child_wait x) (child_wait c).

Lemma sameChild_refl c : sameChild c c = true.
Proof.
  unfold sameChild. rewrite String.eqb_refl, Z.eqb_refl. destruct (child_wait c); reflexivity.
Qed.

Lemma sameChild_task c x : sameChild c x = true -> child_task x = child_task c.
Proof.
  unfold sameChild. intros H. apply andb_prop in H as [H _]. apply andb_prop in H as [H _].
  apply String.eqb_eq, H.
Qed.

Section RetryHandlers.
Context (id : string) (k : Z) (base : nat).

Lemma Retrying_removeChild_other c st :
  child_task c <> id -> Retrying id k base st -> Retrying id k base (removeChild c st).
Proof.
  intros Hne H. unfold removeChild. apply Retrying_setProcs; [exact H|]. left.
  fold (sameChild c).
  destruct (list_find _ (children st)) as [[i y]|] eqn:Hfind; [|reflexivity].
  apply list_find_Some in Hfind as (Hi & Hy & _).
  apply (filter_delete_false _ _ i y Hi).
  apply String.eqb_neq. rewrite (sameChild_task c y Hy). exact Hne.
Qed.

Lemma removeChild_self c st :
  c ∈ children st -> child_task c = id -> (length (liveChildren id st) <= 1)%nat ->
  liveChildren id (removeChild c st) = [].
Proof.
  intros Hin Hc Hlen. unfold removeChild, liveChildren. cbn [children setProcs].
  fold (sameChild c).
  destruct (list_find _ (children st)) as [[i y]|] eqn:Hfind.
  - apply list_find_Some in Hfind as (Hi & Hy & _).
    apply (filter_delete_true_one _ _ i y Hi); [|exact Hlen].
    apply String.eqb_eq. rewrite (sameChild_task c y Hy). exact Hc.
  - exfalso. apply list_find_None in Hfind.
    rewrite Forall_forall in Hfind. apply (Hfind c Hin). apply sameChild_refl.
Qed.

Lemma existsb_queuedItems st :
  queuedItems id st = [] ->
  existsb (fun entry => String.eqb (taskId entry) id) (pendingQueue st) = false.
Proof.
  intros Hnil. destruct (existsb _ _) eqn:He; [|reflexivity].
  apply List.existsb_exists in He as (x & Hx & Hid).
  apply (filter_nil_not_In _ _ x) in Hnil; [|apply list_elem_of_In, Hx].
  cbv beta in Hnil. congruence.
Qed.

(** A failing run of [id] closes. *)
Lemma Retrying_onClose_self c code now st :
  Retrying id k base st -> c ∈ children st -> child_task c = id -> code <> Some 0 ->
  Retrying id k base (onClose c code now st).
Proof.
  intros H Hin Hc Hcode.
  pose proof H as [t Ht Hty Hmax Hatt Hst Hf Hb Hq H1 H2].
  assert (Hq0 : queuedItems id st = []).
  { destruct (queuedItems id st) eqn:E; [reflexivity|].
    destruct Hq as (_ & _ & Hnil); [discriminate|].
    apply (filter_nil_not_In _ _ c) in Hnil; [|exact Hin].
    cbv beta in Hnil. rewrite Hc, String.eqb_refl in Hnil. discriminate. }
  pose proof (removeChild_self c st Hin Hc H2) as Hc0.
  assert (H0 : Retrying id k base (removeChild c st)).
  { unfold removeChild. apply Retrying_setProcs; [exact H | right].
    exact Hc0. }
  unfold onClose. rewrite Hc. set (s0 := removeChild c st) in *.
  assert (Ht0 : objects s0 !! id = Some t) by exact Ht.
  rewrite Ht0.
  rewrite bool_decide_eq_false_2 by (destruct Hst as [E | [E | E]]; rewrite E; discriminate).
  rewrite (bool_decide_eq_false_2 (code = Some 0)) by exact Hcode.
  rewrite (bool_decide_eq_false_2 (status t = stopped))
    by (destruct Hst as [E | [E | E]]; rewrite E; discriminate).
  rewrite Hmax. cbn [negb]. rewrite andb_true_r.
  apply Retrying_dispatchPending.
  set (s1 := setTask (fun t => withUpdatedAt now (withExit code (error t) t)) id s0).
  set (s2 := setTask (withExit code (Some (exit_code code))) id s1).
  assert (Hs2 : Retrying id k base s2).
  { apply Retrying_setTask_keep; [task_fields4|].
    apply Retrying_setTask_keep; [task_fields4 | exact H0]. }
  assert (Hs2q : queuedItems id s2 = []) by exact Hq0.
  assert (Hs2c : liveChildren id s2 = []) by exact Hc0.
  assert (Ht2 : objects s2 !! id =
                Some (withExit code (Some (exit_code code))
                        (withUpdatedAt now (withExit code (error t) t)))).
  { subst s2 s1. cbn [objects setTask]. rewrite !lookup_alter_eq, Ht0. reflexivity. }
  destruct (attempts t <=? k) eqn:Hcan.
  - (* retry *)
    apply Z.leb_le in Hcan.
    apply Retrying_persist, Retrying_emit; [reflexivity|].
    apply Retrying_setTask_keep; [task_fields4|].
    set (s3 := setTask (withStatus queued now) id s2).
    unfold enqueueExistingTask.
    rewrite (existsb_queuedItems s3) by exact Hs2q.
    assert (Ht3 : objects s3 !! id =
                  Some (withStatus queued now
                          (withExit code (Some (exit_code code))
                             (withUpdatedAt now (withExit code (error t) t))))).
    { subst s3. cbn [objects setTask]. rewrite lookup_alter_eq, Ht2. reflexivity. }
    rewrite Ht3.
    match goal with |- Retrying _ _ _ (setQueue ?q (setTask ?f id s3)) =>
      set (s4 := setQueue q (setTask f id s3)) end.
    assert (Ht4 : exists t4, objects s4 !! id = Some t4 /\ type t4 = type t /\
                    maxRetries t4 = maxRetries t /\ attempts t4 = attempts t /\
                    status t4 = queued).
    { eexists. subst s4. cbn [objects setQueue setTask]. rewrite lookup_alter_eq, Ht3.
      split; [reflexivity|]. cbn. auto. }
    destruct Ht4 as (t4 & Ht4 & E1 & E2 & E3 & E4).
    apply (mkRetrying id k base s4 t4 Ht4).
    + congruence.
    + congruence.
    + rewrite E3. exact Hatt.
    + auto.
    + rewrite E4. discriminate.
    + rewrite E3. exact Hb.
    + intros _. split; [exact E4|]. split; [rewrite E3; exact Hcan | exact Hs2c].
    + unfold queuedItems in *. subst s4. cbn [pendingQueue setQueue setTask].
      rewrite List.filter_app. fold (queuedItems id s3).
      replace (queuedItems id s3) with (@nil QueueItem) by (symmetry; exact Hs2q).
      cbn [List.filter taskId app]. rewrite String.eqb_refl. cbn. lia.
    + rewrite (Hs2c : liveChildren id s4 = []). cbn. lia.
  - (* no retry left *)
    apply Z.leb_gt in Hcan.
    apply Retrying_resolveWaiters, Retrying_emit; [reflexivity|].
    apply Retrying_persist, Retrying_pruneTasks.
    set (s3 := setTask (withStatus failed now) id s2).
    assert (Ht3 : objects s3 !! id =
                  Some (withStatus failed now
                          (withExit code (Some (exit_code code))
                             (withUpdatedAt now (withExit code (error t) t))))).
    { subst s3. cbn [objects setTask]. rewrite lookup_alter_eq, Ht2. reflexivity. }
    apply (mkRetrying id k base s3 _ Ht3); cbn [type maxRetries attempts status withStatus
                                                 withExit withUpdatedAt].
    + exact Hty.
    + exact Hmax.
    + exact Hatt.
    + auto.
    + intros _. exact Hcan.
    + exact Hb.
    + intros Hne. exfalso. apply Hne. exact Hs2q.
    + rewrite (Hs2q : queuedItems id s3 = []). cbn. lia.
    + rewrite (Hs2c : liveChildren id s3 = []). cbn. lia.
Qed.

End RetryHandlers.

Section RetryOthers.
Context (id : string) (k : Z) (base : nat).

Lemma Retrying_onClose_other c code now st :
  child_task c <> id -> Retrying id k base st -> Retrying id k base (onClose c code now st).
Proof.
  intros Hne H. unfold onClose.
  pose proof (Retrying_removeChild_other id k base c st Hne H) as H0.
  set (i := child_task c) in *. set (s0 := removeChild c st) in *.
  destruct (objects s0 !! i) as [t|]; [|exact H0].
  destruct (bool_decide (status t = cancelled)).
  - apply Retrying_dispatchPending, Retrying_resolveWaiters, Retrying_persist,
      Retrying_setTask_other; assumption.
  - apply Retrying_dispatchPending.
    destruct (bool_decide (code = Some 0)).
    + apply Retrying_resolveWaiters, Retrying_emit; [reflexivity|].
      apply Retrying_persist, Retrying_pruneTasks.
      do 2 (apply Retrying_setTask_other; [exact Hne|]). exact H0.
    + destruct (_ && _).
      * apply Retrying_persist, Retrying_emit; [reflexivity|].
        apply Retrying_setTask_other; [exact Hne|].
        apply Retrying_enqueue_other; [exact Hne|].
        do 3 (apply Retrying_setTask_other; [exact Hne|]). exact H0.
      * apply Retrying_resolveWaiters, Retrying_emit; [reflexivity|].
        apply Retrying_persist, Retrying_pruneTasks.
        do 3 (apply Retrying_setTask_other; [exact Hne|]). exact H0.
Qed.

Lemma Retrying_onError_other c message now st :
  child_task c <> id -> Retrying id k base st ->
  Retrying id k base (onError c message now st).
Proof.
  intros Hne H. unfold onError.
  apply Retrying_dispatchPending, Retrying_resolveWaiters, Retrying_emit; [reflexivity|].
  apply Retrying_persist, Retrying_pruneTasks, Retrying_setTask_other; [exact Hne|].
  apply Retrying_setProcs; [exact H | left; reflexivity].
Qed.

Lemma Retrying_onTimeout_other i ms now st :
  i <> id -> Retrying id k base st -> Retrying id k base (onTimeout i ms now st).
Proof.
  intros Hne H. unfold onTimeout.
  match goal with |- context [setProcs ?p ?c ?tm ?n st] =>
    assert (H1 : Retrying id k base (setProcs p c tm n st))
      by (apply Retrying_setProcs; [exact H | left; reflexivity]) end.
  destruct (bool_decide _); [|exact H1].
  apply Retrying_emit; [reflexivity|].
  apply Retrying_schedulePersist, Retrying_setTask_other; assumption.
Qed.

Lemma foldl_appendLog_keeps lines : forall t,
  type (foldl (fun t l => appendLog l t) t lines) = type t /\
  status (foldl (fun t l => appendLog l t) t lines) = status t /\
  attempts (foldl (fun t l => appendLog l t) t lines) = attempts t /\
  maxRetries (foldl (fun t l => appendLog l t) t lines) = maxRetries t.
Proof.
  induction lines as [|l lines IH]; intros t; cbn [foldl]; [auto|].
  destruct (IH (appendLog l t)) as (H1 & H2 & H3 & H4). rewrite H1, H2, H3, H4.
  unfold appendLog. destruct (truthy l); auto.
Qed.

Lemma Retrying_onData c lines now st :
  Retrying id k base st -> Retrying id k base (onData c lines now st).
Proof.
  intros H. unfold onData. apply Retrying_emit; [reflexivity|].
  apply Retrying_schedulePersist, Retrying_setTask_keep; [|exact H].
  intros t. apply (foldl_appendLog_keeps lines t).
Qed.

(** A new task object under another id. *)
Lemma Retrying_addObject uuid t st :
  uuid <> id -> Retrying id k base st -> Retrying id k base (addObject uuid t st).
Proof.
  intros Hne H. apply (Retrying_frame id k base st); auto.
  cbn [objects addObject]. apply lookup_insert_ne, Hne.
Qed.

Lemma Retrying_runCommand a uuid now st :
  uuid <> id -> Retrying id k base st ->
  Retrying id k base (snd (runCommand a uuid now st)).
Proof.
  intros Hne H. unfold runCommand.
  destruct (_ || _); [exact H|].
  destruct (if run_dedupeRunning a then _ else _); [apply Retrying_emit; [reflexivity | exact H]|].
  set (task := createTaskBase _ _ _ _ _ _ _ _ _ _ _ _).
  assert (H1 : Retrying id k base (pruneTasks (addObject uuid task st))).
  { apply Retrying_pruneTasks, Retrying_addObject; assumption. }
  set (s1 := pruneTasks (addObject uuid task st)) in *.
  assert (H2 : Retrying id k base (if run_background a then s1
                            else setWaiters (waiters s1 ++ [uuid]) (resolved s1) s1)).
  { destruct (run_background a); [exact H1 | apply Retrying_setWaiters, H1]. }
  set (s2 := if run_background a then s1 else _) in *.
  destruct (_ || _); cbn [snd].
  - apply Retrying_dispatchPending, Retrying_emit; [reflexivity|].
    apply Retrying_persist, Retrying_enqueue_other; assumption.
  - apply Retrying_launch_other; assumption.
Qed.

Lemma Retrying_startScheduler i st :
  Retrying id k base st -> Retrying id k base (startScheduler i st).
Proof.
  intros H. unfold startScheduler.
  destruct (objects st !! i) as [t|]; [|exact H].
  destruct (intervalMs t) as [ms|]; [|exact H].
  destruct (ms <=? 0); [exact H|].
  apply Retrying_emit; [reflexivity | apply Retrying_setSchedulers, H].
Qed.

Lemma Retrying_scheduleCommand a uuid now st :
  uuid <> id -> Retrying id k base st ->
  Retrying id k base (snd (scheduleCommand a uuid now st)).
Proof.
  intros Hne H. unfold scheduleCommand.
  destruct (sched_intervalMs a) as [ms|]; [|exact H].
  destruct (ms <? 1000); [exact H|]. cbn [snd].
  apply Retrying_persist, Retrying_startScheduler, Retrying_pruneTasks, Retrying_addObject;
    assumption.
Qed.

Lemma Retrying_onSchedulerTick i uuid now st :
  uuid <> id -> Retrying id k base st ->
  Retrying id k base (onSchedulerTick i uuid now st).
Proof.
  intros Hne H. unfold onSchedulerTick.
  destruct (objects st !! i) as [t|]; [|exact H].
  apply Retrying_runCommand; [exact Hne|].
  apply Retrying_emit; [reflexivity|].
  apply Retrying_schedulePersist, Retrying_setTask_keep; [task_fields4 | exact H].
Qed.

Lemma Retrying_stop_other i now st :
  i <> id -> Retrying id k base st -> Retrying id k base (snd (stop i now st)).
Proof.
  intros Hne H. unfold stop. destruct (getById i st); [|exact H]. cbn [snd].
  apply Retrying_dispatchPending, Retrying_resolveWaiters, Retrying_emit; [reflexivity|].
  apply Retrying_persist, Retrying_pruneTasks, Retrying_setTask_other; [exact Hne|].
  apply Retrying_setProcs; [|left; reflexivity].
  apply Retrying_setQueue_other; [apply Retrying_setSchedulers, H|].
  left. unfold queuedItems. cbn [pendingQueue setSchedulers].
  induction (pendingQueue st) as [|x q IH]; [reflexivity|].
  cbn [List.filter]. destruct (String.eqb (taskId x) i) eqn:E1; cbn [negb].
  - apply String.eqb_eq in E1. rewrite (proj2 (String.eqb_neq (taskId x) id)) by congruence.
    exact IH.
  - cbn [List.filter]. destruct (String.eqb (taskId x) id); [f_equal|]; exact IH.
Qed.

End RetryOthers.

(** The events that leave task [id] to its failures: no [stop] or launch
    timeout of [id], no spawn error, no [shutdown], and a run of [id] never
    exits with code 0. *)
Definition undisturbed (id : string) (l : Step) : Prop :=
  match l with
  | DoStop i _ => i <> id
  | DoShutdown _ _ => False
  | DoClose c code _ => child_task c = id -> code <> Some 0
  | DoError c _ _ => child_task c <> id
  | DoTimeout i _ _ => i <> id
  | _ => True
  end.

Lemma Retrying_unused id k base st uuid :
  Retrying id k base st -> unused uuid st = true -> uuid <> id.
Proof.
  intros [t Ht _ _ _ _ _ _ _ _ _] Hu ->. unfold unused in Hu. rewrite Ht in Hu. discriminate.
Qed.

Lemma Retrying_step id k base l st st1 :
  Retrying id k base st -> undisturbed id l -> step l st = Some st1 ->
  Retrying id k base st1.
Proof.
  intros H Hl Hstep. destruct l; cbn [step undisturbed] in *.
  - destruct (unused uuid st) eqn:Hu; inversion Hstep; subst.
    apply Retrying_runCommand; [eapply Retrying_unused; eauto | exact H].
  - destruct (unused uuid st) eqn:Hu; inversion Hstep; subst.
    apply Retrying_runCommand; [eapply Retrying_unused; eauto | exact H].
  - destruct (unused uuid st) eqn:Hu; inversion Hstep; subst.
    apply Retrying_scheduleCommand; [eapply Retrying_unused; eauto | exact H].
  - inversion Hstep; subst. apply Retrying_stop_other; assumption.
  - destruct Hl.
  - destruct (bool_decide (c ∈ children st)) eqn:Hc; inversion Hstep; subst.
    apply bool_decide_eq_true in Hc.
    destruct (decide (child_task c = id)) as [Heq | Hne].
    + apply Retrying_onClose_self; auto.
    + apply Retrying_onClose_other; assumption.
  - destruct (bool_decide (c ∈ children st)) eqn:Hc; inversion Hstep; subst.
    apply Retrying_onError_other; assumption.
  - destruct (bool_decide (c ∈ children st)) eqn:Hc; inversion Hstep; subst.
    apply Retrying_onData; assumption.
  - destruct (bool_decide ((id0, ms) ∈ timeouts st)) eqn:Hc; inversion Hstep; subst.
    apply Retrying_onTimeout_other; assumption.
  - destruct (bool_decide (id0 ∈ schedulers st)); [|discriminate].
    destruct (unused uuid st) eqn:Hu; inversion Hstep; subst.
    apply Retrying_onSchedulerTick; [eapply Retrying_unused; eauto | exact H].
  - destruct (queueTimer st); inversion Hstep; subst.
    apply Retrying_dispatchPending, Retrying_clearQueueTimer, H.
  - destruct (persistTimer st); inversion Hstep; subst.
    apply Retrying_persist, Retrying_clearPersistTimer, H.
Qed.

Lemma Retrying_run id k base ls : forall st st1,
  Retrying id k base st -> Forall (undisturbed id) ls -> run ls st = Some st1 ->
  Retrying id k base st1.
Proof.
  induction ls as [|l ls IH]; intros st st1 H Hall Hrun; cbn in Hrun.
  - inversion Hrun; subst; exact H.
  - destruct (step l st) as [st2|] eqn:E; cbn in Hrun; [|discriminate].
    inversion Hall; subst.
    apply (IH st2 st1); [|assumption|exact Hrun].
    apply (Retrying_step id k base l st st2); assumption.
Qed.

(** *** The creation of a command task *)

Lemma Refs_unused_queue st uuid :
  Refs st -> unused uuid st = true -> queuedItems uuid st = [].
Proof.
  intros HR Hu. unfold queuedItems.
  destruct (List.filter _ (pendingQueue st)) as [|x q] eqn:E; [reflexivity|].
  assert (Hin : In x (List.filter (fun item => String.eqb (taskId item) uuid) (pendingQueue st))).
  { rewrite E. left; reflexivity. }
  apply List.filter_In in Hin as [Hin Hid]. apply String.eqb_eq in Hid.
  destruct (refs_queue st HR x) as (t & Ht & _); [apply list_elem_of_In, Hin|].
  unfold unused in Hu. rewrite Hid in Ht. rewrite Ht in Hu. discriminate.
Qed.

Lemma Refs_unused_children st uuid :
  Refs st -> unused uuid st = true -> liveChildren uuid st = [].
Proof.
  intros HR Hu. unfold liveChildren.
  destruct (List.filter _ (children st)) as [|x q] eqn:E; [reflexivity|].
  assert (Hin : In x (List.filter (fun c => String.eqb (child_task c) uuid) (children st))).
  { rewrite E. left; reflexivity. }
  apply List.filter_In in Hin as [Hin Hid]. apply String.eqb_eq in Hid.
  destruct (refs_children st HR x) as (t & Ht & _); [apply list_elem_of_In, Hin|].
  unfold unused in Hu. rewrite Hid in Ht. rewrite Ht in Hu. discriminate.
Qed.

Lemma findRunningByCommand_known command_ cwd_ st existing :
  findRunningByCommand command_ cwd_ st = Some existing -> unused existing st = false.
Proof.
  unfold findRunningByCommand. destruct (negb _); [discriminate|].
  intros H. apply head_Some_elem_of, list_elem_of_In, List.filter_In in H as [_ H].
  unfold unused. destruct (objects st !! existing); [reflexivity | discriminate].
Qed.

Lemma Retrying_enqueue_self id k base timeout delay wait retry now st :
  Retrying id k base st -> liveChildren id st = [] ->
  (forall t, objects st !! id = Some t -> attempts t <= k) ->
  Retrying id k base (enqueueExistingTask id timeout delay wait retry now st).
Proof.
  intros H Hc0 Hle. unfold enqueueExistingTask.
  destruct (existsb _ _) eqn:He; [exact H|].
  destruct H as [t Ht Hty Hmax Hatt Hst Hf Hb Hq H1 H2].
  rewrite Ht.
  assert (Hq0 : queuedItems id st = []).
  { unfold queuedItems. destruct (List.filter _ (pendingQueue st)) as [|x q] eqn:E; [reflexivity|].
    assert (Hin : In x (List.filter (fun item => String.eqb (taskId item) id) (pendingQueue st))).
    { rewrite E. left; reflexivity. }
    apply List.filter_In in Hin as [Hin Hid].
    assert (existsb (fun entry => String.eqb (taskId entry) id) (pendingQueue st) = true).
    { apply List.existsb_exists. eauto. }
    congruence. }
  match goal with |- Retrying _ _ _ (setQueue ?q (setTask ?f id st)) =>
    set (s4 := setQueue q (setTask f id st)) end.
  assert (Ht4 : exists t4, objects s4 !! id = Some t4 /\ type t4 = type t /\
                  maxRetries t4 = maxRetries t /\ attempts t4 = attempts t /\
                  status t4 = queued).
  { eexists. subst s4. cbn [objects setQueue setTask]. rewrite lookup_alter_eq, Ht.
    split; [reflexivity|]. cbn. auto. }
  destruct Ht4 as (t4 & Ht4 & E1 & E2 & E3 & E4).
  apply (mkRetrying id k base s4 t4 Ht4).
  - congruence.
  - congruence.
  - rewrite E3. exact Hatt.
  - auto.
  - rewrite E4. discriminate.
  - rewrite E3. exact Hb.
  - intros _. split; [exact E4|]. split; [rewrite E3; apply (Hle t Ht) | exact Hc0].
  - unfold queuedItems in *. subst s4. cbn [pendingQueue setQueue setTask].
    rewrite List.filter_app, Hq0.
    cbn [List.filter taskId app]. rewrite String.eqb_refl. cbn. lia.
  - rewrite (Hc0 : liveChildren id s4 = []). cbn. lia.
Qed.

Lemma runCommand_creates a uuid now k st :
  Refs st -> unused uuid st = true -> run_maxRetries a = Some k -> 0 <= k ->
  fst (runCommand a uuid now st) = Ok uuid ->
  Retrying uuid k (starts uuid st) (snd (runCommand a uuid now st)).
Proof.
  intros HR Hu Hk Hk0. unfold runCommand.
  destruct (_ || _); [discriminate|].
  destruct (if run_dedupeRunning a then _ else _) as [existing|] eqn:Hd.
  { cbn [fst]. intros [= ->]. exfalso.
    destruct (run_dedupeRunning a); [|discriminate].
    apply findRunningByCommand_known in Hd. congruence. }
  intros _.
  set (task := createTaskBase _ _ _ _ _ _ _ _ _ _ _ _).
  set (s1 := pruneTasks (addObject uuid task st)).
  set (s2 := if run_background a then s1 else _).
  assert (Ho : objects s2 !! uuid = Some task).
  { subst s2 s1. destruct (run_background a);
      cbn [objects pruneTasks setTasks setWaiters addObject]; apply lookup_insert_eq. }
  assert (Hq0 : queuedItems uuid s2 = []).
  { subst s2 s1. destruct (run_background a); apply (Refs_unused_queue st uuid HR Hu). }
  assert (Hc0 : liveChildren uuid s2 = []).
  { subst s2 s1. destruct (run_background a); apply (Refs_unused_children st uuid HR Hu). }
  assert (Hs0 : starts uuid s2 = starts uuid st).
  { subst s2 s1. destruct (run_background a); reflexivity. }
  assert (H2 : Retrying uuid k (starts uuid st) s2).
  { apply (mkRetrying uuid k (starts uuid st) s2 task Ho); subst task;
      cbn [type maxRetries attempts status createTaskBase].
    - reflexivity.
    - rewrite Hk. reflexivity.
    - rewrite Hs0. lia.
    - auto.
    - discriminate.
    - lia.
    - intros Hne. exfalso. apply Hne, Hq0.
    - rewrite Hq0. cbn. lia.
    - rewrite Hc0. cbn. lia. }
  destruct (_ || _); cbn [snd].
  - apply Retrying_dispatchPending, Retrying_emit; [reflexivity|].
    apply Retrying_persist, Retrying_enqueue_self; [exact H2 | exact Hc0 |].
    intros t Ht. assert (t = task) by congruence. subst t. cbn. exact Hk0.
  - apply Retrying_launch_self; [exact H2 | exact Hq0 | exact Hc0 |].
    intros t Ht. assert (t = task) by congruence. subst t. cbn. auto.
Qed.

(** *** Where a retry is queued *)

Lemma launchTaskNow_queue id timeout wait fromQueue now st :
  pendingQueue (launchTaskNow id timeout wait fromQueue now st) = pendingQueue st.
Proof. unfold launchTaskNow. destruct (objects st !! id); reflexivity. Qed.

Lemma elem_of_delete_other {A} (l : list A) i x y :
  l !! i = Some y -> x <> y -> x ∈ l -> x ∈ delete i l.
Proof.
  revert i. induction l as [|z l IH]; intros [|i] Hi Hne Hin; try discriminate.
  - inversion Hi; subst. change (delete 0%nat (y :: l)) with l.
    apply elem_of_cons in Hin as [-> | Hin]; [congruence | exact Hin].
  - change (delete (S i) (z :: l)) with (z :: delete i l).
    apply elem_of_cons in Hin as [-> | Hin]; [left | right; apply (IH i); assumption].
Qed.

(** An item that is not yet due stays in the queue. *)
Lemma dispatchLoop_keeps now x fuel : forall p st,
  x ∈ pendingQueue st -> now < retryAt x ->
  x ∈ pendingQueue (fst (dispatchLoop fuel now p st)).
Proof.
  induction fuel as [|fuel IH]; intros p st Hin Hlt; cbn [dispatchLoop]; [exact Hin|].
  destruct (_ <? _); [|exact Hin].
  destruct (list_find _ (pendingQueue st)) as [[i item]|] eqn:Hfind; [|exact Hin].
  apply list_find_Some in Hfind as (Hi & Hdue & _).
  assert (Hin1 : x ∈ pendingQueue (setQueue (delete i (pendingQueue st)) st)).
  { cbn [pendingQueue setQueue]. apply (elem_of_delete_other _ i x item Hi); [|exact Hin].
    intros ->. lia. }
  destruct (getById (taskId item) _) as [t1|]; [|apply IH; assumption].
  destruct (bool_decide (status t1 = cancelled)); [apply IH; assumption|].
  apply IH; [|exact Hlt]. rewrite launchTaskNow_queue. exact Hin1.
Qed.

Lemma dispatchPending_keeps now x st :
  x ∈ pendingQueue st -> now < retryAt x -> x ∈ pendingQueue (dispatchPending now st).
Proof.
  intros Hin Hlt. unfold dispatchPending.
  pose proof (dispatchLoop_keeps now x (length (pendingQueue (clearQueueTimer st))) false
                (clearQueueTimer st) Hin Hlt) as H1.
  destruct (dispatchLoop _ now false (clearQueueTimer st)) as [st1 progressed].
  cbn [fst] in H1.
  assert (H2 : x ∈ pendingQueue (match pendingQueue st1 with
                                 | [] => st1 | _ :: _ => scheduleNextQueueTick now st1 end)).
  { destruct (pendingQueue st1) eqn:E; [rewrite E; exact H1|].
    unfold scheduleNextQueueTick. rewrite E. cbn [pendingQueue setTimers]. rewrite E. exact H1. }
  destruct progressed; [exact H2 | exact H2].
Qed.

Lemma onClose_queues_retry id k base c code now st t :
  Retrying id k base st -> c ∈ children st -> child_task c = id -> code <> Some 0 ->
  objects st !! id = Some t -> attempts t <= k -> 0 <= now ->
  exists item, item ∈ pendingQueue (onClose c code now st) /\ taskId item = id /\
    retryAt item = now + Z.max 250 (orz (retryDelayMs t) (defaultRetryDelayMs st)).
Proof.
  intros H Hin Hc Hcode Ht Hle Hnow.
  pose proof H as [t0 Ht0 Hty Hmax Hatt Hst Hf Hb Hq H1 H2].
  assert (t0 = t) by congruence. subst t0.
  assert (Hq0 : queuedItems id st = []).
  { destruct (queuedItems id st) eqn:E; [reflexivity|].
    destruct Hq as (_ & _ & Hnil); [discriminate|].
    apply (filter_nil_not_In _ _ c) in Hnil; [|exact Hin].
    cbv beta in Hnil. rewrite Hc, String.eqb_refl in Hnil. discriminate. }
  unfold onClose. rewrite Hc. set (s0 := removeChild c st) in *.
  assert (Hts : objects s0 !! id = Some t) by exact Ht.
  rewrite Hts.
  rewrite bool_decide_eq_false_2 by (destruct Hst as [E | [E | E]]; rewrite E; discriminate).
  rewrite (bool_decide_eq_false_2 (code = Some 0)) by exact Hcode.
  rewrite (bool_decide_eq_false_2 (status t = stopped))
    by (destruct Hst as [E | [E | E]]; rewrite E; discriminate).
  rewrite Hmax, (proj2 (Z.leb_le _ _) Hle). cbn [negb andb].
  set (retry := now + Z.max 250 (orz (retryDelayMs t) (defaultRetryDelayMs st))).
  assert (Hretry : now < retry) by (subst retry; lia).
  set (s1 := setTask (fun t => withUpdatedAt now (withExit code (error t) t)) id s0).
  set (s2 := setTask (withExit code (Some (exit_code code))) id s1).
  set (s3 := setTask (withStatus queued now) id s2).
  assert (Ht3 : objects s3 !! id =
                Some (withStatus queued now
                        (withExit code (Some (exit_code code))
                           (withUpdatedAt now (withExit code (error t) t))))).
  { subst s3 s2 s1. cbn [objects setTask]. rewrite !lookup_alter_eq, Hts. reflexivity. }
  unfold enqueueExistingTask.
  rewrite (existsb_queuedItems id s3) by exact Hq0.
  rewrite Ht3.
  eexists. split; [|split].
  - apply dispatchPending_keeps.
    + cbn [pendingQueue persist setTimers emit setTask setQueue].
      apply elem_of_app. right. left.
    + cbn [retryAt]. unfold orz at 1. fold retry.
      destruct (retry =? 0) eqn:E; [apply Z.eqb_eq in E; lia | exact Hretry].
  - reflexivity.
  - cbn [retryAt]. unfold orz at 1. fold retry.
    destruct (retry =? 0) eqn:E; [apply Z.eqb_eq in E; lia | reflexivity].
Qed.

(** [runCommand({ command: "exit 7", maxRetries: 2, retryDelayMs: 500,
    background: true })] *)
Definition exit7 : RunArgs :=
  {| run_name := "terminal"; run_command := "exit 7"; run_cwd := "/";
     run_timeoutMs := 0; run_background := true; run_parentTaskId := None;
     run_dedupeRunning := false; run_queueIfBusy := true; run_forceQueue := false;
     run_maxRetries := Some 2; run_retryDelayMs := Some 500 |}.

(** The same command with [retryDelayMs: 0] and [maxRetries: 1]. *)
Definition exit7NoDelay : RunArgs :=
  {| run_name := "terminal"; run_command := "exit 7"; run_cwd := "/";
     run_timeoutMs := 0; run_background := true; run_parentTaskId := None;
     run_dedupeRunning := false; run_queueIfBusy := true; run_forceQueue := false;
     run_maxRetries := Some 1; run_retryDelayMs := Some 0 |}.

Definition launched (id : string) : Child :=
  {| child_task := id; child_timeoutMs := 0; child_wait := false |}.

Definition fresh : State := create None None None None None.

(** C1, as stated, fails on the retry time: a task created with
    [retryDelayMs: 0] whose run closes with code 7 at time 2000 is queued
    again with [retryAt = 2000 + 5000] (the manager's default delay), not
    with [2000 + max(250, 0)]. *)
Lemma retry_with_zero_delay_waits_default :
  exists st,
    run [DoRunCommand exit7NoDelay "t1" 1000; DoClose (launched "t1") (Some 7) 2000] fresh
      = Some st /\
    map (fun item => (taskId item, retryAt item)) (pendingQueue st) = [("t1", 7000)] /\
    7000 <> 2000 + Z.max 250 0.
Proof. eexists. split; [vm_compute; reflexivity|]. split; [reflexivity | discriminate]. Qed.

(** C1 (amended).  Let a command task be created by [runCommand] with
    [maxRetries = k >= 0], and let any events follow in which the task is
    not stopped, cancelled or timed out, no spawn error is reported for it,
    and none of its runs exits with code 0.  Then, with [launches] the
    number of start events emitted for the task since its creation:
    - [attempts] equals [launches], and [launches <= k + 1];
    - the status is [failed] only when [attempts > k];
    - when a run then closes with a non-zero code while [attempts <= k],
      the task is queued again with
      [retryAt = close time + max(250, d)], where [d] is the task's
      [retryDelayMs], or the manager's default retry delay when that is 0. *)
Theorem failing_command_is_launched_at_most_k_plus_1_times :
  forall st0 a uuid now k,
    reachable st0 -> unused uuid st0 = true ->
    run_maxRetries a = Some k -> 0 <= k ->
    fst (runCommand a uuid now st0) = Ok uuid ->
    forall ls st,
      Forall (undisturbed uuid) ls ->
      run ls (snd (runCommand a uuid now st0)) = Some st ->
      exists t,
        objects st !! uuid = Some t /\
        attempts t = Z.of_nat (starts uuid st) - Z.of_nat (starts uuid st0) /\
        Z.of_nat (starts uuid st) - Z.of_nat (starts uuid st0) <= k + 1 /\
        (status t = failed -> k < attempts t) /\
        (forall c code now1,
           c ∈ children st -> child_task c = uuid -> code <> Some 0 ->
           attempts t <= k -> 0 <= now1 ->
           exists item,
             item ∈ pendingQueue (onClose c code now1 st) /\ taskId item = uuid /\
             retryAt item =
               now1 + Z.max 250 (orz (retryDelayMs t) (defaultRetryDelayMs st))).
Proof.
  intros st0 a uuid now k Hst0 Hu Hk Hk0 Hok ls st Hall Hrun.
  destruct (reachable_Refs_scheduleStatusOk st0 Hst0) as [HR _].
  pose proof (runCommand_creates a uuid now k st0 HR Hu Hk Hk0 Hok) as H1.
  pose proof (Retrying_run uuid k (starts uuid st0) ls _ st H1 Hall Hrun) as H2.
  pose proof H2 as [t Ht Hty Hmax Hatt Hst Hf Hb Hq Hi Hc].
  exists t. split; [exact Ht|]. split; [exact Hatt|]. split; [lia|]. split; [exact Hf|].
  intros c code now1 Hin Hid Hcode Hle Hnow.
  apply (onClose_queues_retry uuid k (starts uuid st0) c code now1 st t); assumption.
Qed.

Definition threeFailures : list Step :=
  [DoClose (launched "t1") (Some 7) 1100; DoQueueTimer 1600;
   DoClose (launched "t1") (Some 7) 1700; DoQueueTimer 2200;
   DoClose (launched "t1") (Some 7) 2300].

Lemma failing_command_is_launched_at_most_k_plus_1_times_witness :
  exists st t,
    run threeFailures (snd (runCommand exit7 "t1" 1000 fresh)) = Some st /\
    objects st !! "t1" = Some t /\
    attempts t = Z.of_nat (starts "t1" st) - Z.of_nat (starts "t1" fresh) /\
    Z.of_nat (starts "t1" st) - Z.of_nat (starts "t1" fresh) <= 2 + 1 /\
    (status t = failed -> 2 < attempts t).
Proof.
  assert (Hall : Forall (undisturbed "t1") threeFailures).
  { unfold threeFailures. repeat (apply Forall_cons; split; [vm_compute; try exact I; intros _; discriminate|]).
    apply Forall_nil; exact I. }
  destruct (run threeFailures (snd (runCommand exit7 "t1" 1000 fresh))) as [st|] eqn:Hrun;
    [|vm_compute in Hrun; discriminate].
  assert (Hu : unused "t1" fresh = true) by (vm_compute; reflexivity).
  assert (Hok : fst (runCommand exit7 "t1" 1000 fresh) = Ok "t1") by (vm_compute; reflexivity).
  destruct (failing_command_is_launched_at_most_k_plus_1_times
              fresh exit7 "t1" 1000 2 (reach_create None None None None None)
              Hu eq_refl ltac:(lia) Hok threeFailures st Hall Hrun)
    as (t & Ht & H1 & H2 & H3 & _).
  exists st, t. split; [reflexivity|]. split; [exact Ht|]. split; [exact H1|].
  split; [exact H2 | exact H3].
Defined.

(** *** Examples of commands *)

(** Two commands on a manager with one slot: the second one waits in the
    queue. *)
Definition sleepCommand : RunArgs :=
  {| run_name := "sleep"; run_command := "sleep 60"; run_cwd := "/tmp";
     run_timeoutMs := 0; run_background := true; run_parentTaskId := None;
     run_dedupeRunning := false; run_queueIfBusy := true; run_forceQueue := false;
     run_maxRetries := None; run_retryDelayMs := None |}.

Definition twoCommands : list Step :=
  [DoRunCommand sleepCommand "t1" 10; DoRunCommand sleepCommand "t2" 20].

Definition oneSlotBusy : State :=
  default (create (Some 1) None None None None)
          (run twoCommands (create (Some 1) None None None None)).

(** *** What [pruneTasks] keeps *)

Lemma insertBy_perm le x l : insertBy le x l ≡ₚ x :: l.
Proof.
  induction l as [|y l IH]; cbn [insertBy]; [reflexivity|].
  destruct (le x y); [reflexivity|]. rewrite IH. apply Permutation_swap.
Qed.

Lemma sortBy_perm le l : sortBy le l ≡ₚ l.
Proof.
  unfold sortBy. induction l as [|x l IH]; cbn [foldr]; [reflexivity|].
  rewrite insertBy_perm. now rewrite IH.
Qed.

(** [inOrder before l]: every element of [l] is [before] all those that
    follow it. *)
Fixpoint inOrder (before : relation string) (l : list string) : Prop :=
  match l with
  | [] => True
  | x :: rest => Forall (before x) rest /\ inOrder before rest
  end.

Section Sorted.
Context (le : string -> string -> bool) (before : relation string).
Hypothesis le_before : forall a b, le a b = true -> before a b.
Hypothesis not_le_before : forall a b, le a b = false -> before b a.
Hypothesis before_trans : forall a b c, before a b -> before b c -> before a c.

Lemma insertBy_sorted x l : inOrder before l -> inOrder before (insertBy le x l).
Proof.
  induction l as [|y l IH]; intros Hs; cbn [insertBy].
  - cbn. auto.
  - destruct Hs as [Hy Hl].
    destruct (le x y) eqn:E.
    + split; [|split; assumption].
      constructor; [apply le_before, E|].
      eapply Forall_impl; [exact Hy|]. intros z Hz.
      apply (before_trans x y z); [apply le_before, E | exact Hz].
    + split; [|apply IH, Hl].
      rewrite insertBy_perm. constructor; [apply not_le_before, E | exact Hy].
Qed.

Lemma sortBy_sorted l : inOrder before (sortBy le l).
Proof.
  unfold sortBy. induction l as [|x l IH]; cbn [foldr]; [exact I|].
  apply insertBy_sorted, IH.
Qed.

Lemma sorted_split (l : list string) n x y :
  inOrder before l -> x ∈ firstn n l -> y ∈ skipn n l -> before x y.
Proof.
  revert n. induction l as [|z l IH]; intros [|n] Hs Hx Hy; cbn in Hx, Hy;
    try (now inversion Hx).
  destruct Hs as [Hz Hl].
  apply elem_of_cons in Hx as [-> | Hx].
  - rewrite Forall_forall in Hz. apply Hz.
    apply (subseteq_drop n l), Hy.
  - apply (IH n); assumption.
Qed.

End Sorted.

(** The test of [pruneTasks] on the task stored under [id], and the two
    time stamps it sorts by. *)
Definition activeId (st : State) (id : string) : bool :=
  match objects st !! id with Some t => isActive t | None => true end.

Definition updatedOf (st : State) (id : string) : Z :=
  match objects st !! id with Some t => updatedAt t | None => 0 end.

Definition createdOf (st : State) (id : string) : Z :=
  match objects st !! id with Some t => createdAt t | None => 0 end.

Lemma pruneTasks_tasks st :
  tasks (pruneTasks st) =
    let active := List.filter (activeId st) (tasks st) in
    let sorted := sortBy (fun a b => updatedOf st b <=? updatedOf st a)
                    (List.filter (fun id => negb (activeId st id)) (tasks st)) in
    let keptFinished := firstn (Z.to_nat (maxFinishedTasks st)) sorted in
    let mergedCount := Z.of_nat (length active) + Z.of_nat (length keptFinished) in
    let kept :=
      if mergedCount >? maxTasks st then
        let over := mergedCount - maxTasks st in
        if (over >? 0) && negb (Nat.eqb (length keptFinished) 0)
        then firstn (Z.to_nat (Z.max 0 (Z.of_nat (length keptFinished) - over))) keptFinished
        else keptFinished
      else keptFinished in
    sortBy (fun a b => createdOf st a <=? createdOf st b) (active ++ kept).
Proof. reflexivity. Qed.

(** The finished tasks [pruneTasks] keeps are the first [k] of the finished
    ones sorted by [updatedAt], newest first, with [k] bounded by
    [maxFinishedTasks] and by the room the active tasks leave. *)
Lemma pruneTasks_spec st :
  let active := List.filter (activeId st) (tasks st) in
  let sorted := sortBy (fun a b => updatedOf st b <=? updatedOf st a)
                  (List.filter (fun id => negb (activeId st id)) (tasks st)) in
  exists k : nat,
    tasks (pruneTasks st) =
      sortBy (fun a b => createdOf st a <=? createdOf st b) (active ++ firstn k sorted) /\
    Z.of_nat (length (firstn k sorted)) <= Z.max 0 (maxFinishedTasks st) /\
    Z.of_nat (length active) + Z.of_nat (length (firstn k sorted))
      <= Z.max (maxTasks st) (Z.of_nat (length active)).
Proof.
  intros active sorted. rewrite pruneTasks_tasks. cbv zeta.
  fold active sorted.
  set (n := Z.to_nat (maxFinishedTasks st)).
  set (kf := firstn n sorted).
  assert (Hn : Z.of_nat (length kf) <= Z.max 0 (maxFinishedTasks st)).
  { unfold kf. rewrite length_firstn. lia. }
  destruct (_ >? maxTasks st) eqn:Eover.
  - rewrite Z.gtb_ltb in Eover. apply Z.ltb_lt in Eover.
    destruct ((_ >? 0) && _) eqn:Ecut.
    + set (m := Z.to_nat (Z.max 0 (Z.of_nat (length kf)
                                   - (Z.of_nat (length active) + Z.of_nat (length kf)
                                      - maxTasks st)))).
      exists (Nat.min m n). unfold kf. rewrite firstn_firstn. fold kf.
      split; [reflexivity|].
      assert (Hlen : length (firstn (Nat.min m n) sorted) = Nat.min m (length kf)).
      { unfold kf. rewrite !length_firstn. lia. }
      rewrite Hlen. split; lia.
    + exists n. fold kf. split; [reflexivity|]. split; [exact Hn|].
      apply andb_false_iff in Ecut as [Ecut | Ecut].
      * rewrite Z.gtb_ltb in Ecut. apply Z.ltb_ge in Ecut. lia.
      * apply negb_false_iff, Nat.eqb_eq in Ecut. lia.
  - exists n. fold kf. split; [reflexivity|]. split; [exact Hn|].
    rewrite Z.gtb_ltb in Eover. apply Z.ltb_ge in Eover. lia.
Qed.

(** [pruneTasks] changes no task object and adds no task to the list; it
    keeps every active task (a schedule that is not cancelled, a task that
    is queued or running); it keeps at most [maxFinishedTasks] finished
    tasks, and no finished task at all beyond [maxTasks] tasks in total;
    the finished tasks it drops were updated no later than those it keeps;
    and it leaves the list in the order of creation. *)
Theorem pruneTasks_keeps_active_and_newest_finished :
  forall st, 0 <= maxFinishedTasks st ->
    let st' := pruneTasks st in
    let active := List.filter (activeId st) (tasks st) in
    objects st' = objects st /\
    (forall id, id ∈ tasks st' -> id ∈ tasks st) /\
    (forall id, id ∈ tasks st -> activeId st id = true -> id ∈ tasks st') /\
    Z.of_nat (length (tasks st')) <= Z.of_nat (length active) + maxFinishedTasks st /\
    Z.of_nat (length (tasks st')) <= Z.max (maxTasks st) (Z.of_nat (length active)) /\
    (forall kept dropped,
       kept ∈ tasks st' -> activeId st kept = false ->
       dropped ∈ tasks st -> dropped ∉ tasks st' ->
       updatedOf st dropped <= updatedOf st kept) /\
    inOrder (fun a b => createdOf st a <= createdOf st b) (tasks st').
Proof.
  intros st Hmax st' active.
  destruct (pruneTasks_spec st) as (k & Htasks & Hk1 & Hk2).
  fold active in Htasks, Hk2. fold st' in Htasks.
  set (finished := List.filter (fun id => negb (activeId st id)) (tasks st)) in *.
  set (sorted := sortBy (fun a b => updatedOf st b <=? updatedOf st a) finished) in *.
  assert (Hin : forall id, id ∈ tasks st' <-> id ∈ active \/ id ∈ firstn k sorted).
  { intros id. rewrite Htasks, sortBy_perm. apply elem_of_app. }
  assert (Hactive : forall id, id ∈ active <-> id ∈ tasks st /\ activeId st id = true).
  { intros id. unfold active. rewrite !list_elem_of_In, filter_In. reflexivity. }
  assert (Hsorted : forall id, id ∈ sorted <-> id ∈ tasks st /\ activeId st id = false).
  { intros id. unfold sorted. rewrite sortBy_perm. unfold finished.
    rewrite !list_elem_of_In, filter_In, negb_true_iff. reflexivity. }
  split; [reflexivity|]. split; [|split; [|split; [|split; [|split]]]].
  - intros id H. apply Hin in H as [H | H].
    + now apply Hactive in H.
    + apply (subseteq_take k sorted), Hsorted in H. tauto.
  - intros id H1 H2. apply Hin. left. now apply Hactive.
  - rewrite Htasks, (Permutation_length (sortBy_perm _ _)), length_app. lia.
  - rewrite Htasks, (Permutation_length (sortBy_perm _ _)), length_app. lia.
  - intros kept dropped Hk Hkf Hd Hnd.
    apply Hin in Hk as [Hk | Hk]; [apply Hactive in Hk; destruct Hk; congruence|].
    assert (Hdf : activeId st dropped = false).
    { destruct (activeId st dropped) eqn:E; [|reflexivity].
      exfalso. apply Hnd, Hin. left. now apply Hactive. }
    assert (Hds : dropped ∈ skipn k sorted).
    { assert (H : dropped ∈ firstn k sorted ++ skipn k sorted)
        by (rewrite firstn_skipn; now apply Hsorted).
      apply elem_of_app in H as [H | H]; [|exact H].
      exfalso. apply Hnd, Hin. now right. }
    apply (sorted_split (fun a b => updatedOf st b <= updatedOf st a) sorted k kept dropped);
      [| exact Hk | exact Hds].
    apply (sortBy_sorted (fun a b => updatedOf st b <=? updatedOf st a)).
    + intros a b H. now apply Z.leb_le in H.
    + intros a b H. apply Z.leb_gt in H. lia.
    + intros a b c H1 H2. lia.
  - rewrite Htasks.
    apply (sortBy_sorted (fun a b => createdOf st a <=? createdOf st b)).
    + intros a b H. now apply Z.leb_le in H.
    + intros a b H. apply Z.leb_gt in H. lia.
    + intros a b c H1 H2. lia.
Qed.

Lemma pruneTasks_keeps_active_and_newest_finished_witness :
  0 <= maxFinishedTasks oneSlotBusy /\
  (forall id, id ∈ tasks oneSlotBusy -> activeId oneSlotBusy id = true ->
     id ∈ tasks (pruneTasks oneSlotBusy)) /\
  Z.of_nat (length (tasks (pruneTasks oneSlotBusy))) <= 2 + maxFinishedTasks oneSlotBusy.
Proof.
  assert (H : 0 <= maxFinishedTasks oneSlotBusy) by (vm_compute; discriminate).
  split; [exact H|].
  pose proof (pruneTasks_keeps_active_and_newest_finished oneSlotBusy H)
    as (_ & _ & H3 & H4 & _).
  split; [exact H3 | exact H4].
Defined.

(** [pruneTasks] keeps the tasks that are queued or running. *)
Lemma pruneTasks_keeps_live id t st :
  id ∈ tasks st -> objects st !! id = Some t ->
  status t = queued \/ status t = running ->
  id ∈ tasks (pruneTasks st).
Proof.
  intros Hin Ht Hs.
  destruct (pruneTasks_spec st) as (k & Htasks & _).
  rewrite Htasks, sortBy_perm. apply elem_of_app. left.
  apply list_elem_of_In, filter_In. split; [now apply list_elem_of_In|].
  unfold activeId. rewrite Ht. unfold isActive.
  destruct Hs as [-> | ->]; destruct (type t); reflexivity.
Qed.

(** *** Tasks the queue does not hold *)

(** Between [st] and [st1] nothing happened to task [id]: its object, the
    task list, the schedulers and the waiting callers are the same, it was
    not launched, and the queue gained no item. *)
Record Quiet (id : string) (st st1 : State) : Prop := mkQuiet {
  quiet_object : objects st1 !! id = objects st !! id;
  quiet_tasks : tasks st1 = tasks st;
  quiet_procs : id ∈ processes st1 -> id ∈ processes st;
  quiet_queue : forall item, item ∈ pendingQueue st1 -> item ∈ pendingQueue st;
  quiet_schedulers : schedulers st1 = schedulers st;
  quiet_waiters : waiters st1 = waiters st;
  quiet_resolved : resolved st1 = resolved st;
  quiet_starts : starts id st1 = starts id st;
}.

Lemma Quiet_refl id st : Quiet id st st.
Proof. split; auto. Qed.

Lemma Quiet_trans id st st1 st2 : Quiet id st st1 -> Quiet id st1 st2 -> Quiet id st st2.
Proof.
  intros [A1 A2 A3 A4 A5 A6 A7 A8] [B1 B2 B3 B4 B5 B6 B7 B8].
  split; try congruence; auto.
Qed.

Lemma Quiet_setTimers id q p f st : Quiet id st (setTimers q p f st).
Proof. split; auto. Qed.

Lemma Quiet_scheduleNextQueueTick id now st : Quiet id st (scheduleNextQueueTick now st).
Proof.
  unfold scheduleNextQueueTick. destruct (pendingQueue st) eqn:E.
  - apply Quiet_setTimers.
  - apply Quiet_setTimers.
Qed.

Lemma starts_emit id e st :
  starts id (emit e st) = (starts id st + if isStart id e then 1 else 0)%nat.
Proof.
  unfold starts. cbn [events emit]. rewrite List.filter_app, length_app. cbn [List.filter].
  destruct (isStart id e); reflexivity.
Qed.

(** The launch of another task. *)
Lemma Quiet_launch_other id other timeout wait fromQueue now st :
  other <> id -> Quiet id st (launchTaskNow other timeout wait fromQueue now st).
Proof.
  intros Hne. unfold launchTaskNow.
  destruct (objects st !! other) as [t|]; [|apply Quiet_refl].
  split; try reflexivity.
  - cbn [objects schedulePersist setTimers setTask setProcs emit persist].
    rewrite !lookup_alter_ne by exact Hne. reflexivity.
  - cbn [processes schedulePersist setTimers setTask setProcs emit persist].
    intros H. apply elem_of_union in H as [H | H]; [|exact H].
    apply elem_of_singleton in H. congruence.
  - auto.
  - unfold starts.
    cbn [events schedulePersist setTimers setTask setProcs emit persist].
    rewrite List.filter_app, length_app. cbn [List.filter isStart].
    destruct (String.eqb_spec other id) as [E|_]; [congruence|]. cbn. lia.
Qed.

Lemma Quiet_dispatchLoop id now fuel : forall p st,
  (forall item, item ∈ pendingQueue st -> taskId item <> id) ->
  Quiet id st (fst (dispatchLoop fuel now p st)).
Proof.
  induction fuel as [|fuel IH]; intros p st Hq; cbn [dispatchLoop]; [apply Quiet_refl|].
  destruct (_ <? _); [|apply Quiet_refl].
  destruct (list_find _ (pendingQueue st)) as [[i item]|] eqn:Hfind; [|apply Quiet_refl].
  apply list_find_Some in Hfind as (Hi & _ & _).
  set (s1 := setQueue (delete i (pendingQueue st)) st).
  assert (H1 : Quiet id st s1).
  { split; try reflexivity; [auto|]. intros x Hx. eapply list_elem_of_delete_inv, Hx. }
  assert (Hq1 : forall x, x ∈ pendingQueue s1 -> taskId x <> id).
  { intros x Hx. apply Hq, (quiet_queue id st s1 H1), Hx. }
  assert (Hitem : taskId item <> id).
  { apply Hq. apply list_elem_of_lookup. eauto. }
  destruct (getById (taskId item) s1) as [t|];
    [|apply (Quiet_trans id st s1); [exact H1 | apply IH, Hq1]].
  destruct (bool_decide (status t = cancelled));
    [apply (Quiet_trans id st s1); [exact H1 | apply IH, Hq1]|].
  pose proof (Quiet_launch_other id (taskId item) (item_timeoutMs item)
                (waitForCompletion item) true now s1 Hitem) as H2.
  apply (Quiet_trans id st s1); [exact H1|].
  eapply Quiet_trans; [exact H2|]. apply IH.
  intros x Hx. apply Hq1, (quiet_queue _ _ _ H2), Hx.
Qed.

(** [dispatchPending] leaves alone the tasks the queue does not hold. *)
Lemma Quiet_dispatchPending id now st :
  (forall item, item ∈ pendingQueue st -> taskId item <> id) ->
  Quiet id st (dispatchPending now st).
Proof.
  intros Hq. unfold dispatchPending.
  pose proof (Quiet_dispatchLoop id now (length (pendingQueue (clearQueueTimer st))) false
                (clearQueueTimer st) Hq) as H1.
  destruct (dispatchLoop _ now false (clearQueueTimer st)) as [st1 progressed].
  cbn [fst] in H1.
  assert (H0 : Quiet id st st1).
  { apply (Quiet_trans id st (clearQueueTimer st)); [apply Quiet_setTimers | exact H1]. }
  assert (H2 : Quiet id st (match pendingQueue st1 with
                            | [] => st1 | _ :: _ => scheduleNextQueueTick now st1 end)).
  { destruct (pendingQueue st1); [exact H0|].
    eapply Quiet_trans; [exact H0 | apply Quiet_scheduleNextQueueTick]. }
  destruct progressed; [|exact H2].
  eapply Quiet_trans; [exact H2 | apply Quiet_setTimers].
Qed.

Lemma not_in_filtered_queue id (q : list QueueItem) item :
  item ∈ List.filter (fun item => negb (String.eqb (taskId item) id)) q ->
  taskId item <> id.
Proof.
  intros H. apply list_elem_of_In, filter_In in H as [_ H].
  apply negb_true_iff in H. now apply String.eqb_neq in H.
Qed.

Lemma getById_eq id st t :
  getById id st = Some t <-> id ∈ tasks st /\ objects st !! id = Some t.
Proof.
  unfold getById. destruct (bool_decide (id ∈ tasks st)) eqn:E.
  - apply bool_decide_eq_true in E. tauto.
  - apply bool_decide_eq_false in E. split; [discriminate | tauto].
Qed.

(** The part of [stop(taskId)] that runs before the method first waits,
    which it does in [appendLog], for the write to the log file; the line
    is in the [tail] of the task by then. *)
Definition stopBegin (id : string) (now : Z) (st : State) : bool * State :=
  match getById id st with
  | None => (false, st)
  | Some _ =>
      let st1 := setSchedulers (schedulers st ∖ {[id]}) st in
      let st2 := setQueue (List.filter (fun item => negb (String.eqb (taskId item) id))
                                       (pendingQueue st1)) st1 in
      let st3 := setProcs (processes st2 ∖ {[id]}) (children st2) (timeouts st2)
                          (spawned st2) st2 in
      (true, setTask (fun t => appendLog "Task was manually stopped"
                                 (withStatus cancelled now t)) id st3)
  end.

(** [stop] resumes from there, once the log file and the state file are
    written and nothing else has happened meanwhile. *)
Lemma stop_after_stopBegin id now st :
  stop id now st =
    if fst (stopBegin id now st)
    then (true, dispatchPending now
                  (resolveWaiters id
                     (emit (ev_stop id cancelled)
                        (persist (pruneTasks (snd (stopBegin id now st)))))))
    else (false, st).
Proof. unfold stop, stopBegin. destruct (getById id st); reflexivity. Qed.

(** [stop(taskId)] returns [false], and does nothing, when no listed task
    has the id.  Otherwise the task is cancelled before [stop] first
    waits, in one piece: its object has the status [cancelled], the time of
    the call and the log line of the stop; no scheduler, process entry or
    queue item is left for it; and the other tasks keep their object,
    their scheduler, their process entry and their queue items. *)
Theorem stop_cancels_the_task_before_it_waits :
  forall id now st,
    match getById id st with
    | None => stopBegin id now st = (false, st) /\ stop id now st = (false, st)
    | Some t =>
        let st' := snd (stopBegin id now st) in
        fst (stopBegin id now st) = true /\
        fst (stop id now st) = true /\
        getById id st' =
          Some (appendLog "Task was manually stopped" (withStatus cancelled now t)) /\
        (id ∉ schedulers st') /\
        (id ∉ processes st') /\
        (forall item, item ∈ pendingQueue st' -> taskId item <> id) /\
        tasks st' = tasks st /\
        waiters st' = waiters st /\
        (forall other, other <> id ->
           objects st' !! other = objects st !! other /\
           (other ∈ schedulers st' <-> other ∈ schedulers st) /\
           (other ∈ processes st' <-> other ∈ processes st) /\
           List.filter (fun item => String.eqb (taskId item) other) (pendingQueue st')
           = List.filter (fun item => String.eqb (taskId item) other) (pendingQueue st))
    end.
Proof.
  intros id now st. rewrite stop_after_stopBegin. unfold stopBegin.
  destruct (getById id st) as [t|] eqn:Hget; [|split; reflexivity].
  apply getById_eq in Hget as [Hin Ht]. cbn [fst snd].
  split; [reflexivity|]. split; [reflexivity|]. split.
  { apply getById_eq. split; [exact Hin|].
    cbn [objects setTask setProcs setQueue setSchedulers].
    rewrite lookup_alter_eq, Ht. reflexivity. }
  cbn [objects tasks schedulers processes pendingQueue waiters
       setTask setProcs setQueue setSchedulers].
  split; [set_solver|]. split; [set_solver|].
  split; [intros item; apply not_in_filtered_queue|].
  split; [reflexivity|]. split; [reflexivity|].
  intros other Hne.
  split; [now rewrite lookup_alter_ne by congruence|].
  split; [set_solver|]. split; [set_solver|].
  induction (pendingQueue st) as [|item q IH]; [reflexivity|].
  cbn [List.filter].
  destruct (String.eqb_spec (taskId item) id) as [E|E]; cbn [negb List.filter].
  - rewrite E. destruct (String.eqb_spec id other) as [E1|_]; [congruence | exact IH].
  - destruct (String.eqb (taskId item) other); [f_equal|]; exact IH.
Qed.

(** When the process of a cancelled task closes, whatever its exit code,
    the task is not retried: it stays cancelled, with the exit code and the
    attempts it had, no queue item is made for it and it is not launched
    again. *)
Theorem close_of_a_cancelled_task_does_not_retry :
  forall c code now st t,
    objects st !! child_task c = Some t ->
    status t = cancelled ->
    (forall item, item ∈ pendingQueue st -> taskId item <> child_task c) ->
    let st' := onClose c code now st in
    objects st' !! child_task c = Some (withUpdatedAt now t) /\
    (forall item, item ∈ pendingQueue st' -> taskId item <> child_task c) /\
    starts (child_task c) st' = starts (child_task c) st /\
    (child_task c ∉ processes st').
Proof.
  intros c code now st t Ht Hs Hq st'. unfold st', onClose.
  set (id := child_task c) in *.
  assert (H0 : objects (removeChild c st) = objects st /\
               pendingQueue (removeChild c st) = pendingQueue st /\
               processes (removeChild c st) = processes st ∖ {[id]} /\
               events (removeChild c st) = events st).
  { unfold removeChild. repeat split. }
  destruct H0 as (Hobj & Hqueue & Hproc & Hev).
  set (s0 := removeChild c st) in *.
  rewrite Hobj, Ht. rewrite bool_decide_eq_true_2 by exact Hs.
  match goal with |- context [dispatchPending now ?s] => set (s1 := s) end.
  assert (H1 : objects s1 !! id = Some (withUpdatedAt now t) /\
               pendingQueue s1 = pendingQueue st /\
               processes s1 = processes st ∖ {[id]} /\
               events s1 = events st).
  { unfold s1, resolveWaiters.
    cbn [objects persist setTimers setTask]. rewrite Hobj, lookup_alter_eq, Ht.
    cbn [fmap option_fmap option_map].
    cbn [objects pendingQueue processes events setWaiters persist setTimers setTask].
    rewrite Hobj, lookup_alter_eq, Ht. repeat split; assumption. }
  destruct H1 as (Hobj1 & Hqueue1 & Hproc1 & Hev1).
  assert (Hq1 : forall item, item ∈ pendingQueue s1 -> taskId item <> id).
  { intros item. rewrite Hqueue1. apply Hq. }
  destruct (Quiet_dispatchPending id now s1 Hq1) as [Q1 Q2 Q3 Q4 Q5 Q6 Q7 Q8].
  split; [rewrite Q1; exact Hobj1|].
  split; [intros item H; apply Hq1, Q4, H|].
  split; [rewrite Q8; unfold starts; now rewrite Hev1|].
  intros H. apply Q3 in H. rewrite Hproc1 in H. set_solver.
Qed.

(** A command is launched, stopped by the user, and its killed process
    then closes with a failure. *)
Definition stoppedThenClosed : State :=
  default fresh (run [DoRunCommand sleepCommand "t1" 10; DoStop "t1" 20] fresh).

Lemma close_of_a_cancelled_task_does_not_retry_witness :
  exists t,
    objects stoppedThenClosed !! "t1" = Some t /\
    status t = cancelled /\
    launched "t1" ∈ children stoppedThenClosed /\
    objects (onClose (launched "t1") (Some 143) 30 stoppedThenClosed) !! "t1"
      = Some (withUpdatedAt 30 t) /\
    starts "t1" (onClose (launched "t1") (Some 143) 30 stoppedThenClosed)
      = starts "t1" stoppedThenClosed.
Proof.
  destruct (objects stoppedThenClosed !! "t1") as [t|] eqn:Ht;
    [|vm_compute in Ht; discriminate].
  assert (Hs : status t = cancelled).
  { assert (H : status <$> objects stoppedThenClosed !! "t1" = Some cancelled)
      by (vm_compute; reflexivity).
    rewrite Ht in H. now inversion H. }
  assert (Hq : forall item, item ∈ pendingQueue stoppedThenClosed ->
                            taskId item <> child_task (launched "t1")).
  { assert (H : pendingQueue stoppedThenClosed = []) by (vm_compute; reflexivity).
    rewrite H. intros item Hin. inversion Hin. }
  exists t. split; [reflexivity|]. split; [exact Hs|].
  split; [vm_compute; left|].
  pose proof (close_of_a_cancelled_task_does_not_retry (launched "t1") (Some 143) 30
                stoppedThenClosed t Ht Hs Hq) as (H1 & _ & H3 & _).
  split; [exact H1 | exact H3].
Defined.

(** *** The task [runCommand] returns *)

(** [t] is the task [t0] at a later time: the fields that say what the
    task is, as opposed to how far it got, are the same. *)
Definition sameJob (t0 t : Task) : Prop :=
  name t = name t0 /\ type t = type t0 /\ command t = command t0 /\ cwd t = cwd t0 /\
  parentTaskId t = parentTaskId t0 /\ maxRetries t = maxRetries t0 /\
  createdAt t = createdAt t0 /\ background t = background t0.

Lemma sameJob_trans t0 t1 t2 : sameJob t0 t1 -> sameJob t1 t2 -> sameJob t0 t2.
Proof. unfold sameJob. intuition congruence. Qed.

(** Task [id] is listed, queued or running, and is the job [t0]. *)
Definition Live (id : string) (t0 : Task) (st : State) : Prop :=
  exists t, getById id st = Some t /\
    (status t = queued \/ status t = running) /\ sameJob t0 t.

Lemma Live_same id t0 st st1 :
  tasks st1 = tasks st -> objects st1 !! id = objects st !! id ->
  Live id t0 st -> Live id t0 st1.
Proof.
  intros Ht Ho (t & Hget & H). exists t. split; [|exact H].
  apply getById_eq. apply getById_eq in Hget. rewrite Ht, Ho. exact Hget.
Qed.

Lemma Live_setTask id t0 f other st :
  (forall t, (status t = queued \/ status t = running) ->
             status (f t) = queued \/ status (f t) = running) ->
  (forall t, sameJob t (f t)) ->
  Live id t0 st -> Live id t0 (setTask f other st).
Proof.
  intros Hs Hf (t & Hget & H1 & H2). apply getById_eq in Hget as [Hin Ht].
  destruct (decide (other = id)) as [->|Hne].
  - exists (f t).
    split; [|split; [apply Hs, H1 | apply (sameJob_trans t0 t); [exact H2 | apply Hf]]].
    apply getById_eq. split; [exact Hin|].
    cbn [objects setTask]. rewrite lookup_alter_eq, Ht. reflexivity.
  - exists t. split; [|auto]. apply getById_eq. split; [exact Hin|].
    cbn [objects setTask]. rewrite lookup_alter_ne by exact Hne. exact Ht.
Qed.

Lemma Live_pruneTasks id t0 st : Live id t0 st -> Live id t0 (pruneTasks st).
Proof.
  intros (t & Hget & H1 & H). apply getById_eq in Hget as [Hin Ht].
  exists t. split; [|auto]. apply getById_eq.
  split; [apply (pruneTasks_keeps_live id t st); assumption | exact Ht].
Qed.

Lemma Live_enqueueExistingTask id t0 other timeout delay wait retry now st :
  Live id t0 st -> Live id t0 (enqueueExistingTask other timeout delay wait retry now st).
Proof.
  intros H. unfold enqueueExistingTask.
  destruct (existsb _ _); [exact H|].
  destruct (objects st !! other); [|exact H].
  match goal with |- Live _ _ (setQueue ?q ?s) =>
    apply (Live_same id t0 s (setQueue q s)); [reflexivity | reflexivity |]
  end.
  apply Live_setTask; [left; reflexivity | intros; repeat split; reflexivity | exact H].
Qed.

Lemma Live_launchTaskNow id t0 other timeout wait fromQueue now st :
  Live id t0 st -> Live id t0 (launchTaskNow other timeout wait fromQueue now st).
Proof.
  intros H. unfold launchTaskNow.
  destruct (objects st !! other) as [t|]; [|exact H].
  match goal with |- Live _ _ (schedulePersist ?s) =>
    apply (Live_same id t0 s); [reflexivity | reflexivity |]
  end.
  apply Live_setTask; [auto | intros; repeat split; reflexivity |].
  match goal with |- Live _ _ (setProcs ?p ?c ?tm ?n ?s) =>
    apply (Live_same id t0 s); [reflexivity | reflexivity |]
  end.
  match goal with |- Live _ _ (emit ?e ?s) =>
    apply (Live_same id t0 s); [reflexivity | reflexivity |]
  end.
  match goal with |- Live _ _ (persist ?s) =>
    apply (Live_same id t0 s); [reflexivity | reflexivity |]
  end.
  apply Live_setTask; [right; reflexivity | intros; repeat split; reflexivity | exact H].
Qed.

Lemma Live_dispatchLoop id t0 now fuel : forall p st,
  Live id t0 st -> Live id t0 (fst (dispatchLoop fuel now p st)).
Proof.
  induction fuel as [|fuel IH]; intros p st H; cbn [dispatchLoop]; [exact H|].
  destruct (_ <? _); [|exact H].
  destruct (list_find _ (pendingQueue st)) as [[i item]|]; [|exact H].
  assert (H1 : Live id t0 (setQueue (delete i (pendingQueue st)) st))
    by (apply (Live_same id t0 st); [reflexivity | reflexivity | exact H]).
  destruct (getById (taskId item) _) as [t|]; [|apply IH, H1].
  destruct (bool_decide (status t = cancelled)); [apply IH, H1|].
  apply IH, Live_launchTaskNow, H1.
Qed.

Lemma Live_dispatchPending id t0 now st :
  Live id t0 st -> Live id t0 (dispatchPending now st).
Proof.
  intros H. unfold dispatchPending.
  assert (H0 : Live id t0 (clearQueueTimer st))
    by (apply (Live_same id t0 st); [reflexivity | reflexivity | exact H]).
  pose proof (Live_dispatchLoop id t0 now (length (pendingQueue (clearQueueTimer st)))
                false (clearQueueTimer st) H0) as H1.
  destruct (dispatchLoop _ now false (clearQueueTimer st)) as [st1 progressed].
  cbn [fst] in H1.
  assert (H2 : Live id t0 (match pendingQueue st1 with
                                | [] => st1 | _ :: _ => scheduleNextQueueTick now st1 end)).
  { destruct (pendingQueue st1) eqn:E; [exact H1|].
    apply (Live_same id t0 st1); [| | exact H1];
      unfold scheduleNextQueueTick; rewrite E; reflexivity. }
  destruct progressed; [|exact H2].
  match goal with |- Live _ _ (persist ?s) =>
    apply (Live_same id t0 s); [reflexivity | reflexivity | exact H2]
  end.
Qed.

Lemma falsy_empty s : truthy s = false -> s = "".
Proof. destruct s; [reflexivity | discriminate]. Qed.

Lemma findRunningByCommand_running cmd dir st existing :
  findRunningByCommand cmd dir st = Some existing ->
  exists t, getById existing st = Some t /\ status t = running /\
            trim (command t) = trim cmd /\ trim (cwd t) = trim dir.
Proof.
  unfold findRunningByCommand. destruct (negb _); [discriminate|].
  intros H. apply head_Some_elem_of, list_elem_of_In, List.filter_In in H as [Hin H].
  destruct (objects st !! existing) as [t|] eqn:Ht; [|discriminate].
  apply andb_true_iff in H as [H H3]. apply andb_true_iff in H as [H1 H2].
  exists t. split; [apply getById_eq; split; [now apply list_elem_of_In | exact Ht]|].
  split; [now apply bool_decide_eq_true in H1|].
  split; [now apply String.eqb_eq in H2 | now apply String.eqb_eq in H3].
Qed.

(** The task object [runCommand] creates. *)
Definition newCommand (a : RunArgs) (now : Z) (st : State) : Task :=
  createTaskBase st (run_name a) type_command (run_command a) (run_cwd a)
    None (run_parentTaskId a) (run_background a)
    (run_maxRetries a) (run_retryDelayMs a) (run_timeoutMs a) now.

Definition blankCommand (a : RunArgs) : bool :=
  negb (truthy (run_command a)) || negb (truthy (trim (run_command a))).

Lemma blankCommand_trim a : blankCommand a = true <-> trim (run_command a) = "".
Proof.
  unfold blankCommand. split.
  - intros H. apply orb_true_iff in H as [E | E]; apply negb_true_iff, falsy_empty in E.
    + rewrite E. reflexivity.
    + exact E.
  - intros H. rewrite H. apply orb_true_r.
Qed.

(** A [runCommand] that does not throw and finds no duplicate returns the
    fresh id, and the task it created is listed, queued or running. *)
Lemma runCommand_new_task a uuid now st :
  blankCommand a = false ->
  (if run_dedupeRunning a
   then findRunningByCommand (run_command a) (run_cwd a) st else None) = None ->
  fst (runCommand a uuid now st) = Ok uuid /\
  Live uuid (newCommand a now st) (snd (runCommand a uuid now st)).
Proof.
  intros Hblank Hdedupe. unfold runCommand.
  fold (blankCommand a). rewrite Hblank, Hdedupe. fold (newCommand a now st).
  set (task := newCommand a now st).
  assert (H0 : Live uuid task (addObject uuid task st)).
  { exists task. split; [|split; [left; reflexivity | repeat split]].
    apply getById_eq. cbn [tasks objects addObject]. split.
    - apply elem_of_app. right. apply list_elem_of_singleton. reflexivity.
    - apply lookup_insert_eq. }
  apply Live_pruneTasks in H0.
  set (s1 := pruneTasks (addObject uuid task st)) in *.
  match goal with |- context [if run_background a then s1 else ?s] =>
    assert (H2 : Live uuid task (if run_background a then s1 else s))
      by (destruct (run_background a); [exact H0|];
          apply (Live_same _ _ s1); [reflexivity | reflexivity | exact H0]);
    set (s2 := if run_background a then s1 else s) in *
  end.
  destruct (run_forceQueue a || _ || _); cbn [fst snd]; (split; [reflexivity|]).
  - apply Live_dispatchPending.
    match goal with |- Live _ _ (emit ?e ?s) =>
      apply (Live_same _ _ s); [reflexivity | reflexivity |]
    end.
    match goal with |- Live _ _ (persist ?s) =>
      apply (Live_same _ _ s); [reflexivity | reflexivity |]
    end.
    apply Live_enqueueExistingTask, H2.
  - apply Live_launchTaskNow, H2.
Qed.

(** What the first part of [runCommand] settles: the task is a running
    one found by [dedupeRunning], or it was created. *)
Inductive Begun :=
  | Duplicate (existing : string)
  | Created (id : string).

(** The part of [runCommand] that runs before the method first waits,
    which it does for the directory of the log file. *)
Definition runCommandBegin (a : RunArgs) (uuid : string) (now : Z) (st : State)
  : result string Begun * State :=
  if negb (truthy (run_command a)) || negb (truthy (trim (run_command a))) then
    (Throw "Command is required", st)
  else
    match (if run_dedupeRunning a
           then findRunningByCommand (run_command a) (run_cwd a) st else None) with
    | Some existing => (Ok (Duplicate existing), emit (ev_duplicate existing) st)
    | None =>
        let task := createTaskBase st (run_name a) type_command (run_command a) (run_cwd a)
                      None (run_parentTaskId a) (run_background a)
                      (run_maxRetries a) (run_retryDelayMs a) (run_timeoutMs a) now in
        (Ok (Created uuid), pruneTasks (addObject uuid task st))
    end.

(** [runCommand] resumes from there, when nothing else has happened
    meanwhile. *)
Lemma runCommand_after_begin a uuid now st :
  runCommand a uuid now st =
    match runCommandBegin a uuid now st with
    | (Throw e, st1) => (Throw e, st1)
    | (Ok (Duplicate existing), st1) => (Ok existing, st1)
    | (Ok (Created id), st1) =>
        let st2 := if run_background a then st1
                   else setWaiters (waiters st1 ++ [id]) (resolved st1) st1 in
        let shouldQueue :=
          run_forceQueue a
          || (run_queueIfBusy a
              && (Z.of_nat (size (processes st2)) >=? maxConcurrentProcesses st2))
          || negb (Nat.eqb (length (pendingQueue st2)) 0) in
        if shouldQueue then
          let st3 := enqueueExistingTask id (run_timeoutMs a)
                       (retryDelayMs (newCommand a now st))
                       (negb (run_background a)) now now st2 in
          let st4 := emit (ev_queued id (Z.of_nat (length (pendingQueue st3))))
                          (persist st3) in
          (Ok id, dispatchPending now st4)
        else
          (Ok id, launchTaskNow id (run_timeoutMs a) (negb (run_background a)) false now st2)
    end.
Proof.
  unfold runCommand, runCommandBegin, newCommand.
  destruct (_ || _); [reflexivity|].
  destruct (if run_dedupeRunning a then _ else _); reflexivity.
Qed.

Lemma findRunningByCommand_none cmd dir st :
  trim cmd <> "" ->
  findRunningByCommand cmd dir st = None ->
  forall id t, getById id st = Some t -> status t = running ->
    trim (command t) = trim cmd -> trim (cwd t) = trim dir -> False.
Proof.
  intros Hcmd. unfold findRunningByCommand.
  rewrite (truthy_nonempty _ Hcmd). cbn [negb].
  intros H id t Hget Hs Hc Hd. apply getById_eq in Hget as [Hin Ht].
  assert (Hf : In id (List.filter
                  (fun id => match objects st !! id with
                             | Some t => bool_decide (status t = running)
                                         && String.eqb (trim (command t)) (trim cmd)
                                         && String.eqb (trim (cwd t)) (trim dir)
                             | None => false
                             end) (tasks st))).
  { apply filter_In. split; [now apply list_elem_of_In|].
    rewrite Ht, Hc, Hd, !String.eqb_refl, bool_decide_eq_true_2 by exact Hs. reflexivity. }
  destruct (List.filter _ (tasks st)); [exact Hf | discriminate].
Qed.

(** [runCommand] throws [Command is required], and does nothing, exactly
    when the command is blank.  Otherwise, by the time it first waits:
    - with [dedupeRunning], when a listed task is running with the same
      command and directory (up to surrounding white space), it has settled
      on such a task, has created nothing and has emitted
      "task.command.duplicate";
    - in every other case it has created the task under the fresh id, the
      last of the list: a command task, [queued], with the name, command,
      directory, parent and retry limit asked for, next to the tasks that
      were listed, queued or running; the queue and the processes are as
      they were. *)
Theorem runCommand_validates_dedupes_and_creates :
  forall a uuid now st,
    match runCommandBegin a uuid now st with
    | (Throw e, st') =>
        e = "Command is required" /\ trim (run_command a) = "" /\ st' = st /\
        runCommand a uuid now st = (Throw e, st)
    | (Ok (Duplicate id), st') =>
        trim (run_command a) <> "" /\ run_dedupeRunning a = true /\
        st' = emit (ev_duplicate id) st /\
        fst (runCommand a uuid now st) = Ok id /\
        exists t, getById id st = Some t /\ status t = running /\
          trim (command t) = trim (run_command a) /\ trim (cwd t) = trim (run_cwd a)
    | (Ok (Created id), st') =>
        trim (run_command a) <> "" /\ id = uuid /\
        fst (runCommand a uuid now st) = Ok uuid /\
        (run_dedupeRunning a = true ->
         forall other t, getById other st = Some t -> status t = running ->
           trim (command t) = trim (run_command a) -> trim (cwd t) = trim (run_cwd a) ->
           False) /\
        (exists t, getById uuid st' = Some t /\
           status t = queued /\ type t = type_command /\
           name t = (if truthy (run_name a) then run_name a else "command") /\
           command t = run_command a /\ cwd t = run_cwd a /\
           parentTaskId t = run_parentTaskId a /\
           maxRetries t = default (defaultRetryLimit st) (run_maxRetries a) /\
           createdAt t = now /\ attempts t = 0) /\
        (forall other t, other <> uuid -> getById other st = Some t ->
           status t = queued \/ status t = running ->
           getById other st' = Some t) /\
        pendingQueue st' = pendingQueue st /\ processes st' = processes st
    end.
Proof.
  intros a uuid now st. rewrite runCommand_after_begin. unfold runCommandBegin.
  fold (blankCommand a). destruct (blankCommand a) eqn:Eblank.
  - split; [reflexivity|]. split; [now apply blankCommand_trim|]. split; reflexivity.
  - assert (Hcmd : trim (run_command a) <> "").
    { intros H. apply blankCommand_trim in H. congruence. }
    destruct (if run_dedupeRunning a
              then findRunningByCommand (run_command a) (run_cwd a) st else None)
      as [existing|] eqn:Ededupe.
    + split; [exact Hcmd|].
      destruct (run_dedupeRunning a) eqn:Ed; [|discriminate].
      split; [reflexivity|]. split; [reflexivity|]. split; [reflexivity|].
      apply findRunningByCommand_running in Ededupe as (t & Hget & Hs & Hc & Hd).
      exists t. auto.
    + fold (newCommand a now st). set (task := newCommand a now st).
      split; [exact Hcmd|]. split; [reflexivity|]. split.
      { destruct (_ || _ || _); reflexivity. }
      split.
      { intros Ed. rewrite Ed in Ededupe.
        apply (findRunningByCommand_none _ _ st Hcmd Ededupe). }
      assert (H0 : Live uuid task (addObject uuid task st)).
      { exists task. split; [|split; [left; reflexivity | repeat split]].
        apply getById_eq. cbn [tasks objects addObject]. split.
        - apply elem_of_app. right. apply list_elem_of_singleton. reflexivity.
        - apply lookup_insert_eq. }
      split.
      { exists task. split; [|repeat split].
        apply getById_eq. split.
        - apply (pruneTasks_keeps_live uuid task); [| |left; reflexivity].
          + cbn [tasks addObject]. apply elem_of_app. right.
            apply list_elem_of_singleton. reflexivity.
          + cbn [objects addObject]. apply lookup_insert_eq.
        - cbn [objects pruneTasks setTasks addObject]. apply lookup_insert_eq. }
      split; [|split; reflexivity].
      intros other t Hne Hget Hs. apply getById_eq in Hget as [Hin Ht].
      assert (Ho : objects (addObject uuid task st) !! other = Some t).
      { cbn [objects addObject]. rewrite lookup_insert_ne by congruence. exact Ht. }
      apply getById_eq. split.
      * apply (pruneTasks_keeps_live other t); [|exact Ho|exact Hs].
        cbn [tasks addObject]. apply elem_of_app. now left.
      * exact Ho.
Qed.

(** *** Commands interrupted by a restart *)

(** The task as the state file has it: a command that was running or
    queued when the previous manager went away. *)
Definition Interrupted (id cmd : string) (st : State) : Prop :=
  exists t, getById id st = Some t /\ type t = type_command /\ command t = cmd /\
    (status t = running \/ status t = queued).

Lemma Interrupted_same id cmd st st1 :
  tasks st1 = tasks st -> objects st1 !! id = objects st !! id ->
  Interrupted id cmd st -> Interrupted id cmd st1.
Proof.
  intros Ht Ho (t & Hget & H). exists t. split; [|exact H].
  apply getById_eq. apply getById_eq in Hget. rewrite Ht, Ho. exact Hget.
Qed.

(** What [restoreTask] leaves as it is. *)
Lemma restoreTask_frame now other st :
  tasks (restoreTask now other st) = tasks st /\
  processes (restoreTask now other st) = processes st /\
  (forall item, item ∈ pendingQueue st -> item ∈ pendingQueue (restoreTask now other st)) /\
  (forall id, id <> other ->
     objects (restoreTask now other st) !! id = objects st !! id).
Proof.
  unfold restoreTask. destruct (objects st !! other) as [t|]; [|auto].
  set (s1 := if _ && _ then running else _).
  assert (H1 : forall id, id <> other ->
                 objects (setTask (withStatus s1 now) other st) !! id = objects st !! id).
  { intros id Hne. cbn [objects setTask]. now rewrite lookup_alter_ne. }
  destruct (_ && bool_decide (s1 = queued)); [|auto].
  unfold enqueueExistingTask. destruct (existsb _ _); [auto|].
  destruct (objects (setTask (withStatus s1 now) other st) !! other); [|auto].
  repeat split.
  - intros item Hin. cbn [pendingQueue setQueue setTask]. apply elem_of_app. now left.
  - intros id Hne. cbn [objects setQueue setTask]. now rewrite !lookup_alter_ne.
Qed.

(** [init()] puts an interrupted command back in the queue. *)
Lemma restoreTask_self now id cmd st :
  Interrupted id cmd st \/
  (exists t, getById id st = Some t /\ type t = type_command /\ command t = cmd /\
     status t = queued /\ exists item, item ∈ pendingQueue st /\ taskId item = id) ->
  exists t, getById id (restoreTask now id st) = Some t /\
    type t = type_command /\ command t = cmd /\ status t = queued /\
    exists item, item ∈ pendingQueue (restoreTask now id st) /\ taskId item = id.
Proof.
  intros H.
  assert (Hi : Interrupted id cmd st).
  { destruct H as [H | (t & H1 & H2 & H3 & H4 & _)]; [exact H|]. exists t. auto. }
  destruct Hi as (t & Hget & Hty & Hc & Hs).
  apply getById_eq in Hget as [Hin Ht].
  unfold restoreTask. rewrite Ht.
  rewrite Hty. rewrite (bool_decide_eq_false_2 (type_command = type_schedule)) by discriminate.
  rewrite (bool_decide_eq_true_2 (type_command = type_command)) by reflexivity.
  cbn [andb].
  assert (Hq : (if bool_decide (status t = running) || bool_decide (status t = queued)
                then queued else status t) = queued).
  { destruct Hs as [-> | ->]; reflexivity. }
  rewrite Hq. rewrite (bool_decide_eq_true_2 (queued = queued)) by reflexivity.
  unfold enqueueExistingTask.
  destruct (existsb _ _) eqn:Eex.
  - apply existsb_exists in Eex as (item & Hitem & Hid).
    exists (withStatus queued now t).
    split; [apply getById_eq; split; [exact Hin|];
            cbn [objects setTask]; rewrite lookup_alter_eq, Ht; reflexivity|].
    repeat split; try assumption.
    exists item. split; [now apply list_elem_of_In | now apply String.eqb_eq].
  - cbn [objects setTask]. rewrite lookup_alter_eq, Ht. cbn [fmap option_fmap option_map].
    eexists. split.
    + apply getById_eq. split; [exact Hin|].
      cbn [objects setQueue setTask]. rewrite lookup_alter_eq, lookup_alter_eq, Ht.
      reflexivity.
    + repeat split; try assumption.
      eexists. split; [cbn [pendingQueue setQueue]; apply elem_of_app; right;
                       apply list_elem_of_singleton; reflexivity | reflexivity].
Qed.

Definition Requeued (id cmd : string) (st : State) : Prop :=
  exists t, getById id st = Some t /\ type t = type_command /\ command t = cmd /\
    status t = queued /\ exists item, item ∈ pendingQueue st /\ taskId item = id.

Lemma restore_all now id cmd ids : forall st,
  (Interrupted id cmd st /\ id ∈ ids) \/ Requeued id cmd st ->
  Requeued id cmd (foldl (fun st i => restoreTask now i st) st ids).
Proof.
  induction ids as [|x ids IH]; intros st H; cbn [foldl].
  - destruct H as [[_ H] | H]; [inversion H | exact H].
  - apply IH. destruct (decide (x = id)) as [->|Hne].
    + right. apply restoreTask_self.
      destruct H as [[H _] | H]; [left; exact H | right; exact H].
    + destruct (restoreTask_frame now x st) as (Ft & _ & Fq & Fo).
      destruct H as [[H Hin] | (t & Hget & Hty & Hc & Hs & item & Hitem & Hid)].
      * left. split.
        -- apply (Interrupted_same id cmd st); [exact Ft | apply Fo; congruence | exact H].
        -- apply elem_of_cons in Hin as [Hin | Hin]; [congruence | exact Hin].
      * right. exists t.
        split; [apply getById_eq; apply getById_eq in Hget;
                rewrite Ft, Fo by congruence; exact Hget|].
        repeat split; try assumption. exists item. split; [apply Fq, Hitem | exact Hid].
Qed.

(** The part of [init()] that runs in one piece once the state file is
    read: the tasks of the file replace the list, the loop restores each
    of them, and [pruneTasks] runs; [init()] waits next, for the state file
    to be written. *)
Definition initRestore (loaded : list (string * Task)) (now : Z) (st : State) : State :=
  let st0 :=
    {| maxConcurrentProcesses := maxConcurrentProcesses st;
       defaultRetryLimit := defaultRetryLimit st;
       defaultRetryDelayMs := defaultRetryDelayMs st;
       maxTasks := maxTasks st; maxFinishedTasks := maxFinishedTasks st;
       objects := list_to_map loaded; tasks := map fst loaded;
       processes := processes st; children := children st; timeouts := timeouts st;
       schedulers := schedulers st; pendingQueue := pendingQueue st;
       waiters := waiters st; resolved := resolved st;
       queueTimer := queueTimer st; persistTimer := persistTimer st;
       stateFile := Some loaded; events := events st; spawned := spawned st |} in
  pruneTasks (foldl (fun st id => restoreTask now id st) st0 (tasks st0)).

(** [init()] resumes from there, when nothing else has happened
    meanwhile. *)
Lemma init_after_initRestore loaded now st :
  init loaded now st =
    let st2 := persist (initRestore loaded now st) in
    let st3 := foldl (fun st id =>
                        match objects st !! id with
                        | Some t =>
                            if bool_decide (type t = type_schedule)
                               && negb (bool_decide (status t = cancelled))
                            then startScheduler id st else st
                        | None => st
                        end) st2 (tasks st2) in
    dispatchPending now
      (emit (ev_init (Z.of_nat (length (tasks st3)))
                     (Z.of_nat (size (schedulers st3)))
                     (Z.of_nat (length (pendingQueue st3)))) st3).
Proof. reflexivity. Qed.

(** [init()] puts the commands a restart interrupted back in the queue: a
    command task that the state file lists as running or queued is listed
    by the manager as soon as the file is restored, with its command and
    the status [queued], and has an item in the pending queue; no process
    runs yet. *)
Theorem init_requeues_interrupted_commands :
  forall a b c d e loaded now id t,
    distinctIds loaded ->
    (id, t) ∈ loaded ->
    type t = type_command ->
    status t = running \/ status t = queued ->
    let st := initRestore loaded now (create a b c d e) in
    processes st = ∅ /\
    exists t', getById id st = Some t' /\
      type t' = type_command /\ command t' = command t /\ status t' = queued /\
      exists item, item ∈ pendingQueue st /\ taskId item = id.
Proof.
  intros a b c d e loaded now id t Hdistinct Hin Hty Hs st. unfold st, initRestore.
  set (s0 := mkState _ _ _ _ _ (list_to_map loaded) _ _ _ _ _ _ _ _ _ _ _ _ _).
  assert (H0 : Interrupted id (command t) s0 /\ id ∈ tasks s0).
  { assert (Hid : id ∈ map fst loaded).
    { apply list_elem_of_fmap. exists (id, t). split; [reflexivity | exact Hin]. }
    split; [|exact Hid]. exists t. split; [|auto].
    apply getById_eq. split; [exact Hid|].
    subst s0. cbn [objects]. apply elem_of_list_to_map_1; [exact Hdistinct | exact Hin]. }
  pose proof (restore_all now id (command t) (tasks s0) s0 (or_introl H0)) as H1.
  assert (Hp : forall ids s, processes (foldl (fun st i => restoreTask now i st) s ids)
                             = processes s).
  { induction ids as [|x ids IH]; intros s; cbn [foldl]; [reflexivity|].
    rewrite IH. apply (restoreTask_frame now x s). }
  set (s1 := foldl _ s0 (tasks s0)) in *.
  split.
  { change (processes (pruneTasks s1)) with (processes s1).
    unfold s1. rewrite Hp. reflexivity. }
  destruct H1 as (t1 & Hget & Hty1 & Hc1 & Hs1 & Hitem).
  exists t1. split; [|auto].
  apply getById_eq in Hget as [Hl Ho]. apply getById_eq. split; [|exact Ho].
  apply (pruneTasks_keeps_live id t1 s1); auto.
Qed.

(** A state file with one command that was running when the manager went
    away. *)
Definition interruptedTask : Task :=
  withStatus running 5
    (createTaskBase fresh "build" type_command "make all" "/srv" None None true
                    None None 0 1).

Lemma init_requeues_interrupted_commands_witness :
  distinctIds [("t1", interruptedTask)] /\
  exists t', getById "t1" (initRestore [("t1", interruptedTask)] 10 fresh) = Some t' /\
    command t' = "make all" /\ status t' = queued /\
    map taskId (pendingQueue (initRestore [("t1", interruptedTask)] 10 fresh)) = ["t1"].
Proof.
  assert (Hd : distinctIds [("t1", interruptedTask)]).
  { unfold distinctIds. cbn. constructor; [intros H; inversion H | constructor]. }
  split; [exact Hd|].
  destruct (init_requeues_interrupted_commands None None None None None
              [("t1", interruptedTask)] 10 "t1" interruptedTask Hd)
    as (_ & t' & Hget & _ & Hc & Hs & _).
  - left.
  - reflexivity.
  - left. reflexivity.
  - exists t'. split; [exact Hget|]. split; [exact Hc|]. split; [exact Hs|].
    vm_compute. reflexivity.
Defined.

(** *** What a scheduler tick does *)

(** The options a scheduler tick passes to [runCommand]. *)
Definition tickArgs (id : string) (t : Task) : RunArgs :=
  {| run_name := name t +:+ ":tick"; run_command := command t; run_cwd := cwd t;
     run_timeoutMs := 0; run_background := true; run_parentTaskId := Some id;
     run_dedupeRunning := false; run_queueIfBusy := true; run_forceQueue := false;
     run_maxRetries := Some (maxRetries t);
     run_retryDelayMs := Some (retryDelayMs t) |}.

(** Every tick of a schedule whose command is not blank creates one
    command task: it is listed under the fresh id, queued or running, with
    the command and the retry limit of the schedule and the schedule as its
    parent.  [scheduleCommand] does not look at the command, though: the
    ticks of a schedule with a blank command create nothing (the
    [runCommand] of the tick throws), and only move [nextRunAt] on. *)
Theorem scheduler_tick_creates_a_command_task :
  forall id uuid now st t,
    objects st !! id = Some t ->
    unused uuid st = true ->
    let st' := onSchedulerTick id uuid now st in
    (trim (command t) <> "" ->
     exists task, getById uuid st' = Some task /\
       (status task = queued \/ status task = running) /\
       type task = type_command /\ command task = command t /\
       parentTaskId task = Some id /\ maxRetries task = maxRetries t /\
       background task = true) /\
    (trim (command t) = "" ->
     tasks st' = tasks st /\ pendingQueue st' = pendingQueue st /\
     processes st' = processes st /\
     objects st' !! id =
       Some (withRun (Some now) (Some (now + default 0 (intervalMs t))) now t)).
Proof.
  intros id uuid now st t Ht Hunused st'. unfold st', onSchedulerTick. rewrite Ht.
  fold (tickArgs id t).
  match goal with |- context [runCommand (tickArgs id t) uuid now ?s] => set (s2 := s) end.
  split.
  - intros Hcmd.
    assert (Hblank : blankCommand (tickArgs id t) = false).
    { destruct (blankCommand (tickArgs id t)) eqn:E; [|reflexivity].
      apply blankCommand_trim in E. contradiction. }
    destruct (runCommand_new_task (tickArgs id t) uuid now s2 Hblank eq_refl)
      as (_ & task & Hget & Hs & J1 & J2 & J3 & J4 & J5 & J6 & J7 & J8).
    exists task. split; [exact Hget|]. split; [exact Hs|].
    rewrite J2, J3, J5, J6, J8. repeat split.
  - intros Hcmd.
    assert (Hblank : blankCommand (tickArgs id t) = true) by now apply blankCommand_trim.
    unfold runCommand. fold (blankCommand (tickArgs id t)). rewrite Hblank. cbn [snd].
    repeat split. unfold s2. cbn [objects emit schedulePersist setTimers setTask].
    rewrite lookup_alter_eq, Ht. reflexivity.
Qed.

(** A schedule that runs [make check] every hour, at its first tick. *)
Definition hourly : ScheduleArgs :=
  {| sched_name := "check"; sched_command := "make check"; sched_cwd := "/srv";
     sched_intervalMs := Some 3600000; sched_maxRetries := Some 1;
     sched_retryDelayMs := None |}.

Definition scheduled : State := snd (scheduleCommand hourly "s1" 0 fresh).

Lemma scheduler_tick_creates_a_command_task_witness :
  exists t task,
    objects scheduled !! "s1" = Some t /\
    unused "t1" scheduled = true /\
    trim (command t) <> "" /\
    getById "t1" (onSchedulerTick "s1" "t1" 3600000 scheduled) = Some task /\
    command task = "make check" /\ parentTaskId task = Some "s1" /\ maxRetries task = 1.
Proof.
  destruct (objects scheduled !! "s1") as [t|] eqn:Ht; [|vm_compute in Ht; discriminate].
  assert (Hc : command t = "make check").
  { assert (H : command <$> objects scheduled !! "s1" = Some "make check")
      by (vm_compute; reflexivity).
    rewrite Ht in H. now inversion H. }
  assert (Hm : maxRetries t = 1).
  { assert (H : maxRetries <$> objects scheduled !! "s1" = Some 1)
      by (vm_compute; reflexivity).
    rewrite Ht in H. now inversion H. }
  assert (Hu : unused "t1" scheduled = true) by (vm_compute; reflexivity).
  assert (Hne : trim (command t) <> "") by (rewrite Hc; vm_compute; discriminate).
  destruct (scheduler_tick_creates_a_command_task "s1" "t1" 3600000 scheduled t Ht Hu)
    as [H _].
  destruct (H Hne) as (task & Hget & _ & _ & H1 & H2 & H3 & _).
  exists t, task.
  split; [reflexivity|]. split; [exact Hu|]. split; [exact Hne|]. split; [exact Hget|].
  split; [congruence|]. split; [exact H2 | congruence].
Defined.

End BackgroundTaskManager.

(* ===================================================================== *)
(** ** Message digests ([node:crypto]'s [createHash]) *)
(* ===================================================================== *)
Module Digest.

(** 32-bit words are [Z]s in [0, 2^32); additions wrap around. *)
Definition w32 (x : Z) : Z := x mod 2 ^ 32.
Definition add32 (a b : Z) : Z := w32 (a + b).
Definition rotl (n x : Z) : Z := w32 (Z.lor (Z.shiftl x n) (Z.shiftr x (32 - n))).
Definition rotr (n x : Z) : Z := rotl (32 - n) x.
Definition not32 (x : Z) : Z := Z.lxor x 0xffffffff.

Definition Ch (x y z : Z) : Z := Z.lxor (Z.land x y) (Z.land (not32 x) z).
Definition Maj (x y z : Z) : Z :=
  Z.lxor (Z.lxor (Z.land x y) (Z.land x z)) (Z.land y z).
Definition Parity (x y z : Z) : Z := Z.lxor (Z.lxor x y) z.

(** [update(text)] hashes the UTF-8 encoding of the string: a code unit
    below 128 is one byte, one in 128..255 is two. *)
Fixpoint utf8 (s : string) : list Z :=
  match s with
  | EmptyString => []
  | String c rest =>
      let n := Z.of_nat (nat_of_ascii c) in
      if n <? 128 then n :: utf8 rest
      else (192 + n / 64) :: (128 + n mod 64) :: utf8 rest
  end.

Definition be64 (n : Z) : list Z :=
  map (fun i => Z.shiftr n (8 * i) mod 256) [7; 6; 5; 4; 3; 2; 1; 0].

(** Padding of both algorithms: a 1 bit, zeros, and the bit length in 64
    bits, up to a multiple of 64 bytes. *)
Definition pad (msg : list Z) : list Z :=
  let len := Z.of_nat (length msg) in
  msg ++ [0x80] ++ repeat 0 (Z.to_nat ((55 - len) mod 64)) ++ be64 (8 * len).

Fixpoint toWords (bytes : list Z) : list Z :=
  match bytes with
  | a :: b :: c :: d :: rest => (((a * 256 + b) * 256 + c) * 256 + d) :: toWords rest
  | _ => []
  end.

Fixpoint blocksOf (fuel : nat) (ws : list Z) : list (list Z) :=
  match fuel, ws with
  | S fuel', _ :: _ => firstn 16 ws :: blocksOf fuel' (skipn 16 ws)
  | _, _ => []
  end.

Definition blocks (msg : list Z) : list (list Z) :=
  let ws := toWords (pad msg) in blocksOf (length ws) ws.

(** The message schedule, built newest word first. *)
Fixpoint extend (n : nat) (next : list Z -> Z) (newestFirst : list Z) : list Z :=
  match n with
  | O => newestFirst
  | S n' => extend n' next (next newestFirst :: newestFirst)
  end.

Definition back (i : nat) (newestFirst : list Z) : Z := nth (i - 1) newestFirst 0.

Definition hexDigit (n : Z) : ascii :=
  ascii_of_nat (Z.to_nat (if n <? 10 then 48 + n else 87 + n)).

Definition hexWord (w : Z) : list ascii :=
  map (fun s => hexDigit (Z.land (Z.shiftr w s) 15)) [28; 24; 20; 16; 12; 8; 4; 0].

(** *** SHA-256 (FIPS 180-4, section 6.2) *)

(** The constants of the algorithm are fractional parts of roots of the
    first primes, 32 bits of each. *)
Definition isPrime (n : Z) : bool :=
  (1 <? n) && forallb (fun d => negb (n mod Z.of_nat d =? 0)) (seq 2 (Z.to_nat n - 2)).

Definition primes (count below : nat) : list Z :=
  firstn count (List.filter isPrime (map Z.of_nat (seq 2 below))).

(** The integer cube root, bit by bit from the top. *)
Definition cbrt (n : Z) : Z :=
  fold_left (fun r bit => let r' := r + 2 ^ Z.of_nat bit in if r' ^ 3 <=? n then r' else r)
            (rev (seq 0 40)) 0.

Definition fracSqrt (p : Z) : Z := Z.sqrt (p * 2 ^ 64) mod 2 ^ 32.
Definition fracCbrt (p : Z) : Z := cbrt (p * 2 ^ 96) mod 2 ^ 32.

(** The 64 round constants: cube roots of the first 64 primes. *)
Definition K256 : list Z := Eval vm_compute in map fracCbrt (primes 64 320).

Definition State256 : Type := Z * Z * Z * Z * Z * Z * Z * Z.

(** The initial hash value: square roots of the first 8 primes. *)
Definition H256 : State256 := Eval vm_compute in
  match map fracSqrt (primes 8 20) with
  | [a; b; c; d; e; f; g; h] => (a, b, c, d, e, f, g, h)
  | _ => (0, 0, 0, 0, 0, 0, 0, 0)
  end.

Lemma K256_ends : head K256 = Some 0x428a2f98 /\ last K256 = Some 0xc67178f2 /\
  length K256 = 64%nat.
Proof. vm_compute. repeat split. Qed.

Definition bigSigma0 (x : Z) : Z := Z.lxor (Z.lxor (rotr 2 x) (rotr 13 x)) (rotr 22 x).
Definition bigSigma1 (x : Z) : Z := Z.lxor (Z.lxor (rotr 6 x) (rotr 11 x)) (rotr 25 x).
Definition sigma0 (x : Z) : Z := Z.lxor (Z.lxor (rotr 7 x) (rotr 18 x)) (Z.shiftr x 3).
Definition sigma1 (x : Z) : Z := Z.lxor (Z.lxor (rotr 17 x) (rotr 19 x)) (Z.shiftr x 10).

Definition schedule256 (block : list Z) : list Z :=
  rev (extend 48
         (fun w => add32 (add32 (sigma1 (back 2 w)) (back 7 w))
                         (add32 (sigma0 (back 15 w)) (back 16 w)))
         (rev block)).

Definition round256 (st : State256) (kw : Z * Z) : State256 :=
  let '(a, b, c, d, e, f, g, h) := st in
  let t1 := add32 (add32 (add32 h (bigSigma1 e)) (add32 (Ch e f g) (fst kw))) (snd kw) in
  let t2 := add32 (bigSigma0 a) (Maj a b c) in
  (add32 t1 t2, a, b, c, add32 d t1, e, f, g).

Definition compress256 (st : State256) (block : list Z) : State256 :=
  let '(a, b, c, d, e, f, g, h) := st in
  let '(a', b', c', d', e', f', g', h') :=
    fold_left round256 (combine K256 (schedule256 block)) st in
  (add32 a a', add32 b b', add32 c c', add32 d d',
   add32 e e', add32 f f', add32 g g', add32 h h').

Definition sha256 (msg : list Z) : State256 := fold_left compress256 (blocks msg) H256.

Definition hex256 (st : State256) : list ascii :=
  let '(a, b, c, d, e, f, g, h) := st in
  hexWord a ++ hexWord b ++ hexWord c ++ hexWord d ++
  hexWord e ++ hexWord f ++ hexWord g ++ hexWord h.

(** [createHash("sha256").update(text).digest("hex")] *)
Definition sha256Hex (text : string) : string :=
  String.string_of_list_ascii (hex256 (sha256 (utf8 text))).

(** *** SHA-1 (FIPS 180-4, section 6.1) *)

Definition State1 : Type := Z * Z * Z * Z * Z.

Definition H1 : State1 := (0x67452301, 0xefcdab89, 0x98badcfe, 0x10325476, 0xc3d2e1f0).

Definition schedule1 (block : list Z) : list Z :=
  rev (extend 64
         (fun w => rotl 1 (Z.lxor (Z.lxor (back 3 w) (back 8 w))
                                  (Z.lxor (back 14 w) (back 16 w))))
         (rev block)).

Definition round1 (st : State1) (tw : nat * Z) : State1 :=
  let '(a, b, c, d, e) := st in
  let t := fst tw in
  let '(f, k) :=
    if (t <? 20)%nat then (Ch b c d, 0x5a827999)
    else if (t <? 40)%nat then (Parity b c d, 0x6ed9eba1)
    else if (t <? 60)%nat then (Maj b c d, 0x8f1bbcdc)
    else (Parity b c d, 0xca62c1d6) in
  let temp := add32 (add32 (add32 (rotl 5 a) f) (add32 e k)) (snd tw) in
  (temp, a, rotl 30 b, c, d).

Definition compress1 (st : State1) (block : list Z) : State1 :=
  let '(a, b, c, d, e) := st in
  let '(a', b', c', d', e') :=
    fold_left round1 (combine (seq 0 80) (schedule1 block)) st in
  (add32 a a', add32 b b', add32 c c', add32 d d', add32 e e').

Definition sha1 (msg : list Z) : State1 := fold_left compress1 (blocks msg) H1.

Definition hex1 (st : State1) : list ascii :=
  let '(a, b, c, d, e) := st in
  hexWord a ++ hexWord b ++ hexWord c ++ hexWord d ++ hexWord e.

(** [createHash("sha1").update(text).digest("hex")] *)
Definition sha1Hex (text : string) : string :=
  String.string_of_list_ascii (hex1 (sha1 (utf8 text))).

Definition wordBytes (w : Z) : list Z :=
  map (fun s => Z.land (Z.shiftr w s) 255) [24; 16; 8; 0].

(** [createHash("sha1").update(token).digest()]: the 20 bytes of the digest. *)
Definition sha1Bytes (msg : list Z) : list Z :=
  let '(a, b, c, d, e) := sha1 msg in
  wordBytes a ++ wordBytes b ++ wordBytes c ++ wordBytes d ++ wordBytes e.

(** *** The standard test vectors *)

Lemma sha256_abc :
  sha256Hex "abc" = "ba7816bf8f01cfea414140de5dae2223b00361a396177a9cb410ff61f20015ad".
Proof. vm_compute. reflexivity. Qed.

Lemma sha256_empty :
  sha256Hex "" = "e3b0c44298fc1c149afbf4c8996fb92427ae41e4649b934ca495991b7852b855".
Proof. vm_compute. reflexivity. Qed.

Lemma sha256_two_blocks :
  sha256Hex "abcdbcdecdefdefgefghfghighijhijkijkljklmklmnlmnomnopnopq"
  = "248d6a61d20638b8e5c026930c3e6039a33ce45964ff2167f6ecedd419db06c1".
Proof. vm_compute. reflexivity. Qed.

Lemma sha1_abc : sha1Hex "abc" = "a9993e364706816aba3e25717850c26c9cd0d89d".
Proof. vm_compute. reflexivity. Qed.

Lemma sha1_empty : sha1Hex "" = "da39a3ee5e6b4b0d3255bfef95601890afd80709".
Proof. vm_compute. reflexivity. Qed.

Lemma sha1_two_blocks :
  sha1Hex "abcdbcdecdefdefgefghfghighijhijkijkljklmklmnlmnomnopnopq"
  = "84983e441c3bd26ebaae4aa1f95129e5e54670f1".
Proof. vm_compute. reflexivity. Qed.

(** A string with a code unit above 127 (U+00E9) is hashed through its
    two-byte encoding. *)
Lemma sha256_latin1 :
  sha256Hex ("caf" +:+ String (ascii_of_nat 233) "")
  = "850f7dc43910ff890f8879c0ed26fe697c93a067ad93a7d50f466a7028a9bf4e".
Proof. vm_compute. reflexivity. Qed.

(** *** The two digests never have the same length *)

Lemma string_of_list_ascii_length (l : list ascii) :
  String.length (String.string_of_list_ascii l) = length l.
Proof. induction l as [|c l IH]; [reflexivity | cbn; now rewrite IH]. Qed.

Lemma hexWord_length (w : Z) : length (hexWord w) = 8%nat.
Proof. reflexivity. Qed.

Lemma sha256Hex_length (text : string) : String.length (sha256Hex text) = 64%nat.
Proof.
  unfold sha256Hex. rewrite string_of_list_ascii_length.
  destruct (sha256 (utf8 text)) as [[[[[[[a b] c] d] e] f] g] h].
  unfold hex256. rewrite !length_app, !hexWord_length. reflexivity.
Qed.

Lemma sha1Hex_length (text : string) : String.length (sha1Hex text) = 40%nat.
Proof.
  unfold sha1Hex. rewrite string_of_list_ascii_length.
  destruct (sha1 (utf8 text)) as [[[[a b] c] d] e].
  unfold hex1. rewrite !length_app, !hexWord_length. reflexivity.
Qed.

Lemma sha256Hex_not_sha1Hex (text : string) : sha256Hex text <> sha1Hex text.
Proof.
  intros H. pose proof (sha256Hex_length text) as H64.
  rewrite H, sha1Hex_length in H64. discriminate.
Qed.

End Digest.

(* ===================================================================== *)
(** ** Memory store (the [MemoryStore] class and its helpers) *)
(* ===================================================================== *)
Module MemoryStore.

Definition len (s : string) : Z := Z.of_nat (String.length s).

(** [hashText]: [crypto.createHash("sha256").update(String(text ?? "")).digest("hex")] *)
Definition hashText (text : string) : string := Digest.sha256Hex text.

(** *** Markdown splitters *)

(** What the splitters return for one chunk of a file. *)
Record Piece := mkPiece {
  startLine : Z;
  endLine : Z;
  text : string;
  hash : string;
}.

(** The variables of [splitMarkdownIntoChunks] that its loop and its local
    function [flush] update. *)
Record Splitting := mkSplitting {
  chunks : list Piece;
  currentLines : list string;
  currentChars : Z;
  firstLine : Z;          (* [startLine] *)
}.

(** The loop of [flush] that keeps the last lines of the chunk as overlap.
    It walks [currentLines] from the end ([fromEnd] is the reversed list)
    and stops once [keepChars >= overlapChars]. *)
Fixpoint keepOverlap (overlapChars : Z) (fromEnd : list string) (keepChars : Z)
    (kept : list string) : list string :=
  match fromEnd with
  | [] => kept
  | line :: before =>
      let keepChars := keepChars + (len line + 1) in
      let kept := line :: kept in
      if overlapChars <=? keepChars then kept
      else keepOverlap overlapChars before keepChars kept
  end.

Definition flush (overlapChars : Z) (s : Splitting) : Splitting :=
  match currentLines s with
  | [] => s
  | _ :: _ =>
      let text := JsString.trim (JsString.joinLines (currentLines s)) in
      if negb (JsString.truthy text)
      then mkSplitting (chunks s) [] 0 (firstLine s)
      else
        let piece :=
          {| startLine := firstLine s;
             endLine := firstLine s + Z.of_nat (length (currentLines s)) - 1;
             text := text;
             hash := hashText text |} in
        if overlapChars <=? 0
        then mkSplitting (chunks s ++ [piece]) [] 0 (firstLine s)
        else
          let kept := keepOverlap overlapChars (rev (currentLines s)) 0 [] in
          let offset := Z.of_nat (length (currentLines s)) - Z.of_nat (length kept) in
          mkSplitting (chunks s ++ [piece]) kept
            (fold_left (fun acc line => acc + (len line + 1)) kept 0)
            (firstLine s + offset)
  end.

Definition isEmpty {A} (l : list A) : bool :=
  match l with [] => true | _ => false end.

(** One iteration of the [for] loop, for the line at index [idx]. *)
Definition addLine (maxChars overlapChars : Z) (s : Splitting) (idx : Z) (line : string)
    : Splitting :=
  let lineSize := len line + 1 in
  let s := if isEmpty (currentLines s)
           then mkSplitting (chunks s) (currentLines s) (currentChars s) (idx + 1)
           else s in
  let shouldFlush := (maxChars <? currentChars s + lineSize) && negb (isEmpty (currentLines s)) in
  let s := if shouldFlush
           then let s := flush overlapChars s in
                if isEmpty (currentLines s)
                then mkSplitting (chunks s) (currentLines s) (currentChars s) (idx + 1)
                else s
           else s in
  mkSplitting (chunks s) (currentLines s ++ [line]) (currentChars s + lineSize) (firstLine s).

Fixpoint addLines (maxChars overlapChars : Z) (s : Splitting) (idx : Z) (lines : list string)
    : Splitting :=
  match lines with
  | [] => s
  | line :: rest =>
      addLines maxChars overlapChars (addLine maxChars overlapChars s idx line) (idx + 1) rest
  end.

(** [splitMarkdownIntoChunks(content, { maxChars, overlapChars })].
    [split] never returns an empty array, so the early [return []] is not
    reachable. *)
Definition splitMarkdownIntoChunks (content : string) (maxChars overlapChars : Z)
    : list Piece :=
  let lines := JsString.splitLines content in
  chunks (flush overlapChars
            (addLines maxChars overlapChars (mkSplitting [] [] 0 1) 0 lines)).

(** [/^##\s+/.test(line)] *)
Definition isSectionHeading (line : string) : bool :=
  match line with
  | String "#" (String "#" (String c _)) => JsString.is_space c
  | _ => false
  end.

(** [lines.slice(start, endExclusive)] for [start <= endExclusive]. *)
Definition slice {A} (l : list A) (start endExclusive : nat) : list A :=
  firstn (endExclusive - start) (skipn start l).

(** The local [flush(endExclusive)] of [splitMarkdownBySections]; the state
    is the list of sections and the variable [start]. *)
Definition flushSection (maxSectionChars : Z) (lines : list string) (endExclusive : nat)
    (s : list Piece * nat) : list Piece * nat :=
  let '(sections, start) := s in
  if (endExclusive <=? start)%nat then s
  else
    let trimmed := JsString.trim (JsString.joinLines (slice lines start endExclusive)) in
    if negb (JsString.truthy trimmed) then (sections, endExclusive)
    else
      let startLine0 := Z.of_nat start + 1 in
      let endLine0 := Z.of_nat endExclusive in
      if len trimmed <=? maxSectionChars
      then (sections ++ [{| startLine := startLine0; endLine := endLine0;
                            text := trimmed; hash := hashText trimmed |}], endExclusive)
      else
        let nested :=
          splitMarkdownIntoChunks trimmed (Z.max 900 (maxSectionChars * 3 / 4)) 120 in
        (sections ++
           map (fun piece =>
                  {| startLine := startLine0 + startLine piece - 1;
                     endLine := startLine0 + endLine piece - 1;
                     text := text piece;
                     hash := hash piece |}) nested,
         endExclusive).

(** The loop [for (let i = 1; i < lines.length; i += 1)], over the lines
    from index [i] on. *)
Fixpoint scanSections (maxSectionChars : Z) (lines : list string) (i : nat)
    (rest : list string) (s : list Piece * nat) : list Piece * nat :=
  match rest with
  | [] => s
  | line :: rest' =>
      scanSections maxSectionChars lines (S i) rest'
        (if isSectionHeading line then flushSection maxSectionChars lines i s else s)
  end.

(** [splitMarkdownBySections(content, { maxSectionChars })] *)
Definition splitMarkdownBySections (content : string) (maxSectionChars : Z) : list Piece :=
  let lines := JsString.splitLines content in
  fst (flushSection maxSectionChars lines (length lines)
         (scanSections maxSectionChars lines 1 (skipn 1 lines) ([], 0%nat))).

(** *** Examples *)

Definition twoSections : string :=
  JsString.joinLines ["# Notes"; "alpha"; "## First"; "beta"; ""; "## Second"; "gamma"].

(** The second chunk of [twoSections]. *)
Definition firstSection : Piece :=
  {| startLine := 3; endLine := 5;
     text := JsString.joinLines ["## First"; "beta"];
     hash := hashText (JsString.joinLines ["## First"; "beta"]) |}.

Lemma splitMarkdownBySections_example :
  map (fun p => (startLine p, endLine p, text p)) (splitMarkdownBySections twoSections 2200)
  = [(1, 2, JsString.joinLines ["# Notes"; "alpha"]);
     (3, 5, JsString.joinLines ["## First"; "beta"]);
     (6, 7, JsString.joinLines ["## Second"; "gamma"])].
Proof. vm_compute. reflexivity. Qed.

(** With [maxChars = 12] and [overlapChars = 4], each chunk after the first
    starts with the last line of the one before. *)
Lemma splitMarkdownIntoChunks_example :
  map (fun p => (startLine p, endLine p, text p))
      (splitMarkdownIntoChunks (JsString.joinLines ["aaaa"; "bbbb"; "cccc"; "dddd"]) 12 4)
  = [(1, 2, JsString.joinLines ["aaaa"; "bbbb"]);
     (2, 3, JsString.joinLines ["bbbb"; "cccc"]);
     (3, 4, JsString.joinLines ["cccc"; "dddd"])].
Proof. vm_compute. reflexivity. Qed.

(** *** The hash of a chunk *)

Definition hashed (p : Piece) : Prop := hash p = hashText (text p).

Lemma flush_hashed overlapChars s :
  Forall hashed (chunks s) -> Forall hashed (chunks (flush overlapChars s)).
Proof.
  intros H. unfold flush.
  destruct (currentLines s) as [|l ls] eqn:E; [exact H|].
  destruct (negb _); [exact H|].
  destruct (overlapChars <=? 0); cbn [chunks];
    (apply Forall_app; split; [exact H | repeat constructor]).
Qed.

Lemma addLine_hashed maxChars overlapChars s idx line :
  Forall hashed (chunks s) ->
  Forall hashed (chunks (addLine maxChars overlapChars s idx line)).
Proof.
  intros H. unfold addLine. cbn [chunks].
  set (s1 := if isEmpty (currentLines s) then _ else s).
  assert (H1 : Forall hashed (chunks s1)) by (subst s1; destruct (isEmpty _); exact H).
  destruct (_ && _); [|exact H1].
  pose proof (flush_hashed overlapChars s1 H1) as H2.
  destruct (isEmpty (currentLines (flush overlapChars s1))); exact H2.
Qed.

Lemma addLines_hashed maxChars overlapChars lines :
  forall s idx, Forall hashed (chunks s) ->
    Forall hashed (chunks (addLines maxChars overlapChars s idx lines)).
Proof.
  induction lines as [|line rest IH]; intros s idx H; [exact H|].
  cbn [addLines]. apply IH, addLine_hashed, H.
Qed.

Lemma splitMarkdownIntoChunks_hashed content maxChars overlapChars :
  Forall hashed (splitMarkdownIntoChunks content maxChars overlapChars).
Proof.
  unfold splitMarkdownIntoChunks. apply flush_hashed, addLines_hashed. constructor.
Qed.

Lemma flushSection_hashed maxSectionChars lines endExclusive s :
  Forall hashed (fst s) ->
  Forall hashed (fst (flushSection maxSectionChars lines endExclusive s)).
Proof.
  destruct s as [sections start]. intros H. unfold flushSection.
  destruct (endExclusive <=? start)%nat; [exact H|].
  destruct (negb _); [exact H|].
  destruct (_ <=? maxSectionChars); cbn [fst]; apply Forall_app; split; try exact H.
  - repeat constructor.
  - apply Forall_forall. intros p Hp. apply list_elem_of_In, in_map_iff in Hp.
    destruct Hp as (q & <- & Hq).
    pose proof (splitMarkdownIntoChunks_hashed
                  (JsString.trim (JsString.joinLines (slice lines start endExclusive)))
                  (Z.max 900 (maxSectionChars * 3 / 4)) 120) as Hall.
    rewrite Forall_forall in Hall. apply (Hall q), list_elem_of_In, Hq.
Qed.

Lemma scanSections_hashed maxSectionChars lines rest :
  forall i s, Forall hashed (fst s) ->
    Forall hashed (fst (scanSections maxSectionChars lines i rest s)).
Proof.
  induction rest as [|line rest IH]; intros i s H; [exact H|].
  cbn [scanSections]. apply IH.
  destruct (isSectionHeading line); [apply flushSection_hashed|]; exact H.
Qed.

Lemma splitMarkdownBySections_hashed content maxSectionChars :
  Forall hashed (splitMarkdownBySections content maxSectionChars).
Proof.
  unfold splitMarkdownBySections. apply flushSection_hashed, scanSections_hashed.
  constructor.
Qed.

(** C8, as stated, fails: the chunk of the one-line file [a] carries the
    SHA-256 digest of [a], which is not its SHA-1 digest. *)
Lemma chunk_hash_of_a_is_not_its_sha1 :
  exists p,
    splitMarkdownIntoChunks "a" 1100 180 = [p] /\
    splitMarkdownBySections "a" 2200 = [p] /\
    text p = "a" /\
    hash p = "ca978112ca1bbdcafac231b39a23dc4da786eff8147c4e72b9807785afee48bb" /\
    Digest.sha1Hex (text p) = "86f7e437faa5a7fce15d1ddcb9eaeaea377667b8" /\
    hash p <> Digest.sha1Hex (text p).
Proof.
  eexists. split; [vm_compute; reflexivity|].
  split; [vm_compute; reflexivity|].
  split; [reflexivity|]. split; [reflexivity|].
  split; [vm_compute; reflexivity|]. vm_compute. discriminate.
Qed.

(** C8 (amended).  Every chunk produced by [splitMarkdownIntoChunks] or by
    [splitMarkdownBySections] carries, in its [hash] field, the hexadecimal
    SHA-256 digest of the chunk's text: 64 characters, never the SHA-1
    digest of that text. *)
Theorem chunk_hash_is_sha256_of_text :
  forall content maxChars overlapChars maxSectionChars p,
    p ∈ splitMarkdownIntoChunks content maxChars overlapChars \/
    p ∈ splitMarkdownBySections content maxSectionChars ->
    hash p = Digest.sha256Hex (text p) /\
    String.length (hash p) = 64%nat /\
    hash p <> Digest.sha1Hex (text p).
Proof.
  intros content maxChars overlapChars maxSectionChars p Hp.
  assert (H : hashed p).
  { destruct Hp as [Hp|Hp].
    - pose proof (splitMarkdownIntoChunks_hashed content maxChars overlapChars) as Hall.
      rewrite Forall_forall in Hall. exact (Hall p Hp).
    - pose proof (splitMarkdownBySections_hashed content maxSectionChars) as Hall.
      rewrite Forall_forall in Hall. exact (Hall p Hp). }
  unfold hashed, hashText in H. rewrite H.
  split; [reflexivity|]. split; [apply Digest.sha256Hex_length|].
  apply Digest.sha256Hex_not_sha1Hex.
Qed.

Lemma chunk_hash_is_sha256_of_text_witness :
  firstSection ∈ splitMarkdownBySections twoSections 2200 /\
  hash firstSection = Digest.sha256Hex (text firstSection) /\
  String.length (hash firstSection) = 64%nat /\
  hash firstSection <> Digest.sha1Hex (text firstSection).
Proof.
  assert (Hp : firstSection ∈ splitMarkdownBySections twoSections 2200).
  { apply list_elem_of_In. vm_compute. right. left. reflexivity. }
  split; [exact Hp|].
  apply (chunk_hash_is_sha256_of_text twoSections 1100 180 2200 firstSection).
  right. exact Hp.
Defined.

(** *** Tokens *)

Definition STOPWORDS : list string :=
  ["the"; "and"; "for"; "that"; "this"; "with"; "from"; "have"; "will"; "were";
   "your"; "about"; "into"; "after"; "before"; "while"; "there"; "where"; "when";
   "what"; "which"; "whose"; "would"; "could"; "should"; "task"; "agent"; "user";
   "assistant"; "code"; "need"; "done"; "next"; "then"].

(** The characters of the class [a-z0-9_]. *)
Definition isWordChar (c : ascii) : bool :=
  let n := nat_of_ascii c in
  ((97 <=? n) && (n <=? 122) || (48 <=? n) && (n <=? 57) || (n =? 95))%nat.

(** The pieces of [s] between characters outside [a-z0-9_].  Where
    [split(/[^a-z0-9_]+/)] cuts once at a run of separators, this cuts at
    each of them; the empty pieces this adds are dropped by the length
    filter of [tokenize]. *)
Fixpoint pieces (s : string) : list string :=
  match s with
  | EmptyString => [EmptyString]
  | String c rest =>
      if isWordChar c
      then match pieces rest with
           | [] => [String c EmptyString]
           | first :: others => String c first :: others
           end
      else EmptyString :: pieces rest
  end.

Definition has (words : list string) (w : string) : bool :=
  existsb (String.eqb w) words.

Definition tokenize (text : string) : list string :=
  filter (fun token => (2 <=? String.length token)%nat && negb (has STOPWORDS token))
         (map JsString.trim (pieces (JsString.toLowerCase text))).

(** *** Vectors of binary64 numbers *)

Definition Vector : Type := list float.

(** A small non-negative integer as a JavaScript number. *)
Definition numberOf (z : Z) : float := PrimFloat.of_uint63 (Uint63.of_Z z).

(** [Number(value) || 0] for a numeric [value]: zero for [NaN] and [-0]. *)
Definition orZero (value : float) : float :=
  if (value =? 0)%float then 0%float
  else if (value =? value)%float then value else 0%float.

Definition normalizeVector (vector : Vector) : Vector :=
  let norm := fold_left (fun norm value => (norm + value * value)%float) vector 0%float in
  if (norm <=? 0)%float then vector
  else let scale := (1 / PrimFloat.sqrt norm)%float in
       map (fun value => (value * scale)%float) vector.

(** The body of the loop of [localEmbedText] for one token;
    [digest] is the SHA-1 digest of the token. *)
Definition addToken (vector : Vector) (token : string) : Vector :=
  let digest := Digest.sha1Bytes (Digest.utf8 token) in
  let byte i := nth i digest 0 in
  let idx := Z.lor (Z.shiftl (byte 0%nat) 8) (byte 1%nat) mod Z.of_nat (length vector) in
  let sign := if byte 2%nat mod 2 =? 0 then 1%float else (-1)%float in
  let weight := (1 + numberOf (byte 3%nat mod 7) * 0.1)%float in
  alter (fun value => (value + sign * weight)%float) (Z.to_nat idx) vector.

Definition localEmbedText (text : string) (dims : Z) : Vector :=
  let vector := repeat 0%float (Z.to_nat (Z.max 8 dims)) in
  match tokenize text with
  | [] => vector
  | tokens => normalizeVector (fold_left addToken tokens vector)
  end.

(** [cosineSimilarity(a, b)]; [Number(a[i] || 0)] is [orZero]. *)
Fixpoint cosineSums (a b : Vector) (acc : float * float * float) : float * float * float :=
  match a, b with
  | av :: a', bv :: b' =>
      let '(dot, normA, normB) := acc in
      let av := orZero av in
      let bv := orZero bv in
      cosineSums a' b' ((dot + av * bv)%float, (normA + av * av)%float, (normB + bv * bv)%float)
  | _, _ => acc
  end.

Definition cosineSimilarity (a b : Vector) : float :=
  if isEmpty a || isEmpty b then 0%float
  else
    let '(dot, normA, normB) := cosineSums a b (0%float, 0%float, 0%float) in
    if (normA =? 0)%float || (normB =? 0)%float then 0%float
    else (dot / (PrimFloat.sqrt normA * PrimFloat.sqrt normB))%float.

Inductive SourceType := memory_main | memory_daily | session | extra | soul | compact | raw.

Definition sourceBoost (sourceType : SourceType) : float :=
  match sourceType with
  | memory_main => 0.1
  | memory_daily => 0.06
  | session => 0.05
  | soul => 0.07
  | compact => 0.045
  | raw => 0.04
  | extra => 0.025
  end%float.

Lemma tokenize_example :
  tokenize "The deploy-plan: run 2 tests, then  SHIP_it!" = ["deploy"; "plan"; "run"; "tests"; "ship_it"].
Proof. vm_compute. reflexivity. Qed.

(** *** The store and its environment *)

(** [vector.provider], lower-cased; any other string behaves as [auto]. *)
Inductive Provider := auto | openai | gemini | local.

Record VectorConfig := mkVectorConfig {
  enabled : bool;
  provider : Provider;
  dims : Z;
  batchSize : Z;
  cacheEnabled : bool;
}.

Record SearchConfig := mkSearchConfig {
  vectorWeight : float;
  textWeight : float;
  minScore : float;
}.

(** A chunk of the knowledge index: the piece a splitter returned, the
    file it comes from, its vector ([None] is [null]) and the term
    statistics [_tf] and [_len] that [collectTokenStats] attaches. *)
Record Chunk := mkChunk {
  piece : Piece;
  path : string;
  sourceType : SourceType;
  vector : option Vector;
  tf : gmap string Z;
  docLen : Z;
}.

(** A row of the index file; [row_vector] is [None] when the stored value
    is not an array. *)
Record IndexRow := mkIndexRow {
  row_hash : string;
  row_path : string;
  row_sourceType : SourceType;
  row_startLine : Z;
  row_endLine : Z;
  row_vector : option Vector;
}.

Record Bm25 := mkBm25 {
  docFreq : gmap string Z;
  avgDocLen : float;
  docs : Z;
}.

(** A raw conversation entry.  [createdAt] is the time [Date.parse] reads
    from the field, [None] when it does not parse. *)
Record Entry := mkEntry {
  id : string;
  actor : string;
  content : string;
  source : string;
  tags : list string;
  createdAt : option Z;
  sessionKey : string;
}.

Record CompactEntry := mkCompactEntry {
  compact_id : string;
  compact_content : string;
}.

(** What the embedding services answer.  A row of the OpenAI payload is
    [None] when it has no [embedding] array; the Gemini payload is [None]
    when [embedding.values] is not an array. *)
Inductive OpenAiReply :=
  | openai_throws
  | openai_not_ok
  | openai_rows (rows : list (option Vector)).

Inductive GeminiReply :=
  | gemini_throws
  | gemini_not_ok
  | gemini_values (values : option Vector).

(** The process environment and the network; an unset variable is the
    empty string. *)
Record Env := mkEnv {
  OPENAI_API_KEY : string;
  GEMINI_API_KEY : string;
  openaiFetch : list string -> OpenAiReply;
  geminiFetch : string -> GeminiReply;
}.

(** The fields of a [MemoryStore] that indexing, search and the raw log
    use, and the files they write: [rawFile] holds the lines of [rawPath],
    [textFiles] the markdown files by path, [cacheFile] and [indexFile] the
    two JSON files. *)
Record Store := mkStore {
  memoryMainPath : string;
  memoryDailyDir : string;
  sessionMemoryDir : string;
  soulMainPath : string;
  sessionMemoryEnabled : bool;
  vectorCfg : VectorConfig;
  searchCfg : SearchConfig;
  rawEntries : list Entry;
  compactEntries : list CompactEntry;
  soulMainText : string;
  embeddingCache : gmap string Vector;
  knowledgeChunks : list Chunk;
  bm25 : Bm25;
  indexDirty : bool;
  closed : bool;
  rawFile : list Entry;
  textFiles : gmap string string;
  cacheFile : gmap string Vector;
  indexFile : list IndexRow;
}.

Definition withCache (cache : gmap string Vector) (st : Store) : Store :=
  mkStore (memoryMainPath st) (memoryDailyDir st) (sessionMemoryDir st) (soulMainPath st)
    (sessionMemoryEnabled st) (vectorCfg st) (searchCfg st) (rawEntries st)
    (compactEntries st) (soulMainText st) cache (knowledgeChunks st) (bm25 st)
    (indexDirty st) (closed st) (rawFile st) (textFiles st) (cacheFile st) (indexFile st).

Definition withCacheFile (file : gmap string Vector) (st : Store) : Store :=
  mkStore (memoryMainPath st) (memoryDailyDir st) (sessionMemoryDir st) (soulMainPath st)
    (sessionMemoryEnabled st) (vectorCfg st) (searchCfg st) (rawEntries st)
    (compactEntries st) (soulMainText st) (embeddingCache st) (knowledgeChunks st) (bm25 st)
    (indexDirty st) (closed st) (rawFile st) (textFiles st) file (indexFile st).

(** The assignments that end [syncKnowledgeIndex]. *)
Definition withIndex (chunks : list Chunk) (stats : Bm25) (rows : list IndexRow)
    (st : Store) : Store :=
  mkStore (memoryMainPath st) (memoryDailyDir st) (sessionMemoryDir st) (soulMainPath st)
    (sessionMemoryEnabled st) (vectorCfg st) (searchCfg st) (rawEntries st)
    (compactEntries st) (soulMainText st) (embeddingCache st) chunks stats
    false (closed st) (rawFile st) (textFiles st) (cacheFile st) rows.

Definition resolveEmbeddingProvider (env : Env) (st : Store) : Provider :=
  match provider (vectorCfg st) with
  | auto =>
      if JsString.truthy (OPENAI_API_KEY env) then openai
      else if JsString.truthy (GEMINI_API_KEY env) then gemini
      else local
  | preferred => preferred
  end.

(** The provider [embedTexts] ends up asking: the local embedding when
    vectors are disabled. *)
Definition providerInUse (env : Env) (st : Store) : Provider :=
  if enabled (vectorCfg st) then resolveEmbeddingProvider env st else local.

(** [persistEmbeddingCache] *)
Definition persistEmbeddingCache (st : Store) : Store :=
  if cacheEnabled (vectorCfg st) then withCacheFile (embeddingCache st) st else st.

(** *** Embedding *)

Definition localEmbedAll (dims : Z) (texts : list string) : list Vector :=
  map (fun text => localEmbedText text dims) texts.

(** [embedWithOpenAi(texts)]; [None] when the request throws. *)
Definition embedWithOpenAi (env : Env) (dims : Z) (texts : list string)
    : option (list Vector) :=
  if negb (JsString.truthy (JsString.trim (OPENAI_API_KEY env)))
  then Some (localEmbedAll dims texts)
  else
    match openaiFetch env texts with
    | openai_throws => None
    | openai_not_ok => Some (localEmbedAll dims texts)
    | openai_rows rows =>
        if isEmpty rows then Some (localEmbedAll dims texts)
        else Some (imap (fun idx text =>
                           match rows !! idx with
                           | Some (Some vector) => normalizeVector (map orZero vector)
                           | _ => localEmbedText text dims
                           end) texts)
    end.

Fixpoint geminiLoop (env : Env) (dims : Z) (texts : list string) : option (list Vector) :=
  match texts with
  | [] => Some []
  | text :: rest =>
      match geminiFetch env text with
      | gemini_throws => None
      | gemini_not_ok =>
          option_map (cons (localEmbedText text dims)) (geminiLoop env dims rest)
      | gemini_values values =>
          let vector :=
            match values with
            | Some (v :: vs) => normalizeVector (map orZero (v :: vs))
            | _ => localEmbedText text dims
            end in
          option_map (cons vector) (geminiLoop env dims rest)
      end
  end.

(** [embedWithGemini(texts)]; [None] when a request throws. *)
Definition embedWithGemini (env : Env) (dims : Z) (texts : list string)
    : option (list Vector) :=
  if negb (JsString.truthy (JsString.trim (GEMINI_API_KEY env)))
  then Some (localEmbedAll dims texts)
  else geminiLoop env dims texts.

(** An element of the list [missing] of [embedTexts]. *)
Record Missing := mkMissing {
  index : nat;
  missing_text : string;
  missing_hash : string;
}.

(** [cache ? this.embeddingCache.get(hash) : null], when it is a non-empty
    vector. *)
Definition cached (cache : bool) (st : Store) (hash : string) : option Vector :=
  if cache
  then match embeddingCache st !! hash with
       | Some (v :: vs) => Some (v :: vs)
       | _ => None
       end
  else None.

(** The first loop of [embedTexts], from index [index] on: the cached
    results and the texts that are missing. *)
Fixpoint lookupTexts (cache : bool) (st : Store) (index : nat) (texts : list string)
    : list (option Vector) * list Missing :=
  match texts with
  | [] => ([], [])
  | text :: rest =>
      let '(results, missing) := lookupTexts cache st (S index) rest in
      match cached cache st (hashText text) with
      | Some vector => (Some vector :: results, missing)
      | None => (None :: results, mkMissing index text (hashText text) :: missing)
      end
  end.

(** The [try] block of [embedTexts] for one batch, with its [catch]. *)
Definition embedBatch (env : Env) (st : Store) (batchTexts : list string) : list Vector :=
  let cfg := vectorCfg st in
  let attempt :=
    if negb (enabled cfg) then Some (localEmbedAll (dims cfg) batchTexts)
    else match resolveEmbeddingProvider env st with
         | openai => embedWithOpenAi env (dims cfg) batchTexts
         | gemini => embedWithGemini env (dims cfg) batchTexts
         | _ => Some (localEmbedAll (dims cfg) batchTexts)
         end in
  match attempt with
  | Some vectors => vectors
  | None => localEmbedAll (dims cfg) batchTexts
  end.

(** The inner loop that files the vectors of a batch, from position [idx]
    of the batch on. *)
Fixpoint fileBatch (cache : bool) (vectors : list Vector) (idx : nat) (batch : list Missing)
    (acc : list (option Vector) * Store) : list (option Vector) * Store :=
  match batch with
  | [] => acc
  | item :: rest =>
      let '(results, st) := acc in
      let vector :=
        match vectors !! idx with
        | Some vector => vector
        | None => localEmbedText (missing_text item) 256
        end in
      let st := if cache && cacheEnabled (vectorCfg st)
                then withCache (<[missing_hash item := vector]> (embeddingCache st)) st
                else st in
      fileBatch cache vectors (S idx) rest (<[index item := Some vector]> results, st)
  end.

(** The loop over the batches; [fuel] bounds the number of batches. *)
Fixpoint embedBatches (fuel : nat) (env : Env) (cache : bool) (size : nat)
    (missing : list Missing) (acc : list (option Vector) * Store)
    : list (option Vector) * Store :=
  match fuel, missing with
  | S fuel', _ :: _ =>
      let batch := firstn size missing in
      let vectors := embedBatch env (snd acc) (map missing_text batch) in
      embedBatches fuel' env cache size (skipn size missing)
        (fileBatch cache vectors 0 batch acc)
  | _, _ => acc
  end.

(** [embedTexts(texts, { cache })] *)
Definition embedTexts (env : Env) (texts : list string) (cache : bool) (st : Store)
    : list Vector * Store :=
  let '(results, missing) := lookupTexts cache st 0 texts in
  let size := Z.to_nat (Z.max 1 (batchSize (vectorCfg st))) in
  let '(results, st) :=
    embedBatches (length missing) env cache size missing (results, st) in
  let st := if cache && cacheEnabled (vectorCfg st) && negb (isEmpty missing)
            then persistEmbeddingCache st else st in
  (zip_with (fun vector text =>
               match vector with
               | Some vector => vector
               | None => localEmbedText text (dims (vectorCfg st))
               end) results texts,
   st).

(** *** Index synchronisation *)

(** [Math.max(lo, x)] for a bound [lo] that is a positive number or [+0]. *)
Definition atLeast (lo x : float) : float :=
  if (x =? x)%float then (if (lo <? x)%float then x else lo) else x.

Definition countToken (tf : gmap string Z) (token : string) : gmap string Z :=
  <[token := default 0 (tf !! token) + 1]> tf.

(** The body of the loop of [collectTokenStats]: it attaches [_tf] and
    [_len] to the chunk and updates [docFreq] and [totalLen]. *)
Definition tokenStats (chunk : Chunk) (acc : gmap string Z * Z) : Chunk * (gmap string Z * Z) :=
  let '(docFreq, totalLen) := acc in
  let tokens := tokenize (text (piece chunk)) in
  let tf := fold_left countToken tokens ∅ in
  let unique := map fst (map_to_list tf) in
  let docFreq := fold_left countToken unique docFreq in
  let len := if isEmpty tokens then 1 else Z.of_nat (length tokens) in
  (mkChunk (piece chunk) (path chunk) (sourceType chunk) (vector chunk) tf len,
   (docFreq, totalLen + len)).

Fixpoint tokenStatsAll (chunks : list Chunk) (acc : gmap string Z * Z)
    : list Chunk * (gmap string Z * Z) :=
  match chunks with
  | [] => ([], acc)
  | chunk :: rest =>
      let '(chunk, acc) := tokenStats chunk acc in
      let '(rest, acc) := tokenStatsAll rest acc in
      (chunk :: rest, acc)
  end.

(** [collectTokenStats(chunks)], returning the chunks it has annotated. *)
Definition collectTokenStats (chunks : list Chunk) : list Chunk * Bm25 :=
  let '(chunks, (docFreq, totalLen)) := tokenStatsAll chunks (∅, 0) in
  let n := Z.of_nat (length chunks) in
  let avgDocLen := if 0 <? n then (numberOf totalLen / numberOf n)%float else 1%float in
  (chunks, mkBm25 docFreq (atLeast 1 avgDocLen) (Z.max 1 n)).

(** [classifyPathSource(filePath)] on absolute, normalised paths (on which
    [path.resolve] is the identity), with [/] as separator. *)
Definition classifyPathSource (st : Store) (filePath : string) : SourceType :=
  if String.eqb filePath (memoryMainPath st) then memory_main
  else if JsString.startsWith filePath (sessionMemoryDir st +:+ "/")
          || String.eqb filePath (sessionMemoryDir st) then session
  else if JsString.startsWith filePath (memoryDailyDir st +:+ "/")
          || String.eqb filePath (memoryDailyDir st) then memory_daily
  else extra.

Definition splitFile (sourceType : SourceType) (content : string) : list Piece :=
  match sourceType with
  | memory_daily => splitMarkdownBySections content 2200
  | session => splitMarkdownBySections content 1800
  | memory_main => splitMarkdownIntoChunks content 1400 180
  | _ => splitMarkdownIntoChunks content 1100 180
  end.

(** The map [prevVectors], read from the rows of the index file. *)
Definition prevVectors (rows : list IndexRow) : gmap string Vector :=
  fold_left (fun prev item =>
               match row_vector item with
               | Some vector =>
                   if JsString.truthy (row_hash item)
                   then <[row_hash item := map orZero vector]> prev
                   else prev
               | None => prev
               end) rows ∅.

Definition nonEmptyVector (found : option Vector) : option Vector :=
  match found with
  | Some (v :: vs) => Some (v :: vs)
  | _ => None
  end.

(** The chunk built for [piece], with the vector of the previous index or
    else of the cache. *)
Definition newChunk (prev cache : gmap string Vector) (filePath : string)
    (sourceType : SourceType) (piece : Piece) : Chunk :=
  let vector :=
    match nonEmptyVector (prev !! hash piece) with
    | Some fromPrev => Some fromPrev
    | None => nonEmptyVector (cache !! hash piece)
    end in
  mkChunk piece filePath sourceType vector ∅ 0.

Definition chunksOfFile (st : Store) (prev : gmap string Vector) (file : string * string)
    : list Chunk :=
  let '(filePath, content) := file in
  if negb (JsString.truthy (JsString.trim content)) then []
  else
    let sourceType := classifyPathSource st filePath in
    map (newChunk prev (embeddingCache st) filePath sourceType) (splitFile sourceType content).

Definition isMissing (chunk : Chunk) : bool :=
  match vector chunk with
  | Some (_ :: _) => false
  | _ => true
  end.

Definition setVector (vector : option Vector) (chunk : Chunk) : Chunk :=
  mkChunk (piece chunk) (path chunk) (sourceType chunk) vector (tf chunk) (docLen chunk).

(** [missing[idx].vector = vectors[idx]]: the chunks of [missing] are the
    chunks of [chunks] without a vector, in order. *)
Fixpoint assignVectors (chunks : list Chunk) (vectors : list Vector) : list Chunk :=
  match chunks with
  | [] => []
  | chunk :: rest =>
      if isMissing chunk
      then match vectors with
           | vector :: vectors' => setVector (Some vector) chunk :: assignVectors rest vectors'
           | [] => setVector None chunk :: assignVectors rest []
           end
      else chunk :: assignVectors rest vectors
  end.

Definition rowOf (chunk : Chunk) : IndexRow :=
  mkIndexRow (hash (piece chunk)) (path chunk) (sourceType chunk)
    (startLine (piece chunk)) (endLine (piece chunk)) (vector chunk).

(** [syncKnowledgeIndex()].  [files] are the paths [resolveKnowledgeFiles]
    finds, each with the text read from it.  The previous index is read
    from the index file.  One call runs to its end before another starts
    (the method shares one promise among concurrent callers), and writing
    the files succeeds. *)
Definition syncKnowledgeIndex (env : Env) (files : list (string * string)) (st : Store)
    : Store :=
  if closed st then st
  else
    let prev := prevVectors (indexFile st) in
    let chunks := concat (map (chunksOfFile st prev) files) in
    let missing := filter (fun chunk => isMissing chunk) chunks in
    let '(chunks, st) :=
      if isEmpty missing then (chunks, st)
      else let '(vectors, st) :=
             embedTexts env (map (fun chunk => text (piece chunk)) missing) true st in
           (assignVectors chunks vectors, st) in
    let chunks :=
      map (fun chunk =>
             match vector chunk with
             | Some _ => chunk
             | None => setVector (Some (localEmbedText (text (piece chunk))
                                          (dims (vectorCfg st)))) chunk
             end) chunks in
    let '(chunks, stats) := collectTokenStats chunks in
    withIndex chunks stats (map rowOf chunks) st.

(** *** The constructor *)

Definition clamp (value lo hi : float) : float :=
  if negb (PrimFloat.is_finite value) then lo
  else atLeast lo (if (value <? hi)%float then value else hi).

(** The constructor's [vector] and [search] options; an absent number is
    [0] for [dims] and [batchSize] and [None] for the weights. *)
Record Options := mkOptions {
  opt_enabled : bool;
  opt_provider : Provider;
  opt_dims : Z;
  opt_batchSize : Z;
  opt_cacheEnabled : bool;
  opt_vectorWeight : option float;
  opt_textWeight : option float;
  opt_minScore : option float;
}.

Definition defaults : Options :=
  mkOptions true auto 0 0 true None None None.

Definition orDefault (n fallback : Z) : Z := if n =? 0 then fallback else n.

Definition newSearchConfig (o : Options) : SearchConfig :=
  let vw := clamp (default 0.65%float (opt_vectorWeight o)) 0 1 in
  let tw := clamp (default 0.35%float (opt_textWeight o)) 0 1 in
  let ms := clamp (default 0.12%float (opt_minScore o)) 0 1 in
  let weightTotal := (vw + tw)%float in
  if (0 <? weightTotal)%float
  then mkSearchConfig (vw / weightTotal) (tw / weightTotal) ms
  else mkSearchConfig 0.65 0.35 ms.

(** [new MemoryStore({ ... })], before [init]. *)
Definition create (memoryMainPath memoryDailyDir sessionMemoryDir soulMainPath : string)
    (sessionMemoryEnabled : bool) (o : Options) : Store :=
  mkStore memoryMainPath memoryDailyDir sessionMemoryDir soulMainPath sessionMemoryEnabled
    (mkVectorConfig (opt_enabled o) (opt_provider o)
       (Z.max 32 (orDefault (opt_dims o) 256))
       (Z.max 1 (orDefault (opt_batchSize o) 32))
       (opt_cacheEnabled o))
    (newSearchConfig o)
    [] [] "" ∅ [] (mkBm25 ∅ 1 1) true false [] ∅ ∅ [].

(** *** The length of vectors *)

Definition sized (n : Z) (vector : Vector) : Prop := Z.of_nat (length vector) = n.

Lemma normalizeVector_length vector : length (normalizeVector vector) = length vector.
Proof.
  unfold normalizeVector. destruct (_ <=? _)%float; [reflexivity | apply length_map].
Qed.

Lemma addToken_length vector token : length (addToken vector token) = length vector.
Proof. unfold addToken. apply length_alter. Qed.

Lemma addTokens_length tokens :
  forall vector, length (fold_left addToken tokens vector) = length vector.
Proof.
  induction tokens as [|token tokens IH]; intros vector; [reflexivity|].
  cbn [fold_left]. rewrite IH. apply addToken_length.
Qed.

Lemma localEmbedText_length text dims :
  length (localEmbedText text dims) = Z.to_nat (Z.max 8 dims).
Proof.
  unfold localEmbedText. destruct (tokenize text) as [|token tokens].
  - apply repeat_length.
  - rewrite normalizeVector_length, addTokens_length. apply repeat_length.
Qed.

Lemma localEmbedText_sized text n : 8 <= n -> sized n (localEmbedText text n).
Proof. intros H. unfold sized. rewrite localEmbedText_length. lia. Qed.

Lemma localEmbedAll_sized n texts :
  8 <= n -> Forall (sized n) (localEmbedAll n texts).
Proof.
  intros H. unfold localEmbedAll. apply Forall_forall. intros v Hv.
  apply list_elem_of_In, in_map_iff in Hv. destruct Hv as (text & <- & _).
  apply localEmbedText_sized, H.
Qed.

Lemma localEmbedAll_length n texts : length (localEmbedAll n texts) = length texts.
Proof. apply length_map. Qed.

Lemma remote_sized n vector : sized n vector -> sized n (normalizeVector (map orZero vector)).
Proof. unfold sized. now rewrite normalizeVector_length, length_map. Qed.

Section Sources.
Variable env : Env.
Variable n : Z.
Hypothesis n_min : 8 <= n.

(** What the embedding services return has [n] entries. *)
Hypothesis openai_sized :
  forall texts rows v, openaiFetch env texts = openai_rows rows -> Some v ∈ rows -> sized n v.
Hypothesis gemini_sized :
  forall text v, geminiFetch env text = gemini_values (Some v) -> v = [] \/ sized n v.

Lemma embedWithOpenAi_sized texts vectors :
  embedWithOpenAi env n texts = Some vectors ->
  Forall (sized n) vectors /\ length vectors = length texts.
Proof using n_min openai_sized.
  unfold embedWithOpenAi. destruct (negb _).
  { intros [= <-]. split; [apply localEmbedAll_sized, n_min | apply localEmbedAll_length]. }
  destruct (openaiFetch env texts) as [| |rows] eqn:E; [discriminate| |].
  { intros [= <-]. split; [apply localEmbedAll_sized, n_min | apply localEmbedAll_length]. }
  destruct (isEmpty rows).
  { intros [= <-]. split; [apply localEmbedAll_sized, n_min | apply localEmbedAll_length]. }
  intros [= <-]. split; [|apply length_imap].
  apply Forall_forall. intros v Hv.
  apply list_elem_of_lookup in Hv. destruct Hv as [i Hi].
  rewrite list_lookup_imap in Hi.
  destruct (texts !! i) as [text|]; [|discriminate]. cbn in Hi. injection Hi as <-.
  destruct (rows !! i) as [[vector|]|] eqn:Er; try (apply localEmbedText_sized, n_min).
  apply remote_sized, (openai_sized texts rows); [exact E|].
  apply list_elem_of_lookup. exists i. exact Er.
Qed.

Lemma geminiLoop_sized texts :
  forall vectors, geminiLoop env n texts = Some vectors ->
    Forall (sized n) vectors /\ length vectors = length texts.
Proof using n_min gemini_sized.
  induction texts as [|text rest IH]; intros vectors; cbn [geminiLoop].
  { intros [= <-]. split; [constructor | reflexivity]. }
  destruct (geminiFetch env text) as [| |values] eqn:E; [discriminate| |];
    (destruct (geminiLoop env n rest) as [vs|]; [|discriminate]);
    cbn [option_map]; intros [= <-];
    destruct (IH vs eq_refl) as [Hall Hlen]; (split; [|cbn; now rewrite Hlen]);
    constructor; try exact Hall; try (apply localEmbedText_sized, n_min).
  destruct values as [[|v vs']|]; try (apply localEmbedText_sized, n_min).
  change (orZero v :: map orZero vs') with (map orZero (v :: vs')).
  apply remote_sized.
  destruct (gemini_sized text (v :: vs') E) as [?|?]; [discriminate|assumption].
Qed.

Lemma embedWithGemini_sized texts vectors :
  embedWithGemini env n texts = Some vectors ->
  Forall (sized n) vectors /\ length vectors = length texts.
Proof using n_min gemini_sized.
  unfold embedWithGemini. destruct (negb _); [|apply geminiLoop_sized].
  intros [= <-]. split; [apply localEmbedAll_sized, n_min | apply localEmbedAll_length].
Qed.
End Sources.

Lemma providerInUse_cfg env st st1 :
  vectorCfg st1 = vectorCfg st -> providerInUse env st1 = providerInUse env st.
Proof. unfold providerInUse, resolveEmbeddingProvider. now intros ->. Qed.

Section Batches.
Variable env : Env.
Variable n : Z.
Variable inUse : Provider.
Hypothesis n_min : 8 <= n.

(** What the embedding service in use returns has [n] entries. *)
Hypothesis openai_sized :
  inUse = openai ->
  forall texts rows v, openaiFetch env texts = openai_rows rows -> Some v ∈ rows -> sized n v.
Hypothesis gemini_sized :
  inUse = gemini ->
  forall text v, geminiFetch env text = gemini_values (Some v) -> v = [] \/ sized n v.

Lemma embedBatch_sized st texts :
  dims (vectorCfg st) = n ->
  providerInUse env st = inUse ->
  Forall (sized n) (embedBatch env st texts) /\ length (embedBatch env st texts) = length texts.
Proof using n_min openai_sized gemini_sized.
  intros Hn Hp. unfold embedBatch. rewrite Hn. unfold providerInUse in Hp.
  assert (Hl : Forall (sized n) (localEmbedAll n texts) /\
               length (localEmbedAll n texts) = length texts)
    by (split; [apply localEmbedAll_sized, n_min | apply localEmbedAll_length]).
  destruct (enabled (vectorCfg st)); cbn [negb]; [|exact Hl].
  destruct (resolveEmbeddingProvider env st); try exact Hl.
  - destruct (embedWithOpenAi env n texts) as [vs|] eqn:E; [|exact Hl].
    apply (embedWithOpenAi_sized env n n_min (openai_sized (eq_sym Hp)) texts vs E).
  - destruct (embedWithGemini env n texts) as [vs|] eqn:E; [|exact Hl].
    apply (embedWithGemini_sized env n n_min (gemini_sized (eq_sym Hp)) texts vs E).
Qed.
End Batches.


Definition okResult (n : Z) (result : option Vector) : Prop :=
  match result with
  | Some vector => sized n vector
  | None => True
  end.

Definition cacheOk (n : Z) (cache : gmap string Vector) : Prop :=
  forall hash vector, cache !! hash = Some vector -> vector = [] \/ sized n vector.

Lemma cacheOk_insert n cache hash vector :
  cacheOk n cache -> sized n vector -> cacheOk n (<[hash := vector]> cache).
Proof.
  intros Hc Hv h v. destruct (decide (hash = h)) as [->|Hne].
  - rewrite lookup_insert_eq. intros [= <-]. now right.
  - rewrite lookup_insert_ne by exact Hne. apply Hc.
Qed.

Lemma nonEmptyVector_sized n cache hash vector :
  cacheOk n cache -> nonEmptyVector (cache !! hash) = Some vector -> sized n vector.
Proof.
  intros Hc. destruct (cache !! hash) as [[|v vs]|] eqn:E; cbn; try discriminate.
  intros [= <-]. destruct (Hc hash (v :: vs) E) as [?|?]; [discriminate | assumption].
Qed.

Lemma cached_sized n cache st hash vector :
  cacheOk n (embeddingCache st) -> cached cache st hash = Some vector -> sized n vector.
Proof.
  intros Hc. unfold cached. destruct cache; [|discriminate].
  destruct (embeddingCache st !! hash) as [[|v vs]|] eqn:E; try discriminate.
  intros [= <-]. destruct (Hc hash (v :: vs) E) as [?|?]; [discriminate | assumption].
Qed.

Lemma lookupTexts_ok n cache st texts :
  cacheOk n (embeddingCache st) ->
  forall index, Forall (okResult n) (fst (lookupTexts cache st index texts)).
Proof.
  intros Hc. induction texts as [|text rest IH]; intros index; cbn [lookupTexts].
  { constructor. }
  specialize (IH (S index)). destruct (lookupTexts cache st (S index) rest) as [results missing].
  destruct (cached cache st (hashText text)) as [vector|] eqn:E; cbn [fst] in *;
    constructor; try exact IH; [|exact I].
  apply (cached_sized n cache st (hashText text)); assumption.
Qed.

(** The state of the loops of [embedTexts]: every result found so far and
    every cached vector has [n] entries, and the configuration is the one
    the call started with. *)
Definition embedding (n : Z) (cfg : VectorConfig) (acc : list (option Vector) * Store) : Prop :=
  Forall (okResult n) (fst acc) /\
  cacheOk n (embeddingCache (snd acc)) /\
  vectorCfg (snd acc) = cfg.

Lemma insert_okResult n results index vector :
  Forall (okResult n) results -> sized n vector ->
  Forall (okResult n) (<[index := Some vector]> results).
Proof.
  intros H Hv. apply Forall_forall. intros r Hr.
  apply list_elem_of_lookup in Hr. destruct Hr as [i Hi].
  destruct (decide (i = index)) as [->|Hne].
  - destruct (decide (index < length results)%nat) as [Hlt|Hge].
    + rewrite list_lookup_insert_eq in Hi by exact Hlt. injection Hi as <-. exact Hv.
    + rewrite list_insert_ge in Hi by lia.
      rewrite Forall_forall in H. apply H, list_elem_of_lookup. eauto.
  - rewrite list_lookup_insert_ne in Hi by congruence.
    rewrite Forall_forall in H. apply H, list_elem_of_lookup. eauto.
Qed.

Lemma fileBatch_embedding n cfg cache vectors batch :
  Forall (sized n) vectors ->
  forall idx acc,
    (idx + length batch <= length vectors)%nat ->
    embedding n cfg acc -> embedding n cfg (fileBatch cache vectors idx batch acc).
Proof.
  intros Hv. induction batch as [|item rest IH]; intros idx [results st] Hlen Hacc;
    cbn [fileBatch]; [exact Hacc|].
  cbn [length] in Hlen.
  destruct (vectors !! idx) as [vector|] eqn:E;
    [|apply lookup_ge_None in E; lia].
  assert (Hs : sized n vector).
  { rewrite Forall_forall in Hv. apply Hv, list_elem_of_lookup. eauto. }
  destruct Hacc as (Hr & Hc & Hcfg). cbn [fst snd] in *.
  apply IH; [lia|]. split; [|split]; cbn [fst snd].
  - apply insert_okResult; assumption.
  - destruct (cache && _); [|exact Hc]. cbn. apply cacheOk_insert; assumption.
  - destruct (cache && _); [|exact Hcfg]. exact Hcfg.
Qed.

Section Embedding.
Variable env : Env.
Variable n : Z.
Variable inUse : Provider.
Hypothesis n_min : 8 <= n.
Hypothesis openai_sized :
  inUse = openai ->
  forall texts rows v, openaiFetch env texts = openai_rows rows -> Some v ∈ rows -> sized n v.
Hypothesis gemini_sized :
  inUse = gemini ->
  forall text v, geminiFetch env text = gemini_values (Some v) -> v = [] \/ sized n v.

Lemma embedBatches_embedding cfg cache size fuel :
  dims cfg = n ->
  (forall st, vectorCfg st = cfg -> providerInUse env st = inUse) ->
  forall missing acc,
    embedding n cfg acc ->
    embedding n cfg (embedBatches fuel env cache size missing acc).
Proof using n_min openai_sized gemini_sized.
  intros Hn Hp. induction fuel as [|fuel IH]; intros missing acc Hacc; [exact Hacc|].
  cbn [embedBatches]. destruct missing as [|item rest]; [exact Hacc|].
  apply IH.
  assert (Hd : dims (vectorCfg (snd acc)) = n).
  { destruct Hacc as (_ & _ & ->). exact Hn. }
  assert (Hu : providerInUse env (snd acc) = inUse).
  { apply Hp. now destruct Hacc as (_ & _ & ->). }
  destruct (embedBatch_sized env n inUse n_min openai_sized gemini_sized (snd acc)
              (map missing_text (firstn size (item :: rest))) Hd Hu) as [Hall Hlen].
  apply fileBatch_embedding; [exact Hall| |exact Hacc].
  rewrite Hlen, length_map. cbn. lia.
Qed.

(** [embedTexts] returns vectors of [n] entries and keeps the cache so. *)
Lemma embedTexts_sized texts cache st :
  dims (vectorCfg st) = n ->
  providerInUse env st = inUse ->
  cacheOk n (embeddingCache st) ->
  Forall (sized n) (fst (embedTexts env texts cache st)) /\
  cacheOk n (embeddingCache (snd (embedTexts env texts cache st))) /\
  vectorCfg (snd (embedTexts env texts cache st)) = vectorCfg st.
Proof using n_min openai_sized gemini_sized.
  intros Hn Hu Hc. unfold embedTexts.
  pose proof (lookupTexts_ok n cache st texts Hc 0%nat) as H0.
  destruct (lookupTexts cache st 0 texts) as [results missing]. cbn [fst] in H0.
  pose proof (embedBatches_embedding (vectorCfg st) cache
                (Z.to_nat (Z.max 1 (batchSize (vectorCfg st)))) (length missing) Hn
                (fun st1 H => eq_trans (providerInUse_cfg env st st1 H) Hu)
                missing (results, st) (conj H0 (conj Hc eq_refl))) as H1.
  destruct (embedBatches _ _ _ _ _ _) as [results1 st1].
  destruct H1 as (Hr & Hc1 & Hcfg). cbn [fst snd] in *.
  assert (Hp : cacheOk n (embeddingCache
                 (if cache && cacheEnabled (vectorCfg st1) && negb (isEmpty missing)
                  then persistEmbeddingCache st1 else st1)) /\
               vectorCfg (if cache && cacheEnabled (vectorCfg st1) && negb (isEmpty missing)
                          then persistEmbeddingCache st1 else st1) = vectorCfg st).
  { destruct (_ && _ && _); [|now split]. unfold persistEmbeddingCache.
    destruct (cacheEnabled _); now split. }
  destruct Hp as [Hp1 Hp2]. split; [|split; assumption].
  rewrite Hp2, Hn. clear - Hr n_min. revert texts.
  induction Hr as [|r results1 Hr0 Hr IH]; intros [|text texts]; cbn; try constructor.
  - destruct r as [v|]; [exact Hr0 | apply localEmbedText_sized, n_min].
  - apply IH.
Qed.
End Embedding.

Lemma cacheOk_insert_empty n cache hash :
  cacheOk n cache -> cacheOk n (<[hash := []]> cache).
Proof.
  intros Hc h v. destruct (decide (hash = h)) as [->|Hne].
  - rewrite lookup_insert_eq. intros [= <-]. now left.
  - rewrite lookup_insert_ne by exact Hne. apply Hc.
Qed.

Lemma prevVectors_ok n rows :
  (forall row v, row ∈ rows -> row_vector row = Some v -> v = [] \/ sized n v) ->
  cacheOk n (prevVectors rows).
Proof.
  unfold prevVectors.
  assert (H0 : cacheOk n (∅ : gmap string Vector)).
  { intros h v Hv. rewrite lookup_empty in Hv. discriminate. }
  revert H0. generalize (∅ : gmap string Vector).
  induction rows as [|row rows IH]; intros acc Hacc H; [exact Hacc|].
  cbn [fold_left]. apply IH.
  - destruct (row_vector row) as [v|] eqn:E; [|exact Hacc].
    destruct (JsString.truthy _); [|exact Hacc].
    destruct (H row v ltac:(now left) E) as [->|Hs].
    + apply cacheOk_insert_empty, Hacc.
    + apply cacheOk_insert; [exact Hacc|]. unfold sized in *. now rewrite length_map.
  - intros r v Hr. apply H. now right.
Qed.

Definition vectorOk (n : Z) (chunk : Chunk) : Prop := okResult n (vector chunk).

Definition hasVector (n : Z) (chunk : Chunk) : Prop :=
  exists v, vector chunk = Some v /\ sized n v.

Lemma newChunk_ok n prev cache filePath sourceType piece :
  cacheOk n prev -> cacheOk n cache ->
  vectorOk n (newChunk prev cache filePath sourceType piece).
Proof.
  intros Hp Hc. unfold vectorOk, newChunk. cbn [vector].
  destruct (nonEmptyVector (prev !! hash piece)) as [v|] eqn:E.
  - apply (nonEmptyVector_sized n prev (hash piece)); assumption.
  - destruct (nonEmptyVector (cache !! hash piece)) as [v|] eqn:E1; [|exact I].
    apply (nonEmptyVector_sized n cache (hash piece)); assumption.
Qed.

Lemma chunksOfFile_ok n st prev file :
  cacheOk n prev -> cacheOk n (embeddingCache st) ->
  Forall (vectorOk n) (chunksOfFile st prev file).
Proof.
  intros Hp Hc. destruct file as [filePath content]. unfold chunksOfFile.
  destruct (negb _); [constructor|].
  apply Forall_forall. intros chunk Hin. apply list_elem_of_In, in_map_iff in Hin.
  destruct Hin as (piece & <- & _). apply newChunk_ok; assumption.
Qed.

Lemma assignVectors_ok n chunks :
  Forall (vectorOk n) chunks ->
  forall vectors, Forall (sized n) vectors ->
    Forall (vectorOk n) (assignVectors chunks vectors).
Proof.
  induction 1 as [|chunk chunks Hc Hall IH]; intros vectors Hv; cbn [assignVectors];
    [constructor|].
  destruct (isMissing chunk).
  - destruct Hv as [|v vectors Hv0 Hv]; constructor; try (apply IH; constructor).
    + exact I.
    + exact Hv0.
    + apply IH, Hv.
  - constructor; [exact Hc | apply IH, Hv].
Qed.

Lemma tokenStatsAll_vectors chunks :
  forall acc, map vector (fst (tokenStatsAll chunks acc)) = map vector chunks.
Proof.
  induction chunks as [|chunk rest IH]; intros acc; [reflexivity|].
  cbn [tokenStatsAll]. destruct (tokenStats chunk acc) as [chunk1 acc1] eqn:E.
  specialize (IH acc1). destruct (tokenStatsAll rest acc1) as [rest1 acc2].
  cbn [fst map] in *. rewrite IH. f_equal.
  unfold tokenStats in E. destruct acc as [docFreq totalLen]. injection E as <- _.
  reflexivity.
Qed.

Lemma collectTokenStats_vectors chunks :
  map vector (fst (collectTokenStats chunks)) = map vector chunks.
Proof.
  unfold collectTokenStats. pose proof (tokenStatsAll_vectors chunks (∅, 0)) as H.
  destruct (tokenStatsAll chunks (∅, 0)) as [chunks1 [docFreq totalLen]]. exact H.
Qed.

Lemma hasVector_vectors n chunks chunks1 :
  map vector chunks1 = map vector chunks ->
  Forall (hasVector n) chunks -> Forall (hasVector n) chunks1.
Proof.
  revert chunks. induction chunks1 as [|c1 chunks1 IH]; intros [|c chunks] Heq Hall;
    try discriminate; [constructor|].
  cbn in Heq. injection Heq as Hv Hrest. inversion Hall as [|? ? Hc Hall']; subst.
  constructor; [|apply (IH chunks); assumption].
  unfold hasVector in *. now rewrite Hv.
Qed.

Section Sync.
Variable env : Env.
Variable n : Z.
Variable inUse : Provider.
Hypothesis n_min : 8 <= n.
Hypothesis openai_sized :
  inUse = openai ->
  forall texts rows v, openaiFetch env texts = openai_rows rows -> Some v ∈ rows -> sized n v.
Hypothesis gemini_sized :
  inUse = gemini ->
  forall text v, geminiFetch env text = gemini_values (Some v) -> v = [] \/ sized n v.

Lemma syncKnowledgeIndex_sized files st :
  dims (vectorCfg st) = n ->
  providerInUse env st = inUse ->
  closed st = false ->
  cacheOk n (embeddingCache st) ->
  (forall row v, row ∈ indexFile st -> row_vector row = Some v -> v = [] \/ sized n v) ->
  Forall (hasVector n) (knowledgeChunks (syncKnowledgeIndex env files st)) /\
  indexFile (syncKnowledgeIndex env files st)
    = map rowOf (knowledgeChunks (syncKnowledgeIndex env files st)) /\
  cacheOk n (embeddingCache (syncKnowledgeIndex env files st)) /\
  vectorCfg (syncKnowledgeIndex env files st) = vectorCfg st.
Proof using n_min openai_sized gemini_sized.
  intros Hn Hu Hcl Hc Hrows. unfold syncKnowledgeIndex. rewrite Hcl.
  pose proof (prevVectors_ok n (indexFile st) Hrows) as Hprev.
  set (chunks := concat (map (chunksOfFile st (prevVectors (indexFile st))) files)).
  assert (Hchunks : Forall (vectorOk n) chunks).
  { subst chunks. apply Forall_concat, Forall_forall. intros l Hl.
    apply list_elem_of_In, in_map_iff in Hl. destruct Hl as (file & <- & _).
    apply chunksOfFile_ok; assumption. }
  set (missing := filter (fun chunk => isMissing chunk) chunks).
  assert (Hstep : exists chunks1 st1,
    (if isEmpty missing then (chunks, st)
     else let '(vectors, st0) :=
            embedTexts env (map (fun chunk => text (piece chunk)) missing) true st in
          (assignVectors chunks vectors, st0)) = (chunks1, st1) /\
    Forall (vectorOk n) chunks1 /\ cacheOk n (embeddingCache st1) /\
    vectorCfg st1 = vectorCfg st).
  { destruct (isEmpty missing); [now exists chunks, st|].
    destruct (embedTexts_sized env n inUse n_min openai_sized gemini_sized
                (map (fun chunk => text (piece chunk)) missing) true st Hn Hu Hc)
      as (Hv & Hc1 & Hcfg).
    destruct (embedTexts env _ true st) as [vectors st0]. cbn [fst snd] in *.
    exists (assignVectors chunks vectors), st0.
    split; [reflexivity|]. split; [|split; assumption].
    apply assignVectors_ok; assumption. }
  destruct Hstep as (chunks1 & st1 & -> & Hall & Hc1 & Hcfg).
  set (chunks2 := map _ chunks1).
  assert (H2 : Forall (hasVector n) chunks2).
  { subst chunks2. apply Forall_forall. intros chunk Hin.
    apply list_elem_of_In, in_map_iff in Hin. destruct Hin as (c & <- & Hin).
    rewrite Forall_forall in Hall. specialize (Hall c (proj2 (list_elem_of_In _ _) Hin)).
    unfold vectorOk in Hall. destruct (vector c) as [v|] eqn:E.
    - exists v. split; assumption.
    - eexists. split; [reflexivity|]. rewrite Hcfg, Hn.
      apply localEmbedText_sized, n_min. }
  pose proof (collectTokenStats_vectors chunks2) as Hv.
  destruct (collectTokenStats chunks2) as [chunks3 stats]. cbn [fst] in Hv.
  cbn [knowledgeChunks indexFile embeddingCache vectorCfg withIndex].
  split; [apply (hasVector_vectors n chunks2); assumption|].
  split; [reflexivity|]. split; assumption.
Qed.
End Sync.

Lemma create_dims a b c d e o : 32 <= dims (vectorCfg (create a b c d e o)).
Proof. cbn. lia. Qed.

(** *** Examples *)

(** A store with the default options, and a process without API keys. *)
Definition store0 : Store :=
  create "/m/MEMORY.md" "/m/memory" "/m/sessions" "/m/SOUL.md" true defaults.

Definition offline : Env :=
  mkEnv "" "" (fun _ => openai_throws) (fun _ => gemini_throws).

(** A process with an OpenAI key, whose embedding service answers every
    text with a vector of three numbers. *)
Definition threeNumbers : Env :=
  mkEnv "sk-test" ""
    (fun texts => openai_rows (map (fun _ => Some [1; 0; 0]%float) texts))
    (fun _ => gemini_throws).

Definition mainFile : list (string * string) := [("/m/MEMORY.md", "alpha beta")].

(** C9, as stated, fails for the OpenAI provider: with [vector.dims] at its
    default 256, the chunk of [MEMORY.md] is indexed, and written to the
    index file, with the three numbers the service answered. *)
Lemma openai_vector_keeps_its_own_length :
  dims (vectorCfg store0) = 256 /\
  providerInUse threeNumbers store0 = openai /\
  map vector (knowledgeChunks (syncKnowledgeIndex threeNumbers mainFile store0))
    = [Some [1; 0; 0]%float] /\
  map row_vector (indexFile (syncKnowledgeIndex threeNumbers mainFile store0))
    = [Some [1; 0; 0]%float].
Proof. vm_compute. repeat split. Qed.

(** C9 (amended).  After [syncKnowledgeIndex], every chunk of the in-memory
    knowledge index has a vector, the index file holds that same vector,
    and the vector has exactly [vector.dims] entries provided every source
    other than the local embedding supplies vectors of that length: the
    non-empty vectors of the embedding cache and of the previous index
    file, and the vectors that the provider in use, OpenAI or Gemini,
    returns.  A vector computed by [localEmbedText] always has
    [vector.dims] entries. *)
Theorem chunk_vectors_have_dims_when_their_sources_do :
  forall env files st,
    32 <= dims (vectorCfg st) ->
    closed st = false ->
    (forall hash v, embeddingCache st !! hash = Some v ->
       v = [] \/ Z.of_nat (length v) = dims (vectorCfg st)) ->
    (forall row v, row ∈ indexFile st -> row_vector row = Some v ->
       v = [] \/ Z.of_nat (length v) = dims (vectorCfg st)) ->
    (providerInUse env st = openai ->
     forall texts rows v, openaiFetch env texts = openai_rows rows -> Some v ∈ rows ->
       Z.of_nat (length v) = dims (vectorCfg st)) ->
    (providerInUse env st = gemini ->
     forall text v, geminiFetch env text = gemini_values (Some v) ->
       v = [] \/ Z.of_nat (length v) = dims (vectorCfg st)) ->
    (forall text, Z.of_nat (length (localEmbedText text (dims (vectorCfg st))))
                  = dims (vectorCfg st)) /\
    (forall chunk, chunk ∈ knowledgeChunks (syncKnowledgeIndex env files st) ->
       exists v, vector chunk = Some v /\ Z.of_nat (length v) = dims (vectorCfg st)) /\
    (forall row, row ∈ indexFile (syncKnowledgeIndex env files st) ->
       exists v, row_vector row = Some v /\ Z.of_nat (length v) = dims (vectorCfg st)).
Proof.
  intros env files st Hd Hcl Hc Hrows Ho Hg.
  assert (Hmin : 8 <= dims (vectorCfg st)) by lia.
  destruct (syncKnowledgeIndex_sized env (dims (vectorCfg st)) (providerInUse env st)
              Hmin Ho Hg files st eq_refl eq_refl Hcl Hc Hrows) as (Hall & Hfile & _ & _).
  rewrite Forall_forall in Hall.
  split; [intros text; apply localEmbedText_sized, Hmin|].
  split; [exact Hall|].
  intros row Hrow. rewrite Hfile in Hrow.
  apply list_elem_of_In, in_map_iff in Hrow. destruct Hrow as (chunk & <- & Hin).
  apply (Hall chunk), list_elem_of_In, Hin.
Qed.

Lemma chunk_vectors_have_dims_when_their_sources_do_witness :
  (forall text, Z.of_nat (length (localEmbedText text 256)) = 256) /\
  (forall chunk, chunk ∈ knowledgeChunks (syncKnowledgeIndex offline mainFile store0) ->
     exists v, vector chunk = Some v /\ Z.of_nat (length v) = 256) /\
  (forall row, row ∈ indexFile (syncKnowledgeIndex offline mainFile store0) ->
     exists v, row_vector row = Some v /\ Z.of_nat (length v) = 256).
Proof.
  apply (chunk_vectors_have_dims_when_their_sources_do offline mainFile store0).
  - vm_compute. discriminate.
  - reflexivity.
  - intros hash v H. vm_compute in H. discriminate.
  - intros row v H. inversion H.
  - intros H. vm_compute in H. discriminate.
  - intros H. vm_compute in H. discriminate.
Defined.

Lemma local_index_example :
  map (fun chunk => (text (piece chunk), sourceType chunk, option_map length (vector chunk)))
      (knowledgeChunks (syncKnowledgeIndex offline mainFile store0))
  = [("alpha beta", memory_main, Some 256%nat)].
Proof. vm_compute. reflexivity. Qed.

(** *** The raw conversation log *)

(** [normalizeConversationContent] *)
Definition normalizeConversationContent (text : string) : string :=
  JsString.toLowerCase (JsString.trim (JsString.collapseSpaces text)).

(** The characters of the class [\w], which decide where [\b] matches. *)
Definition isRegexWordChar (c : ascii) : bool :=
  let n := nat_of_ascii c in
  ((97 <=? n) && (n <=? 122) || (65 <=? n) && (n <=? 90)
   || (48 <=? n) && (n <=? 57) || (n =? 95))%nat.

(** [prefix] followed by a word boundary starts [text]; [prefix] ends in a
    word character. *)
Definition startsWithWord (text prefix : string) : bool :=
  JsString.startsWith text prefix &&
  match JsString.drop (String.length prefix) text with
  | EmptyString => true
  | String c _ => negb (isRegexWordChar c)
  end.

(** [/^(health ping|healthcheck|health check|ping|status|check health)\b/] *)
Definition looksLikeHealthPing (text : string) : bool :=
  JsString.truthy text &&
  existsb (startsWithWord text)
    ["health ping"; "healthcheck"; "health check"; "ping"; "status"; "check health"].

(** The case-insensitive test for one of the words that make an autonomous
    assistant message worth keeping; the two-word alternatives of the
    pattern contain the alternative [objective]. *)
Definition meaningful (contentRaw : string) : bool :=
  existsb (JsString.includes (JsString.toLowerCase contentRaw))
    ["completed"; "blocked"; "failed"; "critical"; "decision"; "objective";
     "created objective"; "updated objective"; "error"; "exception"; "deploy";
     "release"; "fix"; "bug"].

(** [list.slice(-n)] *)
Definition lastN {A} (n : nat) (l : list A) : list A := skipn (length l - n) l.

Definition sixHours : Z := 6 * 60 * 60 * 1000.

(** The loop of [shouldSkipConversationEntry] over the recent entries. *)
Fixpoint repeats (actor source content : string) (currentTs : option Z) (recent : list Entry)
    : bool :=
  match recent with
  | [] => false
  | prev :: rest =>
      if negb (String.eqb (JsString.toLowerCase (MemoryStore.actor prev)) actor)
      then repeats actor source content currentTs rest
      else if negb (String.eqb (JsString.toLowerCase (MemoryStore.source prev)) source)
      then repeats actor source content currentTs rest
      else
        let prevNorm := normalizeConversationContent (MemoryStore.content prev) in
        if negb (JsString.truthy prevNorm) || negb (String.eqb prevNorm content)
        then repeats actor source content currentTs rest
        else
          match currentTs, createdAt prev with
          | Some currentTs', Some prevTs =>
              if (prevTs <=? currentTs') && (currentTs' - prevTs <? sixHours) then true
              else repeats actor source content currentTs rest
          | _, _ => true
          end
  end.

Definition shouldSkipConversationEntry (entry : Entry) (recentEntries : list Entry) : bool :=
  let actor := JsString.toLowerCase (JsString.trim (MemoryStore.actor entry)) in
  let source := JsString.toLowerCase (JsString.trim (MemoryStore.source entry)) in
  let contentRaw := MemoryStore.content entry in
  let content := normalizeConversationContent contentRaw in
  if negb (JsString.truthy content) then true
  else if String.eqb actor "user" && looksLikeHealthPing content &&
          (JsString.startsWith source "cli:" || JsString.startsWith source "dashboard:"
           || JsString.startsWith source "slack:" || JsString.startsWith source "telegram:")
  then true
  else if String.eqb actor "assistant" && JsString.startsWith content "pong" &&
          JsString.includes content "nxclaw is healthy"
  then true
  else if String.eqb actor "user" && JsString.startsWith source "autonomous:" &&
          (JsString.startsWith content "[autonomous maintenance cycle]"
           || JsString.startsWith content "[autonomous objective cycle]")
  then true
  else if String.eqb actor "assistant" && JsString.startsWith source "autonomous:" &&
          negb (meaningful contentRaw) && (len content <? 420)
  then true
  else repeats actor source content (createdAt entry) (lastN 120 recentEntries).

(** [safeSessionFileName(sessionKey)] *)
Definition isFileChar (c : ascii) : bool :=
  let n := nat_of_ascii c in
  isRegexWordChar c || (n =? 46)%nat || (n =? 45)%nat.

(** [replace(/[^a-zA-Z0-9_.-]+/g, "_")] *)
Fixpoint replaceUnsafe (in_run : bool) (s : string) : string :=
  match s with
  | EmptyString => EmptyString
  | String c rest =>
      if isFileChar c then String c (replaceUnsafe false rest)
      else if in_run then replaceUnsafe true rest
      else String "_" (replaceUnsafe true rest)
  end.

Fixpoint stripLeadingUnderscores (s : string) : string :=
  match s with
  | String "_" rest => stripLeadingUnderscores rest
  | _ => s
  end.

Fixpoint stripTrailingUnderscores (s : string) : string :=
  match s with
  | EmptyString => EmptyString
  | String c rest =>
      match stripTrailingUnderscores rest with
      | EmptyString => if Ascii.eqb c "_" then EmptyString else String c EmptyString
      | kept => String c kept
      end
  end.

Definition safeSessionFileName (sessionKey : string) : string :=
  String.substring 0 120
    (stripTrailingUnderscores
       (stripLeadingUnderscores (replaceUnsafe false (JsString.trim sessionKey)))).

Lemma safeSessionFileName_example :
  safeSessionFileName "  slack: C42/thread #7 " = "slack_C42_thread_7".
Proof. vm_compute. reflexivity. Qed.

(** A reading of the clock: [Date.now()], its rendering by [toISOString]
    and the local day [toDayKey] derives from it. *)
Record Clock := mkClock {
  ms : Z;
  iso : string;
  day : string;
}.

Definition withRaw (entries file : list Entry) (st : Store) : Store :=
  mkStore (memoryMainPath st) (memoryDailyDir st) (sessionMemoryDir st) (soulMainPath st)
    (sessionMemoryEnabled st) (vectorCfg st) (searchCfg st) entries
    (compactEntries st) (soulMainText st) (embeddingCache st) (knowledgeChunks st) (bm25 st)
    (indexDirty st) (closed st) file (textFiles st) (cacheFile st) (indexFile st).

(** [appendText(file, lines)] followed by [markIndexDirty()]. *)
Definition appendMarkdown (file lines : string) (st : Store) : Store :=
  mkStore (memoryMainPath st) (memoryDailyDir st) (sessionMemoryDir st) (soulMainPath st)
    (sessionMemoryEnabled st) (vectorCfg st) (searchCfg st) (rawEntries st)
    (compactEntries st) (soulMainText st) (embeddingCache st) (knowledgeChunks st) (bm25 st)
    true (closed st) (rawFile st)
    (<[file := default "" (textFiles st !! file) +:+ lines]> (textFiles st))
    (cacheFile st) (indexFile st).

(** [path.join(dir, name)] for a normalised [dir]. *)
Definition join (dir name : string) : string := dir +:+ "/" +:+ name.

Definition orString (s fallback : string) : string :=
  if JsString.truthy s then s else fallback.

(** [appendDailyLog({ title, content, source, sessionKey })] *)
Definition appendDailyLog (title content source sessionKey : string) (now : Clock)
    (st : Store) : Store :=
  let body := JsString.trim content in
  if negb (JsString.truthy body) then st
  else
    let file := join (memoryDailyDir st) (day now +:+ ".md") in
    let heading :=
      "## " +:+ iso now +:+ " | " +:+ title +:+ " | " +:+ source +:+
      (if JsString.truthy sessionKey then " | session=" +:+ sessionKey else "") in
    appendMarkdown file (JsString.joinLines [""; heading; ""; body; ""]) st.

(** [appendSessionMemory({ sessionKey, actor, content, source })] *)
Definition appendSessionMemory (sessionKey actor content source : string) (now : Clock)
    (st : Store) : Store :=
  if negb (sessionMemoryEnabled st) then st
  else
    let text := JsString.trim content in
    if negb (JsString.truthy text) then st
    else
      let safe := safeSessionFileName (orString sessionKey "default") in
      let file := join (sessionMemoryDir st) (safe +:+ ".md") in
      let heading := "## " +:+ iso now +:+ " | " +:+ orString actor "actor" +:+ " | " +:+ source in
      appendMarkdown file (JsString.joinLines [""; heading; ""; text; ""]) st.

(** The argument of [addConversation]; an absent [actor] or [sessionKey] is
    the empty string, an absent [source] is [None]. *)
Record Turn := mkTurn {
  turn_actor : string;
  turn_content : string;
  turn_source : option string;
  turn_tags : list string;
  turn_sessionKey : string;
}.

(** [addConversation({ actor, content, source, tags, sessionKey })]; [uuid]
    is what [crypto.randomUUID()] returns, and the clock readings of one
    call are taken as one, [now]. *)
Definition addConversation (turn : Turn) (uuid : string) (now : Clock) (st : Store)
    : option Entry * Store :=
  let entry :=
    mkEntry uuid (turn_actor turn) (JsString.trim (turn_content turn))
      (default "unknown" (turn_source turn)) (turn_tags turn) (Some (ms now))
      (turn_sessionKey turn) in
  if negb (JsString.truthy (content entry)) then (None, st)
  else if shouldSkipConversationEntry entry (rawEntries st) then (None, st)
  else
    let st := withRaw (rawEntries st ++ [entry]) (rawFile st ++ [entry]) st in
    let st := appendDailyLog (orString (turn_actor turn) "actor" +:+ " message")
                (content entry) (source entry) (sessionKey entry) now st in
    let st := appendSessionMemory (sessionKey entry) (orString (turn_actor turn) "actor")
                (content entry) (source entry) now st in
    (Some entry, st).

(** *** Examples *)

Definition hello : Turn := mkTurn "user" "Hello  there" (Some "cli:main") [] "s1".

(** The clock [hours] hours after the first reading; the renderings play
    no part in what is stored in the raw log and stay fixed. *)
Definition atHour (hours : Z) : Clock :=
  mkClock (hours * 60 * 60 * 1000) "1970-01-01T00:00:00.000Z" "1970-01-01".

Lemma addConversation_example :
  let '(stored, st) := addConversation hello "e1" (atHour 0) store0 in
  option_map content stored = Some "Hello  there" /\
  map id (rawEntries st) = ["e1"] /\
  map id (rawFile st) = ["e1"] /\
  textFiles st !! "/m/sessions/s1.md"
    = Some (JsString.joinLines
              [""; "## 1970-01-01T00:00:00.000Z | user | cli:main"; ""; "Hello  there"; ""]) /\
  textFiles st !! "/m/memory/1970-01-01.md"
    = Some (JsString.joinLines
              [""; "## 1970-01-01T00:00:00.000Z | user message | cli:main | session=s1";
               ""; "Hello  there"; ""]) /\
  indexDirty st = true.
Proof. vm_compute. repeat split. Qed.

(** *** A repeated turn *)

Lemma lastN_keeps {A} (n : nat) (before : list A) (x : A) (after : list A) :
  (length after < n)%nat -> x ∈ lastN n ((before ++ [x]) ++ after).
Proof.
  intros H. unfold lastN. rewrite <- app_assoc. cbn [app].
  rewrite skipn_app.
  replace (length (before ++ x :: after) - n - length before)%nat with 0%nat
    by (rewrite length_app; cbn [length]; lia).
  cbn [skipn]. apply elem_of_app. right. left.
Qed.

Lemma repeats_found actor source content currentTs prevTs prev recent :
  prev ∈ recent ->
  JsString.toLowerCase (MemoryStore.actor prev) = actor ->
  JsString.toLowerCase (MemoryStore.source prev) = source ->
  normalizeConversationContent (MemoryStore.content prev) = content ->
  JsString.truthy content = true ->
  createdAt prev = Some prevTs ->
  prevTs <= currentTs < prevTs + sixHours ->
  repeats actor source content (Some currentTs) recent = true.
Proof.
  intros Hin Ha Hs Hc Ht Hp Hts.
  induction recent as [|x rest IH]; [inversion Hin|].
  cbn [repeats]. apply elem_of_cons in Hin. destruct Hin as [<-|Hin].
  - rewrite Ha, Hs, Hc, Hp, Ht, !String.eqb_refl. cbn [negb orb].
    replace (prevTs <=? currentTs) with true by (symmetry; apply Z.leb_le; lia).
    replace (currentTs - prevTs <? sixHours) with true by (symmetry; apply Z.ltb_lt; lia).
    reflexivity.
  - specialize (IH Hin).
    repeat match goal with
           | |- (if ?b then _ else _) = true => destruct b
           | |- match ?o with Some _ => _ | None => _ end = true => destruct o
           end; try reflexivity; exact IH.
Qed.

Lemma shouldSkip_repeats entry recentEntries :
  repeats (JsString.toLowerCase (JsString.trim (MemoryStore.actor entry)))
          (JsString.toLowerCase (JsString.trim (MemoryStore.source entry)))
          (normalizeConversationContent (MemoryStore.content entry))
          (createdAt entry) (lastN 120 recentEntries) = true ->
  shouldSkipConversationEntry entry recentEntries = true.
Proof.
  intros H. unfold shouldSkipConversationEntry.
  repeat match goal with
         | |- (if ?b then _ else _) = true => destruct b
         end; try reflexivity; exact H.
Qed.

Lemma appendMarkdown_raw file lines st :
  rawEntries (appendMarkdown file lines st) = rawEntries st.
Proof. reflexivity. Qed.

Lemma appendDailyLog_raw title content source sessionKey now st :
  rawEntries (appendDailyLog title content source sessionKey now st) = rawEntries st.
Proof. unfold appendDailyLog. destruct (negb _); reflexivity. Qed.

Lemma appendSessionMemory_raw sessionKey actor content source now st :
  rawEntries (appendSessionMemory sessionKey actor content source now st) = rawEntries st.
Proof.
  unfold appendSessionMemory. destruct (negb _); [reflexivity|].
  destruct (negb _); reflexivity.
Qed.

(** What a call that stores its entry leaves behind. *)
Lemma addConversation_stored turn uuid now st entry st1 :
  addConversation turn uuid now st = (Some entry, st1) ->
  entry = mkEntry uuid (turn_actor turn) (JsString.trim (turn_content turn))
            (default "unknown" (turn_source turn)) (turn_tags turn) (Some (ms now))
            (turn_sessionKey turn) /\
  rawEntries st1 = rawEntries st ++ [entry] /\
  JsString.truthy (normalizeConversationContent (JsString.trim (turn_content turn))) = true.
Proof.
  unfold addConversation. cbn [content source sessionKey].
  destruct (negb (JsString.truthy (JsString.trim (turn_content turn)))); [discriminate|].
  destruct (shouldSkipConversationEntry _ _) eqn:E; [discriminate|].
  intros [= <- <-]. split; [reflexivity|]. split.
  - rewrite appendSessionMemory_raw, appendDailyLog_raw. reflexivity.
  - unfold shouldSkipConversationEntry in E. cbn [content] in E.
    destruct (JsString.truthy (normalizeConversationContent _)); [reflexivity|].
    cbn in E. discriminate.
Qed.

(** The store after the turn [hello] has been stored at hour 0. *)
Definition afterHello : Store := snd (addConversation hello "e1" (atHour 0) store0).

(** C5, as stated, fails: in a store that holds the turn [hello] from hour
    0, the same turn is offered at hour 5 and again, less than six hours
    later, at hour 7.  The call at hour 5 stores nothing, and the call at
    hour 7 returns an entry and appends it to the raw list and the raw
    file: the six hours are counted from the stored entry, not from the
    call before. *)
Lemma repeat_after_a_skipped_repeat_is_stored :
  addConversation hello "e2" (atHour 5) afterHello = (None, afterHello) /\
  ms (atHour 7) - ms (atHour 5) < sixHours /\
  option_map id (fst (addConversation hello "e3" (atHour 7) afterHello)) = Some "e3" /\
  map id (rawEntries (snd (addConversation hello "e3" (atHour 7) afterHello))) = ["e1"; "e3"] /\
  map id (rawFile (snd (addConversation hello "e3" (atHour 7) afterHello))) = ["e1"; "e3"].
Proof. vm_compute. repeat split. Qed.

(** The actor and source of a stored entry are compared without trimming
    them, those of the new entry after trimming: the same turn with a
    source that ends in a space is stored twice. *)
Lemma padded_source_is_stored_twice :
  let turn := mkTurn "user" "hello" (Some "cli:main ") [] "s1" in
  map id (rawEntries
            (snd (addConversation turn "e2" (atHour 1)
                    (snd (addConversation turn "e1" (atHour 0) store0)))))
  = ["e1"; "e2"].
Proof. vm_compute. reflexivity. Qed.

(** C5 (amended).  Let a call of [addConversation] store its entry, and let
    a second call follow with the same actor and source, neither with
    white space around it, and with content that normalises to the same
    text, less than six hours after the first and while the stored entry is
    among the last 120 raw entries.  The second call returns [null] and
    leaves the store with its raw entry list and raw file as they were. *)
Theorem repeated_turn_within_six_hours_is_not_stored :
  forall st0 turn1 uuid1 now1 e1 st1 others st turn2 uuid2 now2,
    addConversation turn1 uuid1 now1 st0 = (Some e1, st1) ->
    rawEntries st = rawEntries st1 ++ others ->
    (length others < 120)%nat ->
    turn_actor turn2 = turn_actor turn1 ->
    turn_source turn2 = turn_source turn1 ->
    JsString.trim (turn_actor turn1) = turn_actor turn1 ->
    JsString.trim (default "unknown" (turn_source turn1))
      = default "unknown" (turn_source turn1) ->
    normalizeConversationContent (JsString.trim (turn_content turn2))
      = normalizeConversationContent (JsString.trim (turn_content turn1)) ->
    ms now1 <= ms now2 < ms now1 + sixHours ->
    addConversation turn2 uuid2 now2 st = (None, st).
Proof.
  intros st0 turn1 uuid1 now1 e1 st1 others st turn2 uuid2 now2
         H1 Hraw Hlen Hactor Hsource Ha Hs Hcontent Hts.
  destruct (addConversation_stored _ _ _ _ _ _ H1) as (He1 & Hst1 & Htruthy).
  unfold addConversation. cbn [content].
  destruct (negb (JsString.truthy (JsString.trim (turn_content turn2)))); [reflexivity|].
  rewrite shouldSkip_repeats; [reflexivity|].
  cbn [actor source content createdAt].
  apply (repeats_found _ _ _ (ms now2) (ms now1) e1).
  - rewrite Hraw, Hst1. apply lastN_keeps, Hlen.
  - rewrite He1. cbn [actor]. now rewrite Hactor, Ha.
  - rewrite He1. cbn [source]. now rewrite Hsource, Hs.
  - rewrite He1. cbn [content]. now rewrite Hcontent.
  - now rewrite Hcontent.
  - rewrite He1. reflexivity.
  - exact Hts.
Qed.

Definition helloAgain : Turn := mkTurn "user" " hello THERE " (Some "cli:main") ["again"] "s1".

Lemma repeated_turn_within_six_hours_is_not_stored_witness :
  fst (addConversation hello "e1" (atHour 0) store0) <> None /\
  addConversation helloAgain "e2" (atHour 5) afterHello = (None, afterHello).
Proof.
  split; [vm_compute; discriminate|].
  destruct (addConversation hello "e1" (atHour 0) store0) as [[e1|] st1] eqn:E;
    [|vm_compute in E; discriminate].
  apply (repeated_turn_within_six_hours_is_not_stored
           store0 hello "e1" (atHour 0) e1 st1 [] afterHello helloAgain "e2" (atHour 5) E).
  - unfold afterHello. rewrite E. cbn [snd]. now rewrite app_nil_r.
  - cbn. lia.
  - reflexivity.
  - reflexivity.
  - reflexivity.
  - reflexivity.
  - vm_compute. reflexivity.
  - vm_compute. split; [discriminate | reflexivity].
Defined.

(** *** Soul sections *)

Definition isLineTerminator (c : ascii) : bool :=
  let n := nat_of_ascii c in ((n =? 10) || (n =? 13))%nat.

Fixpoint noLineTerminator (s : string) : bool :=
  match s with
  | EmptyString => true
  | String c rest => negb (isLineTerminator c) && noLineTerminator rest
  end.

(** The longest run of white space that starts [s], and what follows it. *)
Fixpoint spanSpaces (s : string) : string * string :=
  match s with
  | String c rest =>
      if JsString.is_space c
      then let '(spaces, after) := spanSpaces rest in (String c spaces, after)
      else (EmptyString, s)
  | EmptyString => (EmptyString, EmptyString)
  end.

Fixpoint lastChar (s : string) : option ascii :=
  match s with
  | EmptyString => None
  | String c EmptyString => Some c
  | String _ rest => lastChar rest
  end.

(** [line.match(/^##\s+(.+)$/)], giving [heading[1].trim()].  When only
    white space follows [##], the group takes its last character. *)
Definition headingTitle (line : string) : option string :=
  match line with
  | String "#" (String "#" body) =>
      match spanSpaces body with
      | (EmptyString, _) => None
      | (_, String c after) =>
          if noLineTerminator (String c after) then Some (JsString.trim (String c after))
          else None
      | (String _ (String c more), EmptyString) =>
          match lastChar (String c more) with
          | Some l => if isLineTerminator l then None else Some EmptyString
          | None => None
          end
      | (String _ EmptyString, EmptyString) => None
      end
  | _ => None
  end.

Record SoulSection := mkSoulSection {
  title : string;
  section_content : string;
}.

(** The loop of [parseSoulSections]; [current] is the title and the lines
    of the block being read. *)
Fixpoint soulBlocks (lines : list string) (current : string * list string)
    (blocks : list SoulSection) : list SoulSection :=
  let close (current : string * list string) (blocks : list SoulSection) :=
    if isEmpty (snd current) then blocks
    else blocks ++ [mkSoulSection (fst current) (JsString.trim (JsString.joinLines (snd current)))] in
  match lines with
  | [] => close current blocks
  | line :: rest =>
      match headingTitle line with
      | Some heading => soulBlocks rest (heading, []) (close current blocks)
      | None => soulBlocks rest (fst current, snd current ++ [line]) blocks
      end
  end.

Definition parseSoulSections (markdown : string) : list SoulSection :=
  filter (fun entry => JsString.truthy (section_content entry))
         (soulBlocks (JsString.splitLines markdown) ("SOUL", []) []).

Lemma parseSoulSections_example :
  parseSoulSections (JsString.joinLines ["intro"; "## Values"; "be kind"; ""; "##  "; "x"])
  = [mkSoulSection "SOUL" "intro"; mkSoulSection "Values" "be kind"; mkSoulSection "" "x"].
Proof. vm_compute. reflexivity. Qed.

(** *** Scoring and search *)

(** What [search] returns: a chunk of the knowledge index with its scores,
    a raw or a compact entry, or a section of the soul file, each with the
    score it is ranked by. *)
Inductive Item :=
  | knowledgeItem (chunk : Chunk) (score vectorScore textScore : float)
  | rawItem (entry : Entry) (score : float)
  | compactItem (entry : CompactEntry) (score : float)
  | soulItem (section : SoulSection) (score : float).

Definition score (item : Item) : float :=
  match item with
  | knowledgeItem _ score _ _ => score
  | rawItem _ score => score
  | compactItem _ score => score
  | soulItem _ score => score
  end.

(** [list.sort((a, b) => b.score - a.score)]: a stable insertion sort;
    [a] is moved before [b] when [b.score - a.score] is negative. *)
Definition ranksBefore (a b : Item) : bool := (score b - score a <? 0)%float.

Fixpoint insertItem (item : Item) (sorted : list Item) : list Item :=
  match sorted with
  | [] => [item]
  | first :: rest =>
      if ranksBefore first item then first :: insertItem item rest
      else item :: sorted
  end.

Definition sortByScore (items : list Item) : list Item := fold_right insertItem [] items.

(** [x || 1] for a number. *)
Definition orOne (x : float) : float :=
  if (x =? 0)%float then 1%float else if (x =? x)%float then x else 1%float.

Section Search.

(** [Math.log] *)
Variable log : float -> float.

(** [bm25Score(queryTokens, chunk, bm25)], for the [_tf] and [_len] of the
    chunk. *)
Definition bm25Score (queryTokens : list string) (tf : gmap string Z) (docLen : Z)
    (stats : Bm25) : float :=
  if isEmpty queryTokens then 0%float
  else
    let docLen := numberOf (orDefault docLen 1) in
    let avgDocLen := orOne (avgDocLen stats) in
    let docs := numberOf (orDefault (docs stats) 1) in
    let k1 := 1.4%float in
    let b := 0.75%float in
    fold_left
      (fun score token =>
         let termFreq := default 0 (tf !! token) in
         if termFreq <=? 0 then score
         else
           let termFreq := numberOf termFreq in
           let df := numberOf (default 0 (docFreq stats !! token)) in
           let idf := log (1 + (docs - df + 0.5) / (df + 0.5))%float in
           let numer := (termFreq * (k1 + 1))%float in
           let denom := (termFreq + k1 * (1 - b + (b * docLen) / avgDocLen))%float in
           (score + idf * (numer / denom))%float)
      queryTokens 0%float.

(** [String(mode || "global").trim().toLowerCase()] *)
Definition scopeOf (mode : string) : string :=
  JsString.toLowerCase (JsString.trim (orString mode "global")).

(** The body of the loop of [scoreKnowledge]: the candidate pushed for
    [chunk], if any. *)
Definition candidate (st : Store) (queryTokens : list string) (qv : Vector)
    (qSession scopeMode : string) (chunk : Chunk) : option Item :=
  let strictSessionFile :=
    if JsString.truthy qSession then safeSessionFileName qSession +:+ ".md" else "" in
  let isSession := match sourceType chunk with session => true | _ => false end in
  let isDaily := match sourceType chunk with memory_daily => true | _ => false end in
  if JsString.truthy qSession && String.eqb scopeMode "session_strict" &&
     negb (isSession && JsString.endsWith (path chunk) strictSessionFile)
  then None
  else if JsString.truthy qSession && isSession &&
          negb (JsString.endsWith (path chunk) (safeSessionFileName qSession +:+ ".md"))
  then None
  else if JsString.truthy qSession && isDaily &&
          JsString.includes (text (piece chunk)) "| session=" &&
          negb (JsString.includes (text (piece chunk)) ("| session=" +:+ qSession))
  then None
  else
    let textScore := bm25Score queryTokens (tf chunk) (docLen chunk) (bm25 st) in
    let vectorScore :=
      if enabled (vectorCfg st) && negb (isEmpty qv)
      then atLeast 0 (cosineSimilarity qv (default [] (vector chunk)))
      else 0%float in
    if (textScore <=? 0)%float && (vectorScore <=? 0)%float then None
    else
      let combined :=
        (textWeight (searchCfg st) * textScore + vectorWeight (searchCfg st) * vectorScore
         + sourceBoost (sourceType chunk))%float in
      Some (knowledgeItem chunk combined vectorScore textScore).

(** [scoreKnowledge(query, queryTokens, queryVector, limit, sessionKey, mode)].
    The sync a dirty index schedules runs later, on its own. *)
Definition scoreKnowledge (st : Store) (queryTokens : list string) (queryVector : Vector)
    (limit : Z) (sessionKey mode : string) : list Item :=
  let qSession := JsString.trim sessionKey in
  let scopeMode := scopeOf mode in
  let candidates :=
    omap (candidate st queryTokens queryVector qSession scopeMode) (knowledgeChunks st) in
  firstn (Z.to_nat limit)
    (sortByScore
       (filter (fun item => (minScore (searchCfg st) <=? score item)%float) candidates)).

(** The body of the loop of [search] over the recent raw entries. *)
Definition rawCandidate (q : string) (queryTokens : list string)
    (scopedSessionKey scopeMode : string) (entry : Entry) : option Item :=
  let entryKey := JsString.trim (sessionKey entry) in
  if JsString.truthy scopedSessionKey && String.eqb scopeMode "session_strict" &&
     negb (String.eqb entryKey scopedSessionKey)
  then None
  else if JsString.truthy scopedSessionKey && JsString.truthy entryKey &&
          negb (String.eqb entryKey scopedSessionKey)
  then None
  else
    let tokens := tokenize (content entry) in
    let textScore :=
      if isEmpty queryTokens then 0%float
      else bm25Score queryTokens
             (list_to_map (map (fun t => (t, 1)) tokens))
             (Z.of_nat (length tokens))
             (mkBm25 (list_to_map (map (fun token => (token, 1)) queryTokens)) 12 2) in
    if (textScore <=? 0)%float &&
       negb (JsString.includes (JsString.toLowerCase q) (JsString.toLowerCase (actor entry)))
    then None
    else Some (rawItem entry (textScore + sourceBoost raw)%float).

(** [queryTokens.reduce((acc, token) => acc + (tokenSet.has(token) ? 1 : 0), 0)] *)
Definition overlap (queryTokens : list string) (content : string) : float :=
  let tokenSet := tokenize content in
  fold_left (fun acc token => (acc + (if has tokenSet token then 1 else 0))%float)
            queryTokens 0%float.

Definition compactCandidate (queryTokens : list string) (entry : CompactEntry) : option Item :=
  let textScore := overlap queryTokens (compact_content entry) in
  if (textScore <=? 0)%float then None
  else Some (compactItem entry (textScore + sourceBoost compact)%float).

Definition soulCandidate (queryTokens : list string) (section : SoulSection) : option Item :=
  let textScore := overlap queryTokens (section_content section) in
  if (textScore <=? 0)%float then None
  else Some (soulItem section (textScore + sourceBoost soul)%float).

(** [search(query, limit, { sessionKey, mode })] *)
Definition search (env : Env) (st : Store) (query : string) (limit : Z)
    (sessionKey mode : string) : list Item :=
  let q := JsString.trim query in
  if negb (JsString.truthy q) then []
  else
    let queryTokens := tokenize q in
    let queryVector :=
      if enabled (vectorCfg st)
      then match fst (embedTexts env [q] false st) with
           | vector :: _ => vector
           | [] => localEmbedText q (dims (vectorCfg st))
           end
      else localEmbedText q (dims (vectorCfg st)) in
    let scopedSessionKey := JsString.trim sessionKey in
    let scopeMode := scopeOf mode in
    let indexed :=
      scoreKnowledge st queryTokens queryVector (Z.max (limit * 3) 20)
        scopedSessionKey scopeMode in
    let dynamic :=
      omap (rawCandidate q queryTokens scopedSessionKey scopeMode)
           (lastN 140 (rawEntries st)) in
    let dynamic :=
      if negb (String.eqb scopeMode "session_strict")
      then dynamic
           ++ omap (compactCandidate queryTokens) (lastN 80 (compactEntries st))
           ++ omap (soulCandidate queryTokens) (parseSoulSections (soulMainText st))
      else dynamic in
    firstn (Z.to_nat (Z.max limit 1)) (sortByScore (indexed ++ dynamic)).

End Search.

(** *** What a strict search can return *)

Lemma insertItem_elem x item sorted : x ∈ insertItem item sorted -> x = item \/ x ∈ sorted.
Proof.
  induction sorted as [|first rest IH]; cbn [insertItem].
  - intros H. apply list_elem_of_singleton in H. now left.
  - destruct (ranksBefore first item).
    + intros H. apply elem_of_cons in H. destruct H as [->|H]; [right; left|].
      destruct (IH H) as [->|Hr]; [now left | right; now right].
    + intros H. apply elem_of_cons in H. destruct H as [->|H]; [now left | now right].
Qed.

Lemma sortByScore_elem x items : x ∈ sortByScore items -> x ∈ items.
Proof.
  induction items as [|item rest IH]; cbn [sortByScore fold_right]; [exact (fun H => H)|].
  intros H. apply insertItem_elem in H. destruct H as [->|H]; [left | right; apply IH, H].
Qed.

Lemma ranked_elem x n items : x ∈ firstn n (sortByScore items) -> x ∈ items.
Proof. intros H. apply sortByScore_elem. exact (subseteq_take n _ x H). Qed.

Definition isStrict (mode : string) : Prop := scopeOf mode = "session_strict".

Lemma scopeOf_strict mode : isStrict mode -> scopeOf (scopeOf mode) = "session_strict".
Proof. unfold isStrict. intros ->. reflexivity. Qed.






Section Strict.
Variable log : float -> float.

Lemma candidate_knowledge st queryTokens qv qSession scopeMode chunk item :
  candidate log st queryTokens qv qSession scopeMode chunk = Some item ->
  exists score vectorScore textScore, item = knowledgeItem chunk score vectorScore textScore.
Proof.
  unfold candidate.
  repeat match goal with
         | |- (if ?b then _ else _) = Some _ -> _ => destruct b
         end; try discriminate.
  intros [= <-]. eauto.
Qed.


Lemma rawCandidate_raw q queryTokens scopedSessionKey scopeMode entry item :
  rawCandidate log q queryTokens scopedSessionKey scopeMode entry = Some item ->
  exists score, item = rawItem entry score.
Proof.
  unfold rawCandidate.
  repeat match goal with
         | |- (if ?b then _ else _) = Some _ -> _ => destruct b
         end; try discriminate.
  intros [= <-]. eauto.
Qed.



End Strict.

(** *** Examples *)

Definition turnOf (sessionKey content : string) : Turn :=
  mkTurn "user" content (Some "cli:main") [] sessionKey.

(** A store whose raw log holds one turn of the session written [a ],
    with a space at its end, and one of the session [b]. *)
Definition twoSessions : Store :=
  snd (addConversation (turnOf "b" "yyy") "e2" (atHour 1)
         (snd (addConversation (turnOf "a " "zzz") "e1" (atHour 0) store0))).

Lemma twoSessions_raw :
  map (fun entry => (id entry, sessionKey entry)) (rawEntries twoSessions)
  = [("e1", "a "); ("e2", "b")].
Proof. vm_compute. reflexivity. Qed.


Lemma strict_search_of_a (log : float -> float) :
  map (fun item => match item with rawItem entry _ => id entry | _ => "" end)
      (search log offline twoSessions "hello user" 8 "a" "session_strict") = ["e1"].
Proof. vm_compute. reflexivity. Qed.

Lemma strict_search_of_blank (log : float -> float) :
  map (fun item => match item with rawItem entry _ => id entry | _ => "" end)
      (search log offline twoSessions "hello user" 8 " " "session_strict") = ["e1"; "e2"].
Proof. vm_compute. reflexivity. Qed.


(** The store in which the session [ba] has noted [lunch] in its session
    file, and that file has been indexed. *)
Definition lunchOfBa : Store :=
  let st := snd (addConversation (turnOf "ba" "lunch") "e1" (atHour 0) store0) in
  syncKnowledgeIndex offline
    [("/m/sessions/ba.md", default "" (textFiles st !! "/m/sessions/ba.md"))] st.

(** The strict filter of [scoreKnowledge] tests the chunk's path with
    [endsWith]: the strict search for the session [a] returns the chunk of
    the file [ba.md], which belongs to the session [ba].  (The query token
    [profile] falls on the same vector component as [lunch], so the chunk
    is found by its vector alone and [Math.log] is never called.) *)
Lemma strict_search_reads_other_session_file (log : float -> float) :
  map (fun item =>
         match item with
         | knowledgeItem chunk _ _ _ => (path chunk, sourceType chunk)
         | _ => ("", raw)
         end)
      (search log offline lunchOfBa "profile" 8 "a" "session_strict")
  = [("/m/sessions/ba.md", session)] /\
  join (sessionMemoryDir lunchOfBa) (safeSessionFileName "a" +:+ ".md") = "/m/sessions/a.md".
Proof. vm_compute. split; reflexivity. Qed.






(** *** The lines a chunk covers *)

Lemma slice_snoc {A} (l : list A) (a i : nat) (x : A) :
  (a <= i)%nat -> l !! i = Some x -> slice l a i ++ [x] = slice l a (S i).
Proof.
  intros Ha Hx. unfold slice.
  assert (Hs : skipn a l !! (i - a)%nat = Some x).
  { rewrite lookup_drop. replace (a + (i - a))%nat with i by lia. exact Hx. }
  replace (S i - a)%nat with (S (i - a)) by lia.
  symmetry. apply take_S_r. exact Hs.
Qed.

Lemma slice_skipn {A} (l : list A) (a i m : nat) :
  skipn m (slice l a i) = slice l (a + m) i.
Proof.
  unfold slice. rewrite skipn_firstn_comm, skipn_skipn.
  f_equal; [lia|]. f_equal. lia.
Qed.

Lemma slice_length {A} (l : list A) (a i : nat) :
  (i <= length l)%nat -> length (slice l a i) = (i - a)%nat.
Proof. intros H. unfold slice. rewrite length_firstn, length_skipn. lia. Qed.

Lemma slice_empty {A} (l : list A) (i : nat) : slice l i i = [].
Proof. unfold slice. now rewrite Nat.sub_diag. Qed.

Lemma keepOverlap_suffix overlapChars fromEnd :
  forall keepChars kept,
    exists k, keepOverlap overlapChars fromEnd keepChars kept = rev (firstn k fromEnd) ++ kept.
Proof.
  induction fromEnd as [|line before IH]; intros keepChars kept; cbn [keepOverlap].
  - exists 0%nat. reflexivity.
  - destruct (overlapChars <=? _).
    + exists 1%nat. reflexivity.
    + destruct (IH (keepChars + (len line + 1)) (line :: kept)) as [k Hk].
      exists (S k). rewrite Hk. cbn [firstn rev]. now rewrite <- app_assoc.
Qed.

Lemma keepOverlap_skipn overlapChars current :
  exists m, (m <= length current)%nat /\
    keepOverlap overlapChars (rev current) 0 [] = skipn m current.
Proof.
  destruct (keepOverlap_suffix overlapChars (rev current) 0 []) as [k Hk].
  exists (length current - k)%nat. split; [lia|].
  rewrite Hk, app_nil_r, firstn_rev, rev_involutive. reflexivity.
Qed.

(** The chunk [p] carries the lines [startLine p] to [endLine p] of the
    file, joined and trimmed, and they are among the first [upto] lines. *)
Definition covers (lines : list string) (upto : nat) (p : Piece) : Prop :=
  exists a b : nat,
    (a < b <= upto)%nat /\
    startLine p = Z.of_nat a + 1 /\ endLine p = Z.of_nat b /\
    text p = JsString.trim (JsString.joinLines (slice lines a b)) /\
    text p <> "".

(** The state of the loop of [splitMarkdownIntoChunks] once the first [i]
    lines have been read: the lines being collected are the lines from
    [firstLine] up to line [i]. *)
Definition collecting (lines : list string) (i : nat) (s : Splitting) : Prop :=
  (i <= length lines)%nat /\
  (exists a : nat,
     (a <= i)%nat /\ currentLines s = slice lines a i /\
     (currentLines s <> [] -> firstLine s = Z.of_nat a + 1)) /\
  Forall (covers lines i) (chunks s).

Lemma covers_mono lines i j p : (i <= j)%nat -> covers lines i p -> covers lines j p.
Proof.
  intros Hij (a & b & Hab & H). exists a, b. split; [lia | exact H].
Qed.

Lemma truthy_false s : JsString.truthy s = false -> s = "".
Proof. destruct s; [reflexivity | discriminate]. Qed.

Lemma truthy_true s : JsString.truthy s = true -> s <> "".
Proof. destruct s; [discriminate | intros _; discriminate]. Qed.

Lemma flush_collecting overlapChars lines i s :
  collecting lines i s -> collecting lines i (flush overlapChars s).
Proof.
  intros (Hi & (a & Ha & Hcur & Hfirst) & Hchunks). unfold flush.
  destruct (currentLines s) as [|l0 ls] eqn:E.
  { split; [exact Hi|]. split; [|exact Hchunks]. exists a. rewrite E. now split. }
  assert (Hne : currentLines s <> []) by (rewrite E; discriminate).
  rewrite <- E in *. specialize (Hfirst Hne).
  assert (Hlen : length (currentLines s) = (i - a)%nat)
    by (rewrite Hcur; now apply slice_length).
  assert (Hai : (a < i)%nat).
  { destruct (currentLines s); [congruence|]. cbn [length] in Hlen. lia. }
  destruct (JsString.truthy (JsString.trim (JsString.joinLines (currentLines s)))) eqn:T;
    cbn [negb].
  - assert (Hp : covers lines i
             {| startLine := firstLine s;
                endLine := firstLine s + Z.of_nat (length (currentLines s)) - 1;
                text := JsString.trim (JsString.joinLines (currentLines s));
                hash := hashText (JsString.trim (JsString.joinLines (currentLines s))) |}).
    { exists a, i. cbn [startLine endLine text]. split; [lia|]. split; [exact Hfirst|].
      split; [rewrite Hfirst, Hlen; lia|]. split; [now rewrite Hcur|].
      now apply truthy_true. }
    assert (Hall : Forall (covers lines i)
                     (chunks s ++
                      [{| startLine := firstLine s;
                          endLine := firstLine s + Z.of_nat (length (currentLines s)) - 1;
                          text := JsString.trim (JsString.joinLines (currentLines s));
                          hash := hashText (JsString.trim (JsString.joinLines (currentLines s)))
                       |}]))
      by (apply Forall_app; split; [exact Hchunks | now constructor]).
    destruct (overlapChars <=? 0).
    + split; [exact Hi|]. split; [|exact Hall].
      exists i. cbn [currentLines]. split; [lia|]. split; [now rewrite slice_empty|].
      congruence.
    + destruct (keepOverlap_skipn overlapChars (currentLines s)) as (m & Hm & Hk).
      split; [exact Hi|]. split; [|exact Hall].
      exists (a + m)%nat. cbn [currentLines firstLine]. split; [lia|].
      rewrite Hk, Hcur, slice_skipn. split; [reflexivity|]. intros _.
      rewrite !slice_length, Hfirst by exact Hi. lia.
  - split; [exact Hi|]. split; [|exact Hchunks].
    exists i. cbn [currentLines]. split; [lia|]. split; [now rewrite slice_empty|].
    congruence.
Qed.

Lemma addLine_collecting maxChars overlapChars lines i s line :
  lines !! i = Some line ->
  collecting lines i s ->
  collecting lines (S i) (addLine maxChars overlapChars s (Z.of_nat i) line).
Proof.
  intros Hline Hs. unfold addLine.
  assert (Hlt : (i < length lines)%nat) by (apply lookup_lt_is_Some; eauto).
  (* the reset of [startLine] when nothing is being collected *)
  assert (reset : forall s0, collecting lines i s0 ->
            collecting lines i
              (if isEmpty (currentLines s0)
               then mkSplitting (chunks s0) (currentLines s0) (currentChars s0) (Z.of_nat i + 1)
               else s0)).
  { intros s0 (Hi & (a & Ha & Hcur & Hfirst) & Hchunks).
    destruct (currentLines s0) as [|l0 ls] eqn:E; cbn [isEmpty].
    - split; [exact Hi|]. split; [|exact Hchunks]. exists i. cbn [currentLines].
      split; [lia|]. split; [now rewrite slice_empty | congruence].
    - split; [exact Hi|]. split; [|exact Hchunks]. exists a. rewrite E. now split. }
  set (s1 := if isEmpty (currentLines s) then _ else s).
  assert (H1 : collecting lines i s1) by (apply reset, Hs).
  set (s2 := if _ && _ then _ else s1).
  assert (H2 : collecting lines i s2).
  { subst s2. destruct (_ && _); [|exact H1]. apply reset, flush_collecting, H1. }
  (* a line is pushed: what is collected starts at [firstLine] in any case *)
  assert (H3 : exists a : nat, (a <= i)%nat /\ currentLines s2 = slice lines a i /\
                 firstLine s2 = Z.of_nat a + 1).
  { subst s2. destruct (_ && _).
    - pose proof (flush_collecting overlapChars lines i s1 H1)
        as (_ & (a & Ha & Hcur & Hfirst) & _).
      destruct (currentLines (flush overlapChars s1)) as [|l0 ls] eqn:E; cbn [isEmpty].
      + exists i. cbn [currentLines firstLine].
        split; [lia|]. split; [now rewrite slice_empty | reflexivity].
      + exists a. rewrite E in *. split; [exact Ha|]. split; [exact Hcur|].
        apply Hfirst. discriminate.
    - subst s1. destruct Hs as (_ & (a & Ha & Hcur & Hfirst) & _).
      destruct (currentLines s) as [|l0 ls] eqn:E; cbn [isEmpty].
      + exists i. cbn [currentLines firstLine].
        split; [lia|]. split; [now rewrite slice_empty | reflexivity].
      + exists a. rewrite E in *. split; [exact Ha|]. split; [exact Hcur|].
        apply Hfirst. discriminate. }
  destruct H2 as (_ & _ & Hchunks). destruct H3 as (a & Ha & Hcur & Hfirst).
  split; [lia|]. split.
  - exists a. cbn [currentLines firstLine]. split; [lia|].
    split; [rewrite Hcur; now apply slice_snoc | intros _; exact Hfirst].
  - cbn [chunks]. eapply Forall_impl; [exact Hchunks|].
    intros p. apply covers_mono. lia.
Qed.

Lemma addLines_collecting maxChars overlapChars lines rest :
  forall i s,
    skipn i lines = rest ->
    collecting lines i s ->
    collecting lines (length lines)
      (addLines maxChars overlapChars s (Z.of_nat i) rest).
Proof.
  induction rest as [|line rest IH]; intros i s Hrest Hs; cbn [addLines].
  - destruct Hs as (Hi & Hcur & Hchunks).
    assert (i = length lines).
    { apply (f_equal (@length string)) in Hrest. rewrite length_skipn in Hrest.
      cbn in Hrest. lia. }
    subst i. now split.
  - assert (Hline : lines !! i = Some line).
    { rewrite <- (Nat.add_0_r i), <- lookup_drop.
      change (skipn i lines !! 0%nat = Some line). now rewrite Hrest. }
    replace (Z.of_nat i + 1) with (Z.of_nat (S i)) by lia.
    apply IH.
    + change (S i) with (1 + i)%nat. rewrite <- (skipn_skipn 1 i lines).
      now rewrite Hrest.
    + now apply addLine_collecting.
Qed.

(** Every chunk of [splitMarkdownIntoChunks] names the lines it was cut
    from: its [startLine] and [endLine] are line numbers of the file, in
    this order, its text is those lines joined by newlines and trimmed, and
    the text is not empty. *)
Theorem chunk_text_is_its_line_range :
  forall content maxChars overlapChars p,
    p ∈ splitMarkdownIntoChunks content maxChars overlapChars ->
    let lines := JsString.splitLines content in
    1 <= startLine p <= endLine p /\
    endLine p <= Z.of_nat (length lines) /\
    text p = JsString.trim
               (JsString.joinLines
                  (slice lines (Z.to_nat (startLine p - 1)) (Z.to_nat (endLine p)))) /\
    text p <> "".
Proof.
  intros content maxChars overlapChars p Hp lines.
  unfold splitMarkdownIntoChunks in Hp. fold lines in Hp.
  assert (H0 : collecting lines 0 (mkSplitting [] [] 0 1)).
  { split; [lia|]. split; [|constructor]. exists 0%nat. cbn [currentLines].
    split; [lia|]. split; [now rewrite slice_empty | congruence]. }
  pose proof (addLines_collecting maxChars overlapChars lines lines 0 _ eq_refl H0) as H1.
  apply (flush_collecting overlapChars) in H1. destruct H1 as (_ & _ & Hall).
  rewrite Forall_forall in Hall. destruct (Hall p Hp) as (a & b & Hab & Hs & He & Ht & Hne).
  rewrite Hs, He. replace (Z.to_nat (Z.of_nat a + 1 - 1)) with a by lia.
  rewrite Nat2Z.id. repeat split; try lia; assumption.
Qed.

Lemma chunk_text_is_its_line_range_witness :
  exists p,
    p ∈ splitMarkdownIntoChunks (JsString.joinLines ["aaaa"; "bbbb"; "cccc"; "dddd"]) 12 4 /\
    (startLine p, endLine p) = (2, 3) /\
    text p = JsString.trim (JsString.joinLines ["bbbb"; "cccc"]).
Proof.
  assert (Hs : exists first p last,
             splitMarkdownIntoChunks (JsString.joinLines ["aaaa"; "bbbb"; "cccc"; "dddd"]) 12 4
             = [first; p; last] /\ (startLine p, endLine p) = (2, 3)).
  { eexists _, _, _. vm_compute. split; reflexivity. }
  destruct Hs as (first & p & last & Hs & Hlines). exists p.
  assert (Hp : p ∈ splitMarkdownIntoChunks
                     (JsString.joinLines ["aaaa"; "bbbb"; "cccc"; "dddd"]) 12 4)
    by (rewrite Hs; right; left).
  split; [exact Hp|]. split; [exact Hlines|].
  destruct (chunk_text_is_its_line_range _ _ _ p Hp) as (_ & _ & Ht & _).
  injection Hlines as Hstart Hend. rewrite Hstart, Hend in Ht. exact Ht.
Defined.

(** *** Tokens *)

Fixpoint allChars (p : ascii -> bool) (s : string) : bool :=
  match s with
  | EmptyString => true
  | String c rest => p c && allChars p rest
  end.

Lemma word_not_space c : isWordChar c = true -> JsString.is_space c = false.
Proof.
  destruct c as [[] [] [] [] [] [] [] []]; vm_compute; intros H;
    first [reflexivity | discriminate H].
Qed.

Lemma trimEnd_words s : allChars isWordChar s = true -> JsString.trimEnd s = s.
Proof.
  induction s as [|c rest IH]; [reflexivity|]. cbn [allChars JsString.trimEnd].
  intros H. apply andb_prop in H. destruct H as [Hc Hrest].
  rewrite (IH Hrest). destruct rest; [|reflexivity].
  now rewrite (word_not_space c Hc).
Qed.

Lemma trim_words s : allChars isWordChar s = true -> JsString.trim s = s.
Proof.
  intros H. unfold JsString.trim.
  assert (Hs : JsString.trimStart s = s).
  { destruct s as [|c rest]; [reflexivity|]. cbn [allChars] in H.
    apply andb_prop in H. destruct H as [Hc _]. cbn [JsString.trimStart].
    now rewrite (word_not_space c Hc). }
  rewrite Hs. now apply trimEnd_words.
Qed.

Lemma pieces_words s : Forall (fun piece => allChars isWordChar piece = true) (pieces s).
Proof.
  induction s as [|c rest IH]; cbn [pieces]; [repeat constructor|].
  destruct (isWordChar c) eqn:E; [|now constructor].
  destruct (pieces rest) as [|first others]; [repeat constructor; cbn; now rewrite E|].
  inversion IH as [|? ? Hf Ho]; subst. constructor; [|exact Ho].
  cbn [allChars]. now rewrite E, Hf.
Qed.

(** Every token [tokenize] returns is made of the characters [a-z0-9_]
    only (so it is in lower case), has at least two of them, and is not a
    stop word. *)
Theorem tokens_are_lower_case_words :
  forall text token,
    token ∈ tokenize text ->
    allChars isWordChar token = true /\
    (2 <= String.length token)%nat /\
    has STOPWORDS token = false.
Proof.
  intros text token H. unfold tokenize in H.
  apply list_elem_of_filter in H. destruct H as [Hp Hin].
  apply Is_true_true, andb_prop in Hp. destruct Hp as [Hlen Hstop].
  apply Nat.leb_le in Hlen. apply negb_true_iff in Hstop.
  split; [|now split].
  apply list_elem_of_In, in_map_iff in Hin. destruct Hin as (piece & <- & Hpiece).
  pose proof (pieces_words (JsString.toLowerCase text)) as Hall.
  rewrite Forall_forall in Hall.
  specialize (Hall piece (proj2 (list_elem_of_In _ _) Hpiece)).
  now rewrite (trim_words piece Hall).
Qed.

Lemma tokens_are_lower_case_words_witness :
  "ship_it" ∈ tokenize "The deploy-plan: run 2 tests, then  SHIP_it!" /\
  allChars isWordChar "ship_it" = true /\
  (2 <= String.length "ship_it")%nat /\
  has STOPWORDS "ship_it" = false.
Proof.
  assert (H : "ship_it" ∈ tokenize "The deploy-plan: run 2 tests, then  SHIP_it!").
  { apply list_elem_of_In. vm_compute. do 4 right. left. reflexivity. }
  split; [exact H|]. exact (tokens_are_lower_case_words _ _ H).
Defined.

(** *** Session files *)

Lemma replaceUnsafe_chars s : forall in_run, allChars isFileChar (replaceUnsafe in_run s) = true.
Proof.
  induction s as [|c rest IH]; intros in_run; cbn [replaceUnsafe]; [reflexivity|].
  destruct (isFileChar c) eqn:E.
  - cbn [allChars]. now rewrite E, IH.
  - destruct in_run; [apply IH|]. cbn [allChars]. now rewrite IH.
Qed.

Lemma stripLeadingUnderscores_chars p s :
  allChars p s = true -> allChars p (stripLeadingUnderscores s) = true.
Proof.
  induction s as [|c rest IH]; [reflexivity|]. cbn [allChars]. intros H.
  apply andb_prop in H. destruct H as [Hc Hrest]. cbn [stripLeadingUnderscores].
  destruct c as [[] [] [] [] [] [] [] []]; try (cbn [allChars]; now rewrite Hc, Hrest).
  now apply IH.
Qed.

Lemma stripTrailingUnderscores_chars p s :
  allChars p s = true -> allChars p (stripTrailingUnderscores s) = true.
Proof.
  induction s as [|c rest IH]; [reflexivity|]. cbn [allChars]. intros H.
  apply andb_prop in H. destruct H as [Hc Hrest]. cbn [stripTrailingUnderscores].
  specialize (IH Hrest). destruct (stripTrailingUnderscores rest) as [|k kept].
  - destruct (Ascii.eqb c "_"); [reflexivity|]. cbn [allChars]. now rewrite Hc.
  - cbn [allChars] in *. now rewrite Hc, IH.
Qed.

Lemma substring_chars p s : forall n,
  allChars p s = true -> allChars p (String.substring 0 n s) = true.
Proof.
  induction s as [|c rest IH]; intros n H; [now destruct n|].
  cbn [allChars] in H. apply andb_prop in H. destruct H as [Hc Hrest].
  destruct n as [|n]; [reflexivity|]. cbn [String.substring allChars].
  now rewrite Hc, IH.
Qed.

Lemma substring_length s : forall n, (String.length (String.substring 0 n s) <= n)%nat.
Proof.
  induction s as [|c rest IH]; intros [|n]; cbn; try lia. specialize (IH n). lia.
Qed.

Lemma stripLeadingUnderscores_head s :
  match stripLeadingUnderscores s with
  | String c _ => c <> "_"%char
  | EmptyString => True
  end.
Proof.
  induction s as [|c rest IH]; [exact I|]. cbn [stripLeadingUnderscores].
  destruct c as [[] [] [] [] [] [] [] []]; try discriminate. exact IH.
Qed.

Lemma stripTrailingUnderscores_head s :
  match s with String c _ => c <> "_"%char | EmptyString => True end ->
  match stripTrailingUnderscores s with
  | String c _ => c <> "_"%char
  | EmptyString => True
  end.
Proof.
  destruct s as [|c rest]; [exact (fun H => H)|]. cbn [stripTrailingUnderscores].
  intros Hc. destruct (stripTrailingUnderscores rest); [|exact Hc].
  destruct (Ascii.eqb_spec c "_"); [exact I | exact Hc].
Qed.

(** The name [safeSessionFileName] returns has at most 120 characters, all
    of them letters, digits, [_], [.] or [-] (no separator and no white
    space), and it does not begin with [_]. *)
Theorem safeSessionFileName_is_a_plain_name :
  forall sessionKey,
    allChars isFileChar (safeSessionFileName sessionKey) = true /\
    (String.length (safeSessionFileName sessionKey) <= 120)%nat /\
    match safeSessionFileName sessionKey with
    | String c _ => c <> "_"%char
    | EmptyString => True
    end.
Proof.
  intros sessionKey. unfold safeSessionFileName.
  set (stripped := stripTrailingUnderscores
                     (stripLeadingUnderscores
                        (replaceUnsafe false (JsString.trim sessionKey)))).
  assert (Hchars : allChars isFileChar stripped = true).
  { apply stripTrailingUnderscores_chars, stripLeadingUnderscores_chars,
      replaceUnsafe_chars. }
  assert (Hhead : match stripped with String c _ => c <> "_"%char | EmptyString => True end).
  { apply stripTrailingUnderscores_head, stripLeadingUnderscores_head. }
  split; [now apply substring_chars|]. split; [apply substring_length|].
  destruct stripped as [|c rest]; [exact I|]. exact Hhead.
Qed.

Lemma append_assoc (a b c : string) : a +:+ (b +:+ c) = (a +:+ b) +:+ c.
Proof.
  induction a as [|x a IH]; [reflexivity|].
  change (String x a +:+ (b +:+ c)) with (String x (a +:+ (b +:+ c))).
  change ((String x a +:+ b) +:+ c) with (String x ((a +:+ b) +:+ c)).
  now rewrite IH.
Qed.

Lemma startsWith_app s t : JsString.startsWith (s +:+ t) s = true.
Proof.
  induction s as [|c rest IH]; [now destruct t|].
  change (String c rest +:+ t) with (String c (rest +:+ t)).
  cbn [JsString.startsWith]. now rewrite Ascii.eqb_refl.
Qed.

Lemma includes_startsWith s p : JsString.startsWith s p = true -> JsString.includes s p = true.
Proof. intros H. destruct s; cbn [JsString.includes]; now rewrite H. Qed.

Lemma includes_cons c s p : JsString.includes s p = true -> JsString.includes (String c s) p = true.
Proof. intros H. cbn [JsString.includes]. rewrite H. apply orb_true_r. Qed.

Lemma includes_app_r a b p : JsString.includes b p = true -> JsString.includes (a +:+ b) p = true.
Proof.
  intros H. induction a as [|c a IH]; [exact H|].
  change (String c a +:+ b) with (String c (a +:+ b)). now apply includes_cons.
Qed.

(** What [appendSessionMemory] notes for a session is written where the
    index looks for session memory: with session memory enabled and a text
    that is not blank, the note is appended to the file named after the
    session key in [sessionMemoryDir], the index is marked dirty, and
    [classifyPathSource] takes this file for a [session] source (unless it
    is the main memory file itself). *)
Theorem session_note_goes_to_a_session_source :
  forall sessionKey actor content source now st,
    sessionMemoryEnabled st = true ->
    JsString.trim content <> "" ->
    let file :=
      join (sessionMemoryDir st)
           (safeSessionFileName (orString sessionKey "default") +:+ ".md") in
    let st' := appendSessionMemory sessionKey actor content source now st in
    file <> memoryMainPath st ->
    (exists note,
       textFiles st' !! file = Some (default "" (textFiles st !! file) +:+ note) /\
       JsString.includes note (JsString.trim content) = true) /\
    (forall other, other <> file -> textFiles st' !! other = textFiles st !! other) /\
    indexDirty st' = true /\
    classifyPathSource st' file = session.
Proof.
  intros sessionKey actor content source now st Hen Hc file st' Hmain.
  subst st'. unfold appendSessionMemory. rewrite Hen. cbn [negb].
  rewrite (JsString.truthy_nonempty _ Hc). cbn [negb]. fold file.
  unfold appendMarkdown. cbn [textFiles indexDirty].
  split; [|split; [|split]].
  - eexists. rewrite lookup_insert_eq. split; [reflexivity|].
    cbn [JsString.joinLines].
    repeat first [ exact (includes_startsWith _ _ (startsWith_app _ _))
                 | apply includes_app_r
                 | apply includes_cons ].
  - intros other Hne. now rewrite lookup_insert_ne.
  - reflexivity.
  - unfold classifyPathSource. cbn [memoryMainPath sessionMemoryDir].
    destruct (String.eqb_spec file (memoryMainPath st)); [contradiction|].
    unfold file, join. rewrite append_assoc.
    now rewrite startsWith_app.
Qed.

Lemma session_note_goes_to_a_session_source_witness :
  classifyPathSource (appendSessionMemory "s1" "user" " hi " "cli" (atHour 0) store0)
    "/m/sessions/s1.md" = session /\
  indexDirty (appendSessionMemory "s1" "user" " hi " "cli" (atHour 0) store0) = true.
Proof.
  assert (Hc : JsString.trim " hi " <> "") by (vm_compute; discriminate).
  assert (Hm : join (sessionMemoryDir store0)
                 (safeSessionFileName (orString "s1" "default") +:+ ".md")
               <> memoryMainPath store0) by (vm_compute; discriminate).
  destruct (session_note_goes_to_a_session_source "s1" "user" " hi " "cli" (atHour 0)
              store0 eq_refl Hc Hm) as (_ & _ & Hd & Hs).
  split; [exact Hs | exact Hd].
Defined.

(** *** What embedding leaves in the store *)

Lemma lookupTexts_length cache st texts :
  forall index, length (fst (lookupTexts cache st index texts)) = length texts.
Proof.
  induction texts as [|text rest IH]; intros index; cbn [lookupTexts]; [reflexivity|].
  specialize (IH (S index)). destruct (lookupTexts cache st (S index) rest) as [results missing].
  destruct (cached cache st (hashText text)); cbn [fst length] in *; now rewrite IH.
Qed.

Lemma fileBatch_length cache vectors batch :
  forall idx acc,
    length (fst (fileBatch cache vectors idx batch acc)) = length (fst acc).
Proof.
  induction batch as [|item rest IH]; intros idx [results st]; cbn [fileBatch]; [reflexivity|].
  rewrite IH. cbn [fst]. apply length_insert.
Qed.

Lemma fileBatch_uncached vectors batch :
  forall idx acc, snd (fileBatch false vectors idx batch acc) = snd acc.
Proof.
  induction batch as [|item rest IH]; intros idx [results st]; cbn [fileBatch]; [reflexivity|].
  now rewrite IH.
Qed.

Lemma embedBatches_length env cache size fuel :
  forall missing acc,
    length (fst (embedBatches fuel env cache size missing acc)) = length (fst acc).
Proof.
  induction fuel as [|fuel IH]; intros missing acc; [reflexivity|].
  cbn [embedBatches]. destruct missing as [|item rest]; [reflexivity|].
  rewrite IH. apply fileBatch_length.
Qed.

Lemma embedBatches_uncached env size fuel :
  forall missing acc, snd (embedBatches fuel env false size missing acc) = snd acc.
Proof.
  induction fuel as [|fuel IH]; intros missing acc; [reflexivity|].
  cbn [embedBatches]. destruct missing as [|item rest]; [reflexivity|].
  rewrite IH. apply fileBatch_uncached.
Qed.

(** *** Where the results of a search come from *)

(** The item is taken from what the store holds at the time of the search. *)
Definition stored (st : Store) (item : Item) : Prop :=
  match item with
  | knowledgeItem chunk _ _ _ => chunk ∈ knowledgeChunks st
  | rawItem entry _ => entry ∈ lastN 140 (rawEntries st)
  | compactItem entry _ => entry ∈ lastN 80 (compactEntries st)
  | soulItem section _ => section ∈ parseSoulSections (soulMainText st)
  end.

Lemma compactCandidate_compact queryTokens entry item :
  compactCandidate queryTokens entry = Some item -> exists score, item = compactItem entry score.
Proof.
  unfold compactCandidate. destruct (_ <=? _)%float; [discriminate|]. intros [= <-]. eauto.
Qed.

Lemma soulCandidate_soul queryTokens section item :
  soulCandidate queryTokens section = Some item -> exists score, item = soulItem section score.
Proof.
  unfold soulCandidate. destruct (_ <=? _)%float; [discriminate|]. intros [= <-]. eauto.
Qed.

(** [search] returns nothing for a blank query, never more than
    [max(limit, 1)] items, and only items made from what the store holds:
    chunks of the knowledge index, entries among the last 140 raw entries
    and the last 80 compact entries, and sections of the soul text. *)
Theorem search_returns_at_most_limit_stored_items :
  forall (log : float -> float) env st query limit sessionKey mode,
    (JsString.trim query <> "" \/ search log env st query limit sessionKey mode = []) /\
    (length (search log env st query limit sessionKey mode) <= Z.to_nat (Z.max limit 1))%nat /\
    Forall (stored st) (search log env st query limit sessionKey mode).
Proof.
  intros log env st query limit sessionKey mode. unfold search.
  destruct (JsString.trim query) as [|c rest] eqn:Eq; cbn [JsString.truthy negb].
  { split; [now right|]. split; [cbn; lia | constructor]. }
  split; [left; discriminate|]. split.
  { rewrite length_firstn. lia. }
  apply Forall_forall. intros item H. apply ranked_elem, elem_of_app in H.
  destruct H as [H|H].
  - unfold scoreKnowledge in H. apply ranked_elem, list_elem_of_filter in H.
    destruct H as [_ H]. apply list_elem_of_omap in H. destruct H as (chunk & Hin & H).
    destruct (candidate_knowledge log _ _ _ _ _ _ _ H) as (s & v & t & ->). exact Hin.
  - assert (Hraw : forall item0,
              item0 ∈ omap (rawCandidate log (String c rest) (tokenize (String c rest))
                              (JsString.trim sessionKey) (scopeOf mode))
                           (lastN 140 (rawEntries st)) ->
              stored st item0).
    { intros item0 H0. apply list_elem_of_omap in H0. destruct H0 as (entry & Hin & H0).
      destruct (rawCandidate_raw log _ _ _ _ _ _ H0) as (s & ->). exact Hin. }
    destruct (negb (String.eqb (scopeOf mode) "session_strict")); [|now apply Hraw].
    apply elem_of_app in H. destruct H as [H|H]; [now apply Hraw|].
    apply elem_of_app in H. destruct H as [H|H].
    + apply list_elem_of_omap in H. destruct H as (entry & Hin & H).
      destruct (compactCandidate_compact _ _ _ H) as (s & ->). exact Hin.
    + apply list_elem_of_omap in H. destruct H as (section & Hin & H).
      destruct (soulCandidate_soul _ _ _ H) as (s & ->). exact Hin.
Qed.

(** *** The raw log and its file *)

Lemma appendDailyLog_keeps title content source sessionKey now st :
  let st' := appendDailyLog title content source sessionKey now st in
  rawEntries st' = rawEntries st /\ rawFile st' = rawFile st /\
  knowledgeChunks st' = knowledgeChunks st /\ embeddingCache st' = embeddingCache st /\
  (JsString.trim content <> "" -> indexDirty st' = true).
Proof.
  unfold appendDailyLog. destruct (JsString.trim content) eqn:E; cbn [JsString.truthy negb].
  - repeat split. congruence.
  - repeat split.
Qed.

Lemma appendSessionMemory_keeps sessionKey actor content source now st :
  let st' := appendSessionMemory sessionKey actor content source now st in
  rawEntries st' = rawEntries st /\ rawFile st' = rawFile st /\
  knowledgeChunks st' = knowledgeChunks st /\ embeddingCache st' = embeddingCache st /\
  (indexDirty st = true -> indexDirty st' = true).
Proof.
  unfold appendSessionMemory. destruct (negb (sessionMemoryEnabled st)); [now repeat split|].
  destruct (negb _); now repeat split.
Qed.

(** [addConversation] either returns [null] and leaves the whole store as
    it was, or returns the new entry after appending it, and nothing else,
    to the end of both the in-memory raw list and the raw file; the entry
    carries the trimmed, non-empty content and the time of the call, the
    index is marked dirty, and the knowledge index and the embedding cache
    are not touched. *)
Theorem addConversation_appends_to_list_and_file :
  forall turn uuid now st,
    let stored := fst (addConversation turn uuid now st) in
    let st' := snd (addConversation turn uuid now st) in
    (stored = None /\ st' = st)
    \/
    (exists entry,
       stored = Some entry /\
       rawEntries st' = rawEntries st ++ [entry] /\
       rawFile st' = rawFile st ++ [entry] /\
       id entry = uuid /\
       content entry = JsString.trim (turn_content turn) /\
       content entry <> "" /\
       createdAt entry = Some (ms now) /\
       sessionKey entry = turn_sessionKey turn /\
       indexDirty st' = true /\
       knowledgeChunks st' = knowledgeChunks st /\
       embeddingCache st' = embeddingCache st).
Proof.
  intros turn uuid now st. unfold addConversation. cbn [content source sessionKey].
  destruct (JsString.truthy (JsString.trim (turn_content turn))) eqn:T; cbn [negb];
    [|left; now split].
  destruct (shouldSkipConversationEntry _ _); [left; now split|].
  right. eexists. cbn [fst snd]. split; [reflexivity|].
  set (st1 := withRaw _ _ st).
  set (st2 := appendDailyLog _ _ _ _ now st1).
  pose proof (appendDailyLog_keeps
                (orString (turn_actor turn) "actor" +:+ " message")
                (JsString.trim (turn_content turn)) (default "unknown" (turn_source turn))
                (turn_sessionKey turn) now st1) as (D1 & D2 & D3 & D4 & D5).
  fold st2 in D1, D2, D3, D4, D5.
  pose proof (appendSessionMemory_keeps (turn_sessionKey turn)
                (orString (turn_actor turn) "actor") (JsString.trim (turn_content turn))
                (default "unknown" (turn_source turn)) now st2) as (S1 & S2 & S3 & S4 & S5).
  cbv zeta in S1, S2, S3, S4, S5.
  assert (Hne : JsString.trim (turn_content turn) <> "") by now apply truthy_true.
  assert (Htt : JsString.trim (JsString.trim (turn_content turn)) <> "")
    by now rewrite JsString.trim_trim.
  rewrite S1, S2, S3, S4, D1, D2, D3, D4. cbn [id content createdAt sessionKey].
  repeat split; try assumption. apply S5, D5, Htt.
Qed.

(** Embedding changes nothing but the embedding cache and its file. *)
Definition sameButCache (st st' : Store) : Prop :=
  st' = withCacheFile (cacheFile st') (withCache (embeddingCache st') st).

Lemma sameButCache_refl st : sameButCache st st.
Proof. unfold sameButCache. now destruct st. Qed.

Lemma sameButCache_trans st st1 st2 :
  sameButCache st st1 -> sameButCache st1 st2 -> sameButCache st st2.
Proof. unfold sameButCache. intros H1 H2. rewrite H2 at 1. rewrite H1 at 1. reflexivity. Qed.

Lemma sameButCache_withCache cache st : sameButCache st (withCache cache st).
Proof. reflexivity. Qed.

Lemma fileBatch_sameButCache cache vectors batch :
  forall idx acc, sameButCache (snd acc) (snd (fileBatch cache vectors idx batch acc)).
Proof.
  induction batch as [|item rest IH]; intros idx [results st]; cbn [fileBatch];
    [apply sameButCache_refl|].
  eapply sameButCache_trans; [|apply IH]. cbn [snd].
  destruct (cache && _); [apply sameButCache_withCache | apply sameButCache_refl].
Qed.

Lemma embedBatches_sameButCache env cache size fuel :
  forall missing acc,
    sameButCache (snd acc) (snd (embedBatches fuel env cache size missing acc)).
Proof.
  induction fuel as [|fuel IH]; intros missing acc; [apply sameButCache_refl|].
  cbn [embedBatches]. destruct missing as [|item rest]; [apply sameButCache_refl|].
  eapply sameButCache_trans; [|apply IH]. apply fileBatch_sameButCache.
Qed.

Lemma embedTexts_sameButCache env texts cache st :
  sameButCache st (snd (embedTexts env texts cache st)).
Proof.
  unfold embedTexts. destruct (lookupTexts cache st 0 texts) as [results missing].
  pose proof (embedBatches_sameButCache env cache
                (Z.to_nat (Z.max 1 (batchSize (vectorCfg st))))
                (length missing) missing (results, st)) as H.
  destruct (embedBatches _ _ _ _ _ _) as [results1 st1]. cbn [snd] in *.
  destruct (_ && _ && _); [|exact H]. unfold persistEmbeddingCache.
  destruct (cacheEnabled _); [|exact H].
  eapply sameButCache_trans; [exact H|]. reflexivity.
Qed.

Lemma embedTexts_raw env texts cache st :
  rawEntries (snd (embedTexts env texts cache st)) = rawEntries st.
Proof. now rewrite (embedTexts_sameButCache env texts cache st). Qed.

Lemma embedTexts_cfg env texts cache st :
  vectorCfg (snd (embedTexts env texts cache st)) = vectorCfg st.
Proof. now rewrite (embedTexts_sameButCache env texts cache st). Qed.

(** [embedTexts] returns one vector for each text, in any configuration
    and whatever the provider answers.  It changes nothing in the store but
    the embedding cache and the cache file, and called with
    [cache: false], as [search] calls it, it leaves these as they were
    too. *)
Theorem embedTexts_answers_every_text :
  forall env texts cache st,
    length (fst (embedTexts env texts cache st)) = length texts /\
    sameButCache st (snd (embedTexts env texts cache st)) /\
    snd (embedTexts env texts false st) = st.
Proof.
  intros env texts cache st. split; [|split; [apply embedTexts_sameButCache|]].
  - unfold embedTexts.
    pose proof (lookupTexts_length cache st texts 0) as H0.
    destruct (lookupTexts cache st 0 texts) as [results missing]. cbn [fst] in H0.
    pose proof (embedBatches_length env cache
                  (Z.to_nat (Z.max 1 (batchSize (vectorCfg st)))) (length missing)
                  missing (results, st)) as H1.
    destruct (embedBatches _ _ _ _ _ _) as [results1 st1]. cbn [fst] in *.
    rewrite length_zip_with. lia.
  - unfold embedTexts.
    destruct (lookupTexts false st 0 texts) as [results missing].
    pose proof (embedBatches_uncached env
                  (Z.to_nat (Z.max 1 (batchSize (vectorCfg st)))) (length missing)
                  missing (results, st)) as H1.
    destruct (embedBatches _ _ _ _ _ _) as [results1 st1]. cbn [snd] in *.
    exact H1.
Qed.

(** *** What the index holds after a sync *)

(** The part of a chunk that says where it comes from. *)
Definition origin (chunk : Chunk) : Piece * string * SourceType :=
  (piece chunk, path chunk, sourceType chunk).

Lemma assignVectors_origin chunks :
  forall vectors, map origin (assignVectors chunks vectors) = map origin chunks.
Proof.
  induction chunks as [|chunk rest IH]; intros vectors; cbn [assignVectors]; [reflexivity|].
  destruct (isMissing chunk); [destruct vectors|]; cbn [map]; now rewrite IH.
Qed.

Definition counted (chunk : Chunk) : Prop :=
  tf chunk = fold_left countToken (tokenize (text (piece chunk))) ∅ /\
  docLen chunk = Z.max 1 (Z.of_nat (length (tokenize (text (piece chunk))))).

Lemma tokenStatsAll_spec chunks :
  forall acc,
    map origin (fst (tokenStatsAll chunks acc)) = map origin chunks /\
    Forall counted (fst (tokenStatsAll chunks acc)).
Proof.
  induction chunks as [|chunk rest IH]; intros acc; cbn [tokenStatsAll];
    [split; [reflexivity | constructor]|].
  destruct (tokenStats chunk acc) as [chunk1 acc1] eqn:E.
  specialize (IH acc1). destruct (tokenStatsAll rest acc1) as [rest1 acc2].
  cbn [fst map] in *. destruct IH as [IH1 IH2].
  unfold tokenStats in E. destruct acc as [docFreq totalLen]. injection E as <- _.
  split; [now rewrite IH1|]. constructor; [|exact IH2].
  split; cbn [tf docLen piece]; [reflexivity|].
  destruct (tokenize (text (piece chunk))); cbn [isEmpty length]; lia.
Qed.

(** A chunk cut from one of the files read. *)
Definition cutFrom (st : Store) (files : list (string * string)) (chunk : Chunk) : Prop :=
  exists content,
    (path chunk, content) ∈ files /\
    JsString.trim content <> "" /\
    sourceType chunk = classifyPathSource st (path chunk) /\
    piece chunk ∈ splitFile (sourceType chunk) content.

Lemma chunksOfFile_cutFrom st prev files file chunk :
  file ∈ files -> chunk ∈ chunksOfFile st prev file -> cutFrom st files chunk.
Proof.
  intros Hfile. destruct file as [filePath content]. unfold chunksOfFile.
  destruct (JsString.truthy (JsString.trim content)) eqn:T; cbn [negb];
    [|intros H; inversion H].
  intros H. apply list_elem_of_In, in_map_iff in H. destruct H as (p & <- & Hp).
  exists content. cbn [path sourceType piece newChunk].
  split; [exact Hfile|]. split; [now apply truthy_true|]. split; [reflexivity|].
  apply list_elem_of_In, Hp.
Qed.

Lemma splitFile_hashed sourceType content p :
  p ∈ splitFile sourceType content -> hash p = Digest.sha256Hex (text p).
Proof.
  intros H.
  assert (Hall : Forall hashed (splitFile sourceType content)).
  { destruct sourceType; cbn [splitFile];
      first [apply splitMarkdownBySections_hashed | apply splitMarkdownIntoChunks_hashed]. }
  rewrite Forall_forall in Hall. exact (Hall p H).
Qed.

Lemma origin_elem (P : Piece * string * SourceType -> Prop) chunks chunks1 :
  map origin chunks1 = map origin chunks ->
  (forall c, c ∈ chunks -> P (origin c)) -> forall c, c ∈ chunks1 -> P (origin c).
Proof.
  intros Heq H c Hc.
  assert (Hin : origin c ∈ map origin chunks1) by (apply list_elem_of_fmap; eauto).
  rewrite Heq in Hin. apply list_elem_of_fmap in Hin. destruct Hin as (c0 & -> & Hc0).
  now apply H.
Qed.

Definition indexed (st : Store) (files : list (string * string)) (chunk : Chunk) : Prop :=
  cutFrom st files chunk /\
  hash (piece chunk) = Digest.sha256Hex (text (piece chunk)) /\
  counted chunk /\
  vector chunk <> None.

Lemma collectTokenStats_spec chunks :
  map origin (fst (collectTokenStats chunks)) = map origin chunks /\
  Forall counted (fst (collectTokenStats chunks)) /\
  docs (snd (collectTokenStats chunks)) = Z.max 1 (Z.of_nat (length chunks)).
Proof.
  unfold collectTokenStats.
  pose proof (tokenStatsAll_spec chunks (∅, 0)) as [H1 H2].
  destruct (tokenStatsAll chunks (∅, 0)) as [chunks1 [docFreq totalLen]].
  cbn [fst snd docs] in *. split; [exact H1|]. split; [exact H2|].
  apply (f_equal (@length _)) in H1. rewrite !length_map in H1. now rewrite H1.
Qed.

(** [syncKnowledgeIndex] does nothing on a closed store.  Otherwise the
    index it builds holds only chunks cut from the files read: each chunk
    has the path of a file with non-blank text, the source type of that
    path, a piece the splitter of that source type returns for the text,
    the SHA-256 digest of the piece's text, the term counts of the text and
    a vector; the index file lists these chunks, the document count of the
    statistics is their number (at least 1), the index is no longer dirty
    and the raw log is untouched. *)
Theorem syncKnowledgeIndex_indexes_the_files_read :
  forall env files st,
    let st' := syncKnowledgeIndex env files st in
    (closed st = true /\ st' = st)
    \/
    (closed st = false /\
     Forall (indexed st files) (knowledgeChunks st') /\
     indexFile st' = map rowOf (knowledgeChunks st') /\
     docs (bm25 st') = Z.max 1 (Z.of_nat (length (knowledgeChunks st'))) /\
     indexDirty st' = false /\
     rawEntries st' = rawEntries st).
Proof.
  intros env files st st'. subst st'. unfold syncKnowledgeIndex.
  destruct (closed st) eqn:Hcl; [left; now split | right]. split; [reflexivity|].
  set (chunks := concat (map (chunksOfFile st (prevVectors (indexFile st))) files)).
  assert (Hchunks : forall c, c ∈ chunks ->
            cutFrom st files c /\ hash (piece c) = Digest.sha256Hex (text (piece c))).
  { intros c Hc. subst chunks. apply list_elem_of_In, in_concat in Hc.
    destruct Hc as (l & Hl & Hc). apply in_map_iff in Hl.
    destruct Hl as (file & <- & Hfile).
    apply list_elem_of_In in Hfile, Hc.
    pose proof (chunksOfFile_cutFrom st _ files file c Hfile Hc) as Hcut.
    split; [exact Hcut|]. destruct Hcut as (content & _ & _ & _ & Hp).
    exact (splitFile_hashed _ _ _ Hp). }
  set (missing := filter (fun chunk => isMissing chunk) chunks).
  assert (Hstep : exists chunks1 st1,
    (if isEmpty missing then (chunks, st)
     else let '(vectors, st0) :=
            embedTexts env (map (fun chunk => text (piece chunk)) missing) true st in
          (assignVectors chunks vectors, st0)) = (chunks1, st1) /\
    map origin chunks1 = map origin chunks /\ rawEntries st1 = rawEntries st).
  { destruct (isEmpty missing); [now exists chunks, st|].
    pose proof (embedTexts_raw env (map (fun chunk => text (piece chunk)) missing) true st)
      as Hraw.
    destruct (embedTexts env _ true st) as [vectors st0]. cbn [snd] in Hraw.
    exists (assignVectors chunks vectors), st0. split; [reflexivity|].
    split; [apply assignVectors_origin | exact Hraw]. }
  destruct Hstep as (chunks1 & st1 & -> & Ho1 & Hraw).
  set (chunks2 := map _ chunks1).
  assert (Ho2 : map origin chunks2 = map origin chunks).
  { rewrite <- Ho1. subst chunks2. rewrite map_map. apply map_ext.
    intros c. destruct (vector c); reflexivity. }
  assert (Hv2 : Forall (fun r => r <> None) (map vector chunks2)).
  { subst chunks2. rewrite map_map. apply Forall_forall. intros r Hr.
    apply list_elem_of_In, in_map_iff in Hr. destruct Hr as (c & <- & _).
    destruct (vector c) eqn:E; [rewrite E|]; discriminate. }
  pose proof (collectTokenStats_spec chunks2) as (Ho3 & Hcount & Hdocs).
  pose proof (collectTokenStats_vectors chunks2) as Hv3.
  destruct (collectTokenStats chunks2) as [chunks3 stats]. cbn [fst snd] in *.
  cbn [knowledgeChunks indexFile bm25 indexDirty rawEntries withIndex].
  split; [|split; [reflexivity|split; [|split; [reflexivity | exact Hraw]]]].
  - rewrite Ho2 in Ho3. apply Forall_forall. intros c Hc.
    pose proof (origin_elem
                  (fun o => exists c0, c0 ∈ chunks /\ origin c0 = o)
                  chunks chunks3 Ho3 (fun c0 H0 => ex_intro _ c0 (conj H0 eq_refl)) c Hc)
      as (c0 & Hc0 & Heq).
    destruct (Hchunks c0 Hc0) as [Hcut Hhash].
    unfold origin in Heq. injection Heq as Hpiece Hpath Hst.
    split; [|split; [|split]].
    + unfold cutFrom in *. now rewrite <- Hpiece, <- Hpath, <- Hst.
    + now rewrite <- Hpiece.
    + rewrite Forall_forall in Hcount. now apply Hcount.
    + rewrite <- Hv3 in Hv2. rewrite Forall_forall in Hv2.
      apply Hv2, list_elem_of_fmap. eauto.
  - rewrite Hdocs. apply (f_equal (@length _)) in Ho3. rewrite !length_map in Ho3.
    now rewrite Ho3.
Qed.

(** *** Search without vectors *)

Lemma countTokens_positive t tokens :
  forall counts : gmap string Z,
    0 < default 0 (fold_left countToken tokens counts !! t) ->
    0 < default 0 (counts !! t) \/ t ∈ tokens.
Proof.
  induction tokens as [|token rest IH]; intros counts H; cbn [fold_left] in H; [now left|].
  destruct (IH _ H) as [H1|H1]; [|right; now right].
  unfold countToken in H1. destruct (decide (token = t)) as [->|Hne].
  - right. left.
  - rewrite lookup_insert_ne in H1 by exact Hne. now left.
Qed.

Section NoVectors.
Variable log : float -> float.

Lemma bm25Score_zero queryTokens tf docLen stats :
  (forall token, token ∈ queryTokens -> default 0 (tf !! token) <= 0) ->
  bm25Score log queryTokens tf docLen stats = 0%float.
Proof.
  intros H. unfold bm25Score. destruct (isEmpty queryTokens); [reflexivity|].
  generalize (orOne (avgDocLen stats)) (numberOf (orDefault docLen 1))
             (numberOf (orDefault (docs stats) 1)).
  intros avg len n. induction queryTokens as [|token rest IH]; [reflexivity|].
  cbn [fold_left].
  replace (default 0 (tf !! token) <=? 0) with true
    by (symmetry; apply Z.leb_le, H; left).
  apply IH. intros t Ht. apply H. now right.
Qed.

Lemma bm25Score_positive queryTokens tf docLen stats :
  (bm25Score log queryTokens tf docLen stats <=? 0)%float = false ->
  exists token, token ∈ queryTokens /\ 0 < default 0 (tf !! token).
Proof.
  intros H.
  destruct (existsb (fun token => 0 <? default 0 (tf !! token)) queryTokens) eqn:E.
  - apply existsb_exists in E. destruct E as (token & Hin & Hpos).
    exists token. split; [now apply list_elem_of_In | now apply Z.ltb_lt].
  - rewrite bm25Score_zero in H; [discriminate H|].
    intros token Hin. apply list_elem_of_In in Hin.
    destruct (Z.ltb_spec 0 (default 0 (tf !! token))) as [Hpos|Hle]; [|exact Hle].
    assert (Hex : existsb (fun token => 0 <? default 0 (tf !! token)) queryTokens = true).
    { apply existsb_exists. exists token. split; [exact Hin | now apply Z.ltb_lt]. }
    congruence.
Qed.

Lemma candidate_needs_a_token st queryTokens qv qSession scopeMode chunk item :
  enabled (vectorCfg st) = false ->
  candidate log st queryTokens qv qSession scopeMode chunk = Some item ->
  exists token, token ∈ queryTokens /\ 0 < default 0 (tf chunk !! token).
Proof.
  intros Hen. unfold candidate. rewrite Hen. cbn [andb].
  repeat match goal with
         | |- (if ?b then None else _) = Some _ -> _ =>
             lazymatch b with
             | context [bm25Score] => fail
             | _ => destruct b; [discriminate|]
             end
         end.
  change ((0 <=? 0)%float) with true. rewrite andb_true_r.
  destruct (_ <=? 0)%float eqn:E; [discriminate|]. intros _.
  now apply bm25Score_positive in E.
Qed.

(** With vector search disabled, a search over a freshly synced index
    returns a knowledge chunk only when the chunk's text has a token in
    common with the query. *)
Theorem search_without_vectors_matches_a_token :
  forall env env' files st0 query limit sessionKey mode chunk score vectorScore textScore,
    closed st0 = false ->
    enabled (vectorCfg st0) = false ->
    knowledgeItem chunk score vectorScore textScore
      ∈ search log env' (syncKnowledgeIndex env files st0) query limit sessionKey mode ->
    exists token,
      token ∈ tokenize (JsString.trim query) /\
      token ∈ tokenize (text (piece chunk)).
Proof.
  intros env env' files st0 query limit sessionKey mode chunk s v t Hcl Hen Hin.
  set (st := syncKnowledgeIndex env files st0) in *.
  assert (Hcfg : enabled (vectorCfg st) = false).
  { subst st. unfold syncKnowledgeIndex. rewrite Hcl.
    set (chunks := concat _). set (missing := filter _ chunks).
    assert (H : vectorCfg
                  (snd (if isEmpty missing then (chunks, st0)
                        else let '(vectors, st1) :=
                               embedTexts env (map (fun chunk => text (piece chunk)) missing)
                                 true st0 in
                             (assignVectors chunks vectors, st1))) = vectorCfg st0).
    { destruct (isEmpty missing); [reflexivity|].
      pose proof (embedTexts_cfg env (map (fun chunk => text (piece chunk)) missing) true st0)
        as H.
      destruct (embedTexts env _ true st0) as [vectors st1]. exact H. }
    destruct (if isEmpty missing then _ else _) as [chunks1 st1]. cbn [snd] in H.
    destruct (collectTokenStats _) as [chunks3 stats].
    cbn [vectorCfg withIndex]. now rewrite H. }
  pose proof (syncKnowledgeIndex_indexes_the_files_read env files st0) as Hsync.
  cbv zeta in Hsync. fold st in Hsync.
  destruct Hsync as [[Hc _]|(_ & Hall & _)]; [congruence|].
  unfold search in Hin.
  destruct (negb (JsString.truthy (JsString.trim query))); [inversion Hin|].
  apply ranked_elem, elem_of_app in Hin. destruct Hin as [Hin|Hin].
  - unfold scoreKnowledge in Hin. apply ranked_elem, list_elem_of_filter in Hin.
    destruct Hin as [_ Hin]. apply list_elem_of_omap in Hin.
    destruct Hin as (chunk0 & Hchunk & Hcand).
    destruct (candidate_knowledge log _ _ _ _ _ _ _ Hcand) as (s0 & v0 & t0 & Heq).
    injection Heq as <- _ _ _.
    destruct (candidate_needs_a_token _ _ _ _ _ _ _ Hcfg Hcand) as (token & Htok & Hpos).
    exists token. split; [exact Htok|].
    rewrite Forall_forall in Hall. destruct (Hall chunk Hchunk) as (_ & _ & [Htf _] & _).
    rewrite Htf in Hpos. destruct (countTokens_positive _ _ _ Hpos) as [H0|H0]; [|exact H0].
    rewrite lookup_empty in H0. cbn in H0. lia.
  - assert (Hraw : forall l : list Entry,
              knowledgeItem chunk s v t
                ∈ omap (rawCandidate log (JsString.trim query) (tokenize (JsString.trim query))
                          (JsString.trim sessionKey) (scopeOf mode)) l -> False).
    { intros l H. apply list_elem_of_omap in H. destruct H as (entry & _ & H).
      destruct (rawCandidate_raw log _ _ _ _ _ _ H) as (s0 & Heq). discriminate Heq. }
    destruct (negb (String.eqb (scopeOf mode) "session_strict"));
      [|exfalso; exact (Hraw _ Hin)].
    apply elem_of_app in Hin. destruct Hin as [Hin|Hin]; [exfalso; exact (Hraw _ Hin)|].
    apply elem_of_app in Hin. destruct Hin as [Hin|Hin];
      apply list_elem_of_omap in Hin; destruct Hin as (x & _ & Hin).
    + destruct (compactCandidate_compact _ _ _ Hin) as (s0 & Heq). discriminate Heq.
    + destruct (soulCandidate_soul _ _ _ Hin) as (s0 & Heq). discriminate Heq.
Qed.
End NoVectors.

(** A store with vector search switched off. *)
Definition textOnly : Store :=
  create "/m/MEMORY.md" "/m/memory" "/m/sessions" "/m/SOUL.md" true
    (mkOptions false auto 0 0 true None None None).

Lemma search_without_vectors_matches_a_token_witness :
  exists chunk score vectorScore textScore,
    knowledgeItem chunk score vectorScore textScore
      ∈ search (fun x => x) offline (syncKnowledgeIndex offline mainFile textOnly)
          "alpha" 8 "" "" /\
    exists token,
      token ∈ tokenize (JsString.trim "alpha") /\ token ∈ tokenize (text (piece chunk)).
Proof.
  assert (Hs : exists chunk score vectorScore textScore,
             search (fun x => x) offline (syncKnowledgeIndex offline mainFile textOnly)
               "alpha" 8 "" "" = [knowledgeItem chunk score vectorScore textScore]).
  { eexists _, _, _, _. vm_compute. reflexivity. }
  destruct Hs as (chunk & s & v & t & Hs). exists chunk, s, v, t.
  assert (Hin : knowledgeItem chunk s v t
                  ∈ search (fun x => x) offline
                      (syncKnowledgeIndex offline mainFile textOnly) "alpha" 8 "" "")
    by (rewrite Hs; left).
  split; [exact Hin|].
  exact (search_without_vectors_matches_a_token (fun x => x) offline offline mainFile textOnly
           "alpha" 8 "" "" chunk s v t eq_refl eq_refl Hin).
Defined.

(** *** The embedding cache *)

Lemma batch_of_one (b : Z) (item : Missing) :
  firstn (Z.to_nat (Z.max 1 b)) [item] = [item] /\
  skipn (Z.to_nat (Z.max 1 b)) [item] = [].
Proof.
  destruct (Z.to_nat (Z.max 1 b)) as [|n] eqn:E; [lia|].
  split; [cbn; now rewrite firstn_nil | cbn; now rewrite skipn_nil].
Qed.

(** A text embedded with the cache enabled is answered from the cache from
    then on: when [embedTexts] has returned a non-empty vector for it, the
    cache holds this vector under the text's hash, and a later call returns
    the same vector whatever the provider would answer, without changing
    the store. *)
Theorem embedded_text_is_answered_from_the_cache :
  forall env env' text st v st1,
    cacheEnabled (vectorCfg st) = true ->
    embedTexts env [text] true st = ([v], st1) ->
    v <> [] ->
    embeddingCache st1 !! hashText text = Some v /\
    embedTexts env' [text] true st1 = ([v], st1).
Proof.
  intros env env' text st v st1 Hen H Hv.
  assert (Hhit : forall st0,
            (embeddingCache st0 : gmap string (list float)) !! hashText text = Some v ->
            embedTexts env' [text] true st0 = ([v], st0)).
  { intros st0 Hc. unfold embedTexts. cbn [lookupTexts]. unfold cached.
    assert (Hc' : @lookup string (list float) (gmap string Vector) _
                    (hashText text) (embeddingCache st0) = Some v) by exact Hc.
    rewrite Hc'.
    destruct v as [|x xs]; [congruence|]. cbn [length embedBatches isEmpty negb].
    rewrite andb_false_r. reflexivity. }
  unfold embedTexts in H. cbn [lookupTexts] in H. unfold cached in H.
  destruct (@lookup string (list float) (gmap string Vector) _
              (hashText text) (embeddingCache st)) as [[|x xs]|] eqn:Hc.
  - (* an empty cached vector counts as missing *)
    cbn [length embedBatches] in H.
    destruct (batch_of_one (batchSize (vectorCfg st)) (mkMissing 0 text (hashText text)))
      as [Hf Hs].
    rewrite Hf in H. clear Hs. cbn [fileBatch map missing_text missing_hash index snd] in H.
    rewrite Hen in H. cbn [andb embedBatches isEmpty negb vectorCfg withCache] in H.
    rewrite Hen in H. cbn [andb] in H. unfold persistEmbeddingCache in H.
    cbn [vectorCfg withCache] in H. rewrite Hen in H.
    cbn [zip_with list_insert insert] in H. injection H as H1 H2. subst v st1.
    cbn [embeddingCache withCacheFile withCache]. rewrite lookup_insert_eq.
    split; [reflexivity|]. apply Hhit. cbn [embeddingCache withCacheFile withCache].
    apply lookup_insert_eq.
  - cbn [length embedBatches isEmpty negb] in H. rewrite andb_false_r in H.
    cbn [zip_with] in H. injection H as H1 H2. subst v st1.
    split; [exact Hc | now apply Hhit].
  - cbn [length embedBatches] in H.
    destruct (batch_of_one (batchSize (vectorCfg st)) (mkMissing 0 text (hashText text)))
      as [Hf Hs].
    rewrite Hf in H. clear Hs. cbn [fileBatch map missing_text missing_hash index snd] in H.
    rewrite Hen in H. cbn [andb embedBatches isEmpty negb vectorCfg withCache] in H.
    rewrite Hen in H. cbn [andb] in H. unfold persistEmbeddingCache in H.
    cbn [vectorCfg withCache] in H. rewrite Hen in H.
    cbn [zip_with list_insert insert] in H. injection H as H1 H2. subst v st1.
    cbn [embeddingCache withCacheFile withCache]. rewrite lookup_insert_eq.
    split; [reflexivity|]. apply Hhit. cbn [embeddingCache withCacheFile withCache].
    apply lookup_insert_eq.
Qed.

Lemma embedded_text_is_answered_from_the_cache_witness :
  exists v st1,
    embedTexts offline ["alpha"] true store0 = ([v], st1) /\
    embeddingCache st1 !! hashText "alpha" = Some v /\
    embedTexts threeNumbers ["alpha"] true st1 = ([v], st1).
Proof.
  destruct (embedTexts offline ["alpha"] true store0) as [[|v [|w ws]] st1] eqn:E;
    try (vm_compute in E; discriminate E).
  exists v, st1. split; [reflexivity|].
  apply (embedded_text_is_answered_from_the_cache offline threeNumbers "alpha" store0 v st1).
  - reflexivity.
  - exact E.
  - intros ->. vm_compute in E. discriminate E.
Defined.

End MemoryStore.
